(* ===== verification/_CoqProject ===== *)
-Q . S2P
Prelude.v
Memory.v
Layout.v
Stream.v
TxnRec.v
Encode.v
Decode.v
Codec.v
Recover.v
Driver.v
Journal.v
Lifecycle.v
Replay.v
Log.v
Str.v
