(* ===== verification/Prelude.v ===== *)
(** * Verification of the transaction-record codec of the linear-store journal

    The program (src/qpid/cpp/src/qpid/linearstore/jrnl/txn_rec.cpp) is the
    codec of the journal's transaction-marker records.  A record is a fixed
    header ([txn_hdr_t], 24 bytes), the transaction id (xid, [_xidsize]
    bytes) and a fixed tail ([rec_tail_t], 16 bytes).  The journal writes and
    reads pages in units of a dblk (128 bytes), so one record is produced or
    consumed by several calls, each of which sees one page and the number of
    dblks of the record already done.  At restart the journal reads the
    record from a file stream instead, and resumes where the file ended.

    ** Parts of the program and where they are modelled

    - Machine integers, the exception/assert/fault monad, byte slices:
      this file.  [uint32_t], [uint64_t], [size_t] are the C casts (a value
      of Z reduced modulo 2^32 or 2^64); every arithmetic step of the source
      that can wrap is written with them.  [M S E A] is a state monad whose
      result is [Ok v] or [Err f]; the state survives an error, as a C++
      object survives an exception thrown by one of its methods.  A failure
      is [Throw e] (a jexception), [AssertFail] (an assert of the source
      that does not hold) or [Fault] (a memory access outside its object,
      which C leaves undefined).
    - Memory.v: pointers as block and offset, the heap as a finite map from
      blocks to byte lists, [malloc], [load], [store]; a pointer that is 0
      in the source is [None].
    - Layout.v: the structs [rec_hdr_t], [txn_hdr_t], [rec_tail_t], their
      byte images (little endian, 64 bit), [size_dblks], the magics and the
      checks of the base class jrec ([jrec_chk_hdr], [jrec_chk_rid],
      [jrec_chk_tail]).  These headers are not under src/: they are
      modelled from the specification (sections 3, 4.1 and 6).
    - Stream.v: the operations of std::ifstream that recovery calls (read,
      ignore, gcount, eof, fail, bad, clear) on a stream that is the bytes
      of the file, the position, the count of the last read and the three
      state bits, as the C++ standard specifies unformatted input.
    - TxnRec.v: the object [txn_rec] (fields [_txn_hdr], [_xidp], [_buff],
      [_txn_tail]; the class is declared in txn_rec.h, which is not under
      src/, so the fields are those that the constructors initialise and
      the methods use), the state [world] every method runs in, the
      constructors, both [reset]s, [get_xid], [xid_size], [rec_size],
      [chk_hdr], [chk_tail], [clean], and [rec_image], the reference
      serialisation header ++ xid ++ tail.
    - Encode.v: [txn_rec::encode], one definition per branch of the source
      ([encode_cont_split], [encode_cont_last], [encode_first_split],
      [encode_first_whole]) and [encode] composing them.
    - Decode.v: [txn_rec::decode], again one definition per branch.
    - Recover.v: [txn_rec::rcv_decode], one definition per segment
      ([rcv_first], [rcv_xid], [rcv_tail], [rcv_eof_return], [rcv_finish])
      in a monad over the world, the stream and the caller's [rec_offs].
    - Codec.v: the interface between the codec and the journal's
      managers: the classes [Encoder] and [Decoder] state the contract of
      one call, and encode and decode are instances.
    - Driver.v: the loops of the journal's write and read managers
      ([write_rec], [read_rec]): repeated calls of an encoder and of a
      decoder with the running dblk offset over a schedule of page
      capacities.  The managers are not under src/; the loops follow the
      specification (section 2, data flow) and are proved against the
      classes of Codec.v.
    - Journal.v: the journal file, which holds the bytes of the pages
      ([journal_file]), what recovery needs behind the writer
      ([recover_pre]), the corruption of one bit of the tail
      ([tail_flip]), and the dblks of a record whose writer was stopped
      ([torn_image]).
    - Lifecycle.v: the journal reusing one object for many records, as a
      labelled transition system: a [call] is a call of a public method or
      a write of the journal into memory, [exec] runs it, [run] is a
      sequence of calls that return or throw, under a guard on the calls
      ([typed]: arguments of their types; [disciplined]: first calls of
      decode and rcv_decode only on an object without buffer).  [reuse] is
      the cycle of a pooled reader.  The caller is not under src/; the
      discipline is the one of the specification (section 5).
    - Replay.v: the pass of recovery over a journal file that holds
      several records: [read_hdr] reads the generic header of the next
      record, [recover_record] gives it to rcv_decode of a fresh object
      and copies the xid out, [replay] is the loop, which ends at the end
      of the file or inside a record.  The pass is not under src/; it
      follows the specification (sections 2, 4.4 and 7) and the contract
      of rcv_decode.
    - Log.v: the journal writing record after record with one object:
      for each record [write_all] resets the object with the arguments of
      the record ([job]) and runs the writer of Driver.v from the dblk
      that the record before it has reached.  The pooled writer is not
      under src/; it follows the specification (sections 3 and 5: reset
      clears the object for reuse, pool-style).
    - Str.v: [txn_rec::str], with the text of a pointer as a parameter.

    ** What the theorems show

    - Memory.v: stores and malloc move the heap up in the order [heap_le];
      a block keeps its length, and an access that ends behind its block
      is refused.
    - TxnRec.v: the constructor and reset establish the invariant of the
      object (fields within their types, tail sealed to the header); reset
      equals construction exactly when version, flags and checksum were
      the default ones; [get_xid] yields the buffer of a reader only, and
      nothing for an object that was given its xid to encode; [chk_hdr],
      [chk_hdr(rid)] and [chk_tail] accept exactly what they should;
      [rec_size] and [rec_size_dblks] do not wrap for an xid below 4 GiB.
    - Encode.v: under the driver's contract ([encode_pre]) a call never
      faults and none of its asserts fails; it writes exactly the bytes
      [offs*128, offs*128 + n) of [rec_image] at the page pointer, with
      n = min (max*128) (rec_size - offs*128), leaves every other byte of
      memory and the object itself unchanged, and returns ceil(n/128); with
      RHM_CLEAN the last dblk is padded with the filler byte.  On every
      input encode is const and throws nothing, its three leading asserts
      stop the calls without page or xid, and a call at or behind the end
      of the record writes nothing and fails one of the two trailing
      asserts, unless the offset is the exact end of a record that fills
      its last dblk.  [encode_total] puts the cases together: the outcome
      of a call is [encode_outcome], a function of the object, the offset
      and the room.
    - Decode.v: under the driver's contract ([decode_pre]) a call returns
      the dblks of its chunk and leaves the reader having consumed the
      record up to the end of the chunk ([decoded]); the call that
      completes the record yields header, tail and xid; the tail is
      checked exactly when it is complete; a header with a foreign magic
      is refused before the buffer is allocated; memory outside the buffer
      is unchanged; the exceptions are three, and the two leading asserts
      stop the calls without a page.  Outside the contract nothing stops
      a call before it leaves its blocks: at an offset behind the record
      the differences of dblk counts wrap and the copy lands behind the
      buffer, and for an xid size on the page of 2^39 bytes or more the
      dblk count wraps and the copy reads behind the page.
    - Codec.v: encode, with and without RHM_CLEAN, and decode are
      instances of the classes ([encode_encoder], [decode_decoder]).
    - Recover.v: under the journal's contract ([rcv_pre]) a file that holds
      the record gives the outcome of the tail check and the record, a
      file cut anywhere behind the xid size and before the last byte of
      the tail gives [false] with the bytes obtained counted, and a second
      call on a longer file completes what the first began.  The contract
      asks nothing of the bytes behind the header: every file is the
      image of a record as far as it goes ([rcv_pre_any_file]), so that
      the outcome of a first call is [rcv_result], a function of the
      bytes of the file.  Outside the contract: no header is ever
      rejected, a file cut inside the xid size is miscounted, a missing
      padding goes unnoticed, malloc failure throws, and on a stream that
      is not good the call returns false when the stream has met the end
      of the file and stops at an assertion when it has not.
    - Driver.v: for every schedule the writer leaves [rec_image] in the
      journal, as the single call does, the dblks returned add up to
      [rec_size_dblks], no call follows the one that completes the record,
      the reader reconstructs the record from the journal, and the reader
      behind the writer obtains the writer's xid.  A writer that is
      stopped before the record is complete has written the dblks that
      its calls were offered and nothing outside them.
    - Journal.v: recovery behind the writer obtains the writer's record
      from the file in one call, and a record with one flipped bit in the
      complemented magic or the rid of its tail is refused with
      JERR_JREC_BADRECTAIL.  A record whose writer was stopped inside the
      xid is refused with JERR_JREC_BADRECTAIL as long as the bytes that
      the journal held before at the place of the tail are not the tail
      of its header (as in a journal of zeros); where they are, as
      inside an xid that contains them, it is recovered as complete
      ([torn_write_accepted]).
    - Lifecycle.v: by induction on the run, every sequence of calls under
      the reuse discipline keeps the fields of the object within their
      types, the heap growing ([heap_le], a preorder under which every
      block keeps its extent) and [_buff] null or the start of a block of
      exactly [_xidsize] bytes that was allocated behind the construction
      of the object, so that get_xid returns a region that is allocated;
      every call, disciplined or not, keeps [_buff] inside an allocated
      block ([run_life]).  Without the discipline one call is enough: a
      first call of decode on an object that owns a buffer, with a header
      that the check rejects, leaves the buffer with the xid size of the
      page, and get_xid returns more bytes than the buffer has.  And
      since no buffer is ever released, a pooled reader exhausts the
      allocator after heap_avail / xid_size records.
    - Replay.v: over a file of whole records the pass yields the header
      and the xid of each in the order of the file, since rcv_decode
      leaves the stream at the next header; over a file that ends inside
      a record, at any byte of it, the pass yields the records before it
      and reports the journal incomplete; a record with a foreign tail
      stops the pass with JERR_JREC_BADRECTAIL; the xids of the records
      add up in memory, and the pass throws JERR__MALLOC at the record
      with which they exceed what is left; and on every file the pass
      ends within one sixteenth of the bytes left.
    - Log.v: the pooled writer leaves the image of every record at the
      dblk behind the record before it and touches nothing below the
      journal or in another block; and the pass of recovery over the file
      of that journal yields the header and the xid of every record
      written, in the order in which they were written.
    - Str.v: the text that str appends for a reader, label by label:
      the kind, magic, version and rid of the record decoded and the
      address in [_xidp], not the xid.

    ** Bounds and modelling choices

    - The build is the default one: little endian, 64-bit [size_t],
      JRNL_DBLK_SIZE = 128, asserts enabled.  RHM_CLEAN is a parameter
      ([None]: not defined, the default; [Some c]: defined with filler c).
    - [rec_offs_dblks * JRNL_DBLK_SIZE] is a product of a uint32_t and an
      int constant, hence computed modulo 2^32; the contracts bound the
      offsets so that it does not wrap.  The dblk counts are uint32_t
      values and their differences wrap; [encode_past_end],
      [decode_past_end] and [decode_size_wraps] state what the methods do
      when they wrap.
    - malloc returns zero-filled blocks; no theorem depends on the filler,
      since a completed decode overwrites the whole buffer.  free is not
      modelled because the source never calls it.  [heap_avail] is the
      bound on what malloc hands out; the theorems on exhaustion are
      stated in terms of it.  malloc(0) returns a block of no bytes, as
      glibc does; C also allows a null pointer, on which MALLOC_CHK
      would throw JERR__MALLOC.  Only decode and rcv_decode of a record
      with an xid size of 0 depend on the choice: encode refuses to write
      such a record, and the contract of decode excludes it; the
      theorems on rcv_decode that admit a size of 0 hold for an
      allocator that returns a block.
    - memcpy is a load followed by a store, which is defined where the
      regions overlap, unlike in C; the contracts keep the regions
      apart, and no theorem is stated of a copy that overlaps.  A load
      or a store of no bytes at an address outside the allocated blocks
      is a fault of the model, while C performs no access there: the
      model is the stricter one.
    - A run goes on behind a call that returns or throws; a failed assert
      or a fault ends it, as abort and undefined behaviour end the
      program.
    - No operation of the stream sets badbit: the file is a list of
      bytes.  A stream on which an error of the device has set it is an
      initial state ([rcv_decode_failed_stream]).
    - Every method is a straight-line function and the drivers recurse on
      the schedule.  The one definition with a bound is [replay], whose
      argument bounds the number of records of the pass: a turn of the
      loop takes the 16 bytes of a generic header and rcv_decode never
      moves the stream back, so a bound above one sixteenth of the bytes
      left is never reached and every larger one gives the same outcome
      ([replay_terminates]).

    ** Not modelled

    - src/cpp/src/qpid/ha/Backup.h: a class declaration of the
      high-availability layer; it has no function body and the codec calls
      nothing of it.
    - The 32-bit builds of rcv_decode (the two ignore calls under
      JRNL_32_BIT) and the big-endian layout: the layout of txn_hdr_t in
      these builds is declared in a header that is not under src/.
    - Builds with NDEBUG, in which the asserts are compiled out.
    - Records of other kinds in the journal, the file header and journals
      of several files: the pass of Replay.v reads transaction records
      from one file.
    - A write that is stopped inside a dblk: the writer of Driver.v is
      stopped between two calls of encode, so a journal is torn at the
      boundary of a dblk.
    - The message texts of the exceptions: an exception is its error code.

    This file is the prelude: machine integers, the monad and its notation
    (scope [jrnl_scope]), the predicates [wp], [stable], [const_op] and
    [throws_only] on methods with their rules and tactics, Z-indexed
    slices of byte lists, and the hint databases [len], [jrnl], [stable]
    and [throws]. *)

From Stdlib Require Import ZArith Lia List.
From coqutil Require Import Byte Word.LittleEndianList.
From stdpp Require Import base option list.

#[local] Open Scope Z_scope.

Declare Scope jrnl_scope.
Delimit Scope jrnl_scope with jrnl.

(** ** Machine integers: the C casts *)

Definition uint8_t (z : Z) : Z := z mod 2 ^ 8.
Definition uint16_t (z : Z) : Z := z mod 2 ^ 16.
Definition uint32_t (z : Z) : Z := z mod 2 ^ 32.
Definition uint64_t (z : Z) : Z := z mod 2 ^ 64.
Definition size_t (z : Z) : Z := uint64_t z.

(** [~x] on a uint32_t. *)
Definition not32 (x : Z) : Z := uint32_t (Z.lnot x).

(** ** Failures, results, and the state monad of the methods *)

Inductive fail (E : Type) : Type :=
| Throw (e : E)
| AssertFail
| Fault.
Arguments Throw {E} e.
Arguments AssertFail {E}.
Arguments Fault {E}.

Inductive res (E A : Type) : Type :=
| Ok (a : A)
| Err (f : fail E).
Arguments Ok {E A} a.
Arguments Err {E A} f.

Definition M (S E A : Type) : Type := S -> res E A * S.

Section Monad.
Context {S E : Type}.

Definition ret {A} (a : A) : M S E A := fun s => (Ok a, s).

Definition bind {A B} (m : M S E A) (k : A -> M S E B) : M S E B :=
  fun s => match m s with
           | (Ok a, s') => k a s'
           | (Err f, s') => (Err f, s')
           end.

Definition raise {A} (f : fail E) : M S E A := fun s => (Err f, s).
Definition throw {A} (e : E) : M S E A := raise (Throw e).
Definition get : M S E S := fun s => (Ok s, s).
Definition put (s : S) : M S E unit := fun _ => (Ok tt, s).
Definition modify (f : S -> S) : M S E unit := fun s => (Ok tt, f s).

(** [assert(b)] of <cassert>, asserts enabled. *)
Definition assert (b : bool) : M S E unit :=
  if b then ret tt else raise AssertFail.

(** An access that is defined only when [o] is [Some]. *)
Definition defined {A} (o : option A) : M S E A :=
  match o with Some a => ret a | None => raise Fault end.

(** [if (c) { m }] *)
Definition when (c : bool) (m : M S E unit) : M S E unit :=
  if c then m else ret tt.

End Monad.

Notation "x <- c ;; k" := (bind c (fun x => k))
  (at level 20, c at level 99, k at level 200, only parsing) : jrnl_scope.
Notation "' pat <- c ;; k" := (bind c (fun x => match x with pat => k end))
  (at level 20, pat pattern, c at level 99, k at level 200, only parsing) : jrnl_scope.
Notation "c ;; k" := (bind c (fun _ => k))
  (at level 100, k at level 200, right associativity) : jrnl_scope.

(** [wp m s Q]: the outcome of [m] from [s] and the state it leaves
    satisfy [Q]. *)
Definition wp {S E A} (m : M S E A) (s : S) (Q : res E A -> S -> Prop) : Prop :=
  Q (fst (m s)) (snd (m s)).

(** [stable R m]: whatever its outcome, [m] leaves a state related by [R]
    to the one it started from. *)
Definition stable {S E A} (R : relation S) (m : M S E A) : Prop :=
  forall s, R s (snd (m s)).

(** [const_op m]: [m] leaves the state as it found it, whatever its
    outcome. *)
Definition const_op {S E A} (m : M S E A) : Prop := forall s, snd (m s) = s.

(** [throws_only P m]: an exception that [m] throws satisfies [P], in
    whatever state it is run. *)
Definition throws_only {S E A} (P : E -> Prop) (m : M S E A) : Prop :=
  forall s e, fst (m s) = Err (Throw e) -> P e.

(** ** Byte lists indexed by Z *)

Definition len {A} (l : list A) : Z := Z.of_nat (length l).

(** The [n] elements of [l] from offset [off]. *)
Definition slice {A} (off n : Z) (l : list A) : list A :=
  take (Z.to_nat n) (drop (Z.to_nat off) l).

(** [l] with the elements from offset [off] replaced by [src]. *)
Definition splice {A} (l : list A) (off : Z) (src : list A) : list A :=
  slice 0 off l ++ src ++ slice (off + len src) (len l) l.

#[export] Instance byte_eq_dec : EqDecision byte := Byte.byte_eq_dec.

(** ** Lemmas on the casts *)

Lemma uint32_t_range z : 0 <= uint32_t z < 2 ^ 32.
Proof. apply Z.mod_pos_bound. reflexivity. Qed.

Lemma uint64_t_range z : 0 <= uint64_t z < 2 ^ 64.
Proof. apply Z.mod_pos_bound. reflexivity. Qed.

Lemma uint32_t_small z : 0 <= z < 2 ^ 32 -> uint32_t z = z.
Proof. apply Z.mod_small. Qed.

Lemma uint64_t_small z : 0 <= z < 2 ^ 64 -> uint64_t z = z.
Proof. apply Z.mod_small. Qed.

Lemma size_t_small z : 0 <= z < 2 ^ 64 -> size_t z = z.
Proof. apply Z.mod_small. Qed.

Lemma not32_small x : 0 <= x < 2 ^ 32 -> not32 x = 2 ^ 32 - 1 - x.
Proof.
  intros H. unfold not32, uint32_t, Z.lnot.
  replace (Z.pred (- x)) with ((2 ^ 32 - 1 - x) + (-1) * 2 ^ 32) by lia.
  rewrite Z.mod_add by lia. apply Z.mod_small. lia.
Qed.

Lemma not32_involutive x : 0 <= x < 2 ^ 32 -> not32 (not32 x) = x.
Proof. intros H. rewrite (not32_small x H), not32_small; lia. Qed.

Lemma not32_inj x y :
  0 <= x < 2 ^ 32 -> 0 <= y < 2 ^ 32 -> not32 x = not32 y -> x = y.
Proof. intros Hx Hy. rewrite !not32_small by assumption. lia. Qed.

(** The casts are opened and the divisions by constants turned into
    equations before [lia] runs. *)
Ltac cast_lia :=
  unfold size_t, uint64_t, uint32_t, uint16_t, uint8_t in *;
  Z.div_mod_to_equations; lia.

(** ** Lemmas on the monad *)

Section MonadLemmas.
Context {S E : Type}.
Implicit Types (s : S).

Lemma bind_ok {A B} (m : M S E A) (k : A -> M S E B) s a s' :
  m s = (Ok a, s') -> bind m k s = k a s'.
Proof. unfold bind. intros ->. reflexivity. Qed.

Lemma bind_err {A B} (m : M S E A) (k : A -> M S E B) s f s' :
  m s = (Err f, s') -> bind m k s = (Err f, s').
Proof. unfold bind. intros ->. reflexivity. Qed.

Lemma bind_inv_ok {A B} (m : M S E A) (k : A -> M S E B) s b s2 :
  bind m k s = (Ok b, s2) ->
  exists a s1, m s = (Ok a, s1) /\ k a s1 = (Ok b, s2).
Proof.
  unfold bind. destruct (m s) as [[a|f] s1]; [eauto | discriminate].
Qed.

Lemma assert_true (b : bool) s : b = true -> assert (S:=S) (E:=E) b s = (Ok tt, s).
Proof. intros ->. reflexivity. Qed.

Lemma assert_false (b : bool) s :
  b = false -> assert (S:=S) (E:=E) b s = (Err AssertFail, s).
Proof. intros ->. reflexivity. Qed.

Lemma bind_bind {A B C} (m : M S E A) (k1 : A -> M S E B) (k2 : B -> M S E C) s :
  bind (bind m k1) k2 s = bind m (fun a => bind (k1 a) k2) s.
Proof. unfold bind. destruct (m s) as [[a|f] s']; reflexivity. Qed.

(** The rules of [wp] run a method one operation at a time. *)

Lemma wp_eq {A} (m : M S E A) s r s' : wp m s (fun r0 s0 => r0 = r /\ s0 = s') <-> m s = (r, s').
Proof.
  unfold wp. destruct (m s) as [r0 s0]. simpl. split; [intros [-> ->]|intros [= -> ->]]; auto.
Qed.

Lemma wp_mono {A} (m : M S E A) s (Q Q' : res E A -> S -> Prop) :
  wp m s Q -> (forall r s', Q r s' -> Q' r s') -> wp m s Q'.
Proof. unfold wp. auto. Qed.

Lemma wp_ret {A} (a : A) s (Q : res E A -> S -> Prop) : Q (Ok a) s -> wp (ret a) s Q.
Proof. auto. Qed.

Lemma wp_raise {A} (f : fail E) s (Q : res E A -> S -> Prop) : Q (Err f) s -> wp (raise f) s Q.
Proof. auto. Qed.

Lemma wp_bind {A B} (m : M S E A) (k : A -> M S E B) s (Q : res E B -> S -> Prop) :
  wp m s (fun r s' => match r with Ok a => wp (k a) s' Q | Err f => Q (Err f) s' end) ->
  wp (bind m k) s Q.
Proof. unfold wp, bind. destruct (m s) as [[a|f] s']; auto. Qed.

Lemma wp_bind_with {A B} (m : M S E A) (k : A -> M S E B) s
    (Q1 : res E A -> S -> Prop) (Q : res E B -> S -> Prop) :
  wp m s Q1 ->
  (forall r s', Q1 r s' -> match r with Ok a => wp (k a) s' Q | Err f => Q (Err f) s' end) ->
  wp (bind m k) s Q.
Proof. intros H1 H2. apply wp_bind. eapply wp_mono; eauto. Qed.

Lemma wp_bind_ret {A B} (a : A) (k : A -> M S E B) s (Q : res E B -> S -> Prop) :
  wp (k a) s Q -> wp (bind (ret a) k) s Q.
Proof. auto. Qed.

Lemma wp_bind_bind {A B C} (m : M S E A) (k1 : A -> M S E B) (k2 : B -> M S E C) s
    (Q : res E C -> S -> Prop) :
  wp (bind m (fun a => bind (k1 a) k2)) s Q -> wp (bind (bind m k1) k2) s Q.
Proof. unfold wp. now rewrite bind_bind. Qed.

Lemma wp_bind_assert {B} (b : bool) (k : unit -> M S E B) s (Q : res E B -> S -> Prop) :
  b = true -> wp (k tt) s Q -> wp (bind (assert b) k) s Q.
Proof. intros ->. auto. Qed.

Lemma wp_bind_assert_false {B} (b : bool) (k : unit -> M S E B) s (Q : res E B -> S -> Prop) :
  b = false -> Q (Err AssertFail) s -> wp (bind (assert b) k) s Q.
Proof. intros ->. auto. Qed.

Lemma wp_bind_defined {A B} (a : A) (k : A -> M S E B) s (Q : res E B -> S -> Prop) :
  wp (k a) s Q -> wp (bind (defined (Some a)) k) s Q.
Proof. auto. Qed.

Lemma wp_bind_get {B} (k : S -> M S E B) s (Q : res E B -> S -> Prop) :
  wp (k s) s Q -> wp (bind get k) s Q.
Proof. auto. Qed.

Lemma wp_bind_modify {B} (f : S -> S) (k : unit -> M S E B) s (Q : res E B -> S -> Prop) :
  wp (k tt) (f s) Q -> wp (bind (modify f) k) s Q.
Proof. auto. Qed.

(** The rules for a postcondition on the state alone, which holds
    whatever the outcome: behind an operation that leaves the state, behind
    one with a postcondition of its own, and for a stable method. *)

Lemma wp_bind_const {A B} (m : M S E A) (k : A -> M S E B) s (P : S -> Prop) :
  const_op m -> P s -> (forall a, wp (k a) s (fun _ => P)) -> wp (bind m k) s (fun _ => P).
Proof.
  intros Hc HP Hk. apply wp_bind. unfold wp at 1. specialize (Hc s).
  destruct (m s) as [[a|f] s1]; simpl in *; subst s1; auto.
Qed.

Lemma wp_bind_state {A B} (m : M S E A) (k : A -> M S E B) s (P1 P : S -> Prop) :
  wp m s (fun _ => P1) -> (forall s1, P1 s1 -> P s1) ->
  (forall a s1, P1 s1 -> wp (k a) s1 (fun _ => P)) -> wp (bind m k) s (fun _ => P).
Proof.
  intros Hm HP Hk. eapply wp_bind_with; [exact Hm|]. intros [a|f] s1 H1; auto.
Qed.

Lemma wp_stable {A} (R : relation S) (m : M S E A) s (P : S -> Prop) :
  stable R m -> (forall s', R s s' -> P s') -> wp m s (fun _ => P).
Proof. intros Hm HP. apply HP, Hm. Qed.

Lemma const_op_ret {A} (a : A) : const_op (ret (S:=S) (E:=E) a).
Proof. intros s. reflexivity. Qed.

Lemma const_op_raise {A} f : const_op (raise (S:=S) (E:=E) (A:=A) f).
Proof. intros s. reflexivity. Qed.

Lemma const_op_assert b : const_op (assert (S:=S) (E:=E) b).
Proof. destruct b; [apply const_op_ret | apply const_op_raise]. Qed.

Lemma const_op_defined {A} (o : option A) : const_op (defined (S:=S) (E:=E) o).
Proof. destruct o; [apply const_op_ret | apply const_op_raise]. Qed.

Lemma const_op_bind {A B} (m : M S E A) (k : A -> M S E B) :
  const_op m -> (forall a, const_op (k a)) -> const_op (bind m k).
Proof.
  intros Hm Hk s. unfold bind. specialize (Hm s).
  destruct (m s) as [[a|f] s1]; simpl in *; subst s1; [apply Hk | reflexivity].
Qed.

(** A method that leaves the state is stable for every reflexive
    relation. *)
Lemma const_op_stable {A} (R : relation S) `{!Reflexive R} (m : M S E A) :
  const_op m -> stable R m.
Proof. intros Hm s. rewrite Hm. reflexivity. Qed.

(** A stable method is stable for every coarser relation. *)
Lemma stable_sub {A} (R R' : relation S) (m : M S E A) :
  (forall s s', R s s' -> R' s s') -> stable R m -> stable R' m.
Proof. intros H Hm s. apply H, Hm. Qed.

End MonadLemmas.

(** [stable R] for a preorder [R] is closed under the operations of the
    monad, so a method is stable when its memory operations are. *)
Section Stable.
Context {S E : Type} (R : relation S) `{!PreOrder R}.

Lemma stable_ret {A} (a : A) : stable R (ret (E:=E) a).
Proof. intros s. reflexivity. Qed.

Lemma stable_raise {A} f : stable R (raise (E:=E) (A:=A) f).
Proof. intros s. reflexivity. Qed.

Lemma stable_bind {A B} (m : M S E A) (k : A -> M S E B) :
  stable R m -> (forall a, stable R (k a)) -> stable R (bind m k).
Proof.
  intros Hm Hk s. unfold bind. specialize (Hm s).
  destruct (m s) as [[a|f] s1]; simpl in *; [|exact Hm].
  etransitivity; [exact Hm | apply Hk].
Qed.

Lemma stable_assert b : stable R (assert (E:=E) b).
Proof. destruct b; [apply stable_ret | apply stable_raise]. Qed.

Lemma stable_defined {A} (o : option A) : stable R (defined (E:=E) o).
Proof. destruct o; [apply stable_ret | apply stable_raise]. Qed.

Lemma stable_get : stable R (get (E:=E)).
Proof. intros s. reflexivity. Qed.

Lemma stable_modify f : (forall s, R s (f s)) -> stable R (modify (E:=E) f).
Proof. intros H s. apply H. Qed.

End Stable.

(** [stable_auto] decomposes a method along its binds and tests and closes
    the leaves with the hints of [stable]. *)
Create HintDb stable discriminated.
#[export] Hint Resolve stable_ret stable_raise stable_assert stable_defined stable_get : stable.

Ltac stable_step :=
  lazymatch goal with
  | |- stable _ (bind _ _) => apply stable_bind; [apply _ | | intros ?]
  | |- stable _ (if ?b then _ else _) => destruct b
  | |- stable _ (match ?x with _ => _ end) => destruct x
  | |- stable _ (throw _) => apply stable_raise
  | |- _ => solve [eauto with stable typeclass_instances]
  end.

Ltac stable_auto := cbv zeta; repeat stable_step.

(** [throws_only P] is closed under the operations of the monad. *)
Section Throws.
Context {S E : Type} (P : E -> Prop).

Lemma throws_ret {A} (a : A) : throws_only P (ret (S:=S) a).
Proof. intros s e [=]. Qed.

Lemma throws_throw {A} e : P e -> throws_only P (throw (S:=S) (A:=A) e).
Proof. now intros H s e' [= <-]. Qed.

Lemma throws_assert_fail {A} : throws_only P (raise (S:=S) (A:=A) AssertFail).
Proof. intros s e [=]. Qed.

Lemma throws_fault {A} : throws_only P (raise (S:=S) (A:=A) Fault).
Proof. intros s e [=]. Qed.

Lemma throws_bind {A B} (m : M S E A) (k : A -> M S E B) :
  throws_only P m -> (forall a, throws_only P (k a)) -> throws_only P (bind m k).
Proof.
  intros Hm Hk s e. unfold bind. specialize (Hm s).
  destruct (m s) as [[a|f] s1]; simpl in *; [apply Hk|]. intros [= ->]. now apply Hm.
Qed.

Lemma throws_assert b : throws_only P (assert (S:=S) b).
Proof. destruct b; [apply throws_ret | apply throws_assert_fail]. Qed.

Lemma throws_defined {A} (o : option A) : throws_only P (defined (S:=S) o).
Proof. destruct o; [apply throws_ret | apply throws_fault]. Qed.

Lemma throws_get : throws_only P (get (S:=S)).
Proof. intros s e [=]. Qed.

Lemma throws_modify (f : S -> S) : throws_only P (modify f).
Proof. intros s e [=]. Qed.

End Throws.

Create HintDb throws discriminated.
#[export] Hint Resolve throws_ret throws_assert_fail throws_fault throws_assert throws_defined
  throws_get throws_modify : throws.

(** [throws_auto] decomposes a method along its binds and tests, unfolds
    the methods it calls, and closes the leaves with the hints of
    [throws]. *)
Ltac head_of t := lazymatch t with ?f _ => head_of f | _ => t end.

Ltac throws_step :=
  lazymatch goal with
  | |- throws_only _ (bind _ _) => apply throws_bind; [ | intros ?]
  | |- throws_only _ (if ?b then _ else _) => destruct b
  | |- throws_only _ (match ?x with _ => _ end) => destruct x
  | |- throws_only _ (throw _) => apply throws_throw; simpl; tauto
  | |- throws_only _ ?m =>
      first [ solve [eauto with throws] | let h := head_of m in progress unfold h ]
  end.

Ltac throws_auto := repeat (cbv zeta; throws_step).

(** [wnorm] brings a method into the form [bind op k] with [op] an
    operation, and runs the [ret]s at its head. *)
Ltac wnorm :=
  repeat lazymatch goal with
         | |- wp (bind (bind _ _) _) _ _ => apply wp_bind_bind
         | |- wp (bind (ret _) _) _ _ => apply wp_bind_ret; cbv beta iota
         end;
  cbv beta iota.

(** [arith] removes the casts of values that fit and decides the tests of
    the source that linear arithmetic decides. *)
Ltac arith1 :=
  match goal with
  | |- context [size_t ?e] => rewrite (size_t_small e) by lia
  | |- context [uint32_t ?e] => rewrite (uint32_t_small e) by lia
  | |- context [uint64_t ?e] => rewrite (uint64_t_small e) by lia
  | |- context [if ?b then _ else _] =>
      first [ replace b with true by lia | replace b with false by lia ]
  end.

Ltac arith := repeat arith1.

(** ** Lemmas on slices *)

Create Rewrite HintDb len.
Create HintDb jrnl discriminated.

Section Slices.
Context {A : Type}.
Implicit Types (l k : list A) (off n m : Z).

Lemma len_nonneg l : 0 <= len l.
Proof. unfold len. lia. Qed.

Lemma len_nil : len (@nil A) = 0.
Proof. reflexivity. Qed.

Lemma len_cons (x : A) l : len (x :: l) = 1 + len l.
Proof. unfold len. simpl. lia. Qed.

Lemma len_app l k : len (l ++ k) = len l + len k.
Proof. unfold len. rewrite length_app. lia. Qed.

Lemma len_replicate (c : nat) (x : A) : len (replicate c x) = Z.of_nat c.
Proof. unfold len. now rewrite length_replicate. Qed.

Lemma len_slice off n l :
  0 <= off -> len (slice off n l) = Z.max 0 (Z.min n (len l - off)).
Proof. intros H. unfold len, slice. rewrite length_take, length_drop. lia. Qed.

Lemma len_slice_in off n l :
  0 <= off -> 0 <= n -> off + n <= len l -> len (slice off n l) = n.
Proof. intros. rewrite len_slice by assumption. lia. Qed.

Lemma slice_nil off n l : n <= 0 \/ len l <= off -> slice off n l = [].
Proof.
  unfold slice, len. intros [H|H].
  - replace (Z.to_nat n) with 0%nat by lia. reflexivity.
  - rewrite drop_ge by lia. apply take_nil.
Qed.

Lemma slice_all n l : len l <= n -> slice 0 n l = l.
Proof. unfold slice, len. intros H. simpl. apply take_ge. lia. Qed.

Lemma slice_0_take n l : slice 0 n l = take (Z.to_nat n) l.
Proof. reflexivity. Qed.

Lemma slice_len_drop off l : 0 <= off -> slice off (len l) l = drop (Z.to_nat off) l.
Proof.
  intros H. unfold slice, len. apply take_ge. rewrite length_drop. lia.
Qed.

Lemma slice_app off n l k :
  0 <= off -> 0 <= n ->
  slice off n (l ++ k) =
  slice off n l ++ slice (Z.max 0 (off - len l)) (n - Z.max 0 (len l - off)) k.
Proof.
  intros Ho Hn. unfold slice, len. rewrite drop_app, take_app, length_drop.
  f_equal. f_equal; [lia|]. f_equal. lia.
Qed.

Lemma slice_cat off n m l :
  0 <= off -> 0 <= n -> 0 <= m ->
  slice off n l ++ slice (off + n) m l = slice off (n + m) l.
Proof.
  intros Ho Hn Hm. unfold slice.
  replace (Z.to_nat (off + n)) with (Z.to_nat off + Z.to_nat n)%nat by lia.
  rewrite <- drop_drop, take_take_drop. f_equal. lia.
Qed.

Lemma slice_slice a b c d l :
  0 <= a -> 0 <= c ->
  slice a b (slice c d l) = slice (c + a) (Z.min b (d - a)) l.
Proof.
  intros Ha Hc. unfold slice. rewrite skipn_firstn_comm, take_take, drop_drop.
  f_equal; [lia|]. f_equal. lia.
Qed.

Lemma slice_eq off n off' n' l :
  off = off' -> n = n' -> slice off n l = slice off' n' l.
Proof. now intros -> ->. Qed.

Lemma slice_min off n l :
  0 <= off -> slice off n l = slice off (Z.min n (len l - off)) l.
Proof.
  intros H. unfold slice, len.
  destruct (Z.le_gt_cases n (Z.of_nat (length l) - off)) as [Hle|Hgt].
  - f_equal. lia.
  - rewrite !take_ge; [reflexivity | rewrite length_drop; lia ..].
Qed.

Lemma slice_full off n l : off = 0 -> len l <= n -> slice off n l = l.
Proof. intros ->. apply slice_all. Qed.

Lemma slice_clamp_eq off n off' n' l :
  0 <= off -> 0 <= off' ->
  (Z.min n (len l - off) <= 0 /\ Z.min n' (len l - off') <= 0) \/
  (off = off' /\ Z.min n (len l - off) = Z.min n' (len l - off')) ->
  slice off n l = slice off' n' l.
Proof.
  intros Ho Ho' [[H1 H2]|[-> H]].
  - rewrite (slice_nil off), (slice_nil off') by lia. reflexivity.
  - rewrite (slice_min off' n), (slice_min off' n') by lia. now rewrite H.
Qed.

End Slices.

#[export] Hint Rewrite @len_nil @len_cons @len_app @len_replicate : len.
#[export] Hint Rewrite length_le_split : len.
#[export] Hint Resolve len_nonneg : jrnl.

Lemma len_le_split n z : len (le_split n z) = Z.of_nat n.
Proof. unfold len. now rewrite length_le_split. Qed.
#[export] Hint Rewrite len_le_split : len.

(** ** Tactics for slices

    [len_facts] records that the lengths in sight are not negative;
    [slice_norm] pushes slices through [++] and other slices; [slices]
    then removes the empty and the full ones and compares what is left
    slice by slice, with [lia] on the clamped bounds. *)

Ltac len_fact l :=
  lazymatch goal with
  | H : 0 <= len l |- _ => fail
  | _ => pose proof (len_nonneg l)
  end.

Ltac len_facts :=
  repeat match goal with
         | |- context [len ?l] => len_fact l
         | H : context [len ?l] |- _ => len_fact l
         end.

Ltac slice_norm :=
  repeat first
    [ progress autorewrite with len
    | rewrite len_slice by lia
    | rewrite slice_slice by lia
    | rewrite slice_app by lia ].

Ltac slice_clean :=
  repeat match goal with
         | |- context [slice ?o ?n ?l] =>
             rewrite (slice_nil o n l) by (autorewrite with len; lia)
         | |- context [slice ?o ?n ?l] =>
             rewrite (slice_full o n l) by (autorewrite with len; lia)
         end;
  rewrite ?app_nil_l, ?app_nil_r.

Ltac slices :=
  len_facts; slice_norm; slice_clean;
  repeat first
    [ reflexivity
    | apply slice_clamp_eq; autorewrite with len; lia
    | progress (rewrite <- ?app_assoc; f_equal) ].

Section Splice.
Context {A : Type}.
Implicit Types (l k src : list A) (off n : Z).

Lemma len_splice l off src :
  0 <= off -> off + len src <= len l -> len (splice l off src) = len l.
Proof. intros Ho Hb. unfold splice. len_facts. slice_norm. lia. Qed.

Lemma splice_app l k src :
  len src <= len k ->
  splice (l ++ k) (len l) src = (l ++ src) ++ slice (len src) (len k) k.
Proof. intros H. unfold splice. slices. Qed.

Lemma slice_splice_same l off src :
  0 <= off -> off + len src <= len l -> slice off (len src) (splice l off src) = src.
Proof. intros Ho Hb. unfold splice. slices. Qed.

Lemma slice_splice_before l off src off' n :
  0 <= off' -> 0 <= n -> off' + n <= off -> off + len src <= len l ->
  slice off' n (splice l off src) = slice off' n l.
Proof. intros Ho Hn Hb Hl. unfold splice. slices. Qed.

Lemma slice_splice_after l off src off' n :
  0 <= off -> 0 <= n -> off + len src <= off' -> off' + n <= len l ->
  slice off' n (splice l off src) = slice off' n l.
Proof. intros Ho Hn Hb Hl. unfold splice. slices. Qed.

Lemma splice_splice_adj l off src1 src2 :
  0 <= off -> off + len src1 + len src2 <= len l ->
  splice (splice l off src1) (off + len src1) src2 = splice l off (src1 ++ src2).
Proof.
  intros Ho Hb. len_facts. unfold splice at 1 3. rewrite len_splice by lia.
  unfold splice. slices.
Qed.

Lemma splice_nil l off : 0 <= off -> off <= len l -> splice l off [] = l.
Proof.
  intros Ho Hb. unfold splice. simpl. change (len []) with 0.
  rewrite Z.add_0_r, slice_cat by (len_facts; lia). apply slice_all. lia.
Qed.

Lemma splice_same l off n :
  0 <= off -> 0 <= n -> off + n <= len l -> splice l off (slice off n l) = l.
Proof.
  intros Ho Hn Hb. unfold splice. rewrite len_slice_in by lia.
  rewrite !slice_cat by (len_facts; lia). apply slice_all. lia.
Qed.

End Splice.


(** [len] rewrites the lengths it knows and leaves linear arithmetic. *)
Ltac len := autorewrite with len in *; try lia.
