(* ===== verification/Memory.v ===== *)
(** * Memory: blocks, pointers, malloc, load, store, memcpy

    The codec works on raw pointers: the page handed to [encode] and
    [decode], the caller's xid, the buffer [decode] allocates.  A pointer is
    a block and a byte offset in it, the heap a finite map from blocks to
    their bytes.  An access outside its block gives [None]; the methods turn
    that into [Fault].  [heap_avail] bounds what malloc can still hand out,
    so that the out-of-memory path of the source can be taken. *)

From Stdlib Require Import ZArith Lia List.
From coqutil Require Import Byte.
From stdpp Require Import base option list gmap.
From S2P Require Import Prelude.

#[local] Open Scope Z_scope.

Definition blk : Type := positive.

Record ptr : Type := Ptr { p_blk : blk; p_ofs : Z }.

#[export] Instance ptr_eq_dec : EqDecision ptr.
Proof. solve_decision. Defined.

(** [(char* )p + n] *)
Definition ptr_add (p : ptr) (n : Z) : ptr := Ptr (p_blk p) (p_ofs p + n).

Record heap : Type := Heap { heap_cells : gmap blk (list byte); heap_avail : Z }.

(** The bytes of the block of [p], when [p .. p+n) lies in it. *)
Definition in_bounds (b : list byte) (ofs n : Z) : bool :=
  (0 <=? ofs) && (0 <=? n) && (ofs + n <=? len b).

Definition load (h : heap) (p : ptr) (n : Z) : option (list byte) :=
  match heap_cells h !! p_blk p with
  | Some b => if in_bounds b (p_ofs p) n then Some (slice (p_ofs p) n b) else None
  | None => None
  end.

Definition store (h : heap) (p : ptr) (bs : list byte) : option heap :=
  match heap_cells h !! p_blk p with
  | Some b =>
      if in_bounds b (p_ofs p) (len bs)
      then Some (Heap (<[p_blk p := splice b (p_ofs p) bs]> (heap_cells h)) (heap_avail h))
      else None
  | None => None
  end.

(** [std::memcpy(dst, src, n)] *)
Definition memcpy (h : heap) (dst src : ptr) (n : Z) : option heap :=
  match load h src n with
  | Some bs => store h dst bs
  | None => None
  end.

(** [std::memset(dst, c, n)] *)
Definition memset (h : heap) (dst : ptr) (c : byte) (n : Z) : option heap :=
  store h dst (replicate (Z.to_nat n) c).

(** [std::malloc(n)]: a fresh zero-filled block, or 0 when [n] bytes are
    not available.  For [n] = 0 the block has no bytes; C leaves it to
    the implementation to return such a block or 0. *)
Definition malloc (h : heap) (n : Z) : option ptr * heap :=
  if n <=? heap_avail h
  then let b := fresh (dom (heap_cells h)) in
       (Some (Ptr b 0),
        Heap (<[b := replicate (Z.to_nat n) Byte.x00]> (heap_cells h)) (heap_avail h - n))
  else (None, h).

(** The region [p .. p+n) is allocated. *)
Definition valid_range (h : heap) (p : ptr) (n : Z) : Prop :=
  exists b, heap_cells h !! p_blk p = Some b /\ 0 <= p_ofs p /\ 0 <= n /\ p_ofs p + n <= len b.

(** The regions [p .. p+n) and [q .. q+m) do not overlap. *)
Definition disjoint (p : ptr) (n : Z) (q : ptr) (m : Z) : Prop :=
  p_blk p <> p_blk q \/ p_ofs p + n <= p_ofs q \/ p_ofs q + m <= p_ofs p.

(** The heap [h'] is a later state of [h]: what was allocated is still
    allocated, with the same extent, and no more bytes are left to
    allocate.  No operation of the model gives memory back, so every
    operation moves the heap up in this order. *)
Definition heap_le (h h' : heap) : Prop :=
  heap_avail h' <= heap_avail h /\
  forall k b, heap_cells h !! k = Some b ->
              exists b', heap_cells h' !! k = Some b' /\ len b' = len b.

(** The block of [p] is [n] bytes long and [p] points at its start, as
    [std::malloc(n)] returns it. *)
Definition block_of (h : heap) (p : ptr) (n : Z) : Prop :=
  p_ofs p = 0 /\ exists b, heap_cells h !! p_blk p = Some b /\ len b = n.

(** ** Lemmas *)

Lemma in_bounds_true b ofs n :
  in_bounds b ofs n = true <-> 0 <= ofs /\ 0 <= n /\ ofs + n <= len b.
Proof. unfold in_bounds. rewrite !andb_true_iff, !Z.leb_le. tauto. Qed.

Lemma in_bounds_false b ofs n :
  in_bounds b ofs n = false <-> ~ (0 <= ofs /\ 0 <= n /\ ofs + n <= len b).
Proof. rewrite <- in_bounds_true. destruct (in_bounds b ofs n); intuition congruence. Qed.

Lemma ptr_eq p q : p_blk p = p_blk q -> p_ofs p = p_ofs q -> p = q.
Proof. destruct p, q. simpl. now intros -> ->. Qed.

Lemma ptr_add_0 p : ptr_add p 0 = p.
Proof. destruct p. unfold ptr_add. simpl. f_equal. lia. Qed.

Lemma ptr_add_add p n m : ptr_add (ptr_add p n) m = ptr_add p (n + m).
Proof. unfold ptr_add. simpl. f_equal. lia. Qed.

Lemma valid_range_weaken h p n m k :
  valid_range h p n -> 0 <= k -> 0 <= m -> k + m <= n -> valid_range h (ptr_add p k) m.
Proof.
  intros (b & Hb & H1 & H2 & H3) ? ? ?. exists b. simpl. repeat split; try assumption; lia.
Qed.

Lemma load_valid h p n :
  valid_range h p n ->
  exists b, heap_cells h !! p_blk p = Some b /\ load h p n = Some (slice (p_ofs p) n b).
Proof.
  intros (b & Hb & H1 & H2 & H3). exists b. split; [assumption|].
  unfold load. rewrite Hb. rewrite (proj2 (in_bounds_true _ _ _)); auto.
Qed.

Lemma load_Some h p n bs :
  load h p n = Some bs <->
  exists b, heap_cells h !! p_blk p = Some b /\
            (0 <= p_ofs p /\ 0 <= n /\ p_ofs p + n <= len b) /\ bs = slice (p_ofs p) n b.
Proof.
  unfold load. destruct (heap_cells h !! p_blk p) as [b|]; [|naive_solver].
  destruct (in_bounds b (p_ofs p) n) eqn:E.
  - apply in_bounds_true in E. naive_solver.
  - apply in_bounds_false in E. naive_solver.
Qed.

Lemma load_len h p n bs : load h p n = Some bs -> len bs = n.
Proof.
  rewrite load_Some. intros (b & _ & (H1 & H2 & H3) & ->). now apply len_slice_in.
Qed.

Lemma store_valid h p bs :
  valid_range h p (len bs) ->
  exists b, heap_cells h !! p_blk p = Some b /\
            store h p bs =
            Some (Heap (<[p_blk p := splice b (p_ofs p) bs]> (heap_cells h)) (heap_avail h)).
Proof.
  intros (b & Hb & H1 & H2 & H3). exists b. split; [assumption|].
  unfold store. rewrite Hb. rewrite (proj2 (in_bounds_true _ _ _)); auto.
Qed.

Lemma store_Some h p bs h' :
  store h p bs = Some h' <->
  exists b, heap_cells h !! p_blk p = Some b /\
            (0 <= p_ofs p /\ p_ofs p + len bs <= len b) /\
            h' = Heap (<[p_blk p := splice b (p_ofs p) bs]> (heap_cells h)) (heap_avail h).
Proof.
  unfold store. destruct (heap_cells h !! p_blk p) as [b|]; [|naive_solver].
  pose proof (len_nonneg bs).
  destruct (in_bounds b (p_ofs p) (len bs)) eqn:E.
  - apply in_bounds_true in E. naive_solver.
  - apply in_bounds_false in E. split; [discriminate|]. intros (b' & [= <-] & ? & _). lia.
Qed.

Lemma store_avail h p bs h' : store h p bs = Some h' -> heap_avail h' = heap_avail h.
Proof. rewrite store_Some. intros (b & _ & _ & ->). reflexivity. Qed.

Lemma store_dom h p bs h' :
  store h p bs = Some h' -> dom (heap_cells h') = dom (heap_cells h).
Proof.
  rewrite store_Some. intros (b & Hb & _ & ->). simpl.
  apply dom_insert_lookup_L. now rewrite Hb.
Qed.

Lemma store_valid_range h p bs h' q n :
  store h p bs = Some h' -> valid_range h q n -> valid_range h' q n.
Proof.
  rewrite store_Some. intros (b & Hb & (H1 & H2) & ->) (c & Hc & Hq). simpl.
  destruct (decide (p_blk p = p_blk q)) as [e|ne].
  - exists (splice b (p_ofs p) bs). unfold heap_cells at 1. rewrite e, lookup_insert_eq.
    split; [reflexivity|].
    rewrite len_splice by lia. rewrite e in Hb. simplify_eq. exact Hq.
  - exists c. unfold valid_range. simpl. rewrite lookup_insert_ne by assumption. auto.
Qed.

Lemma store_nil h p : valid_range h p 0 -> store h p [] = Some h.
Proof.
  intros (b & Hb & H1 & _ & H3). unfold store. rewrite Hb.
  rewrite (proj2 (in_bounds_true _ _ _)) by (change (len []) with 0; lia).
  rewrite splice_nil by lia. destruct h as [c a]. simpl in *.
  now rewrite insert_id.
Qed.

(** What a load sees after a store elsewhere, and at the same place. *)
Lemma load_store_other h p bs h' q n :
  store h p bs = Some h' -> disjoint p (len bs) q n -> 0 <= n ->
  load h' q n = load h q n.
Proof.
  rewrite store_Some. intros (b & Hb & (H1 & H2) & ->) Hd Hn. unfold load. simpl.
  destruct (decide (p_blk p = p_blk q)) as [e|ne];
    [|now rewrite lookup_insert_ne].
  rewrite <- e, lookup_insert_eq, Hb. len_facts.
  unfold in_bounds. rewrite len_splice by lia.
  destruct ((0 <=? p_ofs q) && (0 <=? n) && (p_ofs q + n <=? len b)) eqn:E; [|reflexivity].
  rewrite !andb_true_iff, !Z.leb_le in E. f_equal.
  destruct Hd as [Hd|[Hd|Hd]]; [congruence| |].
  - apply slice_splice_after; lia.
  - apply slice_splice_before; lia.
Qed.

Lemma load_store_same h p bs h' :
  store h p bs = Some h' -> load h' p (len bs) = Some bs.
Proof.
  rewrite store_Some. intros (b & Hb & (H1 & H2) & ->). unfold load. simpl.
  rewrite lookup_insert_eq. len_facts.
  rewrite (proj2 (in_bounds_true _ _ _)) by (rewrite len_splice; lia).
  f_equal. apply slice_splice_same; lia.
Qed.

(** Two stores side by side are one store of the concatenation. *)
Lemma store_store_adj h p bs1 bs2 h1 :
  store h p bs1 = Some h1 ->
  store h1 (ptr_add p (len bs1)) bs2 = store h p (bs1 ++ bs2).
Proof.
  rewrite store_Some. intros (b & Hb & (H1 & H2) & ->). unfold store. simpl.
  rewrite lookup_insert_eq, Hb. len_facts. unfold in_bounds.
  rewrite len_splice, len_app by lia.
  destruct (decide (p_ofs p + len bs1 + len bs2 <= len b)) as [Hle|Hgt].
  - rewrite !(proj2 (andb_true_iff _ _)) by (rewrite ?andb_true_iff, !Z.leb_le; lia).
    rewrite insert_insert_eq, splice_splice_adj by lia. reflexivity.
  - rewrite !(proj2 (andb_false_iff _ _)) by (right; apply Z.leb_gt; lia). reflexivity.
Qed.

Lemma store_same h p n bs :
  load h p n = Some bs -> store h p bs = Some h.
Proof.
  rewrite load_Some. intros (b & Hb & (H1 & H2 & H3) & ->).
  unfold store. rewrite Hb. rewrite (proj2 (in_bounds_true _ _ _))
    by (rewrite len_slice_in; lia).
  rewrite splice_same by lia. destruct h as [c a]. simpl in *.
  now rewrite insert_id.
Qed.

(** malloc: the block is fresh, zero-filled, and nothing else moves. *)
Lemma malloc_ok h n :
  0 <= n -> n <= heap_avail h ->
  let b := fresh (dom (heap_cells h)) in
  malloc h n =
    (Some (Ptr b 0),
     Heap (<[b := replicate (Z.to_nat n) Byte.x00]> (heap_cells h)) (heap_avail h - n)).
Proof. intros Hn Ha. unfold malloc. now rewrite (proj2 (Z.leb_le _ _) Ha). Qed.

Lemma malloc_fail h n : heap_avail h < n -> malloc h n = (None, h).
Proof. intros Ha. unfold malloc. now rewrite (proj2 (Z.leb_gt _ _) Ha). Qed.

Lemma malloc_fresh h n p h' :
  malloc h n = (Some p, h') -> heap_cells h !! p_blk p = None /\ p_ofs p = 0.
Proof.
  unfold malloc. destruct (n <=? heap_avail h); [|discriminate].
  intros [= <- <-]. simpl. split; [|reflexivity].
  apply not_elem_of_dom, is_fresh.
Qed.

Lemma malloc_valid h n p h' :
  0 <= n -> malloc h n = (Some p, h') -> valid_range h' p n.
Proof.
  unfold malloc. destruct (n <=? heap_avail h); [|discriminate].
  intros Hn [= <- <-]. eexists. simpl. rewrite lookup_insert_eq.
  split; [reflexivity|]. rewrite len_replicate. lia.
Qed.

Lemma malloc_preserves h n p h' q m :
  malloc h n = (Some p, h') -> valid_range h q m ->
  valid_range h' q m /\ load h' q m = load h q m /\ p_blk q <> p_blk p.
Proof.
  intros Hm (b & Hb & Hq). destruct (malloc_fresh _ _ _ _ Hm) as [Hf _].
  assert (Hne : p_blk p <> p_blk q) by congruence.
  revert Hm. unfold malloc. destruct (n <=? heap_avail h); [|discriminate].
  intros [= <- <-]. simpl in *. unfold valid_range, load. simpl.
  rewrite lookup_insert_ne by assumption. eauto.
Qed.

(** A part of a region that loads. *)
Lemma load_sub h p n bs off k :
  load h p n = Some bs -> 0 <= off -> 0 <= k -> off + k <= n ->
  load h (ptr_add p off) k = Some (slice off k bs).
Proof.
  rewrite !load_Some. intros (b & Hb & (H1 & H2 & H3) & ->) Ho Hk Hle.
  exists b. simpl. split; [assumption|]. split; [lia|].
  rewrite slice_slice by lia. apply slice_clamp_eq; lia.
Qed.

Lemma disjoint_sub p n q m n' a k :
  disjoint p n q m -> n' <= n -> 0 <= a -> 0 <= k -> a + k <= m ->
  disjoint p n' (ptr_add q a) k.
Proof. unfold disjoint. simpl. lia. Qed.

Lemma load_prefix h p n bs k :
  load h p n = Some bs -> 0 <= k -> k <= n -> load h p k = Some (slice 0 k bs).
Proof.
  intros Hl Hk Hle. rewrite <- (ptr_add_0 p). eapply load_sub; [exact Hl | lia ..].
Qed.

(** Two loads side by side make one. *)
Lemma load_app h p n bs m cs :
  load h p n = Some bs -> load h (ptr_add p n) m = Some cs -> load h p (n + m) = Some (bs ++ cs).
Proof.
  rewrite !load_Some. intros (b & Hb & (H1 & H2 & H3) & ->) (b' & Hb' & (H1' & H2' & H3') & ->).
  cbn [ptr_add p_blk p_ofs] in *. rewrite Hb in Hb'. injection Hb' as <-.
  exists b. split; [exact Hb|]. split; [lia|]. now rewrite slice_cat by lia.
Qed.

(** A store into an allocated region succeeds. *)
Lemma store_defined h p bs : valid_range h p (len bs) -> exists h', store h p bs = Some h'.
Proof. intros H. destruct (store_valid _ _ _ H) as (b & _ & E). eauto. Qed.

(** A store right behind a region that reads [pre] makes it read
    [pre ++ bs]. *)
Lemma load_store_extend h p k pre bs h' :
  load h p k = Some pre -> store h (ptr_add p k) bs = Some h' ->
  load h' p (k + len bs) = Some (pre ++ bs).
Proof.
  intros Hl Hs. pose proof (load_len _ _ _ _ Hl) as <-.
  rewrite (store_store_adj _ _ _ _ _ (store_same _ _ _ _ Hl)) in Hs.
  rewrite <- len_app. eapply load_store_same; exact Hs.
Qed.

(** ** The order of heaps *)

#[export] Instance heap_le_preorder : PreOrder heap_le.
Proof.
  split; [intros h; split; [lia | eauto]|].
  intros h1 h2 h3 [A1 V1] [A2 V2]. split; [lia|]. intros k b Hb.
  destruct (V1 k b Hb) as (b2 & Hb2 & L2). destruct (V2 k b2 Hb2) as (b3 & Hb3 & L3).
  exists b3. split; [exact Hb3 | lia].
Qed.

Lemma heap_le_valid_range h h' p n : heap_le h h' -> valid_range h p n -> valid_range h' p n.
Proof.
  intros [_ V] (b & Hb & Hq). destruct (V _ _ Hb) as (b' & Hb' & L).
  exists b'. split; [exact Hb' | lia].
Qed.

#[export] Instance valid_range_heap_le : Proper (heap_le ==> eq ==> eq ==> impl) valid_range.
Proof. intros h h' Hle p ? <- n ? <- H. now apply (heap_le_valid_range h). Qed.

#[export] Instance valid_range_heap_le_flip :
  Proper (heap_le --> eq ==> eq ==> flip impl) valid_range.
Proof. intros h h' Hle p ? <- n ? <- H. now apply (heap_le_valid_range h'). Qed.

(** A block keeps its extent, and a block that is not there was not
    there before. *)
Lemma heap_le_block_of h h' p n : heap_le h h' -> block_of h p n -> block_of h' p n.
Proof.
  intros [_ V] (Hp & b & Hb & L). destruct (V _ _ Hb) as (b' & Hb' & L').
  split; [exact Hp|]. exists b'. split; [exact Hb' | lia].
Qed.

Lemma heap_le_fresh h h' k : heap_le h h' -> heap_cells h' !! k = None -> heap_cells h !! k = None.
Proof.
  intros [_ V] Hn. destruct (heap_cells h !! k) as [b|] eqn:Hb; [|reflexivity].
  destruct (V _ _ Hb) as (b' & Hb' & _). congruence.
Qed.

(** Heaps with the same allocated regions and the same bytes left. *)
Lemma heap_le_same h h' :
  heap_avail h' = heap_avail h -> (forall p n, valid_range h' p n <-> valid_range h p n) ->
  heap_le h h'.
Proof.
  intros Ha Hv. split; [lia|]. intros k b Hb.
  assert (H1 : valid_range h (Ptr k 0) (len b)) by (exists b; simpl; len_facts; auto with lia).
  apply Hv in H1 as (b' & Hb' & _ & _ & L). simpl in *. exists b'. split; [exact Hb'|].
  assert (H2 : valid_range h' (Ptr k 0) (len b')) by (exists b'; simpl; len_facts; auto with lia).
  apply Hv in H2 as (c & Hc & _ & _ & L'). simpl in *. simplify_eq. lia.
Qed.

Lemma store_valid_range_inv h p bs h' q n :
  store h p bs = Some h' -> valid_range h' q n -> valid_range h q n.
Proof.
  rewrite store_Some. intros (b & Hb & (H1 & H2) & ->) (c & Hc & Hq). simpl in Hc.
  destruct (decide (p_blk p = p_blk q)) as [e|ne].
  - rewrite e, lookup_insert_eq in Hc. injection Hc as <-.
    rewrite len_splice in Hq by lia. exists b. rewrite <- e. auto.
  - rewrite lookup_insert_ne in Hc by assumption. exists c. auto.
Qed.

Lemma store_heap_le h p bs h' : store h p bs = Some h' -> heap_le h h'.
Proof.
  intros H. split; [rewrite (store_avail _ _ _ _ H); lia|]. revert H.
  rewrite store_Some. intros (b & Hb & (H1 & H2) & ->) k c Hc. simpl.
  destruct (decide (p_blk p = k)) as [<-|ne].
  - rewrite lookup_insert_eq. simplify_eq. eexists. split; [reflexivity|]. now apply len_splice.
  - rewrite lookup_insert_ne by assumption. eauto.
Qed.

(** An allocation takes its size from the bytes left. *)
Lemma malloc_avail h n p h' : malloc h n = (Some p, h') -> heap_avail h' = heap_avail h - n.
Proof. unfold malloc. destruct (n <=? heap_avail h); [|discriminate]. now intros [= _ <-]. Qed.

Lemma malloc_heap_le h n p h' : 0 <= n -> malloc h n = (p, h') -> heap_le h h'.
Proof.
  intros Hn Hm. destruct p as [p|].
  - destruct (malloc_fresh _ _ _ _ Hm) as [Hf _]. revert Hm Hf. unfold malloc.
    destruct (n <=? heap_avail h); [|discriminate]. intros [= <- <-] Hf. simpl in *.
    split; [simpl; lia|]. intros k b Hb. simpl.
    rewrite lookup_insert_ne by congruence. eauto.
  - revert Hm. unfold malloc. destruct (n <=? heap_avail h); [discriminate|].
    intros [= <-]. reflexivity.
Qed.

(** ** Accesses behind the end of a block *)

Lemma malloc_block_of h n p h' : 0 <= n -> malloc h n = (Some p, h') -> block_of h' p n.
Proof.
  intros Hn. unfold malloc. destruct (n <=? heap_avail h); [|discriminate].
  intros [= <- <-]. split; [reflexivity|]. eexists. simpl. rewrite lookup_insert_eq.
  split; [reflexivity|]. len.
Qed.

Lemma store_block_of h q bs h' p n :
  store h q bs = Some h' -> block_of h p n -> block_of h' p n.
Proof.
  rewrite store_Some. intros (b & Hb & (H1 & H2) & ->) (Hp & c & Hc & Hl).
  split; [exact Hp|]. simpl. destruct (decide (p_blk q = p_blk p)) as [e|ne].
  - rewrite e, lookup_insert_eq. rewrite e in Hb. simplify_eq. eexists. split; [reflexivity|].
    now rewrite len_splice by lia.
  - rewrite lookup_insert_ne by assumption. eauto.
Qed.

(** A store that ends behind the block of a buffer is refused. *)
Lemma store_behind h p n k bs :
  block_of h p n -> n < k + len bs -> store h (ptr_add p k) bs = None.
Proof.
  intros (Hp & b & Hb & Hl) Hk. unfold store, ptr_add. cbn [p_blk p_ofs]. rewrite Hb.
  rewrite (proj2 (in_bounds_false _ _ _)); [reflexivity|]. lia.
Qed.

(** So is a load that ends behind its block. *)
Lemma load_behind h p n c :
  heap_cells h !! p_blk p = Some c -> len c < p_ofs p + n -> load h p n = None.
Proof.
  intros Hc Hl. unfold load. rewrite Hc.
  rewrite (proj2 (in_bounds_false _ _ _)); [reflexivity|]. lia.
Qed.
