(* ===== verification/Layout.v ===== *)
(** * Layout: record header and tail, dblk arithmetic, the checks of jrec

    The structs [rec_hdr_t], [txn_hdr_t] and [rec_tail_t], the constants and
    the static helpers of the base class jrec are declared in headers that
    are not part of the sources at hand; they are modelled from the
    specification (sections 3, 4.1, 6 and 7) and from the way txn_rec.cpp
    uses them: the argument lists of [txn_hdr_init], [rec_tail_init] and
    [rec_tail_copy], [sizeof(rec_hdr_t)] as the offset of [_xidsize], the
    header fitting the first dblk.  The on-disk image is little endian with
    a 64-bit [size_t]:
    - header: [_magic] 4, [_version] 1, one byte of padding, [_uflag] 2,
      [_rid] 8, [_xidsize] 8 (24 bytes);
    - tail: [_xmagic] 4, [_checksum] 4, [_rid] 8 (16 bytes).
    The tail's [_rid] is the field [_tail_rid] here, since one name cannot
    be a field of two records. *)

From Stdlib Require Import ZArith Lia List.
From coqutil Require Import Byte Word.LittleEndianList.
From stdpp Require Import base option list.
From S2P Require Import Prelude.

#[local] Open Scope Z_scope.

(** ** Constants *)

Definition JRNL_DBLK_SIZE : Z := 128.
Definition QLS_JRNL_VERSION : Z := 2.
Definition QLS_TXA_MAGIC : Z := 0x61534c51.
Definition QLS_TXC_MAGIC : Z := 0x63534c51.

(** The error codes of jerrno that the codec throws.  The specification
    calls them OutOfMemory, BadRecordHeader, BadRecordTail and
    RecordIdMismatch. *)
Inductive jerrno : Type :=
| JERR__MALLOC
| JERR_JREC_BADRECHDR
| JERR_JREC_BADRECTAIL
| JERR_JREC_RIDMISMATCH.

#[export] Instance jerrno_eq_dec : EqDecision jerrno.
Proof. solve_decision. Defined.

(** ** The structs *)

Record rec_hdr_t : Type := Build_rec_hdr {
  _magic : Z;
  _version : Z;
  _uflag : Z;
  _rid : Z
}.

Record txn_hdr_t : Type := Build_txn_hdr {
  _rhdr : rec_hdr_t;
  _xidsize : Z
}.

Record rec_tail_t : Type := Build_rec_tail {
  _xmagic : Z;
  _checksum : Z;
  _tail_rid : Z
}.

Definition sizeof_rec_hdr_t : Z := 16.
Definition sizeof_txn_hdr_t : Z := 24.
Definition sizeof_rec_tail_t : Z := 16.

(** Every field holds a value of its C type. *)
Definition rec_hdr_wf (h : rec_hdr_t) : Prop :=
  0 <= _magic h < 2 ^ 32 /\ 0 <= _version h < 2 ^ 8 /\
  0 <= _uflag h < 2 ^ 16 /\ 0 <= _rid h < 2 ^ 64.

Definition txn_hdr_wf (t : txn_hdr_t) : Prop :=
  rec_hdr_wf (_rhdr t) /\ 0 <= _xidsize t < 2 ^ 64.

Definition rec_tail_wf (t : rec_tail_t) : Prop :=
  0 <= _xmagic t < 2 ^ 32 /\ 0 <= _checksum t < 2 ^ 32 /\ 0 <= _tail_rid t < 2 ^ 64.

(** ** Byte images *)

Definition rec_hdr_bytes (h : rec_hdr_t) : list byte :=
  le_split 4 (_magic h) ++ le_split 1 (_version h) ++ le_split 1 0 ++
  le_split 2 (_uflag h) ++ le_split 8 (_rid h).

Definition txn_hdr_bytes (t : txn_hdr_t) : list byte :=
  rec_hdr_bytes (_rhdr t) ++ le_split 8 (_xidsize t).

Definition rec_tail_bytes (t : rec_tail_t) : list byte :=
  le_split 4 (_xmagic t) ++ le_split 4 (_checksum t) ++ le_split 8 (_tail_rid t).

Definition rec_hdr_of_bytes (bs : list byte) : rec_hdr_t :=
  {| _magic := le_combine (slice 0 4 bs);
     _version := le_combine (slice 4 1 bs);
     _uflag := le_combine (slice 6 2 bs);
     _rid := le_combine (slice 8 8 bs) |}.

Definition txn_hdr_of_bytes (bs : list byte) : txn_hdr_t :=
  {| _rhdr := rec_hdr_of_bytes (slice 0 16 bs);
     _xidsize := le_combine (slice 16 8 bs) |}.

Definition rec_tail_of_bytes (bs : list byte) : rec_tail_t :=
  {| _xmagic := le_combine (slice 0 4 bs);
     _checksum := le_combine (slice 4 4 bs);
     _tail_rid := le_combine (slice 8 8 bs) |}.

#[global] Arguments rec_hdr_bytes : simpl never.
#[global] Arguments txn_hdr_bytes : simpl never.
#[global] Arguments rec_tail_bytes : simpl never.

(** ** The C helpers that fill the structs *)

Definition rec_hdr_init (magic version uflag rid : Z) : rec_hdr_t :=
  {| _magic := magic; _version := version; _uflag := uflag; _rid := rid |}.

Definition rec_hdr_copy (src : rec_hdr_t) : rec_hdr_t :=
  {| _magic := _magic src; _version := _version src; _uflag := _uflag src; _rid := _rid src |}.

Definition txn_hdr_init (magic version uflag rid xidsize : Z) : txn_hdr_t :=
  {| _rhdr := rec_hdr_init magic version uflag rid; _xidsize := xidsize |}.

Definition rec_tail_init (xmagic checksum rid : Z) : rec_tail_t :=
  {| _xmagic := xmagic; _checksum := checksum; _tail_rid := rid |}.

Definition rec_tail_copy (src : rec_hdr_t) (checksum : Z) : rec_tail_t :=
  {| _xmagic := not32 (_magic src); _checksum := checksum; _tail_rid := _rid src |}.

(** ** dblk arithmetic *)

(** [jrec::size_dblks]: the dblks that [size] bytes take, as a uint32_t. *)
Definition size_dblks (size : Z) : Z :=
  uint32_t (size_t (size + JRNL_DBLK_SIZE - 1) / JRNL_DBLK_SIZE).

(** [n * JRNL_DBLK_SIZE] for a uint32_t [n]: the product of an unsigned
    int and an int constant, an unsigned int. *)
Definition dblk_bytes (n : Z) : Z := uint32_t (n * JRNL_DBLK_SIZE).

(** ** The checks of jrec *)

Section Checks.
Context {S : Type}.

Definition jrec_chk_hdr (hdr : rec_hdr_t) : M S jerrno unit :=
  if (_magic hdr =? 0) || negb (_version hdr =? QLS_JRNL_VERSION)
  then throw JERR_JREC_BADRECHDR
  else ret tt.

Definition jrec_chk_rid (hdr : rec_hdr_t) (rid : Z) : M S jerrno unit :=
  if negb (_rid hdr =? rid) then throw JERR_JREC_RIDMISMATCH else ret tt.

Definition jrec_chk_tail (tail : rec_tail_t) (hdr : rec_hdr_t) : M S jerrno unit :=
  if negb (_xmagic tail =? not32 (_magic hdr)) then throw JERR_JREC_BADRECTAIL
  else if negb (_tail_rid tail =? _rid hdr) then throw JERR_JREC_BADRECTAIL
  else ret tt.

End Checks.

(** The tail belongs to the header. *)
Definition tail_matches (tail : rec_tail_t) (hdr : rec_hdr_t) : Prop :=
  _xmagic tail = not32 (_magic hdr) /\ _tail_rid tail = _rid hdr.

#[export] Instance tail_matches_dec tail hdr : Decision (tail_matches tail hdr).
Proof. unfold tail_matches. apply _. Defined.

(** ** Lemmas: lengths *)

Lemma len_rec_hdr_bytes h : len (rec_hdr_bytes h) = 16.
Proof. unfold rec_hdr_bytes. len. Qed.

Lemma len_txn_hdr_bytes t : len (txn_hdr_bytes t) = 24.
Proof. unfold txn_hdr_bytes. rewrite len_app, len_rec_hdr_bytes. len. Qed.

Lemma len_rec_tail_bytes t : len (rec_tail_bytes t) = 16.
Proof. unfold rec_tail_bytes. len. Qed.

#[export] Hint Rewrite len_rec_hdr_bytes len_txn_hdr_bytes len_rec_tail_bytes : len.

(** [consts] opens the sizes, which [lia] needs as numbers. *)
Ltac consts :=
  unfold sizeof_txn_hdr_t, sizeof_rec_tail_t, sizeof_rec_hdr_t, JRNL_DBLK_SIZE in *.

(** ** Lemmas: the images are faithful *)

Lemma le_roundtrip n z :
  0 <= z < 2 ^ (Z.of_nat n * 8) -> le_combine (le_split n z) = z.
Proof. intros H. rewrite le_combine_split. now apply Z.mod_small. Qed.

Lemma rec_tail_of_bytes_bytes t : rec_tail_wf t -> rec_tail_of_bytes (rec_tail_bytes t) = t.
Proof.
  intros (H1 & H2 & H3). destruct t as [m c r]. simpl in *.
  unfold rec_tail_of_bytes, rec_tail_bytes. cbn [_xmagic _checksum _tail_rid].
  replace (slice 0 4 _) with (le_split 4 m) by (symmetry; slices).
  replace (slice 4 4 _) with (le_split 4 c) by (symmetry; slices).
  replace (slice 8 8 _) with (le_split 8 r) by (symmetry; slices).
  rewrite !le_roundtrip by assumption. reflexivity.
Qed.

Lemma rec_hdr_of_bytes_bytes h : rec_hdr_wf h -> rec_hdr_of_bytes (rec_hdr_bytes h) = h.
Proof.
  intros (H1 & H2 & H3 & H4). destruct h as [m v u r]. simpl in *.
  unfold rec_hdr_of_bytes, rec_hdr_bytes. cbn [_magic _version _uflag _rid].
  replace (slice 0 4 _) with (le_split 4 m) by (symmetry; slices).
  replace (slice 4 1 _) with (le_split 1 v) by (symmetry; slices).
  replace (slice 6 2 _) with (le_split 2 u) by (symmetry; slices).
  replace (slice 8 8 _) with (le_split 8 r) by (symmetry; slices).
  rewrite !le_roundtrip by assumption. reflexivity.
Qed.

Lemma le_split_combine_slice (n : nat) off (bs : list byte) :
  0 <= off -> off + Z.of_nat n <= len bs ->
  le_split n (le_combine (slice off (Z.of_nat n) bs)) = slice off (Z.of_nat n) bs.
Proof.
  intros Ho Hb. apply split_le_combine'. apply Nat2Z.inj.
  fold (len (slice off (Z.of_nat n) bs)). rewrite len_slice_in; lia.
Qed.

(** Zeros make the number 0. *)
Lemma le_combine_zeros a b n : le_combine (slice a b (replicate n Byte.x00)) = 0.
Proof.
  unfold slice. rewrite drop_replicate, take_replicate.
  induction (_ `min` _)%nat as [|m IH]; [reflexivity|].
  cbn [replicate]. unfold le_combine. fold le_combine. now rewrite IH.
Qed.

Lemma rec_tail_bytes_of_bytes bs :
  len bs = sizeof_rec_tail_t -> rec_tail_bytes (rec_tail_of_bytes bs) = bs.
Proof.
  unfold sizeof_rec_tail_t. intros H.
  unfold rec_tail_bytes, rec_tail_of_bytes. cbn [_xmagic _checksum _tail_rid].
  rewrite (le_split_combine_slice 4 0), (le_split_combine_slice 4 4),
    (le_split_combine_slice 8 8) by lia.
  cbn [Z.of_nat Pos.of_succ_nat Pos.succ]. rewrite !slice_cat by lia.
  apply slice_all. lia.
Qed.

Lemma rec_tail_of_bytes_wf bs : rec_tail_wf (rec_tail_of_bytes bs).
Proof.
  unfold rec_tail_wf, rec_tail_of_bytes. simpl.
  pose proof (le_combine_bound (slice 0 4 bs)) as H1.
  pose proof (le_combine_bound (slice 4 4 bs)) as H2.
  pose proof (le_combine_bound (slice 8 8 bs)) as H3.
  assert (forall o n (l : list byte), 0 <= o -> 0 <= n ->
            2 ^ (8 * Z.of_nat (length (slice o n l))) <= 2 ^ (8 * n)) as Hp.
  { intros o n l Ho Hn. apply Z.pow_le_mono_r; [lia|].
    fold (len (slice o n l)). rewrite len_slice by lia. len_facts. lia. }
  pose proof (Hp 0 4 bs). pose proof (Hp 4 4 bs). pose proof (Hp 8 8 bs).
  change (2 ^ (8 * 4)) with (2 ^ 32) in *. change (2 ^ (8 * 8)) with (2 ^ 64) in *.
  lia.
Qed.

(** ** Lemmas: dblk arithmetic *)

Lemma size_dblks_small size :
  0 <= size < 2 ^ 32 * 128 - 127 -> size_dblks size = (size + 127) / 128.
Proof.
  intros H. unfold size_dblks, JRNL_DBLK_SIZE.
  rewrite size_t_small by lia. replace (size + 128 - 1) with (size + 127) by lia.
  apply uint32_t_small. split; [apply Z.div_pos; lia|].
  apply Z.div_lt_upper_bound; lia.
Qed.

Lemma size_dblks_ceil size :
  0 <= size < 2 ^ 32 * 128 - 127 ->
  128 * (size_dblks size - 1) < size <= 128 * size_dblks size.
Proof. intros H. rewrite size_dblks_small by assumption. cast_lia. Qed.

Lemma size_dblks_mul n : 0 <= n < 2 ^ 32 -> size_dblks (n * 128) = n.
Proof. intros H. rewrite size_dblks_small by lia. cast_lia. Qed.

Lemma dblk_bytes_small n : 0 <= n < 2 ^ 25 -> dblk_bytes n = n * 128.
Proof. intros H. unfold dblk_bytes, JRNL_DBLK_SIZE. apply uint32_t_small. lia. Qed.

(** ** Lemmas: the checks *)

Section CheckLemmas.
Context {S : Type}.
Implicit Types (s : S).

Lemma jrec_chk_tail_ok tail hdr s :
  tail_matches tail hdr -> jrec_chk_tail tail hdr s = (Ok tt, s).
Proof.
  intros [H1 H2]. unfold jrec_chk_tail.
  rewrite (proj2 (Z.eqb_eq _ _) H1), (proj2 (Z.eqb_eq _ _) H2). reflexivity.
Qed.

Lemma jrec_chk_tail_bad tail hdr s :
  ~ tail_matches tail hdr ->
  jrec_chk_tail tail hdr s = (Err (Throw JERR_JREC_BADRECTAIL), s).
Proof.
  intros H. unfold jrec_chk_tail, tail_matches in *.
  destruct (Z.eqb_spec (_xmagic tail) (not32 (_magic hdr))); [|reflexivity].
  destruct (Z.eqb_spec (_tail_rid tail) (_rid hdr)); [tauto|reflexivity].
Qed.

Lemma jrec_chk_hdr_ok hdr s :
  _magic hdr <> 0 -> _version hdr = QLS_JRNL_VERSION -> jrec_chk_hdr hdr s = (Ok tt, s).
Proof.
  intros H1 H2. unfold jrec_chk_hdr.
  rewrite (proj2 (Z.eqb_neq _ _) H1), (proj2 (Z.eqb_eq _ _) H2). reflexivity.
Qed.

End CheckLemmas.

Lemma rec_tail_copy_matches hdr c : tail_matches (rec_tail_copy hdr c) hdr.
Proof. split; reflexivity. Qed.

Lemma rec_tail_copy_wf hdr c :
  rec_hdr_wf hdr -> 0 <= c < 2 ^ 32 -> rec_tail_wf (rec_tail_copy hdr c).
Proof.
  intros (H1 & _ & _ & H4) Hc. unfold rec_tail_wf, rec_tail_copy. simpl.
  rewrite not32_small by assumption. lia.
Qed.

Lemma dblk_size_dblks n :
  0 <= n <= 2 ^ 32 - 128 -> dblk_bytes (size_dblks n) = (n + 127) / 128 * 128.
Proof.
  intros H. rewrite size_dblks_small by lia. apply dblk_bytes_small. cast_lia.
Qed.
(** A copy into the tail behind a prefix that agrees with [t0] extends
    the agreement. *)
Lemma tail_extend t t0 off n k :
  slice 0 off (rec_tail_bytes t) = slice 0 off (rec_tail_bytes t0) ->
  0 <= off -> 0 <= n -> off + n <= 16 -> k <= off + n ->
  slice 0 k (rec_tail_bytes (rec_tail_of_bytes
     (splice (rec_tail_bytes t) off (slice off n (rec_tail_bytes t0)))))
  = slice 0 k (rec_tail_bytes t0).
Proof.
  intros Hp Ho Hn Hb Hk.
  rewrite rec_tail_bytes_of_bytes by (rewrite len_splice; consts; len; rewrite len_slice_in; len).
  unfold splice. rewrite Hp, app_assoc, slice_cat by lia.
  destruct (Z.le_gt_cases k 0); [rewrite !slice_nil by lia; reflexivity|].
  slice_norm. slice_clean. apply slice_clamp_eq; len.
Qed.

Lemma rec_tail_bytes_inj t t' :
  rec_tail_wf t -> rec_tail_wf t' -> rec_tail_bytes t = rec_tail_bytes t' -> t = t'.
Proof.
  intros H H' E. rewrite <- (rec_tail_of_bytes_bytes t H), E. now apply rec_tail_of_bytes_bytes.
Qed.

Lemma tail_full t t0 :
  rec_tail_wf t -> rec_tail_wf t0 ->
  slice 0 16 (rec_tail_bytes t) = slice 0 16 (rec_tail_bytes t0) -> t = t0.
Proof. intros H H0. rewrite !slice_all by len. now apply rec_tail_bytes_inj. Qed.

(** The copy that completes the tail yields the tail [t0]. *)
Lemma tail_complete t t0 off :
  slice 0 off (rec_tail_bytes t) = slice 0 off (rec_tail_bytes t0) ->
  rec_tail_wf t0 -> 0 <= off <= 16 ->
  rec_tail_of_bytes (splice (rec_tail_bytes t) off (slice off (16 - off) (rec_tail_bytes t0)))
  = t0.
Proof.
  intros Hp H0 Ho. apply tail_full; [apply rec_tail_of_bytes_wf | exact H0 |].
  apply tail_extend; [exact Hp | lia ..].
Qed.
