(* ===== verification/Stream.v ===== *)
(** * Stream: the operations of [std::ifstream] that recovery uses

    [rcv_decode] reads the journal file through a [std::ifstream*].  Of
    the stream the model keeps what these calls observe: the bytes of the
    file, the read position, the count of the last unformatted input
    operation and the three state bits.  The operations follow the rules
    of unformatted input of the C++ standard library:

    - an input operation on a stream that is not good() sets failbit,
      extracts nothing and leaves 0 in gcount();
    - [read(s, n)] extracts [n] characters, or as many as the file has
      left; in the second case it sets eofbit and failbit;
    - [ignore(n)] extracts and discards [n] characters, or as many as the
      file has left; in the second case it sets eofbit only;
    - [clear(state)] replaces the state bits.

    A count is a [std::streamsize], a signed 64-bit integer: [streamsize]
    is the conversion from size_t.  A count that is not positive extracts
    nothing. *)

From Stdlib Require Import ZArith Lia List.
From coqutil Require Import Byte.
From stdpp Require Import base option list.
From S2P Require Import Prelude.

#[local] Open Scope Z_scope.

Record ifstream : Type := Ifstream {
  is_data : list byte;
  is_pos : Z;
  is_gcount : Z;
  eofbit : bool;
  failbit : bool;
  badbit : bool
}.

(** The conversion of a size_t to [std::streamsize]. *)
Definition streamsize (z : Z) : Z := (z + 2 ^ 63) mod 2 ^ 64 - 2 ^ 63.

(** [good()], [eof()], [fail()], [bad()], [gcount()] *)
Definition ifs_good (s : ifstream) : bool := negb (eofbit s || failbit s || badbit s).
Definition ifs_eof (s : ifstream) : bool := eofbit s.
Definition ifs_fail (s : ifstream) : bool := failbit s || badbit s.
Definition ifs_bad (s : ifstream) : bool := badbit s.
Definition ifs_gcount (s : ifstream) : Z := is_gcount s.

(** The characters the file has left. *)
Definition ifs_avail (s : ifstream) : Z := len (is_data s) - is_pos s.

(** The characters an operation asked for [n] extracts. *)
Definition ifs_take (n : Z) (s : ifstream) : Z := Z.max 0 (Z.min n (ifs_avail s)).

(** The stream after an input operation that was refused because the
    stream was not good(). *)
Definition ifs_refuse (s : ifstream) : ifstream :=
  {| is_data := is_data s; is_pos := is_pos s; is_gcount := 0;
     eofbit := eofbit s; failbit := true; badbit := badbit s |}.

(** [read(s, n)]: the characters stored at [s] and the stream after. *)
Definition ifs_read (n : Z) (s : ifstream) : list byte * ifstream :=
  if ifs_good s
  then let k := ifs_take n s in
       (slice (is_pos s) k (is_data s),
        {| is_data := is_data s; is_pos := is_pos s + k; is_gcount := k;
           eofbit := k <? n; failbit := k <? n; badbit := badbit s |})
  else ([], ifs_refuse s).

(** [ignore(n)] *)
Definition ifs_ignore (n : Z) (s : ifstream) : ifstream :=
  if ifs_good s
  then let k := ifs_take n s in
       {| is_data := is_data s; is_pos := is_pos s + k; is_gcount := k;
          eofbit := k <? n; failbit := failbit s; badbit := badbit s |}
  else ifs_refuse s.

(** [clear(rdstate() & ~failbit)] *)
Definition ifs_clear_fail (s : ifstream) : ifstream :=
  {| is_data := is_data s; is_pos := is_pos s; is_gcount := is_gcount s;
     eofbit := eofbit s; failbit := false; badbit := badbit s |}.

(** The position lies in the file. *)
Definition ifs_wf (s : ifstream) : Prop := 0 <= is_pos s <= len (is_data s).

(** The file [F] holds the bytes [img] from position [p0] on, as far as
    the file goes. *)
Definition file_holds (F : list byte) (p0 : Z) (img : list byte) : Prop :=
  0 <= p0 <= len F /\ slice p0 (len img) F = slice 0 (len F - p0) img.

(** The stream reads the file [F], stands at [p] and is good. *)
Record stream_at (F : list byte) (p : Z) (i : ifstream) : Prop := {
  sa_data : is_data i = F;
  sa_pos : is_pos i = p;
  sa_good : ifs_good i = true;
  sa_in : 0 <= p <= len F
}.

(** ** Lemmas *)

Lemma streamsize_small z : 0 <= z < 2 ^ 63 -> streamsize z = z.
Proof. intros H. unfold streamsize. Z.div_mod_to_equations. lia. Qed.

Lemma ifs_take_range n s : ifs_wf s -> 0 <= ifs_take n s <= ifs_avail s.
Proof. unfold ifs_wf, ifs_take, ifs_avail. lia. Qed.

Lemma ifs_take_le n s : 0 <= n -> ifs_take n s <= n.
Proof. unfold ifs_take. lia. Qed.

Lemma ifs_take_all n s : 0 <= n <= ifs_avail s -> ifs_take n s = n.
Proof. unfold ifs_take. lia. Qed.

Lemma ifs_take_short n s : ifs_wf s -> ifs_avail s < n -> ifs_take n s = ifs_avail s.
Proof. unfold ifs_wf, ifs_take, ifs_avail. lia. Qed.

Section Good.
Context (s : ifstream) (Hgood : ifs_good s = true) (Hwf : ifs_wf s).

Lemma ifs_good_bits : eofbit s = false /\ failbit s = false /\ badbit s = false.
Proof. unfold ifs_good in Hgood. destruct (eofbit s), (failbit s), (badbit s); auto. Qed.

(** A read that the file satisfies leaves the stream good. *)
Lemma ifs_read_all n :
  0 <= n <= ifs_avail s ->
  ifs_read n s =
  (slice (is_pos s) n (is_data s),
   {| is_data := is_data s; is_pos := is_pos s + n; is_gcount := n;
      eofbit := false; failbit := false; badbit := badbit s |}).
Proof.
  intros Hn. unfold ifs_read. rewrite Hgood. cbv zeta. rewrite ifs_take_all by assumption.
  now rewrite Z.ltb_irrefl.
Qed.

(** A read past the end of the file yields what is left and sets eofbit
    and failbit. *)
Lemma ifs_read_short n :
  ifs_avail s < n ->
  ifs_read n s =
  (slice (is_pos s) (ifs_avail s) (is_data s),
   {| is_data := is_data s; is_pos := len (is_data s); is_gcount := ifs_avail s;
      eofbit := true; failbit := true; badbit := badbit s |}).
Proof.
  intros Hn. unfold ifs_read. rewrite Hgood. cbv zeta. rewrite ifs_take_short by assumption.
  rewrite (proj2 (Z.ltb_lt _ _) Hn). unfold ifs_avail. do 3 f_equal. lia.
Qed.

Lemma ifs_ignore_wf n : ifs_wf (ifs_ignore n s).
Proof.
  unfold ifs_ignore. rewrite Hgood. pose proof (ifs_take_range n s Hwf).
  unfold ifs_wf, ifs_avail in *. simpl. lia.
Qed.

(** ignore never sets failbit on a good stream. *)
Lemma ifs_ignore_fail n : ifs_fail (ifs_ignore n s) = false.
Proof.
  unfold ifs_ignore, ifs_fail. rewrite Hgood. simpl.
  destruct ifs_good_bits as (_ & -> & ->). reflexivity.
Qed.

End Good.

Lemma ifs_read_wf n s : ifs_wf s -> ifs_wf (snd (ifs_read n s)).
Proof.
  intros Hwf. unfold ifs_read. destruct (ifs_good s); [|exact Hwf].
  pose proof (ifs_take_range n s Hwf). unfold ifs_wf, ifs_avail in *. simpl. lia.
Qed.

Lemma ifs_read_len n s : ifs_wf s -> len (fst (ifs_read n s)) = is_gcount (snd (ifs_read n s)).
Proof.
  intros Hwf. unfold ifs_read. destruct (ifs_good s); [|reflexivity].
  pose proof (ifs_take_range n s Hwf). unfold ifs_wf, ifs_avail in *. simpl.
  rewrite len_slice_in; lia.
Qed.

(** An input operation on a stream that is not good extracts nothing. *)
Lemma ifs_read_refused n s : ifs_good s = false -> ifs_read n s = ([], ifs_refuse s).
Proof. intros H. unfold ifs_read. now rewrite H. Qed.

(** ** Reading a file that holds known bytes *)

Lemma file_holds_slice F p0 img t n :
  file_holds F p0 img -> 0 <= t -> 0 <= n -> t + n <= len img -> t + n <= len F - p0 ->
  slice (p0 + t) n F = slice t n img.
Proof.
  intros [Hp H] Ht Hn Hi Hf.
  transitivity (slice t n (slice p0 (len img) F)).
  - rewrite slice_slice by lia. f_equal. lia.
  - rewrite H, slice_slice by lia. f_equal. lia.
Qed.

Section At.
Context (F : list byte) (p : Z) (i : ifstream) (Hat : stream_at F p i).

Lemma stream_at_bits : eofbit i = false /\ failbit i = false /\ badbit i = false.
Proof. apply ifs_good_bits, Hat. Qed.

Lemma ifs_read_at n :
  0 <= n < 2 ^ 63 ->
  ifs_read (streamsize n) i =
  (slice p (Z.min n (len F - p)) F,
   Ifstream F (p + Z.min n (len F - p)) (Z.min n (len F - p))
     (len F - p <? n) (len F - p <? n) false).
Proof.
  intros Hn. destruct Hat as [Hd Hp Hg Hin]. destruct stream_at_bits as (_ & _ & Hb).
  unfold ifs_read, ifs_take, ifs_avail. rewrite Hg, Hd, Hp, Hb, streamsize_small by lia.
  cbv zeta. rewrite Z.max_r by lia.
  replace (Z.min n (len F - p) <? n) with (len F - p <? n) by lia. reflexivity.
Qed.

Lemma ifs_ignore_at n :
  0 <= n < 2 ^ 63 ->
  ifs_ignore (streamsize n) i =
  Ifstream F (p + Z.min n (len F - p)) (Z.min n (len F - p)) (len F - p <? n) false false.
Proof.
  intros Hn. destruct Hat as [Hd Hp Hg Hin]. destruct stream_at_bits as (_ & Hf & Hb).
  unfold ifs_ignore, ifs_take, ifs_avail. rewrite Hg, Hd, Hp, Hf, Hb, streamsize_small by lia.
  cbv zeta. rewrite Z.max_r by lia.
  replace (Z.min n (len F - p) <? n) with (len F - p <? n) by lia. reflexivity.
Qed.

End At.

Lemma stream_at_read F p n :
  0 <= p -> 0 <= n -> p + n <= len F ->
  stream_at F (p + n) (Ifstream F (p + n) n false false false).
Proof. intros. split; simpl; auto; lia. Qed.
