(* ===== verification/TxnRec.v ===== *)
(** * TxnRec: the object, its constructors, reset, accessors and checks

    [txn_rec] holds the four data members of the class.  A method runs in
    [method A], the monad over the [world]: the heap and the object the
    method is called on.  Overloads of the source get names of their own:
    [txn_rec_ctor0] and [txn_rec_ctor] for the two constructors,
    [reset_magic] and [reset] for the two resets, [chk_hdr] and
    [chk_hdr_rid].  A parameter of type uint32_t, uint64_t or size_t is
    converted on entry, as the call converts its argument.

    [rec_image] is the reference serialisation every codec path is
    compared with. *)

From Stdlib Require Import ZArith Lia List.
From coqutil Require Import Byte Word.LittleEndianList.
From stdpp Require Import base option list gmap.
From S2P Require Import Prelude Memory Layout.

#[local] Open Scope Z_scope.
#[local] Open Scope jrnl_scope.

(** ** The object and the world *)

Record txn_rec : Type := Build_txn_rec {
  _txn_hdr : txn_hdr_t;
  _xidp : option ptr;
  _buff : option ptr;
  _txn_tail : rec_tail_t
}.

Record world : Type := World { mem : heap; this : txn_rec }.

Definition method (A : Type) : Type := M world jerrno A.

(** ** Access to the object and to memory from a method *)

Definition self : method txn_rec := fun w => (Ok (this w), w).

Definition set_this (f : txn_rec -> txn_rec) : method unit :=
  modify (fun w => World (mem w) (f (this w))).

Definition set_txn_hdr (h : txn_hdr_t) (r : txn_rec) : txn_rec :=
  Build_txn_rec h (_xidp r) (_buff r) (_txn_tail r).
Definition set_xidp (p : option ptr) (r : txn_rec) : txn_rec :=
  Build_txn_rec (_txn_hdr r) p (_buff r) (_txn_tail r).
Definition set_buff (p : option ptr) (r : txn_rec) : txn_rec :=
  Build_txn_rec (_txn_hdr r) (_xidp r) p (_txn_tail r).
Definition set_txn_tail (t : rec_tail_t) (r : txn_rec) : txn_rec :=
  Build_txn_rec (_txn_hdr r) (_xidp r) (_buff r) t.

Definition mem_load (p : ptr) (n : Z) : method (list byte) :=
  fun w => match load (mem w) p n with
           | Some bs => (Ok bs, w)
           | None => (Err Fault, w)
           end.

Definition mem_store (p : ptr) (bs : list byte) : method unit :=
  fun w => match store (mem w) p bs with
           | Some h => (Ok tt, World h (this w))
           | None => (Err Fault, w)
           end.

Definition mem_malloc (n : Z) : method (option ptr) :=
  fun w => let '(p, h) := malloc (mem w) n in (Ok p, World h (this w)).

(** [std::memcpy(dst, src, n)] between two regions of memory. *)
Definition memcpy_mm (dst src : ptr) (n : Z) : method unit :=
  bs <- mem_load src n ;; mem_store dst bs.

(** [std::memcpy(dst, (char* )&obj + off, n)]: out of a data member whose
    image is [obj]. *)
Definition memcpy_from_obj (dst : ptr) (obj : list byte) (off n : Z) : method unit :=
  if in_bounds obj off n then mem_store dst (slice off n obj) else raise Fault.

(** [std::memcpy((char* )&_txn_tail + off, src, n)]: into the tail member. *)
Definition memcpy_to_tail (off : Z) (src : ptr) (n : Z) : method unit :=
  bs <- mem_load src n ;;
  r <- self ;;
  let img := rec_tail_bytes (_txn_tail r) in
  if in_bounds img off n
  then set_this (set_txn_tail (rec_tail_of_bytes (splice img off bs)))
  else raise Fault.

(** [std::memset(dst, c, n)] *)
Definition mem_memset (dst : ptr) (c : byte) (n : Z) : method unit :=
  if 0 <=? n then mem_store dst (replicate (Z.to_nat n) c) else raise Fault.

(** [MALLOC_CHK(ptr, ...)]: clean up and throw when malloc returned 0. *)
Definition MALLOC_CHK (p : option ptr) (clean : method unit) : method ptr :=
  match p with
  | Some q => ret q
  | None => clean ;; throw JERR__MALLOC
  end.

(** ** Constructors *)

(** [txn_rec::txn_rec()] *)
Definition txn_rec_ctor0 : txn_rec :=
  {| _txn_hdr := txn_hdr_init 0 QLS_JRNL_VERSION 0 0 0;
     _xidp := None;
     _buff := None;
     _txn_tail := rec_tail_init 0 0 0 |}.

(** [txn_rec::txn_rec(magic, rid, xidp, xidlen)] *)
Definition txn_rec_ctor (magic rid : Z) (xidp : option ptr) (xidlen : Z) : txn_rec :=
  let hdr := txn_hdr_init (uint32_t magic) QLS_JRNL_VERSION 0 (uint64_t rid) (size_t xidlen) in
  {| _txn_hdr := hdr;
     _xidp := xidp;
     _buff := None;
     _txn_tail := rec_tail_copy (_rhdr hdr) 0 |}.

(** ** reset *)

Definition set_magic_rid (magic rid : Z) (h : rec_hdr_t) : rec_hdr_t :=
  {| _magic := magic; _version := _version h; _uflag := _uflag h; _rid := rid |}.

(** [txn_rec::reset(magic)] *)
Definition reset_magic (magic : Z) : method unit :=
  let magic := uint32_t magic in
  set_this (fun r =>
    {| _txn_hdr := {| _rhdr := set_magic_rid magic 0 (_rhdr (_txn_hdr r));
                      _xidsize := 0 |};
       _xidp := None;
       _buff := None;
       _txn_tail := {| _xmagic := not32 magic;
                       _checksum := _checksum (_txn_tail r);
                       _tail_rid := 0 |} |}).

(** [txn_rec::reset(magic, rid, xidp, xidlen)] *)
Definition reset (magic rid : Z) (xidp : option ptr) (xidlen : Z) : method unit :=
  let magic := uint32_t magic in
  let rid := uint64_t rid in
  set_this (fun r =>
    {| _txn_hdr := {| _rhdr := set_magic_rid magic rid (_rhdr (_txn_hdr r));
                      _xidsize := size_t xidlen |};
       _xidp := xidp;
       _buff := None;
       _txn_tail := {| _xmagic := not32 magic;
                       _checksum := _checksum (_txn_tail r);
                       _tail_rid := rid |} |}).

(** ** Accessors *)

(** [txn_rec::xid_size() const] *)
Definition xid_size (r : txn_rec) : Z := _xidsize (_txn_hdr r).

(** [txn_rec::rec_size() const] *)
Definition rec_size (r : txn_rec) : Z :=
  size_t (sizeof_txn_hdr_t + _xidsize (_txn_hdr r) + sizeof_rec_tail_t).

(** [jrec::rec_size_dblks() const] *)
Definition rec_size_dblks (r : txn_rec) : Z := size_dblks (rec_size r).

(** [txn_rec::get_xid(void** const xidpp)]: the pointer stored through
    [xidpp] and the size returned. *)
Definition get_xid : method (option ptr * Z) :=
  r <- self ;;
  match _buff r with
  | None => ret (None, 0)
  | Some b => ret (Some b, _xidsize (_txn_hdr r))
  end.

(** ** Checks *)

(** [txn_rec::chk_hdr() const] *)
Definition chk_hdr : method unit :=
  r <- self ;;
  let hdr := _rhdr (_txn_hdr r) in
  jrec_chk_hdr hdr ;;
  if negb (_magic hdr =? QLS_TXA_MAGIC) && negb (_magic hdr =? QLS_TXC_MAGIC)
  then throw JERR_JREC_BADRECHDR
  else ret tt.

(** [txn_rec::chk_hdr(uint64_t rid) const] *)
Definition chk_hdr_rid (rid : Z) : method unit :=
  chk_hdr ;;
  r <- self ;;
  jrec_chk_rid (_rhdr (_txn_hdr r)) (uint64_t rid).

(** [txn_rec::chk_tail() const] *)
Definition chk_tail : method unit :=
  r <- self ;;
  jrec_chk_tail (_txn_tail r) (_rhdr (_txn_hdr r)).

(** [txn_rec::clean()]: the body is empty. *)
Definition clean : method unit := ret tt.

(** [txn_rec::~txn_rec()] *)
Definition txn_rec_dtor : method unit := clean.

(** ** The reference serialisation and the invariants *)

Definition rec_image (r : txn_rec) (xid : list byte) : list byte :=
  txn_hdr_bytes (_txn_hdr r) ++ xid ++ rec_tail_bytes (_txn_tail r).

(** The fields hold values of their types. *)
Definition txn_rec_wf (r : txn_rec) : Prop :=
  txn_hdr_wf (_txn_hdr r) /\ rec_tail_wf (_txn_tail r).

(** The tail is the one of the header, as both constructors and both
    resets leave it. *)
Definition txn_rec_sealed (r : txn_rec) : Prop :=
  tail_matches (_txn_tail r) (_rhdr (_txn_hdr r)).

(** The magic is one of the two transaction magics. *)
Definition txn_magic (m : Z) : Prop := m = QLS_TXA_MAGIC \/ m = QLS_TXC_MAGIC.

#[export] Instance txn_magic_dec m : Decision (txn_magic m).
Proof. unfold txn_magic. apply _. Defined.

(** ** A small world to run the methods in

    An xid of 200 bytes in block 1, a page of four dblks in block 2 filled
    with 0xff, and the record the constructor builds for that xid: 240
    bytes, two dblks. *)

Definition ex_xid : list byte := map (fun n => byte.of_Z (Z.of_nat n)) (seq 0 200).

Definition ex_xidp : ptr := Ptr 1%positive 0.

Definition ex_page : ptr := Ptr 2%positive 0.

Definition ex_heap : heap :=
  Heap (<[1%positive := ex_xid]> (<[2%positive := replicate 512 Byte.xff]> ∅)) 4096.

Definition ex_rec : txn_rec := txn_rec_ctor QLS_TXA_MAGIC 7 (Some ex_xidp) 200.

Definition ex_world : world := World ex_heap ex_rec.

(** The method so far has written [acc] at [wp] and nothing else: the
    object is the one of [w0], the heap is the one of [w0] with [acc]
    stored at [wp]. *)
Definition wrote (w0 : world) (wp : ptr) (acc : list byte) (w : world) : Prop :=
  this w = this w0 /\ store (mem w0) wp acc = Some (mem w).

(** What a const method may change: bytes of allocated blocks.  The
    object, the set of blocks, their extents and the bytes left to
    allocate stay. *)
Definition same_obj (w w' : world) : Prop :=
  this w' = this w /\
  heap_avail (mem w') = heap_avail (mem w) /\
  dom (heap_cells (mem w')) = dom (heap_cells (mem w)) /\
  forall p n, valid_range (mem w') p n <-> valid_range (mem w) p n.

(** ** Lemmas: running the memory operations *)

#[export] Instance same_obj_preorder : PreOrder same_obj.
Proof.
  split; [now intros w|]. intros w1 w2 w3 (A1 & B1 & C1 & D1) (A2 & B2 & C2 & D2).
  split; [congruence|]. split; [congruence|]. split; [congruence|].
  intros p n. now rewrite D2, D1.
Qed.

Lemma stable_self : stable same_obj self.
Proof. intros w. reflexivity. Qed.

Lemma stable_mem_load p n : stable same_obj (mem_load p n).
Proof. intros w. unfold mem_load. destruct (load _ _ _); reflexivity. Qed.

Lemma stable_mem_store p bs : stable same_obj (mem_store p bs).
Proof.
  intros w. unfold mem_store. destruct (store _ _ _) as [h|] eqn:E; [|reflexivity].
  split; [reflexivity|]. split; [exact (store_avail _ _ _ _ E)|].
  split; [exact (store_dom _ _ _ _ E)|].
  intros q n. split; [apply (store_valid_range_inv _ _ _ _ _ _ E)|].
  apply (store_valid_range _ _ _ _ _ _ E).
Qed.

#[export] Hint Resolve stable_self stable_mem_load stable_mem_store : stable.

Lemma stable_memcpy_mm dst src n : stable same_obj (memcpy_mm dst src n).
Proof. unfold memcpy_mm. stable_auto. Qed.

Lemma stable_memcpy_from_obj dst obj off n : stable same_obj (memcpy_from_obj dst obj off n).
Proof. unfold memcpy_from_obj. stable_auto. Qed.

Lemma stable_mem_memset dst c n : stable same_obj (mem_memset dst c n).
Proof. unfold mem_memset. stable_auto. Qed.

#[export] Hint Resolve stable_memcpy_mm stable_memcpy_from_obj stable_mem_memset : stable.


Lemma mem_load_ok w p n bs : load (mem w) p n = Some bs -> mem_load p n w = (Ok bs, w).
Proof. unfold mem_load. now intros ->. Qed.

Lemma mem_store_ok w p bs h :
  store (mem w) p bs = Some h -> mem_store p bs w = (Ok tt, World h (this w)).
Proof. unfold mem_store. now intros ->. Qed.

Lemma mem_store_fault w p bs : store (mem w) p bs = None -> mem_store p bs w = (Err Fault, w).
Proof. unfold mem_store. now intros ->. Qed.

Lemma memcpy_mm_fault w dst src n :
  load (mem w) src n = None -> memcpy_mm dst src n w = (Err Fault, w).
Proof. intros E. unfold memcpy_mm, bind, mem_load. now rewrite E. Qed.

Lemma memcpy_mm_ok w dst src n bs h :
  load (mem w) src n = Some bs -> store (mem w) dst bs = Some h ->
  memcpy_mm dst src n w = (Ok tt, World h (this w)).
Proof.
  intros Hl Hs. unfold memcpy_mm. rewrite (bind_ok _ _ _ _ _ (mem_load_ok _ _ _ _ Hl)).
  now apply mem_store_ok.
Qed.

Lemma memcpy_from_obj_ok w dst obj off n h :
  0 <= off -> 0 <= n -> off + n <= len obj ->
  store (mem w) dst (slice off n obj) = Some h ->
  memcpy_from_obj dst obj off n w = (Ok tt, World h (this w)).
Proof.
  intros Ho Hn Hb Hs. unfold memcpy_from_obj.
  rewrite (proj2 (in_bounds_true _ _ _)) by auto. now apply mem_store_ok.
Qed.

Lemma wp_bind_self {B} (k : txn_rec -> method B) w Q :
  wp (k (this w)) w Q -> wp (bind self k) w Q.
Proof. auto. Qed.

Lemma wrote_init w0 wp : valid_range (mem w0) wp 0 -> wrote w0 wp [] w0.
Proof. intros H. split; [reflexivity|]. now apply store_nil. Qed.

Lemma wrote_eq w0 wp acc acc' w : wrote w0 wp acc w -> acc = acc' -> wrote w0 wp acc' w.
Proof. now intros H <-. Qed.

Lemma wrote_valid w0 wp acc w q n :
  wrote w0 wp acc w -> valid_range (mem w0) q n -> valid_range (mem w) q n.
Proof. intros [_ Hs]. eauto using store_valid_range. Qed.

Section Wrote.
Context (w0 : world) (pg : ptr) (cap : Z).
Context (Hcap : valid_range (mem w0) pg cap).

(** The next store lands right behind what was written. *)
Lemma wrote_store acc w dst bs :
  wrote w0 pg acc w -> dst = ptr_add pg (len acc) -> len acc + len bs <= cap ->
  exists w', mem_store dst bs w = (Ok tt, w') /\ wrote w0 pg (acc ++ bs) w'.
Proof.
  intros [Ht Hs] -> Hle. destruct Hcap as (b & Hb & H1 & H2 & H3). len_facts.
  destruct (store_valid (mem w0) pg (acc ++ bs)) as (b' & Hb' & Hst).
  { exists b. rewrite len_app. repeat split; try assumption; lia. }
  rewrite <- (store_store_adj _ _ _ _ _ Hs) in Hst.
  eexists. split; [apply mem_store_ok; exact Hst|].
  split; [exact Ht|]. simpl. rewrite <- (store_store_adj _ _ _ _ _ Hs). exact Hst.
Qed.

Lemma wrote_mm acc w dst src n bs :
  wrote w0 pg acc w -> dst = ptr_add pg (len acc) ->
  load (mem w0) src n = Some bs -> disjoint pg cap src n -> len acc + n <= cap ->
  exists w', memcpy_mm dst src n w = (Ok tt, w') /\ wrote w0 pg (acc ++ bs) w'.
Proof.
  intros Hw -> Hl Hd Hle. pose proof (load_len _ _ _ _ Hl) as Hlen.
  assert (0 <= n) as Hn by (rewrite load_Some in Hl; naive_solver).
  assert (load (mem w) src n = Some bs) as Hl'.
  { destruct Hw as [_ Hs]. rewrite (load_store_other _ _ _ _ _ _ Hs); [exact Hl| |exact Hn].
    len_facts. unfold disjoint in *. lia. }
  unfold memcpy_mm. rewrite (bind_ok _ _ _ _ _ (mem_load_ok _ _ _ _ Hl')).
  apply wrote_store; [exact Hw | reflexivity | lia].
Qed.

Lemma wrote_obj acc w dst obj off n :
  wrote w0 pg acc w -> dst = ptr_add pg (len acc) ->
  0 <= off -> 0 <= n -> off + n <= len obj -> len acc + n <= cap ->
  exists w', memcpy_from_obj dst obj off n w = (Ok tt, w') /\
             wrote w0 pg (acc ++ slice off n obj) w'.
Proof.
  intros Hw -> Ho Hn Hb Hle. unfold memcpy_from_obj.
  rewrite (proj2 (in_bounds_true _ _ _)) by auto.
  apply wrote_store; [exact Hw | reflexivity | rewrite len_slice_in; lia].
Qed.

Lemma wrote_memset acc w dst c n :
  wrote w0 pg acc w -> dst = ptr_add pg (len acc) -> 0 <= n -> len acc + n <= cap ->
  exists w', mem_memset dst c n w = (Ok tt, w') /\
             wrote w0 pg (acc ++ replicate (Z.to_nat n) c) w'.
Proof.
  intros Hw -> Hn Hle. unfold mem_memset. rewrite (proj2 (Z.leb_le _ _) Hn).
  apply wrote_store; [exact Hw | reflexivity | rewrite len_replicate; lia].
Qed.

(** The same steps as rules of [wp]. *)
Lemma wp_wrote_mm {B} acc w dst src n bs (k : unit -> method B) Q :
  wrote w0 pg acc w -> dst = ptr_add pg (len acc) ->
  load (mem w0) src n = Some bs -> disjoint pg cap src n -> len acc + n <= cap ->
  (forall w', wrote w0 pg (acc ++ bs) w' -> wp (k tt) w' Q) ->
  wp (bind (memcpy_mm dst src n) k) w Q.
Proof.
  intros Hw Hd Hl Hdis Hle Hk.
  destruct (wrote_mm acc w dst src n bs Hw Hd Hl Hdis Hle) as (w' & E & W).
  apply wp_bind. unfold wp at 1. rewrite E. simpl. auto.
Qed.

Lemma wp_wrote_obj {B} acc w dst obj off n (k : unit -> method B) Q :
  wrote w0 pg acc w -> dst = ptr_add pg (len acc) ->
  0 <= off -> 0 <= n -> off + n <= len obj -> len acc + n <= cap ->
  (forall w', wrote w0 pg (acc ++ slice off n obj) w' -> wp (k tt) w' Q) ->
  wp (bind (memcpy_from_obj dst obj off n) k) w Q.
Proof.
  intros Hw Hd Ho Hn Hb Hle Hk.
  destruct (wrote_obj acc w dst obj off n Hw Hd Ho Hn Hb Hle) as (w' & E & W).
  apply wp_bind. unfold wp at 1. rewrite E. simpl. auto.
Qed.

Lemma wp_wrote_memset {B} acc w dst c n (k : unit -> method B) Q :
  wrote w0 pg acc w -> dst = ptr_add pg (len acc) -> 0 <= n -> len acc + n <= cap ->
  (forall w', wrote w0 pg (acc ++ replicate (Z.to_nat n) c) w' -> wp (k tt) w' Q) ->
  wp (bind (mem_memset dst c n) k) w Q.
Proof.
  intros Hw Hd Hn Hle Hk.
  destruct (wrote_memset acc w dst c n Hw Hd Hn Hle) as (w' & E & W).
  apply wp_bind. unfold wp at 1. rewrite E. simpl. auto.
Qed.

End Wrote.

(** [ptr_solve] proves that two pointers into one block are the same. *)
Ltac ptr_solve := apply ptr_eq; simpl; [reflexivity | len_facts; slice_norm; lia].

Lemma len_rec_image r xid : len (rec_image r xid) = 40 + len xid.
Proof. unfold rec_image. len. Qed.
#[export] Hint Rewrite len_rec_image : len.

(** ** Rules for the operations that change the object *)

Lemma wp_set_this {B} f (k : unit -> method B) w Q :
  wp (k tt) (World (mem w) (f (this w))) Q -> wp (bind (set_this f) k) w Q.
Proof. auto. Qed.

Lemma wp_memcpy_mm {B} w dst src n bs h (k : unit -> method B) Q :
  load (mem w) src n = Some bs -> store (mem w) dst bs = Some h ->
  wp (k tt) (World h (this w)) Q -> wp (bind (memcpy_mm dst src n) k) w Q.
Proof.
  intros Hl Hs Hk. apply wp_bind. unfold wp at 1.
  now rewrite (memcpy_mm_ok _ _ _ _ _ _ Hl Hs).
Qed.

Lemma memcpy_to_tail_ok w off src n bs :
  load (mem w) src n = Some bs -> 0 <= off -> off + n <= sizeof_rec_tail_t ->
  memcpy_to_tail off src n w
  = (Ok tt, World (mem w) (set_txn_tail
       (rec_tail_of_bytes (splice (rec_tail_bytes (_txn_tail (this w))) off bs)) (this w))).
Proof.
  intros Hl Ho Hb. unfold memcpy_to_tail. rewrite (bind_ok _ _ _ _ _ (mem_load_ok _ _ _ _ Hl)).
  assert (0 <= n) by (rewrite load_Some in Hl; naive_solver).
  unfold bind, self. rewrite (proj2 (in_bounds_true _ _ _)) by (consts; len). reflexivity.
Qed.

Lemma wp_memcpy_to_tail {B} w off src n bs (k : unit -> method B) Q :
  load (mem w) src n = Some bs -> 0 <= off -> off + n <= sizeof_rec_tail_t ->
  wp (k tt) (World (mem w) (set_txn_tail
       (rec_tail_of_bytes (splice (rec_tail_bytes (_txn_tail (this w))) off bs)) (this w))) Q ->
  wp (bind (memcpy_to_tail off src n) k) w Q.
Proof.
  intros Hl Ho Hb Hk. apply wp_bind. unfold wp at 1.
  now rewrite (memcpy_to_tail_ok _ _ _ _ _ Hl Ho Hb).
Qed.

Lemma wp_mem_malloc {B} n (k : option ptr -> method B) w Q :
  (forall p h, malloc (mem w) n = (p, h) -> wp (k p) (World h (this w)) Q) ->
  wp (bind (mem_malloc n) k) w Q.
Proof.
  intros Hk. apply wp_bind. unfold wp at 1, mem_malloc.
  destruct (malloc (mem w) n) as [p h] eqn:E. simpl. auto.
Qed.

(** The header check passes for a transaction magic and the journal's
    version, and throws otherwise. *)
Lemma chk_hdr_ok w :
  txn_magic (_magic (_rhdr (_txn_hdr (this w)))) ->
  _version (_rhdr (_txn_hdr (this w))) = QLS_JRNL_VERSION ->
  chk_hdr w = (Ok tt, w).
Proof.
  intros Hm Hv. unfold chk_hdr, bind, self.
  rewrite jrec_chk_hdr_ok; [|destruct Hm as [E|E]; rewrite E; easy|exact Hv].
  destruct Hm as [E|E]; rewrite E; reflexivity.
Qed.

Lemma chk_hdr_bad w :
  ~ (txn_magic (_magic (_rhdr (_txn_hdr (this w)))) /\
     _version (_rhdr (_txn_hdr (this w))) = QLS_JRNL_VERSION) ->
  chk_hdr w = (Err (Throw JERR_JREC_BADRECHDR), w).
Proof.
  intros H. unfold chk_hdr, bind, self, jrec_chk_hdr, txn_magic in *.
  destruct (Z.eqb_spec (_magic (_rhdr (_txn_hdr (this w)))) 0); [reflexivity|].
  destruct (Z.eqb_spec (_version (_rhdr (_txn_hdr (this w)))) QLS_JRNL_VERSION);
    [|reflexivity]. simpl.
  destruct (Z.eqb_spec (_magic (_rhdr (_txn_hdr (this w)))) QLS_TXA_MAGIC); [tauto|].
  destruct (Z.eqb_spec (_magic (_rhdr (_txn_hdr (this w)))) QLS_TXC_MAGIC); [tauto|].
  reflexivity.
Qed.

Lemma chk_tail_ok w :
  txn_rec_sealed (this w) -> chk_tail w = (Ok tt, w).
Proof. intros H. unfold chk_tail, bind, self. now apply jrec_chk_tail_ok. Qed.

Lemma chk_tail_bad w :
  ~ txn_rec_sealed (this w) -> chk_tail w = (Err (Throw JERR_JREC_BADRECTAIL), w).
Proof. intros H. unfold chk_tail, bind, self. now apply jrec_chk_tail_bad. Qed.

Lemma wp_run {A B} (m : method A) (k : A -> method B) w a w' Q :
  m w = (Ok a, w') -> wp (k a) w' Q -> wp (bind m k) w Q.
Proof. intros E Hk. apply wp_bind. unfold wp at 1. now rewrite E. Qed.

Lemma wp_fail {A B} (m : method A) (k : A -> method B) w f w' (Q : res jerrno B -> world -> Prop) :
  m w = (Err f, w') -> Q (Err f) w' -> wp (bind m k) w Q.
Proof. intros E HQ. unfold wp. now rewrite (bind_err _ _ _ _ _ E). Qed.

Lemma wp_chk_tail {B} (k : unit -> method B) w (Q : res jerrno B -> world -> Prop) :
  (txn_rec_sealed (this w) -> wp (k tt) w Q) ->
  (~ txn_rec_sealed (this w) -> Q (Err (Throw JERR_JREC_BADRECTAIL)) w) ->
  wp (bind chk_tail k) w Q.
Proof.
  intros Hok Hbad. destruct (decide (txn_rec_sealed (this w))) as [H|H].
  - eapply wp_run; [now apply chk_tail_ok | auto].
  - eapply wp_fail; [now apply chk_tail_bad | auto].
Qed.

(** The operations on the memory and on the object throw nothing. *)
Lemma throws_self P : throws_only P self.
Proof. intros s e [=]. Qed.
Lemma throws_set_this P f : throws_only P (set_this f).
Proof. intros s e [=]. Qed.
Lemma throws_mem_load P p n : throws_only P (mem_load p n).
Proof. intros s e. unfold mem_load. now destruct (load _ _ _). Qed.
Lemma throws_mem_store P p bs : throws_only P (mem_store p bs).
Proof. intros s e. unfold mem_store. now destruct (store _ _ _). Qed.
Lemma throws_mem_malloc P n : throws_only P (mem_malloc n).
Proof. intros s e. unfold mem_malloc. now destruct (malloc _ _). Qed.
#[export] Hint Resolve throws_self throws_set_this throws_mem_load throws_mem_store
  throws_mem_malloc : throws.

(** The sizes of a record whose xid is shorter than 4 GiB. *)
Lemma rec_dblks_bounds r :
  0 <= xid_size r < 2 ^ 32 ->
  rec_size r = 40 + xid_size r /\
  128 * (rec_size_dblks r - 1) < rec_size r <= 128 * rec_size_dblks r.
Proof.
  intros H. unfold rec_size_dblks, rec_size, xid_size in *. consts.
  rewrite size_t_small by lia. rewrite size_dblks_small by lia. cast_lia.
Qed.

(** ** The properties of the object *)

Lemma not32_range x : 0 <= not32 x < 2 ^ 32.
Proof. apply uint32_t_range. Qed.

(** [wf_solve] proves the invariants of an object given by its fields:
    every cast yields a value of its type. *)
Ltac wf_range t lem :=
  lazymatch goal with
  | _ : 0 <= t < _ |- _ => fail
  | _ => pose proof lem
  end.

Ltac wf_solve :=
  unfold txn_rec_wf, txn_hdr_wf, rec_hdr_wf, rec_tail_wf, txn_rec_sealed, tail_matches in *;
  cbn -[Z.pow not32 uint32_t uint64_t size_t] in *;
  repeat match goal with
         | |- context [uint32_t ?x] => wf_range (uint32_t x) (uint32_t_range x)
         | |- context [uint64_t ?x] => wf_range (uint64_t x) (uint64_t_range x)
         | |- context [size_t ?x] =>
             wf_range (size_t x) (uint64_t_range x : 0 <= size_t x < 2 ^ 64)
         | |- context [not32 ?x] => wf_range (not32 x) (not32_range x)
         end;
  unfold QLS_JRNL_VERSION in *; intuition (try reflexivity; try lia).

(** The constructor with arguments builds an object whose
    fields hold values of their types and whose tail belongs to its
    header (complement of the magic, same rid); it owns no buffer, borrows
    the caller's xid pointer, and its xid size is the length given. *)
Theorem txn_rec_ctor_invariant magic rid xidp xidlen :
  txn_rec_wf (txn_rec_ctor magic rid xidp xidlen) /\
  txn_rec_sealed (txn_rec_ctor magic rid xidp xidlen) /\
  _buff (txn_rec_ctor magic rid xidp xidlen) = None /\
  _xidp (txn_rec_ctor magic rid xidp xidlen) = xidp /\
  xid_size (txn_rec_ctor magic rid xidp xidlen) = size_t xidlen.
Proof. wf_solve. Qed.

(** reset with arguments preserves the invariant of the
    object and seals it again: it touches no memory, the new tail belongs
    to the new header, [_buff] is null and the xid is the caller's. *)
Theorem reset_invariant magic rid xidp xidlen w :
  txn_rec_wf (this w) ->
  exists r, reset magic rid xidp xidlen w = (Ok tt, World (mem w) r) /\
            txn_rec_wf r /\ txn_rec_sealed r /\ _buff r = None /\ _xidp r = xidp /\
            xid_size r = size_t xidlen.
Proof. intros H. eexists. split; [reflexivity|]. wf_solve. Qed.

Lemma reset_invariant_witness :
  exists r, reset QLS_TXC_MAGIC 8 (Some ex_xidp) 100 ex_world = (Ok tt, World ex_heap r) /\
            txn_rec_wf r /\ txn_rec_sealed r /\ _buff r = None /\ _xidp r = Some ex_xidp /\
            xid_size r = size_t 100.
Proof.
  apply (reset_invariant QLS_TXC_MAGIC 8 (Some ex_xidp) 100 ex_world).
  vm_compute. intuition congruence.
Defined.

(** reset with a magic alone clears the object for reuse:
    it touches no memory, preserves the invariant of the object and seals
    it, and leaves it without xid: [_xidp] and [_buff] are null and the
    xid size is 0. *)
Theorem reset_magic_invariant magic w :
  txn_rec_wf (this w) ->
  exists r, reset_magic magic w = (Ok tt, World (mem w) r) /\
            txn_rec_wf r /\ txn_rec_sealed r /\ _buff r = None /\ _xidp r = None /\
            xid_size r = 0.
Proof. intros H. eexists. split; [reflexivity|]. wf_solve. Qed.

Lemma reset_magic_invariant_witness :
  exists r, reset_magic QLS_TXC_MAGIC ex_world = (Ok tt, World ex_heap r) /\
            txn_rec_wf r /\ txn_rec_sealed r /\ _buff r = None /\ _xidp r = None /\
            xid_size r = 0.
Proof.
  apply (reset_magic_invariant QLS_TXC_MAGIC ex_world). vm_compute. intuition congruence.
Defined.

(** C40 (equivalence): reset with arguments leaves exactly the object that
    the constructor builds from the same arguments if and only if the
    version, the user flags and the tail checksum of the object were the
    ones a constructor sets.  reset does not write these three fields, so
    an object that decoded a record with other values keeps them. *)
Theorem reset_as_ctor magic rid xidp xidlen w :
  this (snd (reset magic rid xidp xidlen w)) = txn_rec_ctor magic rid xidp xidlen <->
  _version (_rhdr (_txn_hdr (this w))) = QLS_JRNL_VERSION /\
  _uflag (_rhdr (_txn_hdr (this w))) = 0 /\
  _checksum (_txn_tail (this w)) = 0.
Proof.
  unfold reset, txn_rec_ctor, set_this, modify. cbn [snd this].
  unfold set_magic_rid, txn_hdr_init, rec_hdr_init, rec_tail_copy. cbn. split.
  - intros [= Hv Hu Hc]. auto.
  - intros (-> & -> & ->). reflexivity.
Qed.

(** The header check accepts exactly the headers with
    one of the two transaction magics and the journal's version, and
    throws JERR_JREC_BADRECHDR for every other; it changes nothing. *)
Theorem chk_hdr_spec w :
  chk_hdr w =
  (if decide (txn_magic (_magic (_rhdr (_txn_hdr (this w)))) /\
              _version (_rhdr (_txn_hdr (this w))) = QLS_JRNL_VERSION)
   then Ok tt else Err (Throw JERR_JREC_BADRECHDR), w).
Proof.
  case_decide as H; [destruct H; now apply chk_hdr_ok | now apply chk_hdr_bad].
Qed.

(** The tail check accepts exactly the tails that belong
    to the header: the magic is the complement of the header's and the
    rid is the header's.  Every other tail throws JERR_JREC_BADRECTAIL. *)
Theorem chk_tail_spec w :
  chk_tail w =
  (if decide (txn_rec_sealed (this w)) then Ok tt else Err (Throw JERR_JREC_BADRECTAIL), w).
Proof. case_decide; [now apply chk_tail_ok | now apply chk_tail_bad]. Qed.

(** On a header that passes the header check, the check
    against an expected rid passes when the rids are equal and throws
    JERR_JREC_RIDMISMATCH when they differ. *)
Theorem chk_hdr_rid_spec rid w :
  txn_magic (_magic (_rhdr (_txn_hdr (this w)))) ->
  _version (_rhdr (_txn_hdr (this w))) = QLS_JRNL_VERSION ->
  chk_hdr_rid rid w =
  (if decide (_rid (_rhdr (_txn_hdr (this w))) = uint64_t rid)
   then Ok tt else Err (Throw JERR_JREC_RIDMISMATCH), w).
Proof.
  intros Hm Hv. unfold chk_hdr_rid. rewrite (bind_ok _ _ _ _ _ (chk_hdr_ok _ Hm Hv)).
  unfold bind, self, jrec_chk_rid.
  case_decide as E; [rewrite E, Z.eqb_refl | rewrite (proj2 (Z.eqb_neq _ _) E)]; reflexivity.
Qed.

Lemma chk_hdr_rid_spec_witness :
  chk_hdr_rid 8 ex_world = (Err (Throw JERR_JREC_RIDMISMATCH), ex_world).
Proof. exact (chk_hdr_rid_spec 8 ex_world (or_introl eq_refl) eq_refl). Defined.

(** For an xid shorter than 4 GiB the record size is 40
    bytes more than the xid and does not wrap, and the size in dblks is
    its ceiling: the record fills more than [rec_size_dblks - 1] dblks and
    at most [rec_size_dblks]. *)
Theorem rec_size_dblks_spec r :
  0 <= xid_size r < 2 ^ 32 ->
  rec_size r = 40 + xid_size r /\
  (rec_size_dblks r - 1) * JRNL_DBLK_SIZE < rec_size r <= rec_size_dblks r * JRNL_DBLK_SIZE.
Proof. intros H. destruct (rec_dblks_bounds r H). unfold JRNL_DBLK_SIZE. lia. Qed.

Lemma rec_size_dblks_spec_witness :
  rec_size ex_rec = 40 + xid_size ex_rec /\
  (rec_size_dblks ex_rec - 1) * JRNL_DBLK_SIZE < rec_size ex_rec
    <= rec_size_dblks ex_rec * JRNL_DBLK_SIZE.
Proof. apply (rec_size_dblks_spec ex_rec). vm_compute. intuition congruence. Defined.

(** get_xid yields the buffer of a reader only.  For an
    object that the constructor with arguments or reset has given an xid
    to encode, get_xid stores the null pointer and returns 0, although
    [xid_size] is the length of that xid: the xid that the object borrows
    is not accessible through it. *)
Theorem get_xid_after_reset magic rid xidp xidlen w :
  let w' := snd (reset magic rid xidp xidlen w) in
  get_xid w' = (Ok (None, 0), w') /\ xid_size (this w') = size_t xidlen /\
  get_xid (World (mem w) (txn_rec_ctor magic rid xidp xidlen))
  = (Ok (None, 0), World (mem w) (txn_rec_ctor magic rid xidp xidlen)).
Proof. repeat split. Qed.
