(* ===== verification/Encode.v ===== *)
(** * Encode: [txn_rec::encode]

    One definition per branch of the source, in its order: the continuation
    that needs a further split, the continuation that ends the record, the
    first call that is split, the first call that holds the whole record.
    The local variables [rec_offs], [rem], [wr_cnt], [wsize] and [wsize2]
    are the source's; an assignment is a [let] that shadows the name.
    [RHM_CLEAN] is [Some c] when the macro is defined (with RHM_CLEAN_CHAR
    [c]) and [None] in the default build.

    The theorems state the contract of a call, that encode is a const
    method on every input, and what a call does without page or xid and
    at an offset behind the record. *)

From Stdlib Require Import ZArith Lia List.
From coqutil Require Import Byte Word.LittleEndianList.
From stdpp Require Import base option list gmap.
From S2P Require Import Prelude Memory Layout TxnRec.

#[local] Open Scope Z_scope.
#[local] Open Scope jrnl_scope.

Section Encode.
Context (RHM_CLEAN : option byte).

(** [#ifdef RHM_CLEAN std::memset(dst, RHM_CLEAN_CHAR, n) #endif] *)
Definition clean_memset (dst : ptr) (n : Z) : method unit :=
  match RHM_CLEAN with
  | Some c => mem_memset dst c n
  | None => ret tt
  end.

(** Continuation, further split required. *)
Definition encode_cont_split (r : txn_rec) (xidp wptr : ptr) (rec_offs rem wr_cnt : Z)
  : method Z :=
  let xidsize := _xidsize (_txn_hdr r) in
  let rec_offs := size_t (rec_offs - sizeof_txn_hdr_t) in
  let wsize := if xidsize >? rec_offs then size_t (xidsize - rec_offs) else 0 in
  let wsize2 := wsize in
  '(wr_cnt, rem) <-
    (if negb (wsize =? 0) then
       let wsize := if wsize >? rem then rem else wsize in
       memcpy_mm wptr (ptr_add xidp rec_offs) wsize ;;
       ret (size_t (wr_cnt + wsize), size_t (rem - wsize))
     else ret (wr_cnt, rem)) ;;
  let rec_offs := size_t (rec_offs - size_t (xidsize - wsize2)) in
  '(wr_cnt, rem, rec_offs) <-
    (if negb (rem =? 0) then
       let wsize :=
         if sizeof_rec_tail_t >? rec_offs then size_t (sizeof_rec_tail_t - rec_offs) else 0 in
       let wsize2 := wsize in
       '(wr_cnt, rem) <-
         (if negb (wsize =? 0) then
            let wsize := if wsize >? rem then rem else wsize in
            memcpy_from_obj (ptr_add wptr wr_cnt) (rec_tail_bytes (_txn_tail r)) rec_offs wsize ;;
            ret (size_t (wr_cnt + wsize), size_t (rem - wsize))
          else ret (wr_cnt, rem)) ;;
       ret (wr_cnt, rem, size_t (rec_offs - size_t (sizeof_rec_tail_t - wsize2)))
     else ret (wr_cnt, rem, rec_offs)) ;;
  assert (rem =? 0) ;;
  assert (rec_offs =? 0) ;;
  ret wr_cnt.

(** Continuation, no further split required. *)
Definition encode_cont_last (r : txn_rec) (xidp wptr : ptr)
  (rec_offs_dblks rec_offs wr_cnt : Z) : method Z :=
  let xidsize := _xidsize (_txn_hdr r) in
  let rec_offs := size_t (rec_offs - sizeof_txn_hdr_t) in
  let wsize := if xidsize >? rec_offs then size_t (xidsize - rec_offs) else 0 in
  wr_cnt <-
    (if negb (wsize =? 0) then
       memcpy_mm wptr (ptr_add xidp rec_offs) wsize ;;
       ret (size_t (wr_cnt + wsize))
     else ret wr_cnt) ;;
  let rec_offs := size_t (rec_offs - size_t (xidsize - wsize)) in
  let wsize :=
    if sizeof_rec_tail_t >? rec_offs then size_t (sizeof_rec_tail_t - rec_offs) else 0 in
  wr_cnt <-
    (if negb (wsize =? 0) then
       memcpy_from_obj (ptr_add wptr wr_cnt) (rec_tail_bytes (_txn_tail r)) rec_offs wsize ;;
       let wr_cnt := size_t (wr_cnt + wsize) in
       (let rec_offs := dblk_bytes rec_offs_dblks in
        let dblk_rec_size := dblk_bytes (size_dblks (size_t (rec_size r - rec_offs))) in
        clean_memset (ptr_add wptr wr_cnt) (size_t (dblk_rec_size - wr_cnt))) ;;
       ret wr_cnt
     else ret wr_cnt) ;;
  let rec_offs := size_t (rec_offs - size_t (sizeof_rec_tail_t - wsize)) in
  assert (rec_offs =? 0) ;;
  ret wr_cnt.

(** Start of the record, split required. *)
Definition encode_first_split (r : txn_rec) (xidp wptr : ptr) (rem wr_cnt : Z)
  : method Z :=
  let xidsize := _xidsize (_txn_hdr r) in
  let rem := size_t (rem - sizeof_txn_hdr_t) in
  '(wr_cnt, rem) <-
    (if negb (rem =? 0) then
       let wsize := if rem >=? xidsize then xidsize else rem in
       memcpy_mm (ptr_add wptr wr_cnt) xidp wsize ;;
       ret (size_t (wr_cnt + wsize), size_t (rem - wsize))
     else ret (wr_cnt, rem)) ;;
  '(wr_cnt, rem) <-
    (if negb (rem =? 0) then
       let wsize := if rem >=? sizeof_rec_tail_t then sizeof_rec_tail_t else rem in
       memcpy_from_obj (ptr_add wptr wr_cnt) (rec_tail_bytes (_txn_tail r)) 0 wsize ;;
       ret (size_t (wr_cnt + wsize), size_t (rem - wsize))
     else ret (wr_cnt, rem)) ;;
  assert (rem =? 0) ;;
  ret wr_cnt.

(** Start of the record, no split required. *)
Definition encode_first_whole (r : txn_rec) (xidp wptr : ptr) (wr_cnt : Z) : method Z :=
  let xidsize := _xidsize (_txn_hdr r) in
  memcpy_mm (ptr_add wptr wr_cnt) xidp xidsize ;;
  let wr_cnt := size_t (wr_cnt + xidsize) in
  memcpy_from_obj (ptr_add wptr wr_cnt) (rec_tail_bytes (_txn_tail r)) 0 sizeof_rec_tail_t ;;
  let wr_cnt := size_t (wr_cnt + sizeof_rec_tail_t) in
  (let dblk_rec_size := dblk_bytes (size_dblks (rec_size r)) in
   clean_memset (ptr_add wptr wr_cnt) (size_t (dblk_rec_size - wr_cnt))) ;;
  ret wr_cnt.

(** Start at the beginning of the record: the header, then one of the two
    branches above. *)
Definition encode_first (r : txn_rec) (xidp wptr : ptr) (max_size_dblks rem : Z)
  : method Z :=
  memcpy_from_obj wptr (txn_hdr_bytes (_txn_hdr r)) 0 sizeof_txn_hdr_t ;;
  let wr_cnt := sizeof_txn_hdr_t in
  if size_dblks (rec_size r) >? max_size_dblks
  then encode_first_split r xidp wptr rem wr_cnt
  else encode_first_whole r xidp wptr wr_cnt.

(** Continuation of a split record. *)
Definition encode_cont (r : txn_rec) (xidp wptr : ptr)
  (rec_offs_dblks max_size_dblks rec_offs rem wr_cnt : Z) : method Z :=
  if uint32_t (size_dblks (rec_size r) - rec_offs_dblks) >? max_size_dblks
  then encode_cont_split r xidp wptr rec_offs rem wr_cnt
  else encode_cont_last r xidp wptr rec_offs_dblks rec_offs wr_cnt.

(** [uint32_t txn_rec::encode(void* wptr, uint32_t rec_offs_dblks,
    uint32_t max_size_dblks)] *)
Definition encode (wptr : option ptr) (rec_offs_dblks max_size_dblks : Z) : method Z :=
  let rec_offs_dblks := uint32_t rec_offs_dblks in
  let max_size_dblks := uint32_t max_size_dblks in
  assert (bool_decide (wptr <> None)) ;;
  assert (max_size_dblks >? 0) ;;
  r <- self ;;
  assert (bool_decide (_xidp r <> None) && (_xidsize (_txn_hdr r) >? 0)) ;;
  wp <- defined wptr ;;
  xp <- defined (_xidp r) ;;
  let rec_offs := dblk_bytes rec_offs_dblks in
  let rem := dblk_bytes max_size_dblks in
  let wr_cnt := 0 in
  wr_cnt <-
    (if negb (rec_offs_dblks =? 0)
     then encode_cont r xp wp rec_offs_dblks max_size_dblks rec_offs rem wr_cnt
     else encode_first r xp wp max_size_dblks rem) ;;
  ret (size_dblks wr_cnt).

(** ** What a call has to do: the abstract specification

    Of the record image, the call at dblk offset [offs] with room for [max]
    dblks produces the bytes from [offs * 128] on, as many as fit; the last
    call of a record pads its last dblk when RHM_CLEAN is defined. *)

Definition encode_len (r : txn_rec) (offs max : Z) : Z :=
  Z.min (max * JRNL_DBLK_SIZE) (rec_size r - offs * JRNL_DBLK_SIZE).

Definition encode_fill (r : txn_rec) (offs max : Z) : list byte :=
  match RHM_CLEAN with
  | Some ch =>
      let n := rec_size r - offs * JRNL_DBLK_SIZE in
      if n <=? max * JRNL_DBLK_SIZE
      then replicate (Z.to_nat ((n + 127) / 128 * 128 - n)) ch
      else []
  | None => []
  end.

Definition encode_chunk (r : txn_rec) (xid : list byte) (offs max : Z) : list byte :=
  slice (offs * JRNL_DBLK_SIZE) (encode_len r offs max) (rec_image r xid)
  ++ encode_fill r offs max.

Definition encode_dblks (r : txn_rec) (offs max : Z) : Z :=
  Z.min max (size_dblks (rec_size r) - offs).

(** The outcome of a call on the object [r] for every offset and every
    room: the leading assertions, the dblks of the chunk when the offset
    is inside the record, and the trailing assertions when it is not. *)
Definition encode_outcome (r : txn_rec) (offs max : Z) : res jerrno Z :=
  if (max =? 0) || negb (bool_decide (_xidp r <> None)) || (xid_size r =? 0)
  then Err AssertFail
  else if offs * JRNL_DBLK_SIZE <? rec_size r then Ok (encode_dblks r offs max)
  else if offs * JRNL_DBLK_SIZE =? rec_size r then Ok 0
  else Err AssertFail.

End Encode.

(** The contract of the journal driver for one call: the xid of the object
    is readable and shorter than 4 GiB, the page has room for [max] dblks
    and does not overlap the xid, the offset lies inside the record and the
    byte counts fit 32 bits. *)
Record encode_pre (w : world) (pg xp : ptr) (xid : list byte) (offs max : Z) : Prop := {
  pre_xidp : _xidp (this w) = Some xp;
  pre_xidsize : 0 < xid_size (this w) < 2 ^ 32;
  pre_xid : load (mem w) xp (xid_size (this w)) = Some xid;
  pre_max : 0 < max;
  pre_offs : 0 <= offs;
  pre_inside : offs * JRNL_DBLK_SIZE < rec_size (this w);
  pre_nowrap : (offs + max) * JRNL_DBLK_SIZE < 2 ^ 32;
  pre_page : valid_range (mem w) pg (max * JRNL_DBLK_SIZE);
  pre_disjoint : disjoint pg (max * JRNL_DBLK_SIZE) xp (xid_size (this w))
}.

(** ** The branches *)

Section Branches.
Context (c : option byte) (w : world) (pg xp : ptr) (xid : list byte) (xs o m : Z).
Context (Exs : _xidsize (_txn_hdr (this w)) = xs) (Hxs : 0 < xs < 2 ^ 32).
Context (Hm : 0 < m) (Ho : 0 <= o) (Hw : (o + m) * 128 < 2 ^ 32).
Context (Hxid : load (mem w) xp xs = Some xid).
Context (Hpage : valid_range (mem w) pg (m * 128)).
Context (Hdis : disjoint pg (m * 128) xp xs).

(** The call returns the length of [bs] and has written [bs] at the page. *)
Definition enc_post (bs : list byte) (res : res jerrno Z) (w' : world) : Prop :=
  res = Ok (len bs) /\ wrote w pg bs w'.

(** The filler behind [n] written bytes. *)
Definition enc_fill (n : Z) : list byte :=
  match c with
  | Some ch => replicate (Z.to_nat ((n + 127) / 128 * 128 - n)) ch
  | None => []
  end.

Lemma enc_len_xid : len xid = xs.
Proof. exact (load_len _ _ _ _ Hxid). Qed.

Lemma enc_wrote_nil : wrote w pg [] w.
Proof.
  apply wrote_init. destruct Hpage as (b & Hb & H1 & H2 & H3).
  exists b. repeat split; try assumption; lia.
Qed.

Ltac enc_side := pose proof enc_len_xid; len_facts; slice_norm; first [lia | cast_lia].

Ltac enc_ptr := apply ptr_eq; simpl; [reflexivity | enc_side].

Ltac enc_mm W :=
  eapply (wp_wrote_mm w pg (m * 128) Hpage);
  [ exact W | enc_ptr
  | first [ eapply load_sub; [exact Hxid | lia ..]
          | eapply load_prefix; [exact Hxid | lia ..] ]
  | first [ eapply disjoint_sub; [exact Hdis | lia ..] | unfold disjoint in *; lia ]
  | enc_side | clear W; intros ? W ].

Ltac enc_obj W :=
  eapply (wp_wrote_obj w pg (m * 128) Hpage);
  [ exact W | enc_ptr | lia | lia | enc_side | enc_side | clear W; intros ? W ].

Ltac enc_clean W :=
  unfold clean_memset;
  lazymatch goal with
  | |- wp (bind (match ?c with Some _ => _ | None => _ end) _) _ _ =>
      destruct c;
      [ eapply (wp_wrote_memset w pg (m * 128) Hpage);
        [ exact W | enc_ptr | enc_side | enc_side | clear W; intros ? W ]
      | wnorm ]
  end.

Ltac enc_assert := apply wp_bind_assert; [lia|].

Ltac enc_done W :=
  apply wp_ret; split;
  [ f_equal; enc_side
  | eapply wrote_eq; [exact W | unfold rec_image; pose proof enc_len_xid; slices] ].

(** With a filler behind the slice. *)
Ltac enc_done_fill W :=
  apply wp_ret; (split; [f_equal; lia|]); (eapply wrote_eq; [exact W|]);
  unfold rec_image; pose proof enc_len_xid;
  first [ rewrite app_nil_r; symmetry; slices
        | f_equal; [symmetry; slices | f_equal; cast_lia] ].

Lemma encode_cont_split_spec :
  0 < o -> (o + m) * 128 < 40 + xs ->
  wp (encode_cont_split (this w) xp pg (o * 128) (m * 128) 0) w
    (enc_post (slice (o * 128) (m * 128) (rec_image (this w) xid))).
Proof.
  intros Ho' Hsplit. pose proof enc_wrote_nil as W.
  unfold encode_cont_split. rewrite Exs. cbv zeta. consts.
  destruct (Z.lt_total (m * 128) (xs - (o * 128 - 24))) as [Hc|[Hc|Hc]].
  - arith. wnorm. enc_mm W. wnorm. arith. wnorm. do 2 enc_assert. enc_done W.
  - arith. wnorm. enc_mm W. wnorm. arith. wnorm. do 2 enc_assert. enc_done W.
  - arith. wnorm. enc_mm W. wnorm. arith. wnorm. enc_obj W. wnorm. arith. wnorm.
    do 2 enc_assert. enc_done W.
Qed.

Lemma encode_cont_last_spec :
  0 < o -> o * 128 < 40 + xs <= (o + m) * 128 ->
  wp (encode_cont_last c (this w) xp pg o (o * 128) 0) w
    (fun res w' => res = Ok (40 + xs - o * 128) /\
       wrote w pg (slice (o * 128) (40 + xs - o * 128) (rec_image (this w) xid) ++
                   enc_fill (40 + xs - o * 128)) w').
Proof.
  intros Ho' Hlast. pose proof enc_wrote_nil as W.
  unfold encode_cont_last, rec_size, enc_fill. rewrite Exs. cbv zeta.
  rewrite (dblk_bytes_small o) by lia. consts.
  destruct (Z.ltb_spec (o * 128 - 24) xs) as [Hc|Hc].
  - arith. rewrite dblk_size_dblks by lia.
    wnorm. enc_mm W. wnorm. arith. wnorm. enc_obj W. wnorm.
    rewrite size_t_small by cast_lia.
    enc_clean W; wnorm; enc_assert; enc_done_fill W.
  - arith. rewrite dblk_size_dblks by lia.
    wnorm. enc_obj W. wnorm.
    rewrite size_t_small by cast_lia.
    enc_clean W; wnorm; enc_assert; enc_done_fill W.
Qed.

Lemma encode_first_split_spec w1 :
  o = 0 -> m * 128 < 40 + xs ->
  wrote w pg (txn_hdr_bytes (_txn_hdr (this w))) w1 ->
  wp (encode_first_split (this w) xp pg (m * 128) 24) w1
    (enc_post (slice 0 (m * 128) (rec_image (this w) xid))).
Proof.
  intros Ho' Hsplit W.
  unfold encode_first_split. rewrite Exs. cbv zeta. consts.
  destruct (Z.lt_total (m * 128 - 24) xs) as [Hc|[Hc|Hc]].
  - arith. wnorm. enc_mm W. wnorm. arith. wnorm. enc_assert. enc_done W.
  - arith. wnorm. enc_mm W. wnorm. arith. wnorm. enc_assert. enc_done W.
  - arith. wnorm. enc_mm W. wnorm. arith. wnorm. enc_obj W. wnorm. arith. wnorm.
    enc_assert. enc_done W.
Qed.

Lemma encode_first_whole_spec w1 :
  o = 0 -> 40 + xs <= m * 128 ->
  wrote w pg (txn_hdr_bytes (_txn_hdr (this w))) w1 ->
  wp (encode_first_whole c (this w) xp pg 24) w1
    (fun res w' => res = Ok (40 + xs) /\
       wrote w pg (rec_image (this w) xid ++ enc_fill (40 + xs)) w').
Proof.
  intros Ho' Hwhole W.
  unfold encode_first_whole, rec_size, enc_fill. rewrite Exs. cbv zeta. consts.
  arith. rewrite dblk_size_dblks by lia.
  wnorm. enc_mm W. wnorm. enc_obj W. wnorm.
  rewrite size_t_small by cast_lia.
  enc_clean W; wnorm; enc_done_fill W.
Qed.

End Branches.

(** ** A continuation behind the record

    The branches of a continuation at a dblk offset that is not inside
    the record: no byte is left to copy, and what the call does is decided
    by its two assertions. *)

Section Beyond.
Context (w : world) (xp : ptr) (xs o m : Z).
Context (Exs : _xidsize (_txn_hdr (this w)) = xs) (Hxs : 0 < xs < 2 ^ 32).
Context (Hm : 0 < m) (Hw : (o + m) * 128 < 2 ^ 32) (Ho : 40 + xs <= o * 128).

(** Further split required: the room that is left fails [rem == 0]. *)
Lemma encode_cont_split_beyond pg :
  encode_cont_split (this w) xp pg (o * 128) (m * 128) 0 w = (Err AssertFail, w).
Proof.
  apply wp_eq. unfold encode_cont_split. rewrite Exs. cbv zeta. consts.
  arith. wnorm. arith. wnorm. arith. wnorm. apply wp_bind_assert_false; [lia|easy].
Qed.

(** No further split required: the bytes between the end of the record
    and the offset are asserted to be none. *)
Lemma encode_cont_last_beyond c pg :
  encode_cont_last c (this w) xp pg o (o * 128) 0 w
  = (if o * 128 =? 40 + xs then Ok 0 else Err AssertFail, w).
Proof.
  apply wp_eq. unfold encode_cont_last. rewrite Exs. cbv zeta. consts.
  arith. wnorm. arith. wnorm.
  destruct (Z.eqb_spec (o * 128) (40 + xs)) as [E|E].
  - apply wp_bind_assert; [lia|]. now apply wp_ret.
  - apply wp_bind_assert_false; [lia|easy].
Qed.

End Beyond.

(** ** The whole method *)

Section EncodeSpec.
Context (c : option byte).

(** The four branches end the same way: the dblks of the bytes written
    and the chunk of the specification. *)
Ltac enc_finish W tac :=
  apply wp_ret; split;
  [ f_equal; slice_norm; rewrite size_dblks_small by lia; cast_lia
  | eapply wrote_eq; [exact W|]; tac ].

Ltac enc_split_chunk :=
  rewrite Z.min_l by lia; destruct c; arith; now rewrite app_nil_r.

(** [enc_branch b spec tac]: the test of the split has the value [b], the
    branch taken has the specification [spec], and [tac] shows that it
    wrote the chunk. *)
Ltac enc_branch b spec tac :=
  replace (_ >? _) with b by cast_lia;
  eapply wp_bind_with; [eapply spec; eauto; lia|];
  let W := fresh "W" in intros ? ? [-> W]; enc_finish W tac.

Lemma encode_wp w pg xp xid offs max :
  encode_pre w pg xp xid offs max ->
  wp (encode c (Some pg) offs max) w
    (fun res w' => res = Ok (encode_dblks (this w) offs max) /\
                   wrote w pg (encode_chunk c (this w) xid offs max) w').
Proof.
  intros [Hp Hs Hx Hm Ho Hin Hnw Hpg Hd]. unfold xid_size, rec_size in *.
  remember (_xidsize (_txn_hdr (this w))) as xs eqn:Exs. symmetry in Exs.
  consts. rewrite size_t_small in Hin by lia.
  unfold encode, encode_dblks, encode_chunk, encode_len, encode_fill, rec_size. cbv zeta.
  rewrite (uint32_t_small offs), (uint32_t_small max), Exs by lia.
  rewrite !dblk_bytes_small by lia. consts. rewrite size_t_small by lia.
  rewrite size_dblks_small by lia.
  apply wp_bind_assert; [reflexivity|]. apply wp_bind_assert; [lia|].
  apply wp_bind_self. rewrite Hp, Exs.
  apply wp_bind_assert; [simpl; lia|]. do 2 apply wp_bind_defined.
  pose proof (load_len _ _ _ _ Hx) as Hlx.
  destruct (Z.eq_dec offs 0) as [->|Hne].
  - replace (negb (0 =? 0)) with false by lia.
    unfold encode_first, rec_size. rewrite Exs. consts. rewrite size_t_small by lia.
    rewrite size_dblks_small by lia. wnorm.
    eapply (wp_wrote_obj w pg (max * 128) Hpg);
      [ eapply (enc_wrote_nil w pg max); eauto
      | apply ptr_eq; simpl; [reflexivity | change (len []) with 0; lia]
      | lia | lia | len | change (len []) with 0; lia | intros w1 W1 ].
    rewrite app_nil_l, slice_all in W1 by len.
    destruct (Z.ltb_spec (max * 128) (40 + xs)) as [Hc|Hc].
    + enc_branch true (encode_first_split_spec w pg xp xid xs 0 max) enc_split_chunk.
    + enc_branch false (encode_first_whole_spec c w pg xp xid xs 0 max)
        ltac:(rewrite Z.min_r by lia; unfold enc_fill;
              rewrite slice_all by len; destruct c; arith; repeat f_equal; lia).
  - replace (negb (offs =? 0)) with true by lia.
    unfold encode_cont, rec_size. rewrite Exs. consts. rewrite size_t_small by lia.
    rewrite size_dblks_small by lia. rewrite uint32_t_small by cast_lia.
    destruct (Z.ltb_spec ((offs + max) * 128) (40 + xs)) as [Hc|Hc].
    + enc_branch true (encode_cont_split_spec w pg xp xid xs offs max) enc_split_chunk.
    + enc_branch false (encode_cont_last_spec c w pg xp xid xs offs max)
        ltac:(rewrite Z.min_r by lia; unfold enc_fill; destruct c; arith;
              [ f_equal; [apply slice_eq; lia | f_equal; cast_lia]
              | f_equal; apply slice_eq; lia ]).
Qed.

End EncodeSpec.

(** ** encode is a const method *)

Section EncodeConst.
Context (c : option byte).

Lemma stable_clean_memset dst n : stable same_obj (clean_memset c dst n).
Proof. unfold clean_memset. stable_auto. Qed.
#[local] Hint Resolve stable_clean_memset : stable.

Lemma stable_encode_cont_split r xidp wptr rec_offs rem wr_cnt :
  stable same_obj (encode_cont_split r xidp wptr rec_offs rem wr_cnt).
Proof. unfold encode_cont_split. stable_auto. Qed.

Lemma stable_encode_cont_last r xidp wptr o rec_offs wr_cnt :
  stable same_obj (encode_cont_last c r xidp wptr o rec_offs wr_cnt).
Proof. unfold encode_cont_last. stable_auto. Qed.

Lemma stable_encode_first_split r xidp wptr rem wr_cnt :
  stable same_obj (encode_first_split r xidp wptr rem wr_cnt).
Proof. unfold encode_first_split. stable_auto. Qed.

Lemma stable_encode_first_whole r xidp wptr wr_cnt :
  stable same_obj (encode_first_whole c r xidp wptr wr_cnt).
Proof. unfold encode_first_whole. stable_auto. Qed.

#[local] Hint Resolve stable_encode_cont_split stable_encode_cont_last
  stable_encode_first_split stable_encode_first_whole : stable.

Lemma stable_encode wptr offs max : stable same_obj (encode c wptr offs max).
Proof. unfold encode, encode_cont, encode_first. stable_auto. Qed.

(** The outcome of a call within the contract, as an equation. *)
Lemma encode_run w pg xp xid offs max :
  encode_pre w pg xp xid offs max ->
  exists h, store (mem w) pg (encode_chunk c (this w) xid offs max) = Some h /\
            encode c (Some pg) offs max w
            = (Ok (encode_dblks (this w) offs max), World h (this w)).
Proof.
  intros H. pose proof (encode_wp c _ _ _ _ _ _ H) as W. unfold wp in W.
  destruct (encode c (Some pg) offs max w) as [res [h r]]. simpl in W.
  destruct W as (-> & Ht & Hs). simpl in *. subst r. eauto.
Qed.

(** The chunk fits the dblks the caller offered. *)
Lemma len_encode_chunk w pg xp xid offs max :
  encode_pre w pg xp xid offs max ->
  len (encode_chunk c (this w) xid offs max) <= max * JRNL_DBLK_SIZE.
Proof.
  intros [Hp Hs Hx Hm Ho Hin Hnw Hpg Hd]. pose proof (load_len _ _ _ _ Hx) as Hl.
  unfold encode_chunk, encode_len, encode_fill, rec_size, xid_size in *. consts.
  rewrite size_t_small in * by lia.
  destruct c; len_facts; slice_norm; [|len].
  destruct (Z.leb_spec (24 + _xidsize (_txn_hdr (this w)) + 16 - offs * 128) (max * 128));
    len; cast_lia.
Qed.

End EncodeConst.

(** The world of the examples meets the contract for a call that writes
    the second dblk of the record into a page of one dblk. *)
Lemma ex_encode_pre : encode_pre ex_world ex_page ex_xidp ex_xid 1 1.
Proof.
  constructor; try reflexivity; try (vm_compute; intuition congruence).
  exists (replicate 512 Byte.xff). vm_compute. intuition congruence.
Defined.

(** ** The properties of encode *)

(** C1 (functional): a call of encode within the driver's contract
    succeeds, returns the number of dblks of the specification, which is
    [min max (rec_size_dblks - offs)], leaves the object as it was, and
    leaves at the page exactly the chunk of the record image that starts
    at dblk [offs], followed by the filler when RHM_CLEAN is defined. *)
Theorem encode_correct c w pg xp xid offs max :
  encode_pre w pg xp xid offs max ->
  exists w', encode c (Some pg) offs max w = (Ok (encode_dblks (this w) offs max), w') /\
             this w' = this w /\
             load (mem w') pg (len (encode_chunk c (this w) xid offs max))
             = Some (encode_chunk c (this w) xid offs max).
Proof.
  intros H. destruct (encode_run c _ _ _ _ _ _ H) as (h & Hs & E).
  eexists. split; [exact E|]. split; [reflexivity|]. simpl. eauto using load_store_same.
Qed.

Lemma encode_correct_witness :
  exists w', encode None (Some ex_page) 1 1 ex_world = (Ok 1, w') /\
             this w' = ex_rec /\
             load (mem w') ex_page 112 = Some (slice 128 112 (rec_image ex_rec ex_xid)).
Proof. exact (encode_correct None ex_world ex_page ex_xidp ex_xid 1 1 ex_encode_pre). Defined.

(** C20 (safety): a call of encode within the contract writes inside the
    [max] dblks at the page and nowhere else: every region of memory that
    does not overlap them reads as before the call. *)
Theorem encode_frame c w pg xp xid offs max q n :
  encode_pre w pg xp xid offs max ->
  disjoint pg (max * JRNL_DBLK_SIZE) q n -> 0 <= n ->
  load (mem (snd (encode c (Some pg) offs max w))) q n = load (mem w) q n.
Proof.
  intros H Hd Hn. destruct (encode_run c _ _ _ _ _ _ H) as (h & Hs & ->). simpl.
  eapply load_store_other; [exact Hs | | exact Hn].
  pose proof (len_encode_chunk c _ _ _ _ _ _ H).
  pose proof (len_nonneg (encode_chunk c (this w) xid offs max)).
  unfold disjoint in *. lia.
Qed.

Lemma encode_frame_witness :
  load (mem (snd (encode None (Some ex_page) 1 1 ex_world))) (Ptr 2%positive 128) 384
  = load (mem ex_world) (Ptr 2%positive 128) 384.
Proof.
  apply (encode_frame None ex_world ex_page ex_xidp ex_xid 1 1 (Ptr 2%positive 128) 384
           ex_encode_pre); [right; left; vm_compute; discriminate | lia].
Defined.

(** C37 (liveness): every call of encode within the contract makes
    progress and stays inside the record: it returns between 1 and [max]
    dblks, never more than the record has left, and when it returns fewer
    than [max] the record is complete. *)
Theorem encode_progress c w pg xp xid offs max :
  encode_pre w pg xp xid offs max ->
  exists n w', encode c (Some pg) offs max w = (Ok n, w') /\
               0 < n <= max /\ offs + n <= rec_size_dblks (this w) /\
               (n < max -> offs + n = rec_size_dblks (this w)).
Proof.
  intros H. destruct (encode_run c _ _ _ _ _ _ H) as (h & _ & E).
  do 2 eexists. split; [exact E|]. destruct H as [_ Hs _ Hm Ho Hin Hnw _ _].
  unfold encode_dblks, rec_size_dblks, rec_size, xid_size in *. consts.
  rewrite size_t_small in * by lia. rewrite size_dblks_small by lia. cast_lia.
Qed.

Lemma encode_progress_witness :
  exists n w', encode None (Some ex_page) 1 1 ex_world = (Ok n, w') /\
               0 < n <= 1 /\ 1 + n <= rec_size_dblks (this ex_world) /\
               (n < 1 -> 1 + n = rec_size_dblks (this ex_world)).
Proof. exact (encode_progress None ex_world ex_page ex_xidp ex_xid 1 1 ex_encode_pre). Defined.

(** The three assertions at the head of encode.  A null page
    pointer, a [max_size_dblks] that is 0 as a uint32_t, a null xid
    pointer or an xid size of 0 stop the call at an assertion before
    anything is written. *)
Theorem encode_asserts c wptr offs max w :
  wptr = None \/ uint32_t max = 0 \/ _xidp (this w) = None \/ xid_size (this w) <= 0 ->
  encode c wptr offs max w = (Err AssertFail, w).
Proof.
  intros H. unfold encode, xid_size in *. cbv zeta. apply wp_eq.
  destruct wptr as [pg|]; [|now apply wp_bind_assert_false].
  apply wp_bind_assert; [reflexivity|].
  destruct (Z.eq_dec (uint32_t max) 0) as [->|Hm]; [now apply wp_bind_assert_false|].
  pose proof (uint32_t_range max).
  apply wp_bind_assert; [lia|]. apply wp_bind_self.
  apply wp_bind_assert_false; [|split; reflexivity].
  destruct (_xidp (this w)); [|reflexivity]. simpl. destruct H as [?|[?|[?|?]]]; try easy; lia.
Qed.

Lemma encode_asserts_witness :
  encode None (Some ex_page) 0 (2 ^ 32) ex_world = (Err AssertFail, ex_world).
Proof. apply encode_asserts. right. left. reflexivity. Defined.

(** A call behind the record.  For an object that encode
    accepts, a call at a dblk offset at or behind the end of the record
    writes nothing, whatever the page: it returns 0 when the record ends
    on the boundary of a dblk and the offset is that boundary, and stops
    at one of the assertions [rem == 0] and [rec_offs == 0] otherwise.
    The difference of the dblk counts wraps as a uint32_t behind the last
    dblk, which sends the call into the branch for a further split. *)
Lemma encode_past_end c pg offs max w :
  _xidp (this w) <> None -> 0 < xid_size (this w) < 2 ^ 32 -> 0 < max ->
  rec_size (this w) <= offs * JRNL_DBLK_SIZE -> (offs + max) * JRNL_DBLK_SIZE < 2 ^ 32 ->
  encode c (Some pg) offs max w
  = (if offs * JRNL_DBLK_SIZE =? rec_size (this w) then Ok 0 else Err AssertFail, w).
Proof.
  intros Hp Hs Hm Hin Hnw. unfold xid_size, rec_size in *.
  remember (_xidsize (_txn_hdr (this w))) as xs eqn:Exs. symmetry in Exs.
  consts. rewrite size_t_small in * by lia.
  unfold encode. cbv zeta. rewrite (uint32_t_small offs), (uint32_t_small max) by lia.
  rewrite !dblk_bytes_small by lia. apply wp_eq.
  apply wp_bind_assert; [reflexivity|]. apply wp_bind_assert; [lia|].
  apply wp_bind_self. rewrite Exs.
  destruct (_xidp (this w)) as [xp|] eqn:Ep; [|easy].
  apply wp_bind_assert; [simpl; lia|].
  do 2 apply wp_bind_defined. replace (negb (offs =? 0)) with true by lia.
  unfold encode_cont, rec_size. rewrite Exs. consts. rewrite size_t_small by lia.
  rewrite size_dblks_small by lia. apply wp_bind. unfold wp at 1.
  replace (24 + xs + 16) with (40 + xs) by lia.
  destruct (Z.eq_dec ((40 + xs + 127) / 128) offs) as [En|En].
  - replace (_ >? max) with false by cast_lia.
    rewrite (encode_cont_last_beyond w xp xs offs max Exs) by lia.
    now destruct (_ =? _).
  - replace (_ >? max) with true by cast_lia.
    rewrite (encode_cont_split_beyond w xp xs offs max Exs) by lia.
    replace (_ =? _) with false by cast_lia. easy.
Qed.

Lemma encode_past_end_witness :
  encode None (Some ex_page) 2 4 ex_world = (Err AssertFail, ex_world).
Proof.
  apply (encode_past_end None ex_page 2 4 ex_world); try (vm_compute; intuition congruence).
Defined.

(** C36 (functional): encode on every offset.  For an object whose xid,
    when it has one, is readable and outside the page, and for every dblk
    offset and every room that do not wrap, the outcome of a call is the
    one of [encode_outcome]: a failed assertion without room or without
    xid, the dblks of the chunk when the offset is inside the record, 0
    at the exact end of a record that fills its last dblk, and a failed
    assertion behind the record.  The object is the same after the call. *)
Theorem encode_total c w pg offs max :
  0 <= xid_size (this w) < 2 ^ 32 -> 0 <= offs -> 0 <= max ->
  (offs + max) * JRNL_DBLK_SIZE < 2 ^ 32 ->
  valid_range (mem w) pg (max * JRNL_DBLK_SIZE) ->
  (forall xp, _xidp (this w) = Some xp ->
     valid_range (mem w) xp (xid_size (this w)) /\
     disjoint pg (max * JRNL_DBLK_SIZE) xp (xid_size (this w))) ->
  fst (encode c (Some pg) offs max w) = encode_outcome (this w) offs max /\
  this (snd (encode c (Some pg) offs max w)) = this w.
Proof.
  intros Hxs Ho Hm Hnw Hpg Hx. split; [|now destruct (stable_encode c (Some pg) offs max w)].
  unfold encode_outcome.
  destruct ((max =? 0) || negb (bool_decide (_xidp (this w) <> None)) || (xid_size (this w) =? 0))
    eqn:Ea.
  - rewrite encode_asserts; [reflexivity|]. right.
    apply orb_true_iff in Ea as [Ea|Ea]; [apply orb_true_iff in Ea as [Ea|Ea]|].
    + left. apply Z.eqb_eq in Ea. now subst.
    + right. left. destruct (_xidp (this w)); [discriminate Ea|reflexivity].
    + right. right. apply Z.eqb_eq in Ea. lia.
  - apply orb_false_iff in Ea as [Ea Ez]. apply orb_false_iff in Ea as [Em Ep].
    destruct (_xidp (this w)) as [xp|] eqn:Exp; [|discriminate Ep].
    destruct (Hx xp eq_refl) as [Hv Hd]. destruct (load_valid _ _ _ Hv) as (b & _ & El).
    destruct (Z.ltb_spec (offs * JRNL_DBLK_SIZE) (rec_size (this w))) as [Hin|Hin].
    + destruct (encode_run c w pg xp _ offs max ltac:(split; eauto; lia)) as (h & _ & ->).
      reflexivity.
    + rewrite encode_past_end; [reflexivity|congruence|lia..].
Qed.

Lemma encode_total_witness :
  fst (encode None (Some ex_page) 2 4 ex_world) = encode_outcome ex_rec 2 4 /\
  this (snd (encode None (Some ex_page) 2 4 ex_world)) = ex_rec.
Proof.
  apply (encode_total None ex_world ex_page 2 4); try (vm_compute; intuition congruence).
  - exists (replicate 512 Byte.xff). vm_compute. intuition congruence.
  - intros xp [= <-]. split; [|left; vm_compute; discriminate].
    eexists. vm_compute. intuition congruence.
Defined.

(** ** The exceptions of encode *)

Lemma encode_throws_only c wptr offs max : throws_only (fun _ => False) (encode c wptr offs max).
Proof. throws_auto. Qed.

(** encode throws no exception.  For all arguments and in
    every state, inside the contract or not, the call returns a count, or
    stops at an assertion or at an access outside the allocated memory. *)
Theorem encode_throws_nothing c wptr offs max w e :
  fst (encode c wptr offs max w) <> Err (Throw e).
Proof. intros H. exact (encode_throws_only c wptr offs max w e H). Qed.
