(* ===== verification/Decode.v ===== *)
(** * Decode: [txn_rec::decode]

    One definition per branch of the source, in its order.  A continuation
    call is one of: the rest of the record fits ([decode_cont_last], with
    its two cases: part of the xid outstanding, or only the tail), the
    rest of the xid fits and the tail is split ([decode_cont_tail_split]),
    the xid is still split ([decode_cont_xid_split]).  The first call
    copies the header in, reads the xid size off the page, checks the
    header, allocates [_buff] and then is one of [decode_first_whole],
    [decode_first_tail_split] and [decode_first_xid_split].

    The local variables are the source's; a [const uint32_t] is converted
    by [size_dblks], a [std::size_t] expression wraps at 2^64.

    The theorems state the contract of a call and, outside it, the header
    check, the failure of std::malloc, a tail that is not the header's,
    an offset behind the record and an xid size whose dblk count wraps. *)

From Stdlib Require Import ZArith Lia List.
From coqutil Require Import Byte Word.LittleEndianList.
From stdpp Require Import base option list gmap.
From S2P Require Import Prelude Memory Layout TxnRec Encode.

#[local] Open Scope Z_scope.
#[local] Open Scope jrnl_scope.

(** [_txn_hdr._rhdr = h] and [_txn_hdr._xidsize = n] *)
Definition set_rhdr (h : rec_hdr_t) (r : txn_rec) : txn_rec :=
  set_txn_hdr {| _rhdr := h; _xidsize := _xidsize (_txn_hdr r) |} r.

Definition set_xidsize (n : Z) (r : txn_rec) : txn_rec :=
  set_txn_hdr {| _rhdr := _rhdr (_txn_hdr r); _xidsize := n |} r.

(** [*(std::size_t* )p] *)
Definition load_size_t (p : ptr) : method Z :=
  bs <- mem_load p 8 ;; ret (le_combine bs).

(** Continuation: the remainder of the record fits within this page. *)
Definition decode_cont_last (rptr : ptr) (rec_offs : Z) : method Z :=
  r <- self ;;
  let xidsize := _xidsize (_txn_hdr r) in
  if size_t (rec_offs - sizeof_txn_hdr_t) <? xidsize then
    let xid_offs := size_t (rec_offs - sizeof_txn_hdr_t) in
    let xid_rem := size_t (xidsize - xid_offs) in
    buff <- defined (_buff r) ;;
    memcpy_mm (ptr_add buff xid_offs) rptr xid_rem ;;
    let rd_cnt := xid_rem in
    memcpy_to_tail 0 (ptr_add rptr rd_cnt) sizeof_rec_tail_t ;;
    chk_tail ;;
    ret (size_t (rd_cnt + sizeof_rec_tail_t))
  else
    let tail_offs := size_t (size_t (rec_offs - sizeof_txn_hdr_t) - xidsize) in
    let tail_rem := size_t (sizeof_rec_tail_t - tail_offs) in
    memcpy_to_tail tail_offs rptr tail_rem ;;
    chk_tail ;;
    ret tail_rem.

(** Continuation: the remainder of the xid fits within this page, the
    tail is split. *)
Definition decode_cont_tail_split (rptr : ptr) (max_size_dblks rec_offs rd_cnt : Z)
  : method Z :=
  r <- self ;;
  let xidsize := _xidsize (_txn_hdr r) in
  let xid_offs := size_t (rec_offs - sizeof_txn_hdr_t) in
  let xid_rem := size_t (xidsize - xid_offs) in
  buff <- defined (_buff r) ;;
  memcpy_mm (ptr_add buff xid_offs) rptr xid_rem ;;
  let rd_cnt := size_t (rd_cnt + xid_rem) in
  let tail_rem := size_t (dblk_bytes max_size_dblks - rd_cnt) in
  if negb (tail_rem =? 0) then
    memcpy_to_tail 0 (ptr_add rptr xid_rem) tail_rem ;;
    ret (size_t (rd_cnt + tail_rem))
  else ret rd_cnt.

(** Continuation: the remainder of the xid is split. *)
Definition decode_cont_xid_split (rptr : ptr) (max_size_dblks rec_offs rd_cnt : Z)
  : method Z :=
  r <- self ;;
  let xid_cp_size := dblk_bytes max_size_dblks in
  buff <- defined (_buff r) ;;
  memcpy_mm (ptr_add (ptr_add buff rec_offs) (- sizeof_txn_hdr_t)) rptr xid_cp_size ;;
  ret (size_t (rd_cnt + xid_cp_size)).

(** Continuation of a record on a new page. *)
Definition decode_cont (rptr : ptr) (rec_offs_dblks max_size_dblks rd_cnt : Z) : method Z :=
  r <- self ;;
  let xidsize := _xidsize (_txn_hdr r) in
  let hdr_xid_dblks := size_dblks (size_t (sizeof_txn_hdr_t + xidsize)) in
  let hdr_xid_tail_dblks :=
    size_dblks (size_t (sizeof_txn_hdr_t + xidsize + sizeof_rec_tail_t)) in
  let rec_offs := dblk_bytes rec_offs_dblks in
  if uint32_t (hdr_xid_tail_dblks - rec_offs_dblks) <=? max_size_dblks
  then decode_cont_last rptr rec_offs
  else if uint32_t (hdr_xid_dblks - rec_offs_dblks) <=? max_size_dblks
  then decode_cont_tail_split rptr max_size_dblks rec_offs rd_cnt
  else decode_cont_xid_split rptr max_size_dblks rec_offs rd_cnt.

(** Start of record: header, xid and tail fit within this page. *)
Definition decode_first_whole (buff rptr : ptr) (rd_cnt : Z) : method Z :=
  r <- self ;;
  let xidsize := _xidsize (_txn_hdr r) in
  memcpy_mm buff (ptr_add rptr rd_cnt) xidsize ;;
  let rd_cnt := size_t (rd_cnt + xidsize) in
  memcpy_to_tail 0 (ptr_add rptr rd_cnt) sizeof_rec_tail_t ;;
  let rd_cnt := size_t (rd_cnt + sizeof_rec_tail_t) in
  chk_tail ;;
  ret rd_cnt.

(** Start of record: header and xid fit within this page, the tail is
    split. *)
Definition decode_first_tail_split (buff rptr : ptr) (max_size_dblks rd_cnt : Z)
  : method Z :=
  r <- self ;;
  let xidsize := _xidsize (_txn_hdr r) in
  memcpy_mm buff (ptr_add rptr rd_cnt) xidsize ;;
  let rd_cnt := size_t (rd_cnt + xidsize) in
  let tail_rem := size_t (dblk_bytes max_size_dblks - rd_cnt) in
  if negb (tail_rem =? 0) then
    memcpy_to_tail 0 (ptr_add rptr rd_cnt) tail_rem ;;
    ret (size_t (rd_cnt + tail_rem))
  else ret rd_cnt.

(** Start of record: the header fits within this page, the xid is split. *)
Definition decode_first_xid_split (buff rptr : ptr) (max_size_dblks rd_cnt : Z)
  : method Z :=
  let xid_cp_size := size_t (dblk_bytes max_size_dblks - rd_cnt) in
  memcpy_mm buff (ptr_add rptr rd_cnt) xid_cp_size ;;
  ret (size_t (rd_cnt + xid_cp_size)).

(** Start of record: get and check the header, allocate the buffer. *)
Definition decode_first (h : rec_hdr_t) (rptr : ptr) (max_size_dblks : Z) : method Z :=
  set_this (set_rhdr (rec_hdr_copy h)) ;;
  let rd_cnt := sizeof_rec_hdr_t in
  xidsize <- load_size_t (ptr_add rptr rd_cnt) ;;
  set_this (set_xidsize xidsize) ;;
  let rd_cnt := sizeof_txn_hdr_t in
  chk_hdr ;;
  p <- mem_malloc xidsize ;;
  set_this (set_buff p) ;;
  buff <- MALLOC_CHK p clean ;;
  let hdr_xid_dblks := size_dblks (size_t (sizeof_txn_hdr_t + xidsize)) in
  let hdr_xid_tail_dblks :=
    size_dblks (size_t (sizeof_txn_hdr_t + xidsize + sizeof_rec_tail_t)) in
  if hdr_xid_tail_dblks <=? max_size_dblks
  then decode_first_whole buff rptr rd_cnt
  else if hdr_xid_dblks <=? max_size_dblks
  then decode_first_tail_split buff rptr max_size_dblks rd_cnt
  else decode_first_xid_split buff rptr max_size_dblks rd_cnt.

(** [uint32_t txn_rec::decode(rec_hdr_t& h, void* rptr,
    uint32_t rec_offs_dblks, uint32_t max_size_dblks)] *)
Definition decode (h : rec_hdr_t) (rptr : option ptr) (rec_offs_dblks max_size_dblks : Z)
  : method Z :=
  let rec_offs_dblks := uint32_t rec_offs_dblks in
  let max_size_dblks := uint32_t max_size_dblks in
  assert (bool_decide (rptr <> None)) ;;
  assert (max_size_dblks >? 0) ;;
  rp <- defined rptr ;;
  let rd_cnt := 0 in
  rd_cnt <-
    (if negb (rec_offs_dblks =? 0)
     then decode_cont rp rec_offs_dblks max_size_dblks rd_cnt
     else decode_first h rp max_size_dblks) ;;
  ret (size_dblks rd_cnt).

(** ** What a call has to do: the abstract specification

    The reader of a record [r0] with transaction id [xid] has consumed the
    first [n] bytes of its image: it knows the header, its buffer holds
    the xid as far as it was read, and its tail agrees with the tail of
    [r0] on the bytes read. *)
Record decoded (r0 : txn_rec) (xid : list byte) (n : Z) (w : world) : Prop := {
  dec_hdr : _txn_hdr (this w) = _txn_hdr r0;
  dec_buff : exists b, _buff (this w) = Some b /\ valid_range (mem w) b (xid_size r0) /\
             load (mem w) b (Z.min (n - sizeof_txn_hdr_t) (xid_size r0))
             = Some (slice 0 (n - sizeof_txn_hdr_t) xid);
  dec_tail_wf : rec_tail_wf (_txn_tail (this w));
  dec_tail : slice 0 (n - sizeof_txn_hdr_t - xid_size r0) (rec_tail_bytes (_txn_tail (this w)))
             = slice 0 (n - sizeof_txn_hdr_t - xid_size r0) (rec_tail_bytes (_txn_tail r0))
}.

(** The outcome of a call that has read the whole tail: the tail check
    decides. *)
Definition chk_outcome (r0 : txn_rec) (cnt : Z) : res jerrno Z :=
  if decide (txn_rec_sealed r0) then Ok cnt else Err (Throw JERR_JREC_BADRECTAIL).

(** The outcome of the call at dblk [offs] with room for [max] dblks. *)
Definition decode_outcome (r0 : txn_rec) (offs max : Z) : res jerrno Z :=
  if rec_size r0 <=? (offs + max) * JRNL_DBLK_SIZE
  then chk_outcome r0 (encode_dblks r0 offs max)
  else Ok (encode_dblks r0 offs max).

(** The effect of one call that starts [k0] bytes behind the header and
    consumes [n] bytes of xid and tail: its outcome is [out], it stores
    the next bytes of the xid into the buffer [b], and it changes the tail
    only. *)
Definition dec_post (r0 : txn_rec) (xid : list byte) (xs : Z) (w : world) (b : ptr)
  (k0 n : Z) (out : res jerrno Z) (res : res jerrno Z) (w' : world) : Prop :=
  res = out /\
  store (mem w) (ptr_add b (Z.min k0 xs)) (slice k0 n xid) = Some (mem w') /\
  exists t', this w' = set_txn_tail t' (this w) /\ rec_tail_wf t' /\
             slice 0 (k0 + n - xs) (rec_tail_bytes t')
             = slice 0 (k0 + n - xs) (rec_tail_bytes (_txn_tail r0)).

(** The object after the first call has copied the header in and
    allocated the buffer [b]. *)
Definition first_obj (r0 : txn_rec) (b : ptr) (r : txn_rec) : txn_rec :=
  {| _txn_hdr := _txn_hdr r0; _xidp := _xidp r; _buff := Some b; _txn_tail := _txn_tail r |}.

(** The contract of the journal driver for one call of decode on the
    record [r0] with transaction id [xid]: the page holds the chunk of the
    image that encode writes for these dblks; on the first call the header
    [h] is that of the record and passes the header check, and the xid
    fits the memory left; on a continuation the reader has consumed the
    record up to dblk [offs] and its buffer does not overlap the page. *)
Record decode_pre (r0 : txn_rec) (xid : list byte) (w : world) (h : rec_hdr_t) (pg : ptr)
    (offs max : Z) : Prop := {
  dpre_xidsize : 0 < xid_size r0 < 2 ^ 32;
  dpre_xid : len xid = xid_size r0;
  dpre_tail : rec_tail_wf (_txn_tail r0);
  dpre_max : 0 < max;
  dpre_offs : 0 <= offs;
  dpre_inside : offs * JRNL_DBLK_SIZE < rec_size r0;
  dpre_nowrap : (offs + max) * JRNL_DBLK_SIZE < 2 ^ 32;
  dpre_page : load (mem w) pg (encode_len r0 offs max)
              = Some (slice (offs * JRNL_DBLK_SIZE) (encode_len r0 offs max) (rec_image r0 xid));
  dpre_state :
    if offs =? 0
    then h = _rhdr (_txn_hdr r0) /\ txn_magic (_magic h) /\ _version h = QLS_JRNL_VERSION /\
         xid_size r0 <= heap_avail (mem w) /\ rec_tail_wf (_txn_tail (this w))
    else decoded r0 xid (offs * JRNL_DBLK_SIZE) w /\
         forall b, _buff (this w) = Some b ->
                   disjoint b (xid_size r0) pg (encode_len r0 offs max)
}.

(** The bytes of xid and tail consumed before the call at dblk [offs]. *)
Definition dec_k0 (offs : Z) : Z := Z.max 0 (offs * JRNL_DBLK_SIZE - sizeof_txn_hdr_t).

(** The world [w1] with the buffer [b] in which the copies of a call
    start: on the first call [w] after the allocation of [b], on a
    continuation [w] itself. *)
Definition based_on (r0 : txn_rec) (w : world) (offs : Z) (b : ptr) (w1 : world) : Prop :=
  if offs =? 0
  then malloc (mem w) (xid_size r0) = (Some b, mem w1) /\ this w1 = first_obj r0 b (this w)
  else w1 = w /\ _buff (this w) = Some b.

(** ** Worlds to run decode in

    [ex_written]: the page holds the record of [ex_world], written by one
    call of encode, and the reader is a fresh object.  [ex_torn]: the same
    record with a tail whose rid is not the header's. *)
Definition ex_written : world :=
  World (mem (snd (encode None (Some ex_page) 0 4 ex_world))) txn_rec_ctor0.

Definition ex_torn : txn_rec :=
  set_txn_tail {| _xmagic := not32 QLS_TXA_MAGIC; _checksum := 0; _tail_rid := 6 |} ex_rec.

Definition ex_torn_written : world :=
  World (mem (snd (encode None (Some ex_page) 0 4 (World ex_heap ex_torn)))) txn_rec_ctor0.

(** [ex_huge]: a page of four dblks that holds the header of [ex_rec] and
    an xid size of 2^39, in a memory that has 2^40 bytes to allocate. *)
Definition ex_huge_page : list byte :=
  rec_hdr_bytes (_rhdr (_txn_hdr ex_rec)) ++ le_split 8 (2 ^ 39) ++ replicate 488 Byte.x00.

Definition ex_huge : world :=
  World (Heap {[ p_blk ex_page := ex_huge_page ]} (2 ^ 40)) txn_rec_ctor0.

(** ** The page: where the bytes of the xid and of the tail are *)

Section Page.
Context (h : heap) (pg : ptr) (r0 : txn_rec) (xid : list byte) (base L : Z).
Context (Hpg : load h pg L = Some (slice base L (rec_image r0 xid))).
Context (Hbase : 0 <= base).

Lemma page_xid p a n k :
  p = ptr_add pg a -> k = base + a - 24 ->
  0 <= a -> 0 <= n -> a + n <= L -> 0 <= k -> k + n <= len xid ->
  load h p n = Some (slice k n xid).
Proof.
  intros -> -> Ha Hn Hb Hlo Hhi. rewrite (load_sub _ _ _ _ _ _ Hpg) by lia. f_equal.
  unfold rec_image. slices.
Qed.

Lemma page_tail p a n k :
  p = ptr_add pg a -> k = base + a - 24 - len xid ->
  0 <= a -> 0 <= n -> a + n <= L -> 0 <= k -> k + n <= 16 ->
  load h p n = Some (slice k n (rec_tail_bytes (_txn_tail r0))).
Proof.
  intros -> -> Ha Hn Hb Hlo Hhi. rewrite (load_sub _ _ _ _ _ _ Hpg) by lia. f_equal.
  unfold rec_image. slices.
Qed.

Lemma page_xidsize :
  base = 0 -> 24 <= L ->
  load h (ptr_add pg 16) 8 = Some (le_split 8 (_xidsize (_txn_hdr r0))).
Proof.
  intros E HL. rewrite (load_sub _ _ _ _ _ _ Hpg) by lia. f_equal. rewrite E.
  unfold rec_image, txn_hdr_bytes. slices.
Qed.

End Page.

(** ** The buffer: the store of the next bytes of the xid *)

Section Buffer.
Context (w : world) (pg b : ptr) (xid : list byte) (xs L : Z).
Context (Hlen : len xid = xs) (Hbv : valid_range (mem w) b xs).
Context (Hdis : disjoint b xs pg L).

Lemma dec_store k n :
  0 <= k -> 0 <= n -> k + n <= xs ->
  exists h', store (mem w) (ptr_add b k) (slice k n xid) = Some h'.
Proof.
  intros Hk Hn Hb'. apply store_defined. rewrite len_slice_in by lia.
  eapply valid_range_weaken; [exact Hbv | lia ..].
Qed.

(** The page reads the same after it. *)
Lemma dec_page_after k n h' p j :
  store (mem w) (ptr_add b k) (slice k n xid) = Some h' ->
  0 <= k -> 0 <= n -> k + n <= xs -> 0 <= j -> 0 <= p_ofs p - p_ofs pg ->
  p_blk p = p_blk pg -> p_ofs p + j <= p_ofs pg + L ->
  load h' p j = load (mem w) p j.
Proof.
  intros Hs Hk Hn Hb' Hj Hp1 Hp2 Hp3. eapply load_store_other; [exact Hs | | exact Hj].
  rewrite len_slice_in by lia. unfold disjoint in *. simpl. rewrite Hp2. lia.
Qed.

End Buffer.

Lemma set_txn_tail_same r : set_txn_tail (_txn_tail r) r = r.
Proof. now destruct r. Qed.

(** [dec_xid a k]: the memcpy of xid bytes from page offset [a], which are
    the bytes of the xid from [k] on, into the buffer, given the store
    [Hs] that it amounts to.  [dec_tail Hs a k]: the memcpy of tail bytes
    from page offset [a] after that store.  [Hpg], [Hlen] and [Hdis] are
    the hypotheses of these names in the sections below. *)
Ltac dec_xid Hpg a0 k0 :=
  eapply wp_memcpy_mm;
  [ eapply (page_xid _ _ _ _ _ _ Hpg) with (a := a0) (k := k0); [lia | ptr_solve | lia ..]
  | match goal with Hs : store _ ?p _ = Some _ |- store _ ?q _ = _ =>
      replace q with p by ptr_solve; exact Hs end
  | ].

Ltac dec_tail0 Hpg a0 k0 :=
  eapply wp_memcpy_to_tail;
  [ eapply (page_tail _ _ _ _ _ _ Hpg) with (a := a0) (k := k0); [lia | ptr_solve | lia ..]
  | lia | consts; lia | ].

Ltac dec_tail Hpg Hlen Hdis Hs a0 k0 :=
  eapply wp_memcpy_to_tail;
  [ cbn [mem]; rewrite (dec_page_after _ _ _ _ _ _ Hlen Hdis _ _ _ _ _ Hs) by (simpl; lia);
    eapply (page_tail _ _ _ _ _ _ Hpg) with (a := a0) (k := k0); [lia | ptr_solve | lia ..]
  | lia | consts; lia | ].

Ltac dec_stored :=
  cbn [mem]; rewrite ?Z.min_l by lia;
  match goal with Hs : store _ ?p _ = Some ?h |- store _ ?q _ = Some ?h =>
    first [ exact Hs
          | rewrite <- Hs; f_equal; try ptr_solve; try (apply slice_clamp_eq; lia) ]
  end.

Ltac dec_res :=
  unfold chk_outcome;
  first [ reflexivity | f_equal; lia
        | case_decide; first [ f_equal; lia | reflexivity | contradiction ] ].

Ltac dec_ret :=
  lazymatch goal with |- wp (ret _) _ _ => apply wp_ret | |- _ => idtac end.

Ltac dec_done :=
  dec_ret; split; [dec_res|]; split;
  [ dec_stored | eexists; split; [reflexivity|]; split; [apply rec_tail_of_bytes_wf|] ].

Ltac dec_done_full Ht0 :=
  dec_ret; split; [dec_res|]; split;
  [ first [ dec_stored
          | cbn [mem]; rewrite Z.min_r, slice_nil by lia; apply store_nil;
            eapply valid_range_weaken; [eassumption | lia ..] ]
  | eexists; split; [reflexivity|]; split; [exact Ht0 | reflexivity] ].

Ltac dec_done_same Htw :=
  dec_ret; split; [dec_res|]; split;
  [ dec_stored
  | eexists; split; [symmetry; apply set_txn_tail_same|]; split; [exact Htw|];
    rewrite !slice_nil; [reflexivity | left; lia ..] ].

(** ** The branches of a continuation *)

Section Cont.
Context (r0 : txn_rec) (xid : list byte) (xs : Z) (w : world) (pg b : ptr) (o m L : Z).
Context (Exs : _xidsize (_txn_hdr r0) = xs) (Hxs : 0 < xs < 2 ^ 32) (Hlen : len xid = xs).
Context (Hm : 0 < m) (Ho : 0 < o) (Hw : (o + m) * 128 < 2 ^ 32) (Hin : o * 128 < 40 + xs).
Context (Hhdr : _txn_hdr (this w) = _txn_hdr r0).
Context (Hb : _buff (this w) = Some b) (Hbv : valid_range (mem w) b xs).
Context (Ht : slice 0 (o * 128 - 24 - xs) (rec_tail_bytes (_txn_tail (this w)))
              = slice 0 (o * 128 - 24 - xs) (rec_tail_bytes (_txn_tail r0))).
Context (EL : L = Z.min (m * 128) (40 + xs - o * 128)).
Context (Hpg : load (mem w) pg L = Some (slice (o * 128) L (rec_image r0 xid))).
Context (Hdis : disjoint b xs pg L).
Context (Htw : rec_tail_wf (_txn_tail (this w))) (Ht0 : rec_tail_wf (_txn_tail r0)).

Abbreviation cont_post n := (dec_post r0 xid xs w b (o * 128 - 24) n%Z (Ok n%Z)).

Lemma decode_cont_xid_split_spec :
  (o + m) * 128 < 24 + xs ->
  wp (decode_cont_xid_split pg m (o * 128) 0) w (cont_post (m * 128)).
Proof.
  intros Hc. unfold decode_cont_xid_split. cbv zeta. rewrite dblk_bytes_small by lia. consts.
  apply wp_bind_self. rewrite Hb. apply wp_bind_defined.
  destruct (dec_store w b xid xs Hlen Hbv (o * 128 - 24) (m * 128)) as [h' Hs]; [lia ..|].
  dec_xid Hpg 0 (o * 128 - 24). arith. dec_done_same Htw.
Qed.

Lemma decode_cont_tail_split_spec :
  24 + xs <= (o + m) * 128 < 40 + xs ->
  wp (decode_cont_tail_split pg m (o * 128) 0) w (cont_post (m * 128)).
Proof.
  intros Hc. unfold decode_cont_tail_split. cbv zeta. rewrite dblk_bytes_small by lia. consts.
  apply wp_bind_self. rewrite Hb, Hhdr, Exs. apply wp_bind_defined. arith.
  destruct (dec_store w b xid xs Hlen Hbv (o * 128 - 24) (xs - (o * 128 - 24)))
    as [h' Hs]; [lia ..|].
  dec_xid Hpg 0 (o * 128 - 24).
  destruct (Z.eq_dec ((o + m) * 128) (24 + xs)) as [E|E]; arith; [dec_done_same Htw|].
  dec_tail Hpg Hlen Hdis Hs (xs - (o * 128 - 24)) 0. dec_done.
  cbn [this _txn_tail set_txn_tail]. apply tail_extend; [reflexivity | lia ..].
Qed.

Lemma decode_cont_last_spec :
  40 + xs <= (o + m) * 128 ->
  wp (decode_cont_last pg (o * 128)) w
    (dec_post r0 xid xs w b (o * 128 - 24) (40 + xs - o * 128)
       (chk_outcome r0 (40 + xs - o * 128))).
Proof.
  intros Hc. unfold decode_cont_last. cbv zeta. consts.
  apply wp_bind_self. rewrite Hb, Hhdr, Exs.
  destruct (Z.lt_ge_cases (o * 128 - 24) xs) as [Hx|Hx]; arith.
  - apply wp_bind_defined.
    destruct (dec_store w b xid xs Hlen Hbv (o * 128 - 24) (xs - (o * 128 - 24)))
      as [h' Hs]; [lia ..|].
    dec_xid Hpg 0 (o * 128 - 24). dec_tail Hpg Hlen Hdis Hs (xs - (o * 128 - 24)) 0.
    apply wp_chk_tail; unfold txn_rec_sealed at 1; cbn [this _txn_tail _txn_hdr set_txn_tail];
      rewrite (tail_complete _ _ 0), Hhdr by (try reflexivity; try assumption; lia);
      intros Hse; dec_done_full Ht0.
  - dec_tail0 Hpg 0 (o * 128 - 24 - xs).
    apply wp_chk_tail; unfold txn_rec_sealed at 1; cbn [this _txn_tail _txn_hdr set_txn_tail];
      rewrite (tail_complete _ _ _ Ht), Hhdr by (try assumption; lia);
      intros Hse; dec_done_full Ht0.
Qed.

(** The dispatch on the two boundary dblk counts, and the whole
    continuation call. *)
Lemma decode_cont_spec :
  wp (decode_cont pg o m 0) w
    (dec_post r0 xid xs w b (o * 128 - 24) L
       (if 40 + xs <=? (o + m) * 128 then chk_outcome r0 L else Ok L)).
Proof.
  unfold decode_cont. cbv zeta. apply wp_bind_self. rewrite Hhdr, Exs. consts.
  rewrite !size_t_small, !size_dblks_small, dblk_bytes_small by lia.
  destruct (Z.le_gt_cases (40 + xs) ((o + m) * 128)) as [Hc|Hc].
  - replace (uint32_t _ <=? m) with true by cast_lia. arith.
    rewrite EL, Z.min_r by lia. now apply decode_cont_last_spec.
  - replace (uint32_t _ <=? m) with false by cast_lia. arith.
    rewrite EL, Z.min_l by lia.
    destruct (Z.le_gt_cases (24 + xs) ((o + m) * 128)) as [Hx|Hx].
    + replace (uint32_t _ <=? m) with true by cast_lia. now apply decode_cont_tail_split_spec.
    + replace (uint32_t _ <=? m) with false by cast_lia. now apply decode_cont_xid_split_spec.
Qed.

Lemma decode_cont_wp h :
  wp (decode h (Some pg) o m) w
    (dec_post r0 xid xs w b (o * 128 - 24) L (decode_outcome r0 o m)).
Proof.
  unfold decode. cbv zeta. rewrite !uint32_t_small by lia.
  apply wp_bind_assert; [reflexivity|]. apply wp_bind_assert; [lia|]. apply wp_bind_defined.
  replace (negb (o =? 0)) with true by lia.
  eapply wp_bind_with; [apply decode_cont_spec|].
  intros res w' (-> & Hs & Htl).
  assert (size_dblks L = encode_dblks r0 o m) as E.
  { unfold encode_dblks, rec_size. rewrite Exs. consts.
    rewrite size_t_small, !size_dblks_small by lia. cast_lia. }
  unfold decode_outcome, chk_outcome, rec_size. rewrite <- E, Exs. consts.
  rewrite size_t_small by lia.
  replace (24 + xs + 16) with (40 + xs) by lia.
  destruct (40 + xs <=? (o + m) * 128); [case_decide|]; dec_ret; (split; [reflexivity|now split]).
Qed.

End Cont.

(** ** The branches of the first call, from the allocation of the buffer on *)

Section First.
Context (r0 : txn_rec) (xid : list byte) (xs : Z) (w : world) (pg b : ptr) (m L : Z).
Context (Exs : _xidsize (_txn_hdr r0) = xs) (Hxs : 0 < xs < 2 ^ 32) (Hlen : len xid = xs).
Context (Hm : 0 < m) (Hw : m * 128 < 2 ^ 32).
Context (Hhdr : _txn_hdr (this w) = _txn_hdr r0) (Hbv : valid_range (mem w) b xs).
Context (EL : L = Z.min (m * 128) (40 + xs)).
Context (Hpg : load (mem w) pg L = Some (slice 0 L (rec_image r0 xid))).
Context (Hdis : disjoint b xs pg L).
Context (Htw : rec_tail_wf (_txn_tail (this w))) (Ht0 : rec_tail_wf (_txn_tail r0)).

Abbreviation first_post n := (dec_post r0 xid xs w b 0 n%Z (Ok (24 + n)%Z)).

Lemma decode_first_xid_split_spec :
  m * 128 < 24 + xs ->
  wp (decode_first_xid_split b pg m 24) w (first_post (m * 128 - 24)).
Proof.
  intros Hc. unfold decode_first_xid_split. cbv zeta. rewrite dblk_bytes_small by lia. arith.
  destruct (dec_store w b xid xs Hlen Hbv 0 (m * 128 - 24)) as [h' Hs]; [lia ..|].
  dec_xid Hpg 24 0. dec_done_same Htw.
Qed.

Lemma decode_first_tail_split_spec :
  24 + xs <= m * 128 < 40 + xs ->
  wp (decode_first_tail_split b pg m 24) w (first_post (m * 128 - 24)).
Proof.
  intros Hc. unfold decode_first_tail_split. cbv zeta. rewrite dblk_bytes_small by lia.
  apply wp_bind_self. rewrite Hhdr, Exs. arith.
  destruct (dec_store w b xid xs Hlen Hbv 0 xs) as [h' Hs]; [lia ..|].
  dec_xid Hpg 24 0.
  destruct (Z.eq_dec (m * 128) (24 + xs)) as [E|E]; arith; [dec_done_same Htw|].
  dec_tail Hpg Hlen Hdis Hs (24 + xs) 0. dec_done.
  cbn [this _txn_tail set_txn_tail]. apply tail_extend; [reflexivity | lia ..].
Qed.

Lemma decode_first_whole_spec :
  40 + xs <= m * 128 ->
  wp (decode_first_whole b pg 24) w
    (dec_post r0 xid xs w b 0 (xs + 16) (chk_outcome r0 (24 + (xs + 16)))).
Proof.
  intros Hc. unfold decode_first_whole. cbv zeta. consts.
  apply wp_bind_self. rewrite Hhdr, Exs. arith.
  destruct (dec_store w b xid xs Hlen Hbv 0 xs) as [h' Hs]; [lia ..|].
  dec_xid Hpg 24 0. dec_tail Hpg Hlen Hdis Hs (24 + xs) 0.
  apply wp_chk_tail; unfold txn_rec_sealed at 1; cbn [this _txn_tail _txn_hdr set_txn_tail];
    rewrite (tail_complete _ _ 0), Hhdr by (try reflexivity; try assumption; lia);
    intros Hse; dec_done_full Ht0.
Qed.

End First.

(** ** The first call *)

Lemma first_obj_eq r0 b r h xs :
  h = _rhdr (_txn_hdr r0) -> xs = _xidsize (_txn_hdr r0) ->
  set_buff (Some b) (set_xidsize xs (set_rhdr (rec_hdr_copy h) r)) = first_obj r0 b r.
Proof. intros -> ->. destruct r0 as [[[] ?] ? ? ?]. reflexivity. Qed.

Lemma load_is_valid h p n bs : load h p n = Some bs -> valid_range h p n.
Proof. rewrite load_Some. intros (b & Hb & Hr & _). now exists b. Qed.

Section FirstCall.
Context (r0 : txn_rec) (xid : list byte) (xs : Z) (w : world) (h : rec_hdr_t) (pg : ptr).
Context (m L : Z).
Context (Exs : _xidsize (_txn_hdr r0) = xs) (Hxs : 0 < xs < 2 ^ 32) (Hlen : len xid = xs).
Context (Hm : 0 < m) (Hw : m * 128 < 2 ^ 32) (EL : L = Z.min (m * 128) (40 + xs)).
Context (Hh : h = _rhdr (_txn_hdr r0)).
Context (Hmagic : txn_magic (_magic h)) (Hver : _version h = QLS_JRNL_VERSION).
Context (Hpg : load (mem w) pg L = Some (slice 0 L (rec_image r0 xid))).
Context (Hav : xs <= heap_avail (mem w)).
Context (Htw : rec_tail_wf (_txn_tail (this w))) (Ht0 : rec_tail_wf (_txn_tail r0)).

Lemma decode_first_spec :
  wp (decode_first h pg m) w
    (fun res w' => exists b h1, malloc (mem w) xs = (Some b, h1) /\
       dec_post r0 xid xs (World h1 (first_obj r0 b (this w))) b 0 (L - 24)
         (if 40 + xs <=? m * 128 then chk_outcome r0 L else Ok L) res w').
Proof.
  unfold decode_first, load_size_t. cbv zeta. apply wp_set_this. wnorm.
  eapply wp_run; [apply mem_load_ok; apply (page_xidsize _ _ _ _ _ _ Hpg); lia|]. wnorm.
  rewrite Exs, le_roundtrip by (simpl; lia). apply wp_set_this.
  eapply wp_run; [apply chk_hdr_ok; destruct h; assumption|].
  apply wp_mem_malloc. intros p h1 Hmal. cbn [mem this] in Hmal. pose proof Hmal as Hmal'.
  rewrite malloc_ok in Hmal' by (simpl; lia). injection Hmal' as <- Eh1.
  set (b := Ptr (fresh (dom (heap_cells (mem w)))) 0) in *.
  apply wp_set_this. simpl MALLOC_CHK. wnorm. cbn [mem this].
  rewrite (first_obj_eq r0 b (this w) h xs) by auto.
  destruct (malloc_preserves _ _ _ _ pg L Hmal (load_is_valid _ _ _ _ Hpg)) as (_ & Hpg1 & Hne).
  rewrite Hpg in Hpg1.
  assert (Hbv : valid_range h1 b xs) by (eapply malloc_valid; [|exact Hmal]; lia).
  assert (Hdis : disjoint b xs pg L) by (left; congruence).
  consts. rewrite !size_t_small, !size_dblks_small by lia.
  eapply wp_mono; [|intros res w' Hp; exists b, h1; split; [exact Hmal | exact Hp]].
  destruct (Z.le_gt_cases (40 + xs) (m * 128)) as [Hc|Hc].
  - replace (_ <=? m) with true by cast_lia. arith. rewrite EL, Z.min_r by lia.
    replace (40 + xs - 24) with (xs + 16) by lia. replace (40 + xs) with (24 + (xs + 16)) by lia.
    eapply decode_first_whole_spec; eauto.
  - replace (_ <=? m) with false by cast_lia. arith. rewrite EL, Z.min_l by lia.
    replace (m * 128) with (24 + (m * 128 - 24)) at 2 by lia.
    destruct (Z.le_gt_cases (24 + xs) (m * 128)) as [Hx|Hx].
    + replace (_ <=? m) with true by cast_lia. eapply decode_first_tail_split_spec; eauto.
    + replace (_ <=? m) with false by cast_lia. eapply decode_first_xid_split_spec; eauto.
Qed.

Lemma decode_first_wp :
  wp (decode h (Some pg) 0 m) w
    (fun res w' => exists b h1, malloc (mem w) xs = (Some b, h1) /\
       dec_post r0 xid xs (World h1 (first_obj r0 b (this w))) b 0 (L - 24)
         (decode_outcome r0 0 m) res w').
Proof.
  unfold decode. cbv zeta. rewrite !uint32_t_small by lia.
  apply wp_bind_assert; [reflexivity|]. apply wp_bind_assert; [lia|]. apply wp_bind_defined.
  eapply wp_bind_with; [apply decode_first_spec|].
  intros res w' (b & h1 & Hmal & -> & Hs & Htl).
  assert (size_dblks L = encode_dblks r0 0 m) as E.
  { unfold encode_dblks, rec_size. rewrite Exs. consts.
    rewrite size_t_small, !size_dblks_small by lia. cast_lia. }
  unfold decode_outcome, chk_outcome, rec_size. rewrite <- E, Exs. consts.
  rewrite size_t_small by lia.
  replace (24 + xs + 16) with (40 + xs) by lia. replace ((0 + m) * 128) with (m * 128) by lia.
  destruct (40 + xs <=? m * 128); [case_decide|]; dec_ret;
    (exists b, h1; split; [exact Hmal|]; split; [reflexivity|now split]).
Qed.

End FirstCall.

(** ** From the effect of a call to the state of the reader *)

Section Decoded.
Context (r0 : txn_rec) (xid : list byte) (xs : Z) (w : world) (b : ptr) (k0 n : Z).
Context (out : res jerrno Z).
Context (Exs : _xidsize (_txn_hdr r0) = xs) (Hlen : len xid = xs).
Context (Hk : 0 <= k0) (Hn : 0 <= n).
Context (Hhdr : _txn_hdr (this w) = _txn_hdr r0).
Context (Hb : _buff (this w) = Some b) (Hbv : valid_range (mem w) b xs).
Context (Hbl : load (mem w) b (Z.min k0 xs) = Some (slice 0 k0 xid)).

Lemma dec_post_decoded res w' :
  dec_post r0 xid xs w b k0 n out res w' -> decoded r0 xid (24 + k0 + n) w'.
Proof.
  intros (_ & Hs & t' & Et & Hwf & Htl).
  split; unfold xid_size; rewrite ?Et, ?Exs; cbn [_txn_hdr _buff _txn_tail set_txn_tail]; consts.
  - exact Hhdr.
  - exists b. split; [exact Hb|]. split; [eapply store_valid_range; [exact Hs | exact Hbv]|].
    pose proof (load_store_extend _ _ _ _ _ _ Hbl Hs) as Hl.
    rewrite slice_cat in Hl by lia. replace (24 + k0 + n - 24) with (k0 + n) by lia.
    rewrite <- Hl. f_equal. rewrite len_slice by lia. lia.
  - exact Hwf.
  - replace (24 + k0 + n - 24 - xs) with (k0 + n - xs) by lia. exact Htl.
Qed.

End Decoded.


(** ** The whole method *)

Lemma decode_effect r0 xid w h pg offs max :
  decode_pre r0 xid w h pg offs max ->
  exists b w1 w',
    decode h (Some pg) offs max w = (decode_outcome r0 offs max, w') /\
    based_on r0 w offs b w1 /\
    dec_post r0 xid (xid_size r0) w1 b (dec_k0 offs)
      (offs * JRNL_DBLK_SIZE + encode_len r0 offs max - sizeof_txn_hdr_t - dec_k0 offs)
      (decode_outcome r0 offs max) (decode_outcome r0 offs max) w'.
Proof.
  intros [Hxs Hlen Ht0 Hm Ho Hin Hnw Hpg Hst].
  unfold based_on, dec_k0, encode_len, rec_size, xid_size in *. consts.
  rewrite size_t_small in * by lia.
  set (xs := _xidsize (_txn_hdr r0)) in *.
  destruct (Z.eqb_spec offs 0) as [->|Hne].
  - destruct Hst as (Hh & Hmg & Hv & Hav & Htw).
    replace (24 + xs + 16 - 0 * 128) with (40 + xs) in * by lia.
    pose proof (decode_first_wp r0 xid xs w h pg max _ eq_refl Hxs Hlen Hm ltac:(lia) eq_refl
                  Hh Hmg Hv Hpg Hav Htw Ht0) as W.
    unfold wp in W. destruct (decode h (Some pg) 0 max w) as [res w']. cbn [fst snd] in W.
    destruct W as (b & h1 & Hmal & Hp). exists b, (World h1 (first_obj r0 b (this w))), w'.
    pose proof Hp as [-> _]. split; [reflexivity|]. split; [now split|].
    replace (Z.max 0 (0 * 128 - 24)) with 0 by lia.
    replace (0 * 128 + _ - 24 - 0) with (Z.min (max * 128) (40 + xs) - 24) by lia. exact Hp.
  - destruct Hst as ([Hhdr (b & Hb & Hbv & Hbl) Htw Htl] & Hdis). specialize (Hdis b Hb).
    unfold xid_size in *. fold xs in Hbv, Hbl, Htl, Hdis. consts.
    replace (24 + xs + 16 - offs * 128) with (40 + xs - offs * 128) in * by lia.
    pose proof (decode_cont_wp r0 xid xs w pg b offs max _ eq_refl Hxs Hlen Hm ltac:(lia)
                  Hnw ltac:(lia) Hhdr Hb Hbv Htl eq_refl Hpg Hdis Htw Ht0 h) as W.
    unfold wp in W. destruct (decode h (Some pg) offs max w) as [res w']. cbn [fst snd] in W.
    exists b, w, w'. pose proof W as [-> _]. split; [reflexivity|]. split; [now split|].
    replace (Z.max 0 (offs * 128 - 24)) with (offs * 128 - 24) by lia.
    replace (offs * 128 + _ - 24 - _) with (Z.min (max * 128) (40 + xs - offs * 128)) by lia.
    exact W.
Qed.

Lemma load_nil h p : valid_range h p 0 -> load h p 0 = Some [].
Proof.
  intros H. destruct (load_valid _ _ _ H) as (b & _ & ->). reflexivity.
Qed.

(** The world a call starts from holds what [dec_post_decoded] asks for. *)
Lemma based_on_ready r0 xid w h pg offs max b w1 :
  decode_pre r0 xid w h pg offs max -> based_on r0 w offs b w1 ->
  _txn_hdr (this w1) = _txn_hdr r0 /\ _buff (this w1) = Some b /\
  valid_range (mem w1) b (xid_size r0) /\
  load (mem w1) b (Z.min (dec_k0 offs) (xid_size r0)) = Some (slice 0 (dec_k0 offs) xid) /\
  _xidp (this w1) = _xidp (this w).
Proof.
  intros [Hxs Hlen Ht0 Hm Ho Hin Hnw Hpg Hst]. unfold based_on, dec_k0. consts.
  destruct (Z.eqb_spec offs 0) as [->|Hne].
  - intros [Hmal ->]. assert (Hv : valid_range (mem w1) b (xid_size r0))
      by (eapply malloc_valid; [|exact Hmal]; lia).
    repeat split; try assumption. rewrite Z.min_l, slice_nil by lia. apply load_nil.
    rewrite <- (ptr_add_0 b). eapply valid_range_weaken; [exact Hv | lia ..].
  - intros [-> Hb]. destruct Hst as ([Hhdr (b' & Hb' & Hbv & Hbl) Htw Htl] & _).
    assert (b' = b) as -> by congruence. consts.
    rewrite Z.max_r by lia. repeat split; assumption.
Qed.

(** The effect of a call brings the reader to the end of the chunk. *)
Lemma effect_decoded r0 xid w h pg offs max b w1 out res w' :
  decode_pre r0 xid w h pg offs max -> based_on r0 w offs b w1 ->
  dec_post r0 xid (xid_size r0) w1 b (dec_k0 offs)
    (offs * JRNL_DBLK_SIZE + encode_len r0 offs max - sizeof_txn_hdr_t - dec_k0 offs)
    out res w' ->
  decoded r0 xid (offs * JRNL_DBLK_SIZE + encode_len r0 offs max) w' /\
  _xidp (this w') = _xidp (this w).
Proof.
  intros H Hb Hp. destruct (based_on_ready _ _ _ _ _ _ _ _ _ H Hb) as (H1 & H2 & H3 & H4 & H5).
  destruct H as [Hxs Hlen Ht0 Hm Ho Hin Hnw Hpg Hst]. split.
  - replace (offs * JRNL_DBLK_SIZE + encode_len r0 offs max)
      with (24 + dec_k0 offs + (offs * JRNL_DBLK_SIZE + encode_len r0 offs max
                                - sizeof_txn_hdr_t - dec_k0 offs)) by (consts; lia).
    eapply (dec_post_decoded r0 xid (xid_size r0) w1 b); try eassumption; try reflexivity;
      unfold dec_k0, encode_len, rec_size, xid_size in *; consts;
      rewrite ?size_t_small in * by lia; lia.
  - destruct Hp as (_ & _ & t' & -> & _). now rewrite <- H5.
Qed.

(** C2 (functional): a call of decode within the driver's contract, on a
    page that holds the chunk of the record image for these dblks.  Its
    outcome is that of the specification: the dblks of the chunk,
    [min max (rec_size_dblks - offs)], unless the call completes the
    record and the tail does not belong to the header.  Afterwards the
    reader has consumed the record up to the end of the chunk: the header
    is the record's, the buffer holds the xid as far as read, the tail
    agrees with the record's on the bytes read.  [_xidp] is untouched. *)
Theorem decode_correct r0 xid w h pg offs max :
  decode_pre r0 xid w h pg offs max ->
  exists w', decode h (Some pg) offs max w = (decode_outcome r0 offs max, w') /\
             decoded r0 xid (offs * JRNL_DBLK_SIZE + encode_len r0 offs max) w' /\
             _xidp (this w') = _xidp (this w).
Proof.
  intros H. destruct (decode_effect _ _ _ _ _ _ _ H) as (b & w1 & w' & E & Hb & Hp).
  exists w'. split; [exact E|]. eapply effect_decoded; eassumption.
Qed.

Lemma ex_decode_pre :
  decode_pre ex_rec ex_xid ex_written (_rhdr (_txn_hdr ex_rec)) ex_page 0 4.
Proof.
  constructor; try reflexivity; try (vm_compute; intuition congruence).
Defined.

Lemma decode_correct_witness :
  exists w', decode (_rhdr (_txn_hdr ex_rec)) (Some ex_page) 0 4 ex_written = (Ok 2, w') /\
             decoded ex_rec ex_xid 240 w' /\ _xidp (this w') = None.
Proof.
  exact (decode_correct ex_rec ex_xid ex_written _ ex_page 0 4 ex_decode_pre).
Defined.

(** What the reader holds when the record is complete. *)
Lemma decoded_complete r0 xid w :
  decoded r0 xid (rec_size r0) w -> 0 < xid_size r0 < 2 ^ 32 -> len xid = xid_size r0 ->
  rec_tail_wf (_txn_tail r0) ->
  _txn_hdr (this w) = _txn_hdr r0 /\ _txn_tail (this w) = _txn_tail r0 /\
  exists b, get_xid w = (Ok (Some b, xid_size r0), w) /\ load (mem w) b (xid_size r0) = Some xid.
Proof.
  intros [Hh (b & Hb & Hbv & Hbl) Htw Htl] Hxs Hlen Ht0.
  unfold rec_size, xid_size in *. consts. rewrite size_t_small in * by lia.
  split; [exact Hh|]. split.
  - apply tail_full; [assumption ..|].
    replace (24 + _ + 16 - 24 - _) with 16 in Htl by lia. exact Htl.
  - exists b. split.
    + unfold get_xid, bind, self. rewrite Hb, Hh. reflexivity.
    + rewrite Z.min_r, slice_all in Hbl by lia. exact Hbl.
Qed.

(** C9 (roundtrip): the call that completes a record whose tail belongs
    to its header returns the dblks that were left, and the reader then
    holds the record: the header and the tail of the writer, and get_xid
    returns a buffer of [xid_size] bytes that holds the xid. *)
Theorem decode_complete r0 xid w h pg offs max :
  decode_pre r0 xid w h pg offs max -> txn_rec_sealed r0 ->
  rec_size r0 <= (offs + max) * JRNL_DBLK_SIZE ->
  exists w' b,
    decode h (Some pg) offs max w = (Ok (rec_size_dblks r0 - offs), w') /\
    _txn_hdr (this w') = _txn_hdr r0 /\ _txn_tail (this w') = _txn_tail r0 /\
    get_xid w' = (Ok (Some b, xid_size r0), w') /\ load (mem w') b (xid_size r0) = Some xid.
Proof.
  intros H Hse Hc. destruct (decode_effect _ _ _ _ _ _ _ H) as (b0 & w1 & w' & E & Hb & Hp).
  destruct (effect_decoded _ _ _ _ _ _ _ _ _ _ _ _ H Hb Hp) as [Hd _]. clear Hb Hp.
  destruct H as [Hxs Hlen Ht0 Hm Ho Hin Hnw Hpg Hst].
  replace (offs * JRNL_DBLK_SIZE + encode_len r0 offs max) with (rec_size r0) in Hd
    by (unfold encode_len; lia).
  destruct (decoded_complete _ _ _ Hd Hxs Hlen Ht0) as (Hh & Htl & b & Hg & Hl).
  exists w', b. split; [|auto]. rewrite E. f_equal.
  unfold decode_outcome, chk_outcome. rewrite (proj2 (Z.leb_le _ _) Hc).
  rewrite decide_True by assumption. f_equal.
  unfold encode_dblks, rec_size_dblks, rec_size, xid_size in *. consts.
  rewrite size_t_small in * by lia. rewrite size_dblks_small by lia. cast_lia.
Qed.


Lemma decode_complete_witness :
  exists w' b,
    decode (_rhdr (_txn_hdr ex_rec)) (Some ex_page) 0 4 ex_written = (Ok 2, w') /\
    _txn_hdr (this w') = _txn_hdr ex_rec /\ _txn_tail (this w') = _txn_tail ex_rec /\
    get_xid w' = (Ok (Some b, 200), w') /\ load (mem w') b 200 = Some ex_xid.
Proof.
  apply (decode_complete ex_rec ex_xid ex_written _ ex_page 0 4 ex_decode_pre);
    vm_compute; intuition congruence.
Defined.

(** A region that the buffer does not overlap reads as before the call. *)
Lemma decode_other r0 xid w h pg offs max q k :
  decode_pre r0 xid w h pg offs max -> valid_range (mem w) q k ->
  (forall b, _buff (this w) = Some b -> disjoint b (xid_size r0) q k) ->
  load (mem (snd (decode h (Some pg) offs max w))) q k = load (mem w) q k.
Proof.
  intros H Hq Hd. destruct (decode_effect _ _ _ _ _ _ _ H) as (b & w1 & w' & -> & Hb & Hp).
  destruct Hp as (_ & Hs & _). cbn [snd]. unfold based_on in Hb.
  assert (0 <= k) by (destruct Hq as (? & ? & ? & ? & ?); lia).
  assert (load (mem w1) q k = load (mem w) q k /\ disjoint b (xid_size r0) q k) as [<- Hdis].
  { destruct (offs =? 0).
    - destruct Hb as [Hmal _]. destruct (malloc_preserves _ _ _ _ _ _ Hmal Hq) as (_ & E & Hne).
      split; [exact E | left; congruence].
    - destruct Hb as [-> Hb]. auto. }
  eapply load_store_other; [exact Hs | | assumption].
  destruct H as [Hxs Hlen _ _ _ _ _ _ _]. unfold dec_k0 in *.
  pose proof (len_slice (Z.max 0 (offs * JRNL_DBLK_SIZE - sizeof_txn_hdr_t))
    (offs * JRNL_DBLK_SIZE + encode_len r0 offs max - sizeof_txn_hdr_t
     - Z.max 0 (offs * JRNL_DBLK_SIZE - sizeof_txn_hdr_t)) xid ltac:(lia)) as Hl.
  unfold disjoint in *. simpl. lia.
Qed.

(** C21 (safety): a call of decode within the contract changes no
    allocated memory but the reader's own buffer: every region that was
    allocated before the call and does not overlap the buffer reads the
    same after it.  The page itself is only read. *)
Theorem decode_frame r0 xid w h pg offs max q k :
  decode_pre r0 xid w h pg offs max -> valid_range (mem w) q k ->
  (forall b, _buff (this w) = Some b -> disjoint b (xid_size r0) q k) ->
  load (mem (snd (decode h (Some pg) offs max w))) q k = load (mem w) q k.
Proof. apply decode_other. Qed.

Lemma decode_frame_witness :
  load (mem (snd (decode (_rhdr (_txn_hdr ex_rec)) (Some ex_page) 0 4 ex_written))) ex_xidp 200
  = load (mem ex_written) ex_xidp 200.
Proof.
  apply (decode_frame ex_rec ex_xid ex_written _ ex_page 0 4 ex_xidp 200 ex_decode_pre).
  - exists ex_xid. vm_compute. intuition congruence.
  - intros b Hb. discriminate Hb.
Defined.

(** C22 (error): corruption detection.  When the call completes the
    record and the tail on the page does not belong to the header (its
    complement magic or its rid differs), decode throws
    JERR_JREC_BADRECTAIL; it never returns a dblk count. *)
Theorem decode_bad_tail r0 xid w h pg offs max :
  decode_pre r0 xid w h pg offs max ->
  rec_size r0 <= (offs + max) * JRNL_DBLK_SIZE -> ~ txn_rec_sealed r0 ->
  fst (decode h (Some pg) offs max w) = Err (Throw JERR_JREC_BADRECTAIL).
Proof.
  intros H Hc Hse. destruct (decode_effect _ _ _ _ _ _ _ H) as (b & w1 & w' & -> & _).
  unfold decode_outcome, chk_outcome. rewrite (proj2 (Z.leb_le _ _) Hc).
  now rewrite decide_False.
Qed.

Lemma decode_bad_tail_witness :
  fst (decode (_rhdr (_txn_hdr ex_torn)) (Some ex_page) 0 4 ex_torn_written)
  = Err (Throw JERR_JREC_BADRECTAIL).
Proof.
  apply (decode_bad_tail ex_torn ex_xid).
  - constructor; try reflexivity; try (vm_compute; intuition congruence).
  - vm_compute. discriminate.
  - vm_compute. intuition congruence.
Defined.

Section DecodeErrors.
Context (h : rec_hdr_t) (pg : ptr) (offs max : Z) (w : world) (bs : list byte).
Context (Hoffs : uint32_t offs = 0) (Hmax : 0 < uint32_t max).
Context (Hbs : load (mem w) (ptr_add pg sizeof_rec_hdr_t) 8 = Some bs).

(** The steps of the first call up to the header check. *)
Ltac dec_prologue :=
  unfold decode; cbv zeta; rewrite Hoffs; apply wp_eq;
  apply wp_bind_assert; [reflexivity|]; apply wp_bind_assert; [lia|]; apply wp_bind_defined;
  change (negb (0 =? 0)) with false; cbv iota; unfold decode_first, load_size_t; wnorm;
  apply wp_set_this; wnorm;
  eapply wp_run; [apply mem_load_ok; exact Hbs|]; wnorm; apply wp_set_this; wnorm.

(** The first call on a header that the check rejects. *)
Lemma decode_rejected :
  ~ (txn_magic (_magic h) /\ _version h = QLS_JRNL_VERSION) ->
  decode h (Some pg) offs max w
  = (Err (Throw JERR_JREC_BADRECHDR),
     World (mem w) (set_xidsize (le_combine bs) (set_rhdr (rec_hdr_copy h) (this w)))).
Proof.
  intros Hbad. dec_prologue.
  eapply wp_fail; [apply chk_hdr_bad; now destruct h | split; reflexivity].
Qed.

(** The first call when the allocator has less than the xid size left. *)
Lemma decode_no_memory :
  txn_magic (_magic h) -> _version h = QLS_JRNL_VERSION ->
  heap_avail (mem w) < le_combine bs ->
  decode h (Some pg) offs max w
  = (Err (Throw JERR__MALLOC),
     World (mem w)
       (set_buff None (set_xidsize (le_combine bs) (set_rhdr (rec_hdr_copy h) (this w))))).
Proof.
  intros Hmg Hv Hav. dec_prologue.
  eapply wp_run; [apply chk_hdr_ok; now destruct h|]. wnorm.
  apply wp_mem_malloc. intros p h1. cbn [mem this]. rewrite malloc_fail by assumption.
  intros [= <- <-]. wnorm. apply wp_set_this. split; reflexivity.
Qed.

(** C24 (error): header rejection.  On the first call, a header whose
    magic is not one of the two transaction magics, or whose version is
    not the journal's, makes decode throw JERR_JREC_BADRECHDR before
    anything is allocated: the heap is the one before the call.  The
    object keeps the rejected header and the xid size read off the
    page. *)
Theorem decode_bad_header :
  ~ (txn_magic (_magic h) /\ _version h = QLS_JRNL_VERSION) ->
  decode h (Some pg) offs max w
  = (Err (Throw JERR_JREC_BADRECHDR),
     World (mem w) (set_xidsize (le_combine bs) (set_rhdr (rec_hdr_copy h) (this w)))).
Proof. exact decode_rejected. Qed.

(** C26 (error): when the allocator cannot supply the xid size that the
    page states, the first call throws JERR__MALLOC; [_buff] is null and
    the heap is the one before the call. *)
Theorem decode_oom :
  txn_magic (_magic h) -> _version h = QLS_JRNL_VERSION ->
  heap_avail (mem w) < le_combine bs ->
  decode h (Some pg) offs max w
  = (Err (Throw JERR__MALLOC),
     World (mem w)
       (set_buff None (set_xidsize (le_combine bs) (set_rhdr (rec_hdr_copy h) (this w))))).
Proof. exact decode_no_memory. Qed.

End DecodeErrors.

Lemma decode_bad_header_witness :
  decode (rec_hdr_init 5 QLS_JRNL_VERSION 0 7) (Some ex_page) 0 4 ex_written
  = (Err (Throw JERR_JREC_BADRECHDR),
     World (mem ex_written)
       (set_xidsize 200 (set_rhdr (rec_hdr_init 5 QLS_JRNL_VERSION 0 7) txn_rec_ctor0))).
Proof.
  assert (Hbad : ~ (txn_magic 5 /\ QLS_JRNL_VERSION = QLS_JRNL_VERSION))
    by (intros [[E|E] _]; discriminate E).
  exact (decode_bad_header (rec_hdr_init 5 QLS_JRNL_VERSION 0 7) ex_page 0 4 ex_written
           (le_split 8 200) eq_refl eq_refl eq_refl Hbad).
Defined.

Lemma decode_oom_witness :
  decode (_rhdr (_txn_hdr ex_rec)) (Some ex_page) 0 4
    (World (Heap (heap_cells (mem ex_written)) 100) txn_rec_ctor0)
  = (Err (Throw JERR__MALLOC),
     World (Heap (heap_cells (mem ex_written)) 100)
       (set_buff None (set_xidsize 200 (set_rhdr (_rhdr (_txn_hdr ex_rec)) txn_rec_ctor0)))).
Proof.
  exact (decode_oom (_rhdr (_txn_hdr ex_rec)) ex_page 0 4 (World (Heap (heap_cells (mem ex_written)) 100) txn_rec_ctor0)
           (le_split 8 200) eq_refl eq_refl eq_refl (or_introl eq_refl) eq_refl eq_refl).
Defined.

(** ** The exceptions of decode *)

Lemma decode_throws_only h rptr offs max :
  throws_only (fun e => In e [JERR_JREC_BADRECHDR; JERR__MALLOC; JERR_JREC_BADRECTAIL])
    (decode h rptr offs max).
Proof. throws_auto. Qed.

(** ** Outside the contract: offsets behind the record, sizes that wrap *)

(** After a first call within the contract the buffer of the reader is a
    block of the xid size, whatever the outcome of the call. *)
Lemma decode_first_block r0 xid w h pg max :
  decode_pre r0 xid w h pg 0 max ->
  exists b, _buff (this (snd (decode h (Some pg) 0 max w))) = Some b /\
            block_of (mem (snd (decode h (Some pg) 0 max w))) b (xid_size r0) /\
            xid_size (this (snd (decode h (Some pg) 0 max w))) = xid_size r0.
Proof.
  intros H. pose proof (dpre_xidsize _ _ _ _ _ _ _ H) as Hxs.
  destruct (decode_effect _ _ _ _ _ _ _ H) as (b & w1 & w' & -> & [Hmal Ew1] & _ & Hs & t' & Et & _).
  cbn [snd]. exists b. rewrite Et, Ew1. split; [reflexivity|]. split; [|reflexivity].
  eapply store_block_of; [exact Hs|]. eapply malloc_block_of; [|exact Hmal]. lia.
Qed.

(** C31 (safety): a call behind the record overruns the buffer.  For a
    reader whose buffer is the block of the xid size that a first call
    allocated, a call at a dblk offset behind the last dblk of the record
    takes the branch for an xid that is still split, because both
    differences of dblk counts wrap as a uint32_t, and copies the
    [max] dblks of the page to an address behind the end of the buffer:
    the access is outside the block.  No assertion and no exception stops
    the call before the copy. *)
Theorem decode_past_end h pg offs max w b :
  _buff (this w) = Some b -> block_of (mem w) b (xid_size (this w)) ->
  0 <= xid_size (this w) < 2 ^ 32 -> 0 < max ->
  valid_range (mem w) pg (max * JRNL_DBLK_SIZE) ->
  rec_size_dblks (this w) < offs -> (offs + max) * JRNL_DBLK_SIZE < 2 ^ 32 ->
  decode h (Some pg) offs max w = (Err Fault, w).
Proof.
  intros Hb Hblk Hxs Hm Hpg Hin Hnw. unfold rec_size_dblks, rec_size, xid_size in *.
  remember (_xidsize (_txn_hdr (this w))) as xs eqn:Exs. symmetry in Exs.
  consts. rewrite size_t_small, size_dblks_small in Hin by lia.
  assert (Hc : 0 < offs /\ 41 + xs <= offs * 128) by cast_lia.
  unfold decode. cbv zeta. rewrite (uint32_t_small offs), (uint32_t_small max) by lia.
  apply wp_eq. apply wp_bind_assert; [reflexivity|]. apply wp_bind_assert; [lia|].
  apply wp_bind_defined. replace (negb (offs =? 0)) with true by lia.
  unfold decode_cont. apply wp_bind_bind, wp_bind_self. rewrite Exs. cbv zeta. consts.
  rewrite !size_t_small, !size_dblks_small by lia.
  replace (_ <=? max) with false by cast_lia. replace (_ <=? max) with false by cast_lia.
  unfold decode_cont_xid_split. apply wp_bind_bind, wp_bind_self. rewrite Hb.
  apply wp_bind_bind, wp_bind_defined. rewrite !dblk_bytes_small, ptr_add_add by lia.
  destruct (load_valid _ _ _ Hpg) as (c & _ & El). pose proof (load_len _ _ _ _ El) as Hl.
  unfold wp, bind, memcpy_mm, bind, mem_load, mem_store. rewrite El.
  rewrite (store_behind _ _ _ _ _ Hblk) by (consts; lia). easy.
Qed.

Lemma decode_past_end_witness :
  decode (_rhdr (_txn_hdr ex_rec)) (Some ex_page) 3 1
    (snd (decode (_rhdr (_txn_hdr ex_rec)) (Some ex_page) 0 4 ex_written))
  = (Err Fault, snd (decode (_rhdr (_txn_hdr ex_rec)) (Some ex_page) 0 4 ex_written)).
Proof.
  destruct (decode_first_block _ _ _ _ _ _ ex_decode_pre) as (b & Eb & Hblk & Exs).
  apply (decode_past_end _ ex_page 3 1 _ b Eb); rewrite ?Exs;
    [exact Hblk | vm_compute; intuition congruence | lia | | vm_compute; reflexivity
    | vm_compute; reflexivity].
  eexists. vm_compute. intuition congruence.
Defined.

(** C30 (bounds): an xid size whose dblk count wraps.  On the first call
    decode takes the xid size from the page and compares the dblks of
    header and xid, converted to a uint32_t, with [max_size_dblks].  For
    a size of 2^39 bytes or more the count wraps, the record seems to fit
    the page, and when std::malloc supplies the buffer the copy of the
    xid reads behind the end of the page: for every page whose block ends
    before the xid would, the access is outside the block. *)
Theorem decode_size_wraps h pg max w xs c :
  txn_magic (_magic h) -> _version h = QLS_JRNL_VERSION -> 0 < max < 2 ^ 32 ->
  load (mem w) (ptr_add pg 16) 8 = Some (le_split 8 xs) ->
  0 <= xs -> 40 + xs < 2 ^ 64 -> xs <= heap_avail (mem w) ->
  heap_cells (mem w) !! p_blk pg = Some c -> len c < p_ofs pg + 24 + xs ->
  size_dblks (24 + xs) <= max ->
  fst (decode h (Some pg) 0 max w) = Err Fault.
Proof.
  intros Hmg Hv Hm Hl Hx Hw Hav Hc Hlen Hd.
  enough (W : wp (decode h (Some pg) 0 max) w (fun res _ => res = Err Fault)) by exact W.
  unfold decode. cbv zeta. rewrite (uint32_t_small max) by lia.
  apply wp_bind_assert; [reflexivity|]. apply wp_bind_assert; [lia|]. apply wp_bind_defined.
  change (negb (uint32_t 0 =? 0)) with false. cbv iota. apply wp_bind.
  unfold decode_first, load_size_t. cbv zeta. apply wp_set_this. wnorm. consts.
  eapply wp_run; [apply mem_load_ok; exact Hl|]. wnorm.
  rewrite le_roundtrip by (simpl; lia). apply wp_set_this.
  eapply wp_run; [apply chk_hdr_ok; destruct h; assumption|].
  apply wp_mem_malloc. intros p h1 Hmal. cbn [mem this] in Hmal. pose proof Hmal as Hmal'.
  rewrite malloc_ok in Hmal' by (simpl; lia). injection Hmal' as <- Eh1.
  apply wp_set_this. simpl MALLOC_CHK. wnorm. cbn [mem this].
  destruct (malloc_fresh _ _ _ _ Hmal) as [Hf _].
  assert (Hc1 : heap_cells h1 !! p_blk pg = Some c).
  { rewrite <- Eh1. simpl in *. rewrite lookup_insert_ne; [exact Hc|congruence]. }
  assert (El : load h1 (ptr_add pg 24) xs = None)
    by (apply (load_behind h1 (ptr_add pg 24) xs c Hc1); cbn [p_ofs ptr_add]; lia).
  rewrite !size_t_small by lia. replace (size_dblks (24 + xs) <=? max) with true by lia.
  destruct (_ <=? max); [unfold decode_first_whole|unfold decode_first_tail_split];
    apply wp_bind_self; cbv zeta;
    (eapply wp_fail; [apply memcpy_mm_fault; exact El|reflexivity]).
Qed.

Lemma decode_size_wraps_witness :
  fst (decode (_rhdr (_txn_hdr ex_rec)) (Some ex_page) 0 4 ex_huge) = Err Fault.
Proof.
  apply (decode_size_wraps _ ex_page 4 ex_huge (2 ^ 39) ex_huge_page);
    try (vm_compute; intuition congruence).
Defined.

(** C38 (type): the exceptions of decode.  For all arguments and in every
    state, inside the contract or not, an exception that decode throws is
    JERR_JREC_BADRECHDR, JERR__MALLOC or JERR_JREC_BADRECTAIL. *)
Theorem decode_throws h rptr offs max w e :
  fst (decode h rptr offs max w) = Err (Throw e) ->
  e = JERR_JREC_BADRECHDR \/ e = JERR__MALLOC \/ e = JERR_JREC_BADRECTAIL.
Proof.
  intros H. destruct (decode_throws_only h rptr offs max w e H) as [<-|[<-|[<-|[]]]]; auto.
Qed.

Lemma decode_throws_witness :
  JERR__MALLOC = JERR_JREC_BADRECHDR \/ JERR__MALLOC = JERR__MALLOC \/
  JERR__MALLOC = JERR_JREC_BADRECTAIL.
Proof.
  exact (decode_throws (_rhdr (_txn_hdr ex_rec)) (Some ex_page) 0 4
           (World (Heap (heap_cells (mem ex_written)) 100) txn_rec_ctor0) JERR__MALLOC
           ltac:(vm_compute; reflexivity)).
Defined.

(** The two assertions at the head of decode.  A null page
    pointer or a [max_size_dblks] that is 0 as a uint32_t stop the call
    at an assertion before the object or the memory is touched. *)
Theorem decode_asserts h rptr offs max w :
  rptr = None \/ uint32_t max = 0 -> decode h rptr offs max w = (Err AssertFail, w).
Proof.
  intros H. unfold decode. cbv zeta. apply wp_eq.
  destruct rptr as [pg|]; [|now apply wp_bind_assert_false].
  apply wp_bind_assert; [reflexivity|]. destruct H as [H|H]; [discriminate H|].
  rewrite H. now apply wp_bind_assert_false.
Qed.

Lemma decode_asserts_witness :
  decode (_rhdr (_txn_hdr ex_rec)) (Some ex_page) 0 (2 ^ 32) ex_written
  = (Err AssertFail, ex_written).
Proof. apply decode_asserts. right. reflexivity. Defined.
