(* ===== verification/Codec.v ===== *)
(** * Codec: what the journal's managers rely on

    The managers of the journal call the codec through two methods, one
    that writes the next dblks of a record into a page and one that reads
    them.  [Encoder] and [Decoder] state what a manager may assume of
    them: the contract of one call, in the terms of Encode.v and
    Decode.v.  The loops of Driver.v are proved against these two
    classes; [encode_encoder] and [decode_decoder] show that
    [txn_rec::encode], with or without RHM_CLEAN, and [txn_rec::decode]
    keep them. *)

From Stdlib Require Import ZArith Lia List.
From coqutil Require Import Byte Word.LittleEndianList.
From stdpp Require Import base option list gmap.
From S2P Require Import Prelude Memory Layout TxnRec Encode Decode.

#[local] Open Scope Z_scope.
#[local] Open Scope jrnl_scope.

(** The methods by their types: the page, the dblk offset of the record
    and the dblks offered; decode takes the header read off the page
    first. *)
Definition encoder : Type := option ptr -> Z -> Z -> method Z.
Definition decoder : Type := rec_hdr_t -> option ptr -> Z -> Z -> method Z.

(** A call of the encoder within the contract of encode stores the chunk
    of the image for these dblks at the page, followed by a filler that
    stays inside the dblks offered, and returns the dblks of the chunk;
    the encoder is a const method. *)
Class Encoder (enc : encoder) : Prop := {
  encoder_run : forall w pg xp xid offs max,
    encode_pre w pg xp xid offs max ->
    exists fill h,
      encode_len (this w) offs max + len fill <= max * JRNL_DBLK_SIZE /\
      store (mem w) pg
        (slice (offs * JRNL_DBLK_SIZE) (encode_len (this w) offs max) (rec_image (this w) xid)
         ++ fill) = Some h /\
      enc (Some pg) offs max w = (Ok (encode_dblks (this w) offs max), World h (this w));
  encoder_const : forall wptr offs max, stable same_obj (enc wptr offs max)
}.

(** A call of the decoder within the contract of decode has the outcome
    of the specification and leaves the reader having consumed the chunk;
    a region allocated before the call that lies in another block than
    the buffer reads as before, and the buffer lies in another block than
    the region. *)
Class Decoder (dec : decoder) : Prop := {
  decoder_step : forall r0 xid w h pg offs max q k,
    decode_pre r0 xid w h pg offs max -> valid_range (mem w) q k ->
    (forall b, _buff (this w) = Some b -> p_blk b <> p_blk q) ->
    exists w', dec h (Some pg) offs max w = (decode_outcome r0 offs max, w') /\
               decoded r0 xid (offs * JRNL_DBLK_SIZE + encode_len r0 offs max) w' /\
               load (mem w') q k = load (mem w) q k /\
               (forall b, _buff (this w') = Some b -> p_blk b <> p_blk q)
}.

(** ** encode and decode keep the contracts *)

#[export] Instance encode_encoder c : Encoder (encode c).
Proof.
  split; [|apply stable_encode]. intros w pg xp xid offs max Hpre.
  pose proof (len_encode_chunk c _ _ _ _ _ _ Hpre) as Hlen.
  destruct (encode_run c _ _ _ _ _ _ Hpre) as (h & Hs & E).
  exists (encode_fill c (this w) offs max), h. split; [|now split].
  destruct Hpre as [_ Hxs Hx Hm Ho Hin _ _ _]. pose proof (load_len _ _ _ _ Hx) as Hlx.
  unfold encode_chunk, encode_len, rec_size, xid_size in *. consts.
  rewrite size_t_small in * by lia.
  rewrite len_app, len_slice_in in Hlen by (rewrite ?len_rec_image; lia). exact Hlen.
Qed.

#[export] Instance decode_decoder : Decoder decode.
Proof.
  split. intros r0 xid w h pg offs max q k Hpre Hq Hap.
  destruct (decode_effect _ _ _ _ _ _ _ Hpre) as (b & w1 & w' & E & Hb & Hp).
  exists w'. split; [exact E|]. split; [eapply effect_decoded; eassumption|].
  destruct Hp as (_ & Hs & t' & Et & _). assert (0 <= k) by (destruct Hq as (? & ? & ? & ? & ?); lia).
  assert (load (mem w1) q k = load (mem w) q k /\ p_blk b <> p_blk q /\ _buff (this w1) = Some b)
    as (<- & Hne & Eb).
  { unfold based_on in Hb. destruct (offs =? 0).
    - destruct Hb as [Hmal ->]. destruct (malloc_preserves _ _ _ _ _ _ Hmal Hq) as (_ & El & Hne).
      auto.
    - destruct Hb as [-> Hb]. auto. }
  split; [eapply load_store_other; [exact Hs | left; exact Hne | assumption]|].
  rewrite Et. cbn [set_txn_tail _buff]. rewrite Eb. now intros ? [= <-].
Qed.
