(* ===== verification/Recover.v ===== *)
(** * Recover: [txn_rec::rcv_decode]

    Recovery reads a record from the journal file through a stream.  The
    caller has read the generic header [h] (16 bytes) and passes it by
    value; [rec_offs] is a reference to the caller's count of the bytes of
    the record consumed so far, 0 on the first call.  The method runs in
    the monad [rcv] over the world of the object, the stream and the
    caller's [rec_offs].

    One definition per segment of the source: [rcv_first] reads the xid
    size and allocates the buffer, [rcv_xid] reads the xid or continues
    reading it, [rcv_tail] does the same for the tail, [rcv_eof_return] is
    the return of [false] when the file ended inside the record, and
    [rcv_finish] skips the padding of the last dblk and checks the tail.
    A segment that returns from the method yields [Some] of the value
    returned.

    The specification: [rcv_pre] is the contract of the journal for one
    call, [rcv_at] the state of a recovery that has consumed [t] bytes of
    the record, [rcv_ended] the state in which a call returns false, and
    [rcv_post] what a call promises.  [rcv_decode_spec] proves the
    contract from one lemma per segment.  [rec_at] and [xid_at] are the
    record and the xid that the bytes of a file are the image of, and
    [rcv_result] is the outcome of a first call as a function of these
    bytes.  The theorems at the end state the contract for a file that
    holds the record and for a file that ends inside it, compose two
    calls, give the outcome for any file, and state what the method does
    outside the contract: without memory, on a file that ends inside the
    xid size or inside the padding, for a header that is not a
    transaction's, and on a stream that is not good. *)

From Stdlib Require Import ZArith Lia List.
From coqutil Require Import Byte Word.LittleEndianList.
From stdpp Require Import base option list gmap.
From S2P Require Import Prelude Memory Layout Stream TxnRec Encode Decode.

#[local] Open Scope Z_scope.
#[local] Open Scope jrnl_scope.

Record rstate : Type := RState {
  rs_world : world;
  rs_ifs : ifstream;
  rs_rec_offs : Z
}.

Definition rcv (A : Type) : Type := M rstate jerrno A.

(** A method of the object, run from recovery. *)
Definition lift {A} (m : method A) : rcv A :=
  fun s => let '(r, w) := m (rs_world s) in (r, RState w (rs_ifs s) (rs_rec_offs s)).

Definition get_ifs : rcv ifstream := fun s => (Ok (rs_ifs s), s).

Definition set_ifs (i : ifstream) : rcv unit :=
  fun s => (Ok tt, RState (rs_world s) i (rs_rec_offs s)).

Definition get_rec_offs : rcv Z := fun s => (Ok (rs_rec_offs s), s).

Definition set_rec_offs (n : Z) : rcv unit :=
  fun s => (Ok tt, RState (rs_world s) (rs_ifs s) n).

Definition sizeof_size_t : Z := 8.

(** [ifsp->read(dst, n)]: the characters extracted are stored by [store]. *)
Definition ifsp_read (n : Z) (store : list byte -> method unit) : rcv unit :=
  i <- get_ifs ;;
  let '(bs, i') := ifs_read (streamsize n) i in
  set_ifs i' ;;
  lift (store bs).

(** [ifsp->ignore(n)] *)
Definition ifsp_ignore (n : Z) : rcv unit :=
  i <- get_ifs ;; set_ifs (ifs_ignore (streamsize n) i).

(** The store of characters at [(char* )&_txn_hdr._xidsize]. *)
Definition store_xidsize (bs : list byte) : method unit :=
  r <- self ;;
  let img := le_split 8 (_xidsize (_txn_hdr r)) in
  if in_bounds img 0 (len bs)
  then set_this (set_xidsize (le_combine (splice img 0 bs)))
  else raise Fault.

(** The store of characters at [(char* )&_txn_tail + off]. *)
Definition store_tail (off : Z) (bs : list byte) : method unit :=
  r <- self ;;
  let img := rec_tail_bytes (_txn_tail r) in
  if in_bounds img off (len bs)
  then set_this (set_txn_tail (rec_tail_of_bytes (splice img off bs)))
  else raise Fault.

(** The file ended inside the record: turn off the fail bit and return
    false. *)
Definition rcv_eof_return : rcv bool :=
  i <- get_ifs ;;
  assert (ifs_eof i) ;;
  set_ifs (ifs_clear_fail i) ;;
  i <- get_ifs ;;
  assert (negb (ifs_fail i) && negb (ifs_bad i)) ;;
  ret false.

(** [if (rec_offs == 0)]: read header, allocate for xid. *)
Definition rcv_first (h : rec_hdr_t) : rcv unit :=
  lift (set_this (set_rhdr (rec_hdr_copy h))) ;;
  ifsp_read sizeof_size_t store_xidsize ;;
  set_rec_offs sizeof_txn_hdr_t ;;
  r <- lift self ;;
  p <- lift (mem_malloc (_xidsize (_txn_hdr r))) ;;
  lift (set_this (set_buff p)) ;;
  lift (MALLOC_CHK p clean) ;;
  ret tt.

(** Read xid (or continue reading xid). *)
Definition rcv_xid : rcv (option bool) :=
  rec_offs <- get_rec_offs ;;
  r <- lift self ;;
  let xidsize := _xidsize (_txn_hdr r) in
  if rec_offs <? size_t (sizeof_txn_hdr_t + xidsize) then
    let offs := size_t (rec_offs - sizeof_txn_hdr_t) in
    buff <- lift (defined (_buff r)) ;;
    ifsp_read (size_t (xidsize - offs)) (mem_store (ptr_add buff offs)) ;;
    i <- get_ifs ;;
    let size_read := size_t (ifs_gcount i) in
    set_rec_offs (size_t (rec_offs + size_read)) ;;
    if size_read <? size_t (xidsize - offs)
    then b <- rcv_eof_return ;; ret (Some b)
    else ret None
  else ret None.

(** Read tail (or continue reading tail). *)
Definition rcv_tail : rcv (option bool) :=
  rec_offs <- get_rec_offs ;;
  r <- lift self ;;
  let xidsize := _xidsize (_txn_hdr r) in
  if rec_offs <? size_t (sizeof_txn_hdr_t + xidsize + sizeof_rec_tail_t) then
    let offs := size_t (size_t (rec_offs - sizeof_txn_hdr_t) - xidsize) in
    ifsp_read (size_t (sizeof_rec_tail_t - offs)) (store_tail offs) ;;
    i <- get_ifs ;;
    let size_read := size_t (ifs_gcount i) in
    set_rec_offs (size_t (rec_offs + size_read)) ;;
    if size_read <? size_t (sizeof_rec_tail_t - offs)
    then b <- rcv_eof_return ;; ret (Some b)
    else ret None
  else ret None.

(** Skip the rest of the last dblk, check the tail. *)
Definition rcv_finish : rcv bool :=
  r <- lift self ;;
  ifsp_ignore (size_t (dblk_bytes (rec_size_dblks r) - rec_size r)) ;;
  lift chk_tail ;;
  i <- get_ifs ;;
  assert (negb (ifs_fail i) && negb (ifs_bad i)) ;;
  ret true.

(** [bool txn_rec::rcv_decode(rec_hdr_t h, std::ifstream* ifsp,
    std::size_t& rec_offs)] *)
Definition rcv_decode (h : rec_hdr_t) : rcv bool :=
  rec_offs <- get_rec_offs ;;
  (if rec_offs =? 0 then rcv_first h else ret tt) ;;
  r1 <- rcv_xid ;;
  match r1 with
  | Some b => ret b
  | None =>
      r2 <- rcv_tail ;;
      match r2 with
      | Some b => ret b
      | None => rcv_finish
      end
  end.

(** ** What a call has to do: the abstract specification *)

(** Recovery of the record [r0] with transaction id [xid] from the file
    [F], in which the record starts at [p0], has consumed [t] bytes of the
    record: the count of the caller says so, the reader holds these bytes
    and the stream stands behind them. *)
Record rcv_at (r0 : txn_rec) (xid F : list byte) (p0 t : Z) (s : rstate) : Prop := {
  at_offs : rs_rec_offs s = t;
  at_dec : decoded r0 xid t (rs_world s);
  at_ifs : stream_at F (p0 + t) (rs_ifs s)
}.

(** The file ended inside the record: all its bytes are consumed, the
    stream is at the end of the file, with eofbit set and failbit clear. *)
Record rcv_ended (r0 : txn_rec) (xid F : list byte) (p0 : Z) (s : rstate) : Prop := {
  end_offs : rs_rec_offs s = len F - p0;
  end_dec : decoded r0 xid (len F - p0) (rs_world s);
  end_data : is_data (rs_ifs s) = F;
  end_pos : is_pos (rs_ifs s) = len F;
  end_eof : ifs_eof (rs_ifs s) = true;
  end_fail : ifs_fail (rs_ifs s) = false
}.

(** The outcome of a call that has read the whole record: the tail check
    decides. *)
Definition rcv_outcome (r0 : txn_rec) : res jerrno bool :=
  if decide (txn_rec_sealed r0) then Ok true else Err (Throw JERR_JREC_BADRECTAIL).

(** The outcome of a call whose read was refused by a stream that is not
    good: false when the stream has met the end of the file and no error
    has set badbit, a failed assertion otherwise; and the stream that the
    call leaves. *)
Definition refused_outcome (i : ifstream) : res jerrno bool :=
  if ifs_eof i && negb (ifs_bad i) then Ok false else Err AssertFail.

Definition refused_stream (i : ifstream) : ifstream :=
  if ifs_eof i then ifs_clear_fail (ifs_refuse i) else ifs_refuse i.

(** The bytes between the end of the record and the end of its last
    dblk. *)
Definition rec_padding (r0 : txn_rec) : Z := dblk_bytes (rec_size_dblks r0) - rec_size r0.

(** The contract of the journal for one call of rcv_decode on the record
    [r0] with transaction id [xid], which the file [F] holds from [p0] on
    as far as the file goes: on the first call the header [h] is that of
    the record, the stream stands behind it, the file has the xid size
    and the xid fits the memory left; on a later call the reader has
    consumed the bytes that the caller's count says. *)
Record rcv_pre (r0 : txn_rec) (xid F : list byte) (p0 : Z) (h : rec_hdr_t) (s : rstate)
    : Prop := {
  rpre_xidsize : 0 <= xid_size r0;
  rpre_nowrap : 40 + xid_size r0 <= 2 ^ 32 - 128;
  rpre_xid : len xid = xid_size r0;
  rpre_tail : rec_tail_wf (_txn_tail r0);
  rpre_file : file_holds F p0 (rec_image r0 xid);
  rpre_state :
    if rs_rec_offs s =? 0
    then h = _rhdr (_txn_hdr r0) /\ stream_at F (p0 + 16) (rs_ifs s) /\ 24 <= len F - p0 /\
         xid_size r0 <= heap_avail (mem (rs_world s)) /\
         rec_tail_wf (_txn_tail (this (rs_world s)))
    else 24 <= rs_rec_offs s <= rec_size r0 /\ rcv_at r0 xid F p0 (rs_rec_offs s) s
}.

(** What the call promises: when the file ends inside the record, false,
    with all bytes of the file consumed and counted; otherwise the outcome
    of the tail check, with the record consumed and the stream behind the
    padding, as far as the file has it. *)
Definition rcv_post (r0 : txn_rec) (xid F : list byte) (p0 : Z)
    (res : res jerrno bool) (s' : rstate) : Prop :=
  if len F - p0 <? rec_size r0
  then res = Ok false /\ rcv_ended r0 xid F p0 s'
  else res = rcv_outcome r0 /\ rs_rec_offs s' = rec_size r0 /\
       decoded r0 xid (rec_size r0) (rs_world s') /\
       is_pos (rs_ifs s') = p0 + Z.min (len F - p0) (rec_size r0 + rec_padding r0) /\
       ifs_eof (rs_ifs s') = (len F - p0 <? rec_size r0 + rec_padding r0) /\
       ifs_fail (rs_ifs s') = false.

(** ** The record that the bytes of a file are the image of

    rcv_decode takes the header from its caller and everything else from
    the file: [xid_size_at] is the xid size that the file states for the
    record at [p0], [tail_at] the tail behind the xid, [rcv_result] the
    outcome of a first call as a function of the bytes.  [bytes_at] is
    the image of that record, filled up with zeros where the file ends
    inside it, [rec_at] and [xid_at] are the record and the xid with this
    image. *)
Definition xid_size_at (F : list byte) (p0 : Z) : Z := le_combine (slice (p0 + 16) 8 F).

Definition tail_at (F : list byte) (p0 : Z) : rec_tail_t :=
  rec_tail_of_bytes (slice (p0 + 24 + xid_size_at F p0) 16 F).

Definition rcv_result (h : rec_hdr_t) (F : list byte) (p0 : Z) : res jerrno bool :=
  if len F - p0 <? 40 + xid_size_at F p0 then Ok false
  else if decide (tail_matches (tail_at F p0) h) then Ok true
  else Err (Throw JERR_JREC_BADRECTAIL).

Definition bytes_at (F : list byte) (p0 : Z) : list byte :=
  let n := 40 + xid_size_at F p0 in
  slice p0 n F ++ replicate (Z.to_nat (n - (len F - p0))) Byte.x00.

Definition rec_at (h : rec_hdr_t) (F : list byte) (p0 : Z) : txn_rec :=
  let xs := xid_size_at F p0 in
  {| _txn_hdr := {| _rhdr := h; _xidsize := xs |}; _xidp := None; _buff := None;
     _txn_tail := rec_tail_of_bytes (slice (24 + xs) 16 (bytes_at F p0)) |}.

Definition xid_at (F : list byte) (p0 : Z) : list byte :=
  slice 24 (xid_size_at F p0) (bytes_at F p0).

(** ** A journal file to recover from

    [ex_file] holds the record of [ex_world], padded to its two dblks with
    0xff; [ex_stream_at n] is a stream on the first [n] bytes of it,
    positioned behind the generic header. *)
Definition ex_file : list byte := rec_image ex_rec ex_xid ++ replicate 16 Byte.xff.

Definition ex_stream_at (n : Z) : ifstream :=
  {| is_data := slice 0 n ex_file; is_pos := 16; is_gcount := 16;
     eofbit := false; failbit := false; badbit := false |}.

Definition ex_rstate (n : Z) : rstate :=
  RState (World ex_heap txn_rec_ctor0) (ex_stream_at n) 0.

(** ** The rules of the monad of recovery *)

Section RcvRules.
Context {B : Type}.
Implicit Types (s : rstate) (Q : res jerrno B -> rstate -> Prop).

Lemma wp_lift {A} (m : method A) (k : A -> rcv B) s Q a w' :
  m (rs_world s) = (Ok a, w') ->
  wp (k a) (RState w' (rs_ifs s) (rs_rec_offs s)) Q -> wp (bind (lift m) k) s Q.
Proof. intros E Hk. apply wp_bind. unfold wp at 1, lift. now rewrite E. Qed.

Lemma wp_lift_err {A} (m : method A) (k : A -> rcv B) s Q f w' :
  m (rs_world s) = (Err f, w') ->
  Q (Err f) (RState w' (rs_ifs s) (rs_rec_offs s)) -> wp (bind (lift m) k) s Q.
Proof. intros E Hk. apply wp_bind. unfold wp at 1, lift. now rewrite E. Qed.

Lemma wp_lift_self (k : txn_rec -> rcv B) s Q :
  wp (k (this (rs_world s))) s Q -> wp (bind (lift self) k) s Q.
Proof. destruct s. auto. Qed.

Lemma wp_get_ifs (k : ifstream -> rcv B) s Q :
  wp (k (rs_ifs s)) s Q -> wp (bind get_ifs k) s Q.
Proof. auto. Qed.

Lemma wp_set_ifs (k : unit -> rcv B) s Q i :
  wp (k tt) (RState (rs_world s) i (rs_rec_offs s)) Q -> wp (bind (set_ifs i) k) s Q.
Proof. auto. Qed.

Lemma wp_get_rec_offs (k : Z -> rcv B) s Q :
  wp (k (rs_rec_offs s)) s Q -> wp (bind get_rec_offs k) s Q.
Proof. auto. Qed.

Lemma wp_set_rec_offs (k : unit -> rcv B) s Q n :
  wp (k tt) (RState (rs_world s) (rs_ifs s) n) Q -> wp (bind (set_rec_offs n) k) s Q.
Proof. auto. Qed.

Lemma wp_ifsp_read (k : unit -> rcv B) s Q n store bs i' w' :
  ifs_read (streamsize n) (rs_ifs s) = (bs, i') ->
  store bs (rs_world s) = (Ok tt, w') ->
  wp (k tt) (RState w' i' (rs_rec_offs s)) Q -> wp (bind (ifsp_read n store) k) s Q.
Proof.
  intros Er Es Hk. unfold ifsp_read. apply wp_bind_bind, wp_get_ifs. rewrite Er.
  apply wp_bind_bind, wp_set_ifs. eapply wp_lift; [exact Es | exact Hk].
Qed.

End RcvRules.

(** The return of false: the last read set eofbit and failbit. *)
Lemma rcv_eof_return_run w F p g n :
  rcv_eof_return (RState w (Ifstream F p g true true false) n)
  = (Ok false, RState w (Ifstream F p g true false false) n).
Proof. reflexivity. Qed.

(** ** The reader after a read *)

Section Step.
Context (r0 : txn_rec) (xid : list byte) (w : world) (t k : Z).
Context (Hlen : len xid = xid_size r0) (Hd : decoded r0 xid t w) (Hk : 0 <= k).

Lemma decoded_buff :
  exists b, _buff (this w) = Some b /\ valid_range (mem w) b (xid_size r0).
Proof. destruct Hd as [_ (b & Hb & Hv & _) _ _]. eauto. Qed.

(** The next [k] bytes of the xid stored behind those in the buffer. *)
Lemma decoded_xid_step b h' :
  24 <= t -> t + k <= 24 + xid_size r0 -> _buff (this w) = Some b ->
  store (mem w) (ptr_add b (t - 24)) (slice (t - 24) k xid) = Some h' ->
  decoded r0 xid (t + k) (World h' (this w)).
Proof.
  intros Ht Hb Eb Hs. destruct Hd as [Hh (b' & Eb' & Hv & Hl) Hw Htl].
  assert (b' = b) as -> by congruence. consts.
  split; cbn [mem this]; consts.
  - exact Hh.
  - exists b. split; [exact Eb|]. split; [eapply store_valid_range; [exact Hs | exact Hv]|].
    rewrite Z.min_l in Hl |- * by lia.
    pose proof (load_store_extend _ _ _ _ _ _ Hl Hs) as Hl'.
    rewrite slice_cat, len_slice_in in Hl' by lia.
    replace (t + k - 24) with (t - 24 + k) by lia. exact Hl'.
  - exact Hw.
  - rewrite !slice_nil by lia. reflexivity.
Qed.

(** The next [k] bytes of the tail stored behind those in the object. *)
Lemma decoded_tail_step :
  24 + xid_size r0 <= t -> t + k <= 40 + xid_size r0 ->
  decoded r0 xid (t + k) (World (mem w) (set_txn_tail (rec_tail_of_bytes
    (splice (rec_tail_bytes (_txn_tail (this w))) (t - 24 - xid_size r0)
       (slice (t - 24 - xid_size r0) k (rec_tail_bytes (_txn_tail r0))))) (this w))).
Proof.
  intros Ht Hb. destruct Hd as [Hh (b & Eb & Hv & Hl) Hw Htl]. consts.
  split; cbn [mem this set_txn_tail _txn_hdr _buff _txn_tail]; consts.
  - exact Hh.
  - exists b. split; [exact Eb|]. split; [exact Hv|].
    rewrite Z.min_r in Hl |- * by lia. rewrite Hl. f_equal. apply slice_clamp_eq; lia.
  - apply rec_tail_of_bytes_wf.
  - apply tail_extend; [exact Htl | lia ..].
Qed.

End Step.

(** ** The bytes of the image *)

Section Image.
Context (r0 : txn_rec) (xid : list byte) (Hlen : len xid = xid_size r0).

Lemma image_xidsize : slice 16 8 (rec_image r0 xid) = le_split 8 (xid_size r0).
Proof. unfold rec_image, txn_hdr_bytes, xid_size. slices. Qed.

Lemma image_xid t k :
  24 <= t -> 0 <= k -> t + k <= 24 + xid_size r0 ->
  slice t k (rec_image r0 xid) = slice (t - 24) k xid.
Proof. intros. unfold rec_image. slices. Qed.

Lemma image_tail t k :
  24 + xid_size r0 <= t -> 0 <= k -> t + k <= 40 + xid_size r0 ->
  slice t k (rec_image r0 xid) = slice (t - 24 - xid_size r0) k (rec_tail_bytes (_txn_tail r0)).
Proof. intros. unfold rec_image. slices. Qed.

End Image.

Lemma store_tail_ok w off bs :
  0 <= off -> off + len bs <= sizeof_rec_tail_t ->
  store_tail off bs w
  = (Ok tt, World (mem w) (set_txn_tail
       (rec_tail_of_bytes (splice (rec_tail_bytes (_txn_tail (this w))) off bs)) (this w))).
Proof.
  intros Ho Hb. unfold store_tail, bind, self. pose proof (len_nonneg bs).
  rewrite (proj2 (in_bounds_true _ _ _)) by (consts; len). reflexivity.
Qed.

Lemma store_xidsize_ok w z :
  0 <= z < 2 ^ 64 ->
  store_xidsize (le_split 8 z) w = (Ok tt, World (mem w) (set_xidsize z (this w))).
Proof.
  intros Hz. unfold store_xidsize, bind, self.
  rewrite (proj2 (in_bounds_true _ _ _)) by len.
  unfold splice. rewrite slice_nil, (slice_nil (0 + _)) by len.
  rewrite app_nil_l, app_nil_r, le_roundtrip by (simpl; lia). reflexivity.
Qed.

Section Segments.
Context (r0 : txn_rec) (xid F : list byte) (p0 : Z).
Context (Hxs : 0 <= xid_size r0) (Hbig : 40 + xid_size r0 <= 2 ^ 32 - 128).
Context (Hlen : len xid = xid_size r0) (Ht0 : rec_tail_wf (_txn_tail r0)).
Context (HF : file_holds F p0 (rec_image r0 xid)).

(** After a read of [n] bytes at byte [t] of the record, of the segment
    that ends at [lim]: the count, and the return of false when the file
    ended. *)
Lemma rcv_counted w' t n lim :
  24 <= t -> 0 < n -> t + n = lim -> lim <= 40 + xid_size r0 -> 0 <= p0 + t <= len F ->
  decoded r0 xid (t + Z.min n (len F - (p0 + t))) w' ->
  wp (i <- get_ifs ;;
      let size_read := size_t (ifs_gcount i) in
      set_rec_offs (size_t (t + size_read)) ;;
      if size_read <? n then b <- rcv_eof_return ;; ret (Some b) else ret None)
     (RState w' (Ifstream F (p0 + t + Z.min n (len F - (p0 + t))) (Z.min n (len F - (p0 + t)))
                   (len F - (p0 + t) <? n) (len F - (p0 + t) <? n) false) t)
     (fun res s' =>
        if len F - p0 <? lim then res = Ok (Some false) /\ rcv_ended r0 xid F p0 s'
        else res = Ok None /\ rcv_at r0 xid F p0 lim s').
Proof.
  intros Ht Hn Hlim Hl Hin Hd. apply wp_get_ifs, wp_set_rec_offs.
  cbn [rs_rec_offs rs_world rs_ifs ifs_gcount is_gcount]. rewrite !size_t_small by lia.
  destruct (Z.ltb_spec (len F - (p0 + t)) n) as [Hk|Hk].
  - rewrite Z.min_r in * by lia. replace (_ <? n) with true by lia.
    replace (len F - p0 <? lim) with true by lia.
    apply wp_bind. unfold wp at 1. rewrite rcv_eof_return_run. apply wp_ret.
    replace (t + (len F - (p0 + t))) with (len F - p0) in * by lia.
    split; [reflexivity|]. split; simpl; auto; lia.
  - rewrite Z.min_l in * by lia. rewrite Z.ltb_irrefl.
    replace (len F - p0 <? lim) with false by lia. apply wp_ret. rewrite Hlim in *.
    split; [reflexivity|]. split; cbn [rs_rec_offs rs_world rs_ifs]; auto.
    replace (p0 + t + n) with (p0 + lim) by lia. split; simpl; auto; lia.
Qed.

Lemma rcv_xid_spec t s :
  rcv_at r0 xid F p0 t s -> 24 <= t <= 40 + xid_size r0 ->
  wp rcv_xid s (fun res s' =>
    if len F - p0 <? 24 + xid_size r0
    then res = Ok (Some false) /\ rcv_ended r0 xid F p0 s'
    else res = Ok None /\ rcv_at r0 xid F p0 (Z.max t (24 + xid_size r0)) s').
Proof.
  destruct s as [w i n]. intros [Ho Hd Hi] Ht. cbn [rs_rec_offs rs_world rs_ifs] in *. subst n.
  destruct (decoded_buff _ _ _ _ Hd) as (b & Eb & Hv).
  pose proof (sa_in _ _ _ Hi) as Hin. pose proof (proj1 HF) as Hp0.
  unfold rcv_xid. apply wp_get_rec_offs, wp_lift_self. cbn [rs_rec_offs rs_world rs_ifs].
  rewrite (dec_hdr _ _ _ _ Hd). fold (xid_size r0). consts. rewrite !size_t_small by lia.
  destruct (Z.ltb_spec t (24 + xid_size r0)) as [Hlt|Hge].
  - rewrite (size_t_small (t - 24)), (size_t_small (xid_size r0 - (t - 24))) by lia.
    rewrite Eb. eapply wp_lift; [reflexivity|]. cbn [rs_rec_offs rs_world rs_ifs].
    remember (Z.min (xid_size r0 - (t - 24)) (len F - (p0 + t))) as k eqn:Ek.
    destruct (store_defined (mem w) (ptr_add b (t - 24)) (slice (t - 24) k xid)) as [h' Hs].
    { rewrite len_slice_in by lia. eapply valid_range_weaken; [exact Hv | lia ..]. }
    eapply wp_ifsp_read; [apply (ifs_read_at _ _ _ Hi); lia | |].
    { rewrite <- Ek. rewrite (file_holds_slice _ _ _ _ _ HF), image_xid by (len; lia).
      apply mem_store_ok, Hs. }
    rewrite Z.max_r by lia. apply rcv_counted; cbn [rs_rec_offs]; try lia. rewrite <- Ek.
    eapply decoded_xid_step; [exact Hlen | exact Hd | lia | lia | lia | exact Eb | exact Hs].
  - apply wp_ret. replace (len F - p0 <? _) with false by lia.
    rewrite Z.max_l by lia. now split.
Qed.

Lemma rcv_tail_spec t s :
  rcv_at r0 xid F p0 t s -> 24 + xid_size r0 <= t <= 40 + xid_size r0 ->
  wp rcv_tail s (fun res s' =>
    if len F - p0 <? 40 + xid_size r0
    then res = Ok (Some false) /\ rcv_ended r0 xid F p0 s'
    else res = Ok None /\ rcv_at r0 xid F p0 (40 + xid_size r0) s').
Proof.
  destruct s as [w i n]. intros [Ho Hd Hi] Ht. cbn [rs_rec_offs rs_world rs_ifs] in *. subst n.
  pose proof (sa_in _ _ _ Hi) as Hin. pose proof (proj1 HF) as Hp0.
  unfold rcv_tail. apply wp_get_rec_offs, wp_lift_self. cbn [rs_rec_offs rs_world rs_ifs].
  rewrite (dec_hdr _ _ _ _ Hd). fold (xid_size r0). consts. rewrite !size_t_small by lia.
  destruct (Z.ltb_spec t (24 + xid_size r0 + 16)) as [Hlt|Hge].
  - rewrite (size_t_small (t - 24)), (size_t_small (t - 24 - xid_size r0)) by lia.
    rewrite (size_t_small (16 - _)) by lia.
    remember (Z.min (16 - (t - 24 - xid_size r0)) (len F - (p0 + t))) as k eqn:Ek.
    eapply wp_ifsp_read; [apply (ifs_read_at _ _ _ Hi); lia | |].
    { rewrite <- Ek. rewrite (file_holds_slice _ _ _ _ _ HF), image_tail by (len; lia).
      apply store_tail_ok; [|rewrite len_slice_in by len]; consts; lia. }
    apply rcv_counted; cbn [rs_rec_offs]; try lia. rewrite <- Ek.
    eapply decoded_tail_step; [exact Hlen | exact Hd | lia ..].
  - apply wp_ret. replace (len F - p0 <? _) with false by lia.
    replace t with (40 + xid_size r0) in * by lia. now split.
Qed.

(** The first segment: the header, the xid size and the buffer. *)
Lemma rcv_first_spec h w i :
  h = _rhdr (_txn_hdr r0) -> stream_at F (p0 + 16) i -> 24 <= len F - p0 ->
  rec_tail_wf (_txn_tail (this w)) -> xid_size r0 <= heap_avail (mem w) ->
  wp (rcv_first h) (RState w i 0) (fun res s' =>
    res = Ok tt /\ rcv_at r0 xid F p0 24 s' /\
    exists b, based_on r0 w 0 b (rs_world s')).
Proof.
  intros Hh Hi HT Htw Hav. pose proof (proj1 HF) as Hp0.
  unfold rcv_first, sizeof_size_t. eapply wp_lift; [reflexivity|].
  eapply wp_ifsp_read; [apply (ifs_read_at _ _ _ Hi); lia | |].
  { rewrite Z.min_l, (file_holds_slice _ _ _ _ _ HF), image_xidsize by (len; lia).
    apply store_xidsize_ok. lia. }
  apply wp_set_rec_offs, wp_lift_self. cbn [rs_rec_offs rs_world rs_ifs this mem].
  eapply wp_lift.
  { unfold mem_malloc. cbn [rs_world mem this]. change (_xidsize _) with (xid_size r0).
    rewrite malloc_ok by lia. reflexivity. }
  set (b := Ptr (fresh (dom (heap_cells (mem w)))) 0).
  assert (Hmal : malloc (mem w) (xid_size r0) = (Some b, Heap (<[p_blk b := replicate
            (Z.to_nat (xid_size r0)) Byte.x00]> (heap_cells (mem w)))
            (heap_avail (mem w) - xid_size r0))) by (now apply malloc_ok).
  eapply wp_lift; [reflexivity|]. eapply wp_lift; [reflexivity|]. apply wp_ret.
  cbn [rs_rec_offs rs_world rs_ifs this mem]. rewrite (first_obj_eq r0 b (this w) h) by auto.
  assert (Hv : valid_range (mem (World _ (first_obj r0 b (this w)))) b (xid_size r0))
    by (eapply malloc_valid; [|exact Hmal]; lia).
  split; [reflexivity|]. split; [|exists b; now split].
  split; cbn [rs_rec_offs rs_world rs_ifs]; consts; [reflexivity | |].
  - split; cbn [this first_obj _txn_hdr _buff _txn_tail]; [reflexivity | | exact Htw |].
    + exists b. split; [reflexivity|]. split; [exact Hv|]. consts.
      rewrite Z.min_l, slice_nil by lia. apply load_nil.
      rewrite <- (ptr_add_0 b). eapply valid_range_weaken; [exact Hv | lia ..].
    + consts. rewrite !slice_nil by lia. reflexivity.
  - rewrite Z.min_l by lia. replace (p0 + 16 + 8) with (p0 + 24) by lia.
    replace (_ <? 8) with false by lia. split; simpl; auto; lia.
Qed.

Lemma rec_size_eq : rec_size r0 = 40 + xid_size r0.
Proof. unfold rec_size, xid_size in *. consts. rewrite size_t_small by lia. lia. Qed.

Lemma rec_padding_range : 0 <= rec_padding r0 < 128.
Proof.
  unfold rec_padding, rec_size_dblks. rewrite dblk_size_dblks; rewrite rec_size_eq; [|lia].
  cast_lia.
Qed.

(** The reader that has consumed the record holds its tail. *)
Lemma decoded_sealed w :
  decoded r0 xid (40 + xid_size r0) w -> txn_rec_sealed (this w) <-> txn_rec_sealed r0.
Proof.
  intros [Hh _ Hw Htl]. unfold txn_rec_sealed. rewrite Hh.
  rewrite (tail_full _ _ Hw Ht0); [reflexivity|]. consts.
  replace (40 + xid_size r0 - 24 - xid_size r0) with 16 in Htl by lia. exact Htl.
Qed.

(** The last segment: the padding and the tail check. *)
Lemma rcv_finish_spec s :
  rcv_at r0 xid F p0 (40 + xid_size r0) s -> wp rcv_finish s (rcv_post r0 xid F p0).
Proof.
  destruct s as [w i n]. intros [Ho Hd Hi]. cbn [rs_rec_offs rs_world rs_ifs] in *. subst n.
  pose proof (sa_in _ _ _ Hi) as Hin. pose proof rec_padding_range as Hpad.
  pose proof (decoded_sealed _ Hd) as Hseal.
  unfold rcv_finish, rcv_post, rcv_outcome. apply wp_lift_self. cbn [rs_world].
  replace (dblk_bytes (rec_size_dblks (this w)) - rec_size (this w)) with (rec_padding r0)
    by (unfold rec_padding, rec_size_dblks, rec_size; now rewrite (dec_hdr _ _ _ _ Hd)).
  rewrite rec_size_eq in *. replace (len F - p0 <? _) with false by lia.
  unfold ifsp_ignore. apply wp_bind_bind, wp_get_ifs. cbn [rs_ifs].
  rewrite size_t_small, (ifs_ignore_at _ _ _ Hi) by lia. apply wp_set_ifs.
  cbn [rs_rec_offs rs_world rs_ifs].
  replace (len F - (p0 + (40 + xid_size r0)) <? rec_padding r0)
    with (len F - p0 <? 40 + xid_size r0 + rec_padding r0) by lia.
  case_decide as Hs.
  - eapply wp_lift; [apply chk_tail_ok; tauto|]. apply wp_get_ifs.
    apply wp_bind_assert; [reflexivity|]. apply wp_ret. cbn [rs_rec_offs rs_world rs_ifs].
    do 3 (split; [easy|]). simpl. split; [lia | easy].
  - eapply wp_lift_err; [apply chk_tail_bad; tauto|]. cbn [rs_rec_offs rs_world rs_ifs].
    do 3 (split; [easy|]). simpl. split; [lia | easy].
Qed.

(** The segments behind the first. *)
Lemma rcv_rest_spec t s :
  rcv_at r0 xid F p0 t s -> 24 <= t <= 40 + xid_size r0 ->
  wp (r1 <- rcv_xid ;;
      match r1 with
      | Some b => ret b
      | None => r2 <- rcv_tail ;; match r2 with Some b => ret b | None => rcv_finish end
      end) s (rcv_post r0 xid F p0).
Proof.
  intros Hat Ht. pose proof rec_size_eq as Hrs.
  eapply wp_bind_with; [apply (rcv_xid_spec _ _ Hat Ht)|]. intros res s1. cbv beta.
  destruct (Z.ltb_spec (len F - p0) (24 + xid_size r0)) as [H1|H1].
  { intros [-> He]. apply wp_ret. unfold rcv_post. replace (_ <? _) with true by lia. auto. }
  intros [-> Hat1].
  eapply wp_bind_with; [apply (rcv_tail_spec _ _ Hat1); lia|]. intros res s2. cbv beta.
  destruct (Z.ltb_spec (len F - p0) (40 + xid_size r0)) as [H2|H2].
  { intros [-> He]. apply wp_ret. unfold rcv_post. replace (_ <? _) with true by lia. auto. }
  intros [-> Hat2]. now apply rcv_finish_spec.
Qed.

End Segments.

(** ** The whole method *)

Lemma rcv_decode_spec r0 xid F p0 h s :
  rcv_pre r0 xid F p0 h s -> wp (rcv_decode h) s (rcv_post r0 xid F p0).
Proof.
  intros [Hxs Hbig Hlen Ht0 HF Hst]. unfold rcv_decode. apply wp_get_rec_offs.
  destruct (Z.eqb_spec (rs_rec_offs s) 0) as [E|E].
  - destruct s as [w i n]. cbn [rs_rec_offs rs_world rs_ifs] in *. subst n.
    destruct Hst as (Hh & Hi & HT & Hav & Htw).
    eapply wp_bind_with; [now apply (rcv_first_spec r0 xid F p0)|].
    intros res s1 (-> & Hat & _). apply (rcv_rest_spec r0 xid F p0) with (t := 24); auto; lia.
  - destruct Hst as [Ht Hat]. apply wp_bind_ret. rewrite rec_size_eq in Ht by assumption.
    now apply (rcv_rest_spec r0 xid F p0) with (t := rs_rec_offs s).
Qed.

(** A call under the contract sees 24 bytes of the record at least. *)
Lemma rcv_pre_header r0 xid F p0 h s : rcv_pre r0 xid F p0 h s -> 24 <= len F - p0.
Proof.
  intros [_ _ _ _ _ Hst]. destruct (rs_rec_offs s =? 0); [tauto|].
  destruct Hst as [Ht [Ho _ Hi]]. pose proof (sa_in _ _ _ Hi). lia.
Qed.

(** The reader of a file that ended inside the record is ready for the
    call that resumes on a file that has more of it. *)
Lemma rcv_ended_pre r0 xid F1 F2 p0 h h' s s1 i2 :
  rcv_pre r0 xid F1 p0 h s -> len F1 - p0 < rec_size r0 ->
  rcv_ended r0 xid F1 p0 s1 -> file_holds F2 p0 (rec_image r0 xid) ->
  stream_at F2 (p0 + (len F1 - p0)) i2 ->
  rcv_pre r0 xid F2 p0 h' (RState (rs_world s1) i2 (rs_rec_offs s1)).
Proof.
  intros Hpre HT [Eo Hd _ _ _ _] HF2 Hi2. pose proof (rcv_pre_header _ _ _ _ _ _ Hpre) as H24.
  destruct Hpre as [Hxs Hbig Hlen Ht0 _ _]. split; auto. cbn [rs_rec_offs rs_world rs_ifs].
  rewrite Eo. destruct (Z.eqb_spec (len F1 - p0) 0); [lia|]. split; [lia|]. now split.
Qed.

(** ** Files to recover from *)

Lemma ex_rcv_pre n :
  24 <= n <= 256 ->
  rcv_pre ex_rec ex_xid (slice 0 n ex_file) 0 (_rhdr (_txn_hdr ex_rec)) (ex_rstate n).
Proof.
  intros Hn. assert (Hf : len ex_file = 256) by reflexivity.
  assert (Hl : len (slice 0 n ex_file) = n) by (rewrite len_slice_in; lia).
  split; try (vm_compute; intuition congruence).
  - assert (Hi : len (rec_image ex_rec ex_xid) = 240) by reflexivity.
    split; [lia|]. rewrite Hl, slice_slice by lia. unfold ex_file.
    rewrite slice_app, (slice_nil _ _ (replicate _ _)), app_nil_r by lia.
    apply slice_clamp_eq; lia.
  - cbn [rs_rec_offs ex_rstate Z.eqb]. rewrite Hl. repeat split; try (vm_compute; congruence); lia.
Defined.

(** ** A stream that is not good

    An input operation on a stream that is not good extracts nothing, so
    the read of the xid or of the tail comes short and the call takes
    the return for the end of the file. *)

Lemma wp_ifsp_read_refused {B} (k : unit -> rcv B) s Q n store w' :
  ifs_good (rs_ifs s) = false -> store [] (rs_world s) = (Ok tt, w') ->
  wp (k tt) (RState w' (ifs_refuse (rs_ifs s)) (rs_rec_offs s)) Q ->
  wp (bind (ifsp_read n store) k) s Q.
Proof. intros Hg. eapply wp_ifsp_read. now apply ifs_read_refused. Qed.

Lemma store_xidsize_run w bs :
  len bs <= 8 ->
  store_xidsize bs w
  = (Ok tt, World (mem w) (set_xidsize
       (le_combine (splice (le_split 8 (_xidsize (_txn_hdr (this w)))) 0 bs)) (this w))).
Proof.
  intros Hb. unfold store_xidsize, bind, self. pose proof (len_nonneg bs).
  rewrite (proj2 (in_bounds_true _ _ _)) by len. reflexivity.
Qed.

(** The return for the end of the file behind a read that was refused. *)
Lemma rcv_eof_return_refused w i t :
  rcv_eof_return (RState w (ifs_refuse i) t)
  = (refused_outcome i, RState w (refused_stream i) t).
Proof.
  unfold rcv_eof_return, refused_outcome, refused_stream, bind, get_ifs, set_ifs, ifs_eof,
    ifs_fail, ifs_bad.
  cbn [rs_ifs rs_world rs_rec_offs ifs_refuse ifs_clear_fail eofbit failbit badbit].
  now destruct (eofbit i), (badbit i).
Qed.

Lemma ifs_refuse_not_good i : ifs_good (ifs_refuse i) = false.
Proof. unfold ifs_good, ifs_refuse. cbn. now destruct (eofbit i). Qed.

(** The xid is not read when the count is behind it. *)
Lemma rcv_xid_skip s :
  size_t (24 + xid_size (this (rs_world s))) <= rs_rec_offs s -> rcv_xid s = (Ok None, s).
Proof.
  intros H. apply wp_eq. unfold rcv_xid. apply wp_get_rec_offs, wp_lift_self.
  fold (xid_size (this (rs_world s))). consts. replace (_ <? _) with false by lia.
  now apply wp_ret.
Qed.

Section Refused.
Context (w : world) (i : ifstream) (t : Z).
Context (Hg : ifs_good i = false).
Context (Hx : 0 <= xid_size (this w)) (Hw : xid_size (this w) + 40 < 2 ^ 64).

Abbreviation refused_post := (fun (res : res jerrno (option bool)) s' =>
  res = match refused_outcome i with Ok b => Ok (Some b) | Err f => Err f end /\
  rs_ifs s' = refused_stream i /\ rs_rec_offs s' = t /\ mem (rs_world s') = mem w /\
  _txn_hdr (this (rs_world s')) = _txn_hdr (this w) /\
  _buff (this (rs_world s')) = _buff (this w)).

(** The end of a segment whose read was refused. *)
Lemma wp_refused w1 (k : bool -> rcv (option bool)) :
  (forall b, k b = ret (Some b)) -> mem w1 = mem w -> _txn_hdr (this w1) = _txn_hdr (this w) ->
  _buff (this w1) = _buff (this w) ->
  wp (bind rcv_eof_return k) (RState w1 (ifs_refuse i) t) refused_post.
Proof.
  intros Hk Hm Hh Hb. apply wp_bind. unfold wp at 1. rewrite rcv_eof_return_refused.
  cbn [fst snd]. destruct (refused_outcome i); [rewrite Hk|]; now cbn.
Qed.

(** The read of the xid is refused. *)
Lemma rcv_xid_refused b :
  _buff (this w) = Some b -> valid_range (mem w) b (xid_size (this w)) ->
  24 <= t < 24 + xid_size (this w) ->
  wp rcv_xid (RState w i t) refused_post.
Proof.
  intros Hb Hv Ht. unfold rcv_xid, xid_size in *. apply wp_get_rec_offs, wp_lift_self.
  cbn [rs_rec_offs rs_world rs_ifs]. consts.
  rewrite (size_t_small (24 + _)), (size_t_small (t - 24)) by lia.
  replace (t <? _) with true by lia. rewrite Hb. eapply wp_lift; [reflexivity|].
  eapply wp_ifsp_read_refused; [exact Hg | apply mem_store_ok, store_nil |].
  { eapply valid_range_weaken; [exact Hv | cbn [p_ofs ptr_add]; lia ..]. }
  apply wp_get_ifs, wp_set_rec_offs. unfold ifs_gcount.
  cbn [rs_rec_offs rs_world rs_ifs ifs_refuse is_gcount].
  rewrite (size_t_small 0), (size_t_small (_ - (t - 24))), Z.add_0_r, (size_t_small t) by lia.
  replace (0 <? _) with true by lia. rewrite <- Hb. now apply wp_refused.
Qed.

(** The read of the tail is refused. *)
Lemma rcv_tail_refused :
  24 + xid_size (this w) <= t < rec_size (this w) ->
  wp rcv_tail (RState w i t) refused_post.
Proof.
  intros Ht. unfold rcv_tail, rec_size, xid_size in *. apply wp_get_rec_offs, wp_lift_self.
  cbn [rs_rec_offs rs_world rs_ifs]. consts.
  rewrite (size_t_small (24 + _ + 16)) in * by lia.
  rewrite (size_t_small (t - 24)), (size_t_small (t - 24 - _)) by lia.
  replace (t <? _) with true by lia. rewrite (size_t_small (16 - _)) by lia.
  eapply wp_ifsp_read_refused; [exact Hg | apply store_tail_ok; consts; len; lia |].
  apply wp_get_ifs, wp_set_rec_offs. unfold ifs_gcount.
  cbn [rs_rec_offs rs_world rs_ifs ifs_refuse is_gcount].
  rewrite (size_t_small 0), Z.add_0_r, (size_t_small t) by lia.
  replace (0 <? _) with true by lia. now apply wp_refused.
Qed.

(** The segments behind the first, inside the record. *)
Lemma rcv_rest_refused b (k : option bool -> rcv bool) :
  _buff (this w) = Some b -> valid_range (mem w) b (xid_size (this w)) ->
  24 <= t < rec_size (this w) -> (forall r, k (Some r) = ret r) ->
  wp (r1 <- rcv_xid ;; match r1 with Some r => ret r | None => r2 <- rcv_tail ;; k r2 end)
    (RState w i t)
    (fun res s' => res = refused_outcome i /\ rs_ifs s' = refused_stream i /\
                   rs_rec_offs s' = t /\ xid_size (this (rs_world s')) = xid_size (this w)).
Proof.
  intros Hb Hv Ht Hk.
  assert (Q : forall m (k' : option bool -> rcv bool), (forall r, k' (Some r) = ret r) ->
            wp m (RState w i t) refused_post ->
            wp (bind m k') (RState w i t) (fun res s' =>
              res = refused_outcome i /\ rs_ifs s' = refused_stream i /\
              rs_rec_offs s' = t /\ xid_size (this (rs_world s')) = xid_size (this w))).
  { intros m k' Hk' W. eapply wp_bind_with; [exact W|].
    intros res s' (-> & ? & ? & _ & Eh & _). unfold xid_size.
    destruct (refused_outcome i); [rewrite Hk'; apply wp_ret|]; rewrite Eh; auto. }
  destruct (Z.lt_ge_cases t (24 + xid_size (this w))).
  - apply Q; [reflexivity|]. apply (rcv_xid_refused b Hb Hv). lia.
  - apply wp_bind. unfold wp at 1.
    rewrite rcv_xid_skip by (cbn [rs_world rs_rec_offs]; rewrite size_t_small; lia).
    cbn [fst snd]. apply Q; [exact Hk|]. apply rcv_tail_refused. lia.
Qed.

End Refused.

(** The first segment on a stream that is not good: the xid size is the
    one that the object held, and a buffer of this size is allocated. *)
Lemma rcv_first_refused h w i :
  ifs_good i = false -> 0 <= xid_size (this w) < 2 ^ 64 ->
  xid_size (this w) <= heap_avail (mem w) ->
  wp (rcv_first h) (RState w i 0) (fun res s' =>
    res = Ok tt /\ rs_rec_offs s' = 24 /\ xid_size (this (rs_world s')) = xid_size (this w) /\
    rs_ifs s' = ifs_refuse i /\
    exists b, _buff (this (rs_world s')) = Some b /\
              valid_range (mem (rs_world s')) b (xid_size (this w))).
Proof.
  intros Hg Hx Hav. unfold rcv_first, sizeof_size_t. eapply wp_lift; [reflexivity|].
  eapply wp_ifsp_read_refused; [exact Hg | apply store_xidsize_run; len |].
  cbn [rs_rec_offs rs_world rs_ifs this mem].
  change (_xidsize (_txn_hdr (set_rhdr _ _))) with (xid_size (this w)).
  rewrite splice_nil, le_combine_split, Z.mod_small by (len; lia).
  apply wp_set_rec_offs, wp_lift_self. cbn [rs_rec_offs rs_world rs_ifs this mem].
  eapply wp_lift.
  { unfold mem_malloc. cbn [rs_world mem this]. change (_xidsize _) with (xid_size (this w)).
    rewrite malloc_ok by lia. reflexivity. }
  eapply wp_lift; [reflexivity|]. eapply wp_lift; [reflexivity|]. apply wp_ret.
  cbn [rs_rec_offs rs_world rs_ifs this mem]. do 4 (split; [reflexivity|]).
  eexists. split; [reflexivity|]. eexists. simpl. rewrite lookup_insert_eq.
  split; [reflexivity|]. len.
Qed.

(** The size of a record whose xid size does not wrap. *)
Lemma rec_size_small r : 0 <= xid_size r -> xid_size r + 40 < 2 ^ 64 -> rec_size r = 40 + xid_size r.
Proof. intros. unfold rec_size, xid_size in *. consts. rewrite size_t_small; lia. Qed.

(** The call on a stream that is not good: nothing is extracted, and the
    return for the end of the file decides. *)
Lemma rcv_decode_refused h w i t :
  ifs_good i = false -> 0 <= xid_size (this w) -> xid_size (this w) + 40 < 2 ^ 64 ->
  (if t =? 0 then xid_size (this w) <= heap_avail (mem w)
   else 24 <= t < rec_size (this w) /\
        exists b, _buff (this w) = Some b /\ valid_range (mem w) b (xid_size (this w))) ->
  wp (rcv_decode h) (RState w i t) (fun res s' =>
    res = refused_outcome i /\ rs_ifs s' = refused_stream i /\
    rs_rec_offs s' = (if t =? 0 then 24 else t)).
Proof.
  intros Hg Hx Hw Ht. unfold rcv_decode. apply wp_get_rec_offs. cbn [rs_rec_offs].
  destruct (Z.eqb_spec t 0) as [->|Hnz].
  - eapply wp_bind_with; [apply rcv_first_refused; auto; lia|].
    intros res [w1 i1 n1] (-> & En & Exs & Ei & b & Eb & Hv).
    cbn [rs_rec_offs rs_world rs_ifs] in *. subst n1 i1. rewrite <- Exs in Hx, Hw, Hv.
    eapply wp_mono; [apply (rcv_rest_refused w1 _ 24 (ifs_refuse_not_good i) Hx Hw b _ Eb Hv);
                     [rewrite rec_size_small; lia | reflexivity]|].
    intros res s' (-> & -> & -> & _). easy.
  - destruct Ht as (Ht & b & Eb & Hv). apply wp_bind_ret.
    eapply wp_mono; [apply (rcv_rest_refused w i t Hg Hx Hw b _ Eb Hv Ht); reflexivity|].
    intros res s' (-> & -> & -> & _). easy.
Qed.

(** ** A file that ends inside the xid size *)

(** The first segment on a file that has fewer than 8 bytes left: the
    xid size is [x], the bytes of the file over those that the object
    held. *)
Lemma rcv_first_short h w i F p x :
  stream_at F p i -> len F - p < 8 ->
  x = le_combine (splice (le_split 8 (xid_size (this w))) 0 (slice p (len F - p) F)) ->
  x <= heap_avail (mem w) ->
  wp (rcv_first h) (RState w i 0) (fun res s' =>
    res = Ok tt /\ rs_rec_offs s' = 24 /\ xid_size (this (rs_world s')) = x /\
    rs_ifs s' = Ifstream F (len F) (len F - p) true true false /\
    exists b, _buff (this (rs_world s')) = Some b /\ valid_range (mem (rs_world s')) b x).
Proof.
  intros Hi Hk Ex Hav. pose proof (sa_in _ _ _ Hi) as Hin.
  assert (Hx : 0 <= x) by (rewrite Ex; apply le_combine_bound).
  unfold rcv_first, sizeof_size_t. eapply wp_lift; [reflexivity|].
  eapply wp_ifsp_read; [apply (ifs_read_at _ _ _ Hi); lia | |].
  { apply store_xidsize_run. rewrite len_slice by lia. lia. }
  rewrite Z.min_r by lia. replace (_ <? 8) with true by lia.
  change (_xidsize (_txn_hdr (this (rs_world _)))) with (xid_size (this w)). rewrite <- Ex.
  apply wp_set_rec_offs, wp_lift_self. cbn [rs_rec_offs rs_world rs_ifs this mem].
  eapply wp_lift.
  { unfold mem_malloc. cbn [rs_world mem this]. change (_xidsize _) with x.
    rewrite malloc_ok by lia. reflexivity. }
  eapply wp_lift; [reflexivity|]. eapply wp_lift; [reflexivity|]. apply wp_ret.
  cbn [rs_rec_offs rs_world rs_ifs this mem]. split; [reflexivity|]. split; [reflexivity|].
  split; [reflexivity|]. split; [f_equal; lia|]. eexists. split; [reflexivity|].
  eexists. simpl. rewrite lookup_insert_eq. split; [reflexivity|]. len.
Qed.

(** On a file that ends inside the xid size the first call returns false
    with a count of 24. *)
Lemma rcv_decode_short h w i F p x :
  stream_at F p i -> len F - p < 8 ->
  x = le_combine (splice (le_split 8 (xid_size (this w))) 0 (slice p (len F - p) F)) ->
  x <= heap_avail (mem w) -> x + 40 < 2 ^ 64 ->
  exists s', rcv_decode h (RState w i 0) = (Ok false, s') /\ rs_rec_offs s' = 24 /\
             is_pos (rs_ifs s') = len F /\ xid_size (this (rs_world s')) = x.
Proof.
  intros Hi Hk Ex Hav Hw. assert (Hx : 0 <= x) by (rewrite Ex; apply le_combine_bound).
  enough (W : wp (rcv_decode h) (RState w i 0) (fun res s' =>
            res = Ok false /\ rs_rec_offs s' = 24 /\ is_pos (rs_ifs s') = len F /\
            xid_size (this (rs_world s')) = x)).
  { unfold wp in W. destruct (rcv_decode h _) as [res s']. cbn [fst snd] in W.
    destruct W as (-> & W). eauto. }
  unfold rcv_decode. apply wp_get_rec_offs. cbn [rs_rec_offs Z.eqb].
  eapply wp_bind_with; [exact (rcv_first_short h w i F p x Hi Hk Ex Hav)|].
  intros res [w1 i1 n1] (-> & En & Exs & Ei & b & Eb & Hv).
  cbn [rs_rec_offs rs_world rs_ifs] in *. subst n1 i1. rewrite <- Exs in Hx, Hw, Hv.
  eapply wp_mono;
    [apply (rcv_rest_refused w1 (Ifstream F (len F) (len F - p) true true false) 24 eq_refl
              Hx Hw b _ Eb Hv); [rewrite rec_size_small; lia | reflexivity]|].
  intros res s' (-> & -> & -> & ->). easy.
Qed.

(** ** Any file behind the header *)

Section AnyFile.
Context (h : rec_hdr_t) (F : list byte) (p0 : Z).
Context (Hp : 0 <= p0) (H24 : 24 <= len F - p0).
Context (Hh : slice p0 16 F = rec_hdr_bytes h).

Abbreviation xs_at := (xid_size_at F p0).

Lemma xs_at_nonneg : 0 <= xs_at.
Proof. apply le_combine_bound. Qed.

Lemma len_bytes_at : len (bytes_at F p0) = 40 + xs_at.
Proof. pose proof xs_at_nonneg. unfold bytes_at. cbv zeta. len_facts. slice_norm. lia. Qed.

(** The bytes that the file has are those of the record. *)
Lemma bytes_at_slice k m :
  0 <= k -> 0 <= m -> k + m <= len F - p0 -> k + m <= 40 + xs_at ->
  slice k m (bytes_at F p0) = slice (p0 + k) m F.
Proof.
  intros Hk Hm Hf Hn. unfold bytes_at. cbv zeta. rewrite slice_app by lia.
  rewrite (slice_nil _ _ (replicate _ _)), app_nil_r by (left; rewrite len_slice by lia; lia).
  rewrite slice_slice by lia. apply slice_clamp_eq; lia.
Qed.

Lemma file_holds_at : file_holds F p0 (bytes_at F p0).
Proof.
  pose proof xs_at_nonneg. split; [lia|]. rewrite len_bytes_at.
  unfold bytes_at. cbv zeta. rewrite slice_app by lia.
  destruct (Z.le_gt_cases (40 + xs_at) (len F - p0)).
  - replace (Z.to_nat _) with 0%nat by lia. cbn [replicate].
    rewrite (slice_nil _ _ []), app_nil_r by (right; change (len (@nil byte)) with 0; lia).
    rewrite slice_slice by lia. apply slice_clamp_eq; lia.
  - rewrite (slice_nil _ _ (replicate _ _)), app_nil_r by (left; rewrite len_slice by lia; lia).
    rewrite slice_slice by lia. apply slice_clamp_eq; lia.
Qed.

Lemma rec_image_at : rec_image (rec_at h F p0) (xid_at F p0) = bytes_at F p0.
Proof.
  pose proof xs_at_nonneg. pose proof len_bytes_at as HL.
  pose proof (le_split_combine_slice 8 (p0 + 16) F ltac:(lia) ltac:(lia)) as E.
  change (Z.of_nat 8) with 8 in E.
  unfold rec_image, txn_hdr_bytes, rec_at, xid_at. cbn [_txn_hdr _rhdr _xidsize _txn_tail].
  rewrite rec_tail_bytes_of_bytes by (consts; rewrite len_slice_in; lia).
  assert (E0 : slice 0 16 (bytes_at F p0) = rec_hdr_bytes h)
    by (rewrite bytes_at_slice, Z.add_0_r by lia; exact Hh).
  assert (E1 : slice 16 8 (bytes_at F p0) = le_split 8 xs_at)
    by (rewrite bytes_at_slice by lia; unfold xid_size_at; now rewrite E).
  rewrite <- E0, <- E1.
  rewrite !app_assoc, !slice_cat by lia.
  replace (24 + xs_at) with (0 + (16 + 8 + xs_at)) by lia.
  rewrite slice_cat by lia. apply slice_all. lia.
Qed.

End AnyFile.

(** Every file is the image of a record as far as it goes: the contract
    of rcv_decode asks nothing of the bytes behind the header. *)
Lemma rcv_pre_any_file h F p0 w i :
  0 <= p0 -> slice p0 16 F = rec_hdr_bytes h -> 24 <= len F - p0 ->
  stream_at F (p0 + 16) i -> 40 + xid_size_at F p0 <= 2 ^ 32 - 128 ->
  xid_size_at F p0 <= heap_avail (mem w) ->
  rec_tail_wf (_txn_tail (this w)) ->
  rcv_pre (rec_at h F p0) (xid_at F p0) F p0 h (RState w i 0).
Proof.
  intros Hp Hh H24 Hi Hbig Hav Ht. pose proof (xs_at_nonneg F p0) as Hxs.
  pose proof (len_bytes_at F p0 Hp H24) as HL.
  split; try assumption.
  - unfold xid_at. rewrite len_slice_in by lia. reflexivity.
  - apply rec_tail_of_bytes_wf.
  - rewrite rec_image_at by assumption. now apply file_holds_at.
  - cbn [rs_rec_offs Z.eqb]. cbv iota. auto.
Qed.

(** ** The exceptions of recovery *)

Lemma throws_lift P {A} (m : method A) : throws_only P m -> throws_only P (lift m).
Proof. intros H s e. unfold lift. specialize (H (rs_world s) e). now destruct (m _). Qed.
Lemma throws_get_ifs P : throws_only P get_ifs.
Proof. intros s e [=]. Qed.
Lemma throws_set_ifs P i : throws_only P (set_ifs i).
Proof. intros s e [=]. Qed.
Lemma throws_get_rec_offs P : throws_only P get_rec_offs.
Proof. intros s e [=]. Qed.
Lemma throws_set_rec_offs P n : throws_only P (set_rec_offs n).
Proof. intros s e [=]. Qed.
#[export] Hint Resolve throws_get_ifs throws_set_ifs throws_get_rec_offs throws_set_rec_offs
  : throws.


Lemma rcv_decode_throws_only h :
  throws_only (fun e => In e [JERR__MALLOC; JERR_JREC_BADRECTAIL]) (rcv_decode h).
Proof. repeat (cbv zeta; first [apply throws_lift | throws_step]). Qed.

(** ** The properties of recovery *)

(** C3 (functional): on a file that holds the whole record, a call of
    rcv_decode under the contract, the first or one that resumes, returns
    the outcome of the tail check: true when the tail belongs to the
    header, and the throw of JERR_JREC_BADRECTAIL otherwise.  The caller's
    count is the size of the record then, the reader holds the header,
    the whole xid and the tail, and the stream stands behind the padding
    of the last dblk, as far as the file has it. *)
Theorem rcv_decode_correct r0 xid F p0 h s :
  rcv_pre r0 xid F p0 h s -> rec_size r0 <= len F - p0 ->
  exists s', rcv_decode h s = (rcv_outcome r0, s') /\ rs_rec_offs s' = rec_size r0 /\
             decoded r0 xid (rec_size r0) (rs_world s') /\
             is_pos (rs_ifs s') = p0 + Z.min (len F - p0) (rec_size r0 + rec_padding r0).
Proof.
  intros Hpre HT. pose proof (rcv_decode_spec _ _ _ _ _ _ Hpre) as W.
  unfold wp, rcv_post in W. replace (_ <? _) with false in W by lia.
  destruct (rcv_decode h s) as [res s']. cbn [fst snd] in W.
  destruct W as (-> & ? & ? & ? & _). now exists s'.
Qed.

Lemma rcv_decode_correct_witness :
  exists s', rcv_decode (_rhdr (_txn_hdr ex_rec)) (ex_rstate 256) = (Ok true, s') /\
             rs_rec_offs s' = 240 /\ decoded ex_rec ex_xid 240 (rs_world s') /\
             is_pos (rs_ifs s') = 256.
Proof.
  exact (rcv_decode_correct ex_rec ex_xid (slice 0 256 ex_file) 0 _ (ex_rstate 256)
           (ex_rcv_pre 256 ltac:(lia)) ltac:(vm_compute; discriminate)).
Defined.

(** C4 (equivalence): rcv_decode is a function of the bytes of the file.
    Whatever the file holds behind a header that the caller has read, as
    long as the xid size that it states is below 4 GiB and fits the
    memory left, a first call of rcv_decode gives [rcv_result]: false
    when the file ends inside the record, else true or the throw of
    JERR_JREC_BADRECTAIL as the 16 bytes behind the xid are or are not
    the tail of the header.  The caller's count is the number of bytes
    of the record that the file has, and the buffer holds the bytes of
    the xid that the file has.  No assumption is made on the xid or on
    the tail. *)
Theorem rcv_decode_any_file h F p0 w i :
  0 <= p0 -> slice p0 16 F = rec_hdr_bytes h -> 24 <= len F - p0 ->
  stream_at F (p0 + 16) i -> 40 + xid_size_at F p0 <= 2 ^ 32 - 128 ->
  xid_size_at F p0 <= heap_avail (mem w) -> rec_tail_wf (_txn_tail (this w)) ->
  exists s' b,
    rcv_decode h (RState w i 0) = (rcv_result h F p0, s') /\
    rs_rec_offs s' = Z.min (len F - p0) (40 + xid_size_at F p0) /\
    _buff (this (rs_world s')) = Some b /\
    load (mem (rs_world s')) b (Z.min (len F - p0 - 24) (xid_size_at F p0))
    = Some (slice (p0 + 24) (Z.min (len F - p0 - 24) (xid_size_at F p0)) F).
Proof.
  intros Hp Hh H24 Hi Hbig Hav Ht. pose proof (xs_at_nonneg F p0) as Hxs.
  pose proof (rcv_decode_spec _ _ _ _ _ _ (rcv_pre_any_file h F p0 w i Hp Hh H24 Hi Hbig Hav Ht))
    as W.
  assert (Hrs : rec_size (rec_at h F p0) = 40 + xid_size_at F p0)
    by (apply rec_size_small; cbn; lia).
  unfold wp, rcv_post, rcv_result in *. rewrite Hrs in W.
  destruct (rcv_decode h _) as [res s']. cbn [fst snd] in W. exists s'.
  assert (D : forall t, 24 <= t <= 40 + xid_size_at F p0 -> t <= len F - p0 ->
            decoded (rec_at h F p0) (xid_at F p0) t (rs_world s') ->
            exists b, _buff (this (rs_world s')) = Some b /\
              load (mem (rs_world s')) b (Z.min (t - 24) (xid_size_at F p0))
              = Some (slice (p0 + 24) (Z.min (t - 24) (xid_size_at F p0)) F)).
  { intros t Ht1 Ht2 [_ (b & Eb & _ & El) _ _]. exists b. split; [exact Eb|].
    cbn [xid_size rec_at _txn_hdr _xidsize] in El. consts. rewrite El. f_equal.
    unfold xid_at. rewrite slice_slice, bytes_at_slice by lia.
    apply slice_clamp_eq; lia. }
  destruct (Z.ltb_spec (len F - p0) (40 + xid_size_at F p0)) as [Hc|Hc].
  - destruct W as (-> & [Eo Hd _ _ _ _]).
    destruct (D (len F - p0) ltac:(lia) ltac:(lia) Hd) as (b & Eb & El).
    exists b. rewrite Z.min_l by lia. auto.
  - destruct W as (-> & Eo & Hd & _).
    destruct (D (40 + xid_size_at F p0) ltac:(lia) ltac:(lia) Hd) as (b & Eb & El).
    exists b. rewrite Z.min_r by lia. rewrite !Z.min_r in * by lia.
    split; [|auto].
    f_equal. unfold rcv_outcome, txn_rec_sealed, tail_at.
    cbn [rec_at _txn_hdr _rhdr _txn_tail]. rewrite bytes_at_slice by lia.
    replace (p0 + (24 + xid_size_at F p0)) with (p0 + 24 + xid_size_at F p0) by lia.
    reflexivity.
Qed.

Lemma rcv_decode_any_file_witness :
  exists s' b,
    rcv_decode (_rhdr (_txn_hdr ex_rec)) (ex_rstate 250) = (Ok true, s') /\
    rs_rec_offs s' = 240 /\ _buff (this (rs_world s')) = Some b /\
    load (mem (rs_world s')) b 200 = Some ex_xid.
Proof.
  refine (rcv_decode_any_file (_rhdr (_txn_hdr ex_rec)) (slice 0 250 ex_file) 0
            (World ex_heap txn_rec_ctor0) (ex_stream_at 250) _ _ _ _ _ _ _);
    try (vm_compute; intuition congruence).
  split; try reflexivity. vm_compute. intuition congruence.
Defined.

(** C10 (safety): on a file that ends inside the record, at any byte
    behind the xid size, a call of rcv_decode under the contract returns
    false and never throws: the caller's count is the number of bytes of
    the record that the file has, the reader holds these bytes, and the
    stream is at the end of the file with eofbit set and failbit clear. *)
Theorem rcv_decode_truncated r0 xid F p0 h s :
  rcv_pre r0 xid F p0 h s -> len F - p0 < rec_size r0 ->
  exists s', rcv_decode h s = (Ok false, s') /\ rcv_ended r0 xid F p0 s'.
Proof.
  intros Hpre HT. pose proof (rcv_decode_spec _ _ _ _ _ _ Hpre) as W.
  unfold wp, rcv_post in W. replace (_ <? _) with true in W by lia.
  destruct (rcv_decode h s) as [res s']. cbn [fst snd] in W.
  destruct W as (-> & ?). now exists s'.
Qed.

Lemma rcv_decode_truncated_witness :
  exists s', rcv_decode (_rhdr (_txn_hdr ex_rec)) (ex_rstate 100) = (Ok false, s') /\
             rcv_ended ex_rec ex_xid (slice 0 100 ex_file) 0 s'.
Proof.
  exact (rcv_decode_truncated ex_rec ex_xid (slice 0 100 ex_file) 0 _ (ex_rstate 100)
           (ex_rcv_pre 100 ltac:(lia)) ltac:(vm_compute; reflexivity)).
Defined.

(** C11 (refinement): recovery in two calls is recovery in one.  When a
    call has returned false on the file [F1], which ended inside the
    record, and the journal calls again with the reader and the count as
    that call left them and a stream that stands at the same byte of a
    file [F2] that holds the whole record, the second call has the outcome
    and leaves the reader in the state of a single call on [F2]. *)
Theorem rcv_decode_resume r0 xid F1 F2 p0 h s i2 :
  rcv_pre r0 xid F1 p0 h s -> len F1 - p0 < rec_size r0 ->
  file_holds F2 p0 (rec_image r0 xid) -> rec_size r0 <= len F2 - p0 ->
  stream_at F2 (p0 + (len F1 - p0)) i2 ->
  fst (rcv_decode h s) = Ok false /\
  let s1 := snd (rcv_decode h s) in
  exists s2, rcv_decode h (RState (rs_world s1) i2 (rs_rec_offs s1)) = (rcv_outcome r0, s2) /\
             rs_rec_offs s2 = rec_size r0 /\ decoded r0 xid (rec_size r0) (rs_world s2).
Proof.
  intros Hpre HT1 HF2 HT2 Hi2. pose proof (rcv_decode_spec _ _ _ _ _ _ Hpre) as W.
  unfold wp, rcv_post in W. replace (_ <? _) with true in W by lia. destruct W as [-> He].
  split; [reflexivity|]. cbv zeta.
  pose proof (rcv_ended_pre _ _ _ _ _ _ h _ _ _ Hpre HT1 He HF2 Hi2) as Hpre2.
  pose proof (rcv_decode_spec _ _ _ _ _ _ Hpre2) as W.
  unfold wp, rcv_post in W. replace (_ <? _) with false in W by lia.
  destruct (rcv_decode h (RState _ _ _)) as [res s2]. cbn [fst snd] in W.
  destruct W as (-> & ? & ? & _). now exists s2.
Qed.

Lemma rcv_decode_resume_witness :
  fst (rcv_decode (_rhdr (_txn_hdr ex_rec)) (ex_rstate 100)) = Ok false /\
  let s1 := snd (rcv_decode (_rhdr (_txn_hdr ex_rec)) (ex_rstate 100)) in
  exists s2, rcv_decode (_rhdr (_txn_hdr ex_rec))
               (RState (rs_world s1) (Ifstream ex_file 100 0 false false false)
                  (rs_rec_offs s1)) = (Ok true, s2) /\
             rs_rec_offs s2 = 240 /\ decoded ex_rec ex_xid 240 (rs_world s2).
Proof.
  refine (rcv_decode_resume ex_rec ex_xid (slice 0 100 ex_file) ex_file 0 _ (ex_rstate 100)
            (Ifstream ex_file 100 0 false false false)
            (ex_rcv_pre 100 ltac:(lia)) ltac:(vm_compute; reflexivity) _
            ltac:(vm_compute; discriminate) _).
  - split; [vm_compute; intuition congruence|]. vm_compute. reflexivity.
  - split; try reflexivity. vm_compute. intuition congruence.
Defined.

(** C27 (functional): the padding of the last dblk is not needed.  On a
    file that holds the whole record and ends before the end of its last
    dblk, a call of rcv_decode under the contract on a record whose tail
    belongs to its header returns true, and leaves the stream at the end
    of the file with eofbit set. *)
Theorem rcv_decode_padding_missing r0 xid F p0 h s :
  rcv_pre r0 xid F p0 h s -> txn_rec_sealed r0 ->
  rec_size r0 <= len F - p0 < rec_size r0 + rec_padding r0 ->
  fst (rcv_decode h s) = Ok true /\
  ifs_eof (rs_ifs (snd (rcv_decode h s))) = true /\
  is_pos (rs_ifs (snd (rcv_decode h s))) = len F.
Proof.
  intros Hpre Hs HT. pose proof (rcv_decode_spec _ _ _ _ _ _ Hpre) as W.
  unfold wp, rcv_post, rcv_outcome in W. replace (_ <? rec_size r0) with false in W by lia.
  destruct W as (-> & _ & _ & -> & -> & _). rewrite decide_True by assumption.
  split; [reflexivity|]. split; lia.
Qed.

Lemma rcv_decode_padding_missing_witness :
  fst (rcv_decode (_rhdr (_txn_hdr ex_rec)) (ex_rstate 240)) = Ok true /\
  ifs_eof (rs_ifs (snd (rcv_decode (_rhdr (_txn_hdr ex_rec)) (ex_rstate 240)))) = true /\
  is_pos (rs_ifs (snd (rcv_decode (_rhdr (_txn_hdr ex_rec)) (ex_rstate 240)))) = 240.
Proof.
  refine (rcv_decode_padding_missing ex_rec ex_xid (slice 0 240 ex_file) 0 _ (ex_rstate 240)
            (ex_rcv_pre 240 ltac:(lia)) _ _); vm_compute; intuition congruence.
Defined.

(** C25 (error): rcv_decode checks no header.  Whatever the header, the
    reader, the stream and the count it is called with, it throws no
    exception but JERR__MALLOC and JERR_JREC_BADRECTAIL: a header whose
    magic is not that of a transaction record is not rejected with
    JERR_JREC_BADRECHDR, as decode rejects it, and the buffer for the xid
    is allocated for it. *)
Theorem rcv_decode_throws h s e :
  fst (rcv_decode h s) = Err (Throw e) -> e = JERR__MALLOC \/ e = JERR_JREC_BADRECTAIL.
Proof. intros H. destruct (rcv_decode_throws_only h s e H) as [<-|[<-|[]]]; auto. Qed.

Lemma rcv_decode_throws_witness :
  JERR_JREC_BADRECTAIL = JERR__MALLOC \/ JERR_JREC_BADRECTAIL = JERR_JREC_BADRECTAIL.
Proof.
  exact (rcv_decode_throws (rec_hdr_init 5 2 0 7) (ex_rstate 256) JERR_JREC_BADRECTAIL
           ltac:(vm_compute; reflexivity)).
Defined.

(** The first call when the allocator has less than the xid size left. *)
Lemma rcv_decode_no_memory r0 xid F p0 h w i :
  0 <= xid_size r0 < 2 ^ 64 -> len xid = xid_size r0 ->
  file_holds F p0 (rec_image r0 xid) -> stream_at F (p0 + 16) i -> 24 <= len F - p0 ->
  heap_avail (mem w) < xid_size r0 ->
  rcv_decode h (RState w i 0)
  = (Err (Throw JERR__MALLOC),
     RState (World (mem w) (set_buff None (set_xidsize (xid_size r0)
                                             (set_rhdr (rec_hdr_copy h) (this w)))))
       (Ifstream F (p0 + 24) 8 false false false) 24).
Proof.
  intros Hxs Hlen HF Hi HT Hav. pose proof (proj1 HF) as Hp0. apply wp_eq.
  unfold rcv_decode. apply wp_get_rec_offs. cbn [rs_rec_offs Z.eqb].
  unfold rcv_first, sizeof_size_t. wnorm. eapply wp_lift; [reflexivity|].
  wnorm. eapply wp_ifsp_read; [apply (ifs_read_at _ _ _ Hi); lia | |].
  { rewrite Z.min_l, (file_holds_slice _ _ _ _ _ HF), image_xidsize by (len; lia).
    apply store_xidsize_ok. lia. }
  wnorm. apply wp_set_rec_offs. wnorm. apply wp_lift_self. wnorm.
  cbn [rs_rec_offs rs_world rs_ifs this mem]. eapply wp_lift.
  { unfold mem_malloc. cbn [rs_world mem this]. change (_xidsize _) with (xid_size r0).
    rewrite malloc_fail by lia. reflexivity. }
  wnorm. eapply wp_lift; [reflexivity|]. wnorm. eapply wp_lift_err; [reflexivity|].
  cbn [rs_rec_offs rs_world rs_ifs this mem]. rewrite Z.min_l by lia.
  replace (_ <? 8) with false by lia. replace (p0 + 16 + 8) with (p0 + 24) by lia. now split.
Qed.

(** C34 (error): when the memory left does not hold the xid, the first
    call of rcv_decode throws JERR__MALLOC behind the read of the xid
    size: the header and the xid size are stored in the object, the
    buffer is null, the heap is the one before the call, the stream
    stands behind the xid size and the caller's count is the size of the
    header. *)
Theorem rcv_decode_oom r0 xid F p0 h w i :
  0 <= xid_size r0 < 2 ^ 64 -> len xid = xid_size r0 ->
  file_holds F p0 (rec_image r0 xid) -> stream_at F (p0 + 16) i -> 24 <= len F - p0 ->
  heap_avail (mem w) < xid_size r0 ->
  rcv_decode h (RState w i 0)
  = (Err (Throw JERR__MALLOC),
     RState (World (mem w) (set_buff None (set_xidsize (xid_size r0)
                                             (set_rhdr (rec_hdr_copy h) (this w)))))
       (Ifstream F (p0 + 24) 8 false false false) 24).
Proof. exact (rcv_decode_no_memory r0 xid F p0 h w i). Qed.

Lemma rcv_decode_oom_witness :
  rcv_decode (_rhdr (_txn_hdr ex_rec))
    (RState (World (Heap (heap_cells ex_heap) 100) txn_rec_ctor0) (ex_stream_at 256) 0)
  = (Err (Throw JERR__MALLOC),
     RState (World (Heap (heap_cells ex_heap) 100)
               (set_buff None (set_xidsize 200
                  (set_rhdr (rec_hdr_copy (_rhdr (_txn_hdr ex_rec))) txn_rec_ctor0))))
       (Ifstream (slice 0 256 ex_file) 24 8 false false false) 24).
Proof.
  refine (rcv_decode_oom ex_rec ex_xid (slice 0 256 ex_file) 0 _ _ (ex_stream_at 256)
            _ eq_refl (rpre_file _ _ _ _ _ _ (ex_rcv_pre 256 ltac:(lia))) _ _ _);
    try (vm_compute; intuition congruence).
  split; try reflexivity. vm_compute. intuition congruence.
Defined.

(** C28 (bounds): the xid size is not counted.  On a file that ends inside
    the xid size, the first call of rcv_decode returns false with the
    caller's count at the size of the header, 24, although the stream has
    given fewer bytes and stands at the end of the file; the xid size of
    the reader is made of the bytes that the file had and of those that
    the object held before, and a buffer of this size is allocated. *)
Theorem rcv_decode_short_header h w i F p x :
  stream_at F p i -> len F - p < 8 ->
  x = le_combine (splice (le_split 8 (xid_size (this w))) 0 (slice p (len F - p) F)) ->
  x <= heap_avail (mem w) -> x + 40 < 2 ^ 64 ->
  exists s', rcv_decode h (RState w i 0) = (Ok false, s') /\ rs_rec_offs s' = 24 /\
             is_pos (rs_ifs s') = len F /\ xid_size (this (rs_world s')) = x.
Proof. apply rcv_decode_short. Qed.

Lemma rcv_decode_short_header_witness :
  exists s', rcv_decode (_rhdr (_txn_hdr ex_rec)) (ex_rstate 20) = (Ok false, s') /\
             rs_rec_offs s' = 24 /\ is_pos (rs_ifs s') = 20 /\
             xid_size (this (rs_world s')) = 200.
Proof.
  refine (rcv_decode_short_header _ _ (ex_stream_at 20) (slice 0 20 ex_file) 16 200
            _ _ _ _ _); try (vm_compute; intuition congruence).
  split; try reflexivity. vm_compute. intuition congruence.
Defined.

(** C29 (error): a stream that is not good.  On such a stream every read
    of rcv_decode extracts nothing, and the return for the end of the
    file decides the call, on a first call after the buffer for the xid
    size that the object held has been allocated, and on a call that
    resumes inside the record.  When the stream has met the end of the
    file the call returns false and the caller's count stands.  When it
    has not, as after an error of the device that set badbit, the call
    stops at [assert(ifsp->eof())]: no exception tells the caller that
    the record could not be read. *)
Theorem rcv_decode_failed_stream h w i t :
  ifs_good i = false -> 0 <= xid_size (this w) -> xid_size (this w) + 40 < 2 ^ 64 ->
  (if t =? 0 then xid_size (this w) <= heap_avail (mem w)
   else 24 <= t < rec_size (this w) /\
        exists b, _buff (this w) = Some b /\ valid_range (mem w) b (xid_size (this w))) ->
  fst (rcv_decode h (RState w i t)) = refused_outcome i /\
  rs_ifs (snd (rcv_decode h (RState w i t))) = refused_stream i /\
  rs_rec_offs (snd (rcv_decode h (RState w i t))) = (if t =? 0 then 24 else t).
Proof. intros Hg Hx Hw Ht. exact (rcv_decode_refused h w i t Hg Hx Hw Ht). Qed.

Lemma rcv_decode_failed_stream_witness :
  fst (rcv_decode (_rhdr (_txn_hdr ex_rec))
         (RState (World ex_heap txn_rec_ctor0) (Ifstream ex_file 16 16 false false true) 0))
  = Err AssertFail /\
  rs_ifs (snd (rcv_decode (_rhdr (_txn_hdr ex_rec))
         (RState (World ex_heap txn_rec_ctor0) (Ifstream ex_file 16 16 false false true) 0)))
  = Ifstream ex_file 16 0 false true true /\
  rs_rec_offs (snd (rcv_decode (_rhdr (_txn_hdr ex_rec))
         (RState (World ex_heap txn_rec_ctor0) (Ifstream ex_file 16 16 false false true) 0)))
  = 24.
Proof.
  apply (rcv_decode_failed_stream _ (World ex_heap txn_rec_ctor0)
           (Ifstream ex_file 16 16 false false true) 0); vm_compute; intuition congruence.
Defined.
