(* ===== verification/Driver.v ===== *)
(** * Driver: the journal's schedules of calls

    The journal drives the codec: the write manager calls encode with the
    next page and the running dblk offset of the record until the record
    is complete, and the read manager does the same with decode.  The
    managers are not part of the sources; [write_rec] and [read_rec] are
    their loops as the specification describes them, over a journal whose
    pages are laid out one behind the other at [jp] and a schedule, the
    list of the capacities in dblks that the calls are offered.

    The loops take the method they call as a parameter; their lemmas are
    proved for every [Encoder] and every [Decoder] of Codec.v, and the
    theorems at the end state them for encode and decode.

    [written] and [reading] are the invariants of the two loops, and
    [write_pre], [read_pre] and [roundtrip_pre] their contracts.  The
    theorems compose the contracts of encode and decode along a schedule:
    the writer leaves the image of the record in the journal whatever the
    schedule, as a single call does; the reader reconstructs the record
    from it whatever the schedule; the dblks returned add up to the size
    of the record; and the reader behind the writer obtains the xid that
    the writer was given.  [write_rec_interrupted] is the writer stopped
    before the end of its schedule. *)

From Stdlib Require Import ZArith Lia List.
From coqutil Require Import Byte Word.LittleEndianList.
From stdpp Require Import base option list gmap.
From S2P Require Import Prelude Memory Layout TxnRec Encode Decode Codec.

#[local] Open Scope Z_scope.
#[local] Open Scope jrnl_scope.

(** The dblks that a schedule offers. *)
Definition total_dblks (caps : list Z) : Z := foldr Z.add 0 caps.

(** The write manager: encode the record of the object into the journal
    at [jp], dblk [offs] of the record at [jp + offs * JRNL_DBLK_SIZE],
    one call for each capacity of the schedule until the record is
    complete.  The value is the dblk offset reached. *)
Fixpoint write_rec (enc : encoder) (jp : ptr) (caps : list Z) (offs : Z) : method Z :=
  match caps with
  | [] => ret offs
  | cap :: caps' =>
      r <- self ;;
      if offs <? rec_size_dblks r
      then n <- enc (Some (ptr_add jp (offs * JRNL_DBLK_SIZE))) offs cap ;;
           write_rec enc jp caps' (offs + n)
      else ret offs
  end.

(** The read manager: decode the record at [jp] into the object, the first
    call with the header [h] read off the page, one call for each
    capacity of the schedule until the record is complete. *)
Fixpoint read_rec (dec : decoder) (h : rec_hdr_t) (jp : ptr) (caps : list Z) (offs : Z)
    : method Z :=
  match caps with
  | [] => ret offs
  | cap :: caps' =>
      r <- self ;;
      if (offs =? 0) || (offs <? rec_size_dblks r)
      then n <- dec h (Some (ptr_add jp (offs * JRNL_DBLK_SIZE))) offs cap ;;
           read_rec dec h jp caps' (offs + n)
      else ret offs
  end.

(** The writer has written the record [r] with transaction id [xid] up to
    dblk [offs] into a journal of [N] dblks at [jp]: the object is [r],
    its xid is readable at [xp], and the journal holds the image of the
    record as far as written. *)
Record written (r : txn_rec) (xid : list byte) (jp xp : ptr) (N offs : Z) (w : world)
    : Prop := {
  wr_obj : this w = r;
  wr_xid : load (mem w) xp (xid_size r) = Some xid;
  wr_room : valid_range (mem w) jp (N * JRNL_DBLK_SIZE);
  wr_img : load (mem w) jp (Z.min (offs * JRNL_DBLK_SIZE) (rec_size r))
           = Some (slice 0 (offs * JRNL_DBLK_SIZE) (rec_image r xid))
}.

(** The region [q .. q+k) lies in another block than the journal at [jp],
    or below it. *)
Definition clear_of (q : ptr) (k : Z) (jp : ptr) : Prop :=
  0 <= k /\ (p_blk q <> p_blk jp \/ p_ofs q + k <= p_ofs jp).

(** The contract of the writer: the record of the object borrows a
    non-empty xid shorter than 4 GiB, readable at [xp]; the journal has
    [N] dblks below 4 GiB at [jp], which do not overlap the xid; the
    schedule offers positive capacities, enough for the record and no
    more than the journal has. *)
Record write_pre (w : world) (jp xp : ptr) (xid : list byte) (N : Z) (caps : list Z)
    : Prop := {
  wpre_xidp : _xidp (this w) = Some xp;
  wpre_xidsize : 0 < xid_size (this w) < 2 ^ 32;
  wpre_xid : load (mem w) xp (xid_size (this w)) = Some xid;
  wpre_nowrap : N * JRNL_DBLK_SIZE < 2 ^ 32;
  wpre_room : valid_range (mem w) jp (N * JRNL_DBLK_SIZE);
  wpre_disjoint : disjoint jp (N * JRNL_DBLK_SIZE) xp (xid_size (this w));
  wpre_caps : Forall (fun cap => 0 < cap) caps;
  wpre_enough : rec_size_dblks (this w) <= total_dblks caps;
  wpre_fits : total_dblks caps <= N
}.

(** The reader has read the record [r0] with transaction id [xid] up to
    dblk [offs] from the journal at [jp]: the journal holds the image of
    the record, the reader has consumed the bytes of these dblks, and its
    buffer lies in a block of its own. *)
Record reading (r0 : txn_rec) (xid : list byte) (jp : ptr) (offs : Z) (w : world) : Prop := {
  rd_img : load (mem w) jp (rec_size r0) = Some (rec_image r0 xid);
  rd_dec : decoded r0 xid (Z.min (offs * JRNL_DBLK_SIZE) (rec_size r0)) w;
  rd_apart : forall b, _buff (this w) = Some b -> p_blk b <> p_blk jp
}.

(** What the reader needs before a call at dblk [offs]: before the first,
    the image in the journal, memory for the xid and an object that owns
    no buffer; before a later one, what it has read. *)
Definition ready (r0 : txn_rec) (xid : list byte) (jp : ptr) (offs : Z) (w : world) : Prop :=
  if offs =? 0
  then load (mem w) jp (rec_size r0) = Some (rec_image r0 xid) /\
       xid_size r0 <= heap_avail (mem w) /\ _buff (this w) = None /\
       rec_tail_wf (_txn_tail (this w))
  else reading r0 xid jp offs w.

(** The contract of the reader: the journal at [jp] holds the image of the
    record [r0], whose xid is not empty and shorter than 4 GiB and fits
    the memory left; [h] is its header, which passes the header check;
    the object owns no buffer; the schedule offers positive capacities,
    enough for the record and [N] dblks at most, below 4 GiB. *)
Record read_pre (r0 : txn_rec) (xid : list byte) (jp : ptr) (N : Z) (h : rec_hdr_t)
    (caps : list Z) (w : world) : Prop := {
  rpre_xidsize : 0 < xid_size r0 < 2 ^ 32;
  rpre_xid : len xid = xid_size r0;
  rpre_tail : rec_tail_wf (_txn_tail r0);
  rpre_nowrap : N * JRNL_DBLK_SIZE < 2 ^ 32;
  rpre_hdr : h = _rhdr (_txn_hdr r0);
  rpre_magic : txn_magic (_magic h);
  rpre_version : _version h = QLS_JRNL_VERSION;
  rpre_img : load (mem w) jp (rec_size r0) = Some (rec_image r0 xid);
  rpre_avail : xid_size r0 <= heap_avail (mem w);
  rpre_fresh : _buff (this w) = None;
  rpre_obj : rec_tail_wf (_txn_tail (this w));
  rpre_caps : Forall (fun cap => 0 < cap) caps;
  rpre_enough : rec_size_dblks r0 <= total_dblks caps;
  rpre_fits : total_dblks caps <= N
}.

(** The contract of a round trip: behind the writer of the record of
    [w], a reader [rd] that owns no buffer reads the journal with a
    schedule of its own; the record passes the header check and its tail
    belongs to its header, as the constructors and reset leave it, and
    its xid fits the memory left. *)
Record roundtrip_pre (w : world) (rd : txn_rec) (N : Z) (caps : list Z) : Prop := {
  rt_tail : rec_tail_wf (_txn_tail (this w));
  rt_sealed : txn_rec_sealed (this w);
  rt_magic : txn_magic (_magic (_rhdr (_txn_hdr (this w))));
  rt_version : _version (_rhdr (_txn_hdr (this w))) = QLS_JRNL_VERSION;
  rt_avail : xid_size (this w) <= heap_avail (mem w);
  rt_fresh : _buff rd = None;
  rt_obj : rec_tail_wf (_txn_tail rd);
  rt_caps : Forall (fun cap => 0 < cap) caps;
  rt_enough : rec_size_dblks (this w) <= total_dblks caps;
  rt_fits : total_dblks caps <= N
}.

(** ** Worlds to run the schedules in

    The journal is the page of [ex_world], 4 dblks; [ex_journal] is the
    memory that the writer leaves in two calls of one dblk. *)
Definition ex_journal : heap := mem (snd (write_rec (encode None) ex_page [1; 1] 0 ex_world)).

(** ** Schedules *)

Lemma total_dblks_nonneg caps : Forall (fun cap => 0 < cap) caps -> 0 <= total_dblks caps.
Proof. unfold total_dblks. induction 1; simpl; lia. Qed.

Lemma total_dblks_app caps1 caps2 :
  total_dblks (caps1 ++ caps2) = total_dblks caps1 + total_dblks caps2.
Proof. unfold total_dblks. induction caps1; simpl; lia. Qed.

(** ** The writer *)

Section Writer.
Context (enc : encoder) `{!Encoder enc}.
Context (r : txn_rec) (xid : list byte) (jp xp : ptr) (N : Z).
Context (Hxp : _xidp r = Some xp) (Hxs : 0 < xid_size r < 2 ^ 32).
Context (HN : N * JRNL_DBLK_SIZE < 2 ^ 32).
Context (Hdis : disjoint jp (N * JRNL_DBLK_SIZE) xp (xid_size r)).

Lemma written_pre offs cap w :
  written r xid jp xp N offs w -> 0 <= offs < rec_size_dblks r -> 0 < cap -> offs + cap <= N ->
  encode_pre w (ptr_add jp (offs * JRNL_DBLK_SIZE)) xp xid offs cap.
Proof.
  intros [Ho Hx Hr Hi] Hoffs Hcap Hfit. pose proof (rec_dblks_bounds r ltac:(lia)) as [Es Hd].
  split; rewrite ?Ho; unfold JRNL_DBLK_SIZE in *; auto; try lia.
  - eapply valid_range_weaken; [exact Hr | lia ..].
  - unfold disjoint in *. simpl. lia.
Qed.

(** One call of the schedule. *)
Lemma write_step offs cap w :
  written r xid jp xp N offs w -> 0 <= offs < rec_size_dblks r -> 0 < cap -> offs + cap <= N ->
  exists w', enc (Some (ptr_add jp (offs * JRNL_DBLK_SIZE))) offs cap w
             = (Ok (encode_dblks r offs cap), w') /\
             written r xid jp xp N (offs + encode_dblks r offs cap) w'.
Proof.
  intros Hw Hoffs Hcap Hfit. pose proof (written_pre _ _ _ Hw Hoffs Hcap Hfit) as Hpre.
  destruct (encoder_run _ _ _ _ _ _ Hpre) as (fill & h & Hlen & Hs & E).
  destruct Hw as [Ho Hx Hr Hi]. rewrite Ho in *. exists (World h r). split; [exact E|].
  pose proof (rec_dblks_bounds r ltac:(lia)) as [Es Hd]. pose proof (len_nonneg fill).
  pose proof (load_len _ _ _ _ Hx) as Hlx. unfold JRNL_DBLK_SIZE in *.
  assert (Hli : len (rec_image r xid) = rec_size r) by (rewrite len_rec_image; lia).
  rewrite Z.min_l in Hi by lia. pose proof (load_store_extend _ _ _ _ _ _ Hi Hs) as Hl.
  unfold encode_len, encode_dblks, rec_size_dblks, JRNL_DBLK_SIZE in *.
  remember (Z.min (cap * 128) (rec_size r - offs * 128)) as L eqn:EL.
  rewrite len_app, len_slice_in in Hl by lia.
  split; cbn [mem this]; unfold JRNL_DBLK_SIZE;
    [reflexivity | | eapply store_valid_range; eassumption |].
  - rewrite <- Hx. eapply load_store_other; [exact Hs | | lia].
    rewrite len_app, len_slice_in by lia. unfold disjoint in *. simpl. lia.
  - assert (HL : Z.min ((offs + Z.min cap (size_dblks (rec_size r) - offs)) * 128) (rec_size r)
                 = offs * 128 + L) by lia.
    rewrite app_assoc, slice_cat in Hl by lia.
    rewrite HL, (load_prefix _ _ _ _ (offs * 128 + L) Hl) by lia. f_equal.
    rewrite slice_app, (slice_nil _ _ fill), app_nil_r, slice_all by (rewrite ?len_slice_in; lia).
    apply slice_clamp_eq; lia.
Qed.

(** One call changes nothing outside the dblks that it is offered. *)
Lemma write_step_apart offs cap w q k :
  written r xid jp xp N offs w -> 0 <= offs < rec_size_dblks r -> 0 < cap -> offs + cap <= N ->
  0 <= k -> disjoint (ptr_add jp (offs * JRNL_DBLK_SIZE)) (cap * JRNL_DBLK_SIZE) q k ->
  load (mem (snd (enc (Some (ptr_add jp (offs * JRNL_DBLK_SIZE))) offs cap w))) q k
  = load (mem w) q k.
Proof.
  intros Hw Hoffs Hcap Hfit Hk Hq. pose proof (written_pre _ _ _ Hw Hoffs Hcap Hfit) as Hpre.
  destruct (encoder_run _ _ _ _ _ _ Hpre) as (fill & h & Hlen & Hs & ->). cbn [snd mem].
  eapply load_store_other; [exact Hs | | exact Hk].
  pose proof (len_nonneg fill). pose proof (pre_inside _ _ _ _ _ _ Hpre).
  rewrite len_app, len_slice by (consts; lia).
  unfold disjoint, encode_len in *. consts. simpl in *. lia.
Qed.

(** The schedule, from the dblk it has reached. *)
Lemma write_rec_spec caps : forall offs w,
  written r xid jp xp N offs w -> Forall (fun cap => 0 < cap) caps ->
  0 <= offs <= rec_size_dblks r -> rec_size_dblks r <= offs + total_dblks caps ->
  offs + total_dblks caps <= N ->
  exists w', write_rec enc jp caps offs w = (Ok (rec_size_dblks r), w') /\
             written r xid jp xp N (rec_size_dblks r) w'.
Proof.
  induction caps as [|cap caps IH]; intros offs w Hw Hc Ho He Hf; cbn [total_dblks foldr] in *.
  - exists w. replace (rec_size_dblks r) with offs by lia. now split.
  - apply Forall_cons in Hc as [Hcap Hc]. fold (total_dblks caps) in *.
    pose proof (total_dblks_nonneg _ Hc) as Hnn.
    cbn [write_rec]. unfold bind at 1, self. rewrite (wr_obj _ _ _ _ _ _ _ Hw).
    destruct (Z.ltb_spec offs (rec_size_dblks r)) as [Hlt|Hge].
    + destruct (write_step offs cap w Hw ltac:(lia) Hcap ltac:(lia)) as (w1 & E & Hw1).
      rewrite (bind_ok _ _ _ _ _ E). unfold encode_dblks in *. fold (rec_size_dblks r) in *.
      apply IH; auto; lia.
    + exists w. replace (rec_size_dblks r) with offs by lia. now split.
Qed.

(** A schedule that offers no more than the record needs is used up: the
    writer reaches the dblk that it offers. *)
Lemma write_rec_prefix caps : forall offs w,
  written r xid jp xp N offs w -> Forall (fun cap => 0 < cap) caps ->
  0 <= offs -> offs + total_dblks caps <= rec_size_dblks r -> offs + total_dblks caps <= N ->
  exists w', write_rec enc jp caps offs w = (Ok (offs + total_dblks caps), w') /\
             written r xid jp xp N (offs + total_dblks caps) w'.
Proof.
  induction caps as [|cap caps IH]; intros offs w Hw Hc Ho He Hf; cbn [total_dblks foldr] in *.
  - exists w. rewrite Z.add_0_r. now split.
  - apply Forall_cons in Hc as [Hcap Hc]. fold (total_dblks caps) in *.
    pose proof (total_dblks_nonneg _ Hc) as Hnn.
    cbn [write_rec]. unfold bind at 1, self. rewrite (wr_obj _ _ _ _ _ _ _ Hw).
    replace (_ <? _) with true by lia.
    destruct (write_step offs cap w Hw ltac:(lia) Hcap ltac:(lia)) as (w1 & E & Hw1).
    rewrite (bind_ok _ _ _ _ _ E). unfold encode_dblks in *. fold (rec_size_dblks r) in *.
    rewrite Z.min_l in * by lia. rewrite Z.add_assoc. apply IH; auto; lia.
Qed.

(** The schedule changes nothing outside the dblks that it is offered. *)
Lemma write_rec_apart caps q k : forall offs w,
  written r xid jp xp N offs w -> Forall (fun cap => 0 < cap) caps ->
  0 <= offs <= rec_size_dblks r -> offs + total_dblks caps <= N -> 0 <= k ->
  disjoint jp ((offs + total_dblks caps) * JRNL_DBLK_SIZE) q k ->
  load (mem (snd (write_rec enc jp caps offs w))) q k = load (mem w) q k.
Proof.
  induction caps as [|cap caps IH]; intros offs w Hw Hc Ho Hf Hk Hq; cbn [total_dblks foldr] in *;
    [reflexivity|].
  apply Forall_cons in Hc as [Hcap Hc]. fold (total_dblks caps) in *.
  pose proof (total_dblks_nonneg _ Hc) as Hnn.
  cbn [write_rec]. unfold bind at 1, self. rewrite (wr_obj _ _ _ _ _ _ _ Hw).
  destruct (Z.ltb_spec offs (rec_size_dblks r)) as [Hlt|Hge]; [|reflexivity].
  assert (Hq1 : disjoint (ptr_add jp (offs * JRNL_DBLK_SIZE)) (cap * JRNL_DBLK_SIZE) q k)
    by (unfold disjoint in *; consts; simpl; lia).
  pose proof (write_step_apart offs cap w q k Hw ltac:(lia) Hcap ltac:(lia) Hk Hq1) as Hfr.
  destruct (write_step offs cap w Hw ltac:(lia) Hcap ltac:(lia)) as (w1 & E & Hw1).
  rewrite E in Hfr. rewrite (bind_ok _ _ _ _ _ E), <- Hfr.
  unfold encode_dblks in *. fold (rec_size_dblks r) in *. apply IH; auto; try lia.
  unfold disjoint in *. consts. lia.
Qed.

(** The schedule changes nothing below the journal or in another block. *)
Lemma write_rec_frame caps q k offs w :
  written r xid jp xp N offs w -> Forall (fun cap => 0 < cap) caps ->
  0 <= offs <= rec_size_dblks r -> offs + total_dblks caps <= N -> clear_of q k jp ->
  load (mem (snd (write_rec enc jp caps offs w))) q k = load (mem w) q k.
Proof.
  intros Hw Hc Ho Hf [Hk Hq]. apply write_rec_apart; auto.
  unfold disjoint. destruct Hq; [left; congruence | right; right; assumption].
Qed.

(** No call is made behind the one that completes the record. *)
Lemma write_rec_app caps1 caps2 : forall offs w,
  written r xid jp xp N offs w -> Forall (fun cap => 0 < cap) caps1 ->
  0 <= offs <= rec_size_dblks r -> rec_size_dblks r <= offs + total_dblks caps1 ->
  offs + total_dblks caps1 <= N ->
  write_rec enc jp (caps1 ++ caps2) offs w = write_rec enc jp caps1 offs w.
Proof.
  induction caps1 as [|cap caps IH]; intros offs w Hw Hc Ho He Hf; unfold total_dblks in *;
    simpl in He, Hf.
  - cbn [app write_rec]. destruct caps2 as [|cap2 caps2]; [reflexivity|]. cbn [write_rec].
    unfold bind, self. rewrite (wr_obj _ _ _ _ _ _ _ Hw). now replace (_ <? _) with false by lia.
  - fold (total_dblks caps) in *. apply Forall_cons in Hc as [Hcap Hc].
    pose proof (total_dblks_nonneg _ Hc) as Hnn. cbn [app write_rec].
    unfold bind at 1 3, self. rewrite (wr_obj _ _ _ _ _ _ _ Hw).
    destruct (Z.ltb_spec offs (rec_size_dblks r)) as [Hlt|Hge]; [|reflexivity].
    destruct (write_step offs cap w Hw ltac:(lia) Hcap ltac:(lia)) as (w1 & E & Hw1).
    rewrite !(bind_ok _ _ _ _ _ E). unfold encode_dblks in *. fold (rec_size_dblks r) in *.
    apply IH; auto; lia.
Qed.

End Writer.

(** ** The reader *)

Section Reader.
Context (dec : decoder) `{!Decoder dec}.
Context (r0 : txn_rec) (xid : list byte) (jp : ptr) (N : Z) (h : rec_hdr_t).
Context (Hxs : 0 < xid_size r0 < 2 ^ 32) (Hlen : len xid = xid_size r0).
Context (Ht0 : rec_tail_wf (_txn_tail r0)) (HN : N * JRNL_DBLK_SIZE < 2 ^ 32).
Context (Hh : h = _rhdr (_txn_hdr r0)).
Context (Hmagic : txn_magic (_magic h)) (Hver : _version h = QLS_JRNL_VERSION).

(** The bytes consumed behind a call at dblk [offs]. *)
Lemma consumed_dblks offs cap :
  0 <= offs < rec_size_dblks r0 -> 0 < cap ->
  offs * JRNL_DBLK_SIZE + encode_len r0 offs cap
  = Z.min ((offs + encode_dblks r0 offs cap) * JRNL_DBLK_SIZE) (rec_size r0).
Proof.
  intros Ho Hc. pose proof (rec_dblks_bounds r0 ltac:(lia)) as [Es Hd].
  unfold encode_len, encode_dblks, rec_size_dblks, JRNL_DBLK_SIZE in *. lia.
Qed.

(** One call of the schedule within the contract of decode. *)
Lemma read_call offs cap w :
  decode_pre r0 xid w h (ptr_add jp (offs * JRNL_DBLK_SIZE)) offs cap ->
  load (mem w) jp (rec_size r0) = Some (rec_image r0 xid) ->
  (forall b, _buff (this w) = Some b -> p_blk b <> p_blk jp) ->
  offs < rec_size_dblks r0 ->
  exists w', dec h (Some (ptr_add jp (offs * JRNL_DBLK_SIZE))) offs cap w
             = (decode_outcome r0 offs cap, w') /\
             reading r0 xid jp (offs + encode_dblks r0 offs cap) w'.
Proof.
  intros Hpre Hi Hap Ho.
  destruct (decoder_step _ _ _ _ _ _ _ _ _ Hpre (load_is_valid _ _ _ _ Hi) Hap)
    as (w' & E & Hd & Hl & Hap').
  exists w'. split; [exact E|]. split; [congruence | | exact Hap'].
  rewrite <- consumed_dblks; [exact Hd | |]; destruct Hpre; lia.
Qed.

(** The page of a call holds its chunk of the image. *)
Lemma journal_page offs cap w :
  load (mem w) jp (rec_size r0) = Some (rec_image r0 xid) ->
  0 <= offs -> 0 < cap -> offs * JRNL_DBLK_SIZE < rec_size r0 ->
  load (mem w) (ptr_add jp (offs * JRNL_DBLK_SIZE)) (encode_len r0 offs cap)
  = Some (slice (offs * JRNL_DBLK_SIZE) (encode_len r0 offs cap) (rec_image r0 xid)).
Proof.
  intros Hi Ho Hc Hin. eapply load_sub; [exact Hi | | |];
    unfold encode_len, JRNL_DBLK_SIZE in *; lia.
Qed.

(** A call that continues. *)
Lemma read_step offs cap w :
  reading r0 xid jp offs w -> 0 < offs < rec_size_dblks r0 -> 0 < cap -> offs + cap <= N ->
  exists w', dec h (Some (ptr_add jp (offs * JRNL_DBLK_SIZE))) offs cap w
             = (decode_outcome r0 offs cap, w') /\
             reading r0 xid jp (offs + encode_dblks r0 offs cap) w'.
Proof.
  intros [Hi Hd Hap] Ho Hc Hf. pose proof (rec_dblks_bounds r0 ltac:(lia)) as [Es Hs].
  assert (Hin : offs * JRNL_DBLK_SIZE < rec_size r0) by (unfold JRNL_DBLK_SIZE in *; lia).
  apply read_call; auto; [|lia]. split; auto; try (unfold JRNL_DBLK_SIZE in *; lia).
  - apply journal_page; auto; lia.
  - destruct (Z.eqb_spec offs 0); [lia|]. rewrite Z.min_l in Hd by lia. split; [exact Hd|].
    intros b Hb. left. exact (Hap b Hb).
Qed.

(** The first call. *)
Lemma read_first cap w :
  load (mem w) jp (rec_size r0) = Some (rec_image r0 xid) ->
  xid_size r0 <= heap_avail (mem w) -> _buff (this w) = None ->
  rec_tail_wf (_txn_tail (this w)) -> 0 < cap <= N ->
  exists w', dec h (Some (ptr_add jp (0 * JRNL_DBLK_SIZE))) 0 cap w
             = (decode_outcome r0 0 cap, w') /\
             reading r0 xid jp (0 + encode_dblks r0 0 cap) w'.
Proof.
  intros Hi Hav Hb Htw Hc. pose proof (rec_dblks_bounds r0 ltac:(lia)) as [Es Hs].
  apply read_call; auto; [| congruence | unfold JRNL_DBLK_SIZE in *; lia].
  split; auto; try (unfold JRNL_DBLK_SIZE in *; lia).
  - apply journal_page; auto; lia.
  - cbn [Z.eqb]. auto.
Qed.

(** A call of the schedule, the first or a later one. *)
Lemma read_any offs cap w :
  ready r0 xid jp offs w -> 0 <= offs < rec_size_dblks r0 -> 0 < cap -> offs + cap <= N ->
  exists w', dec h (Some (ptr_add jp (offs * JRNL_DBLK_SIZE))) offs cap w
             = (decode_outcome r0 offs cap, w') /\
             reading r0 xid jp (offs + encode_dblks r0 offs cap) w'.
Proof.
  unfold ready. intros Hr Ho Hc Hf. destruct (Z.eqb_spec offs 0) as [->|Hne].
  - destruct Hr as (? & ? & ? & ?). apply read_first; auto; lia.
  - apply read_step; auto; lia.
Qed.

(** The test of the loop. *)
Lemma read_more offs w :
  ready r0 xid jp offs w -> 0 <= offs ->
  (offs =? 0) || (offs <? rec_size_dblks (this w)) = (offs <? rec_size_dblks r0).
Proof.
  unfold ready. intros Hr Ho. pose proof (rec_dblks_bounds r0 ltac:(lia)) as [Es Hs].
  unfold JRNL_DBLK_SIZE in *. destruct (Z.eqb_spec offs 0) as [->|Hne]; [simpl; symmetry; apply Z.ltb_lt; lia|].
  unfold rec_size_dblks, rec_size. now rewrite (dec_hdr _ _ _ _ (rd_dec _ _ _ _ _ Hr)).
Qed.

Lemma ready_next offs w : reading r0 xid jp offs w -> 0 < offs -> ready r0 xid jp offs w.
Proof. unfold ready. intros Hr Ho. destruct (Z.eqb_spec offs 0); [lia | exact Hr]. Qed.

(** The dblks of a call and its outcome. *)
Lemma read_outcome offs cap :
  0 <= offs < rec_size_dblks r0 -> 0 < cap ->
  0 < encode_dblks r0 offs cap <= cap /\
  (offs + encode_dblks r0 offs cap < rec_size_dblks r0 ->
   encode_dblks r0 offs cap = cap /\
   decode_outcome r0 offs cap = Ok (encode_dblks r0 offs cap)) /\
  (rec_size_dblks r0 <= offs + encode_dblks r0 offs cap ->
   offs + encode_dblks r0 offs cap = rec_size_dblks r0 /\
   decode_outcome r0 offs cap
   = if decide (txn_rec_sealed r0) then Ok (encode_dblks r0 offs cap)
     else Err (Throw JERR_JREC_BADRECTAIL)).
Proof.
  intros Ho Hc. pose proof (rec_dblks_bounds r0 ltac:(lia)) as [Es Hs].
  unfold decode_outcome, chk_outcome, encode_dblks, rec_size_dblks, JRNL_DBLK_SIZE in *.
  split; [lia|]. split; intros Hd.
  - replace (_ <=? _) with false by lia. split; [lia | reflexivity].
  - replace (_ <=? _) with true by lia. split; [lia | reflexivity].
Qed.

(** The schedule, from the dblk it has reached. *)
Lemma read_rec_spec caps : forall offs w,
  ready r0 xid jp offs w -> Forall (fun cap => 0 < cap) caps ->
  0 <= offs <= rec_size_dblks r0 -> rec_size_dblks r0 <= offs + total_dblks caps ->
  offs + total_dblks caps <= N ->
  exists w', read_rec dec h jp caps offs w
             = (if offs <? rec_size_dblks r0 then chk_outcome r0 (rec_size_dblks r0)
                else Ok (rec_size_dblks r0), w') /\
             reading r0 xid jp (rec_size_dblks r0) w'.
Proof.
  pose proof (rec_dblks_bounds r0 ltac:(lia)) as [Es Hs]. unfold JRNL_DBLK_SIZE in Hs.
  assert (Hstop : forall offs w, ready r0 xid jp offs w -> 0 <= offs -> ~ offs < rec_size_dblks r0 ->
            reading r0 xid jp offs w).
  { unfold ready. intros offs w Hr ? ?. destruct (Z.eqb_spec offs 0); [lia | exact Hr]. }
  induction caps as [|cap caps IH]; intros offs w Hr Hc Ho He Hf; unfold total_dblks in *;
    simpl in He, Hf.
  - assert (offs = rec_size_dblks r0) as -> by lia. rewrite Z.ltb_irrefl.
    exists w. split; [reflexivity|]. apply Hstop; auto; lia.
  - fold (total_dblks caps) in *.
    apply Forall_cons in Hc as [Hcap Hc]. pose proof (total_dblks_nonneg _ Hc) as Hnn.
    cbn [read_rec]. unfold bind at 1, self. rewrite (read_more _ _ Hr) by lia.
    destruct (Z.ltb_spec offs (rec_size_dblks r0)) as [Hlt|Hge].
    + destruct (read_any offs cap w Hr ltac:(lia) Hcap ltac:(lia)) as (w1 & E & Hr1).
      destruct (read_outcome offs cap ltac:(lia) Hcap) as (Hn & Hmore & Hdone).
      destruct (Z.lt_ge_cases (offs + encode_dblks r0 offs cap) (rec_size_dblks r0)) as [Hm|Hd].
      * destruct (Hmore Hm) as [En Eout]. rewrite Eout in E. rewrite (bind_ok _ _ _ _ _ E).
        destruct (IH _ w1 (ready_next _ _ Hr1 ltac:(lia)) Hc ltac:(lia) ltac:(lia) ltac:(lia))
          as (w' & E' & Hr'). exists w'. rewrite E'. replace (_ <? _) with true by lia. auto.
      * destruct (Hdone Hd) as [Ed Eout]. rewrite Eout in E. rewrite Ed in *.
        unfold chk_outcome. case_decide.
        -- rewrite (bind_ok _ _ _ _ _ E), Ed.
           destruct (IH _ w1 (ready_next _ _ Hr1 ltac:(lia)) Hc ltac:(lia) ltac:(lia) ltac:(lia))
             as (w' & E' & Hr'). exists w'. rewrite E', Z.ltb_irrefl. auto.
        -- rewrite (bind_err _ _ _ _ _ E). eauto.
    + assert (offs = rec_size_dblks r0) as -> by lia. exists w. split; [reflexivity|].
      apply Hstop; auto; lia.
Qed.

End Reader.

(** ** The schedules under their contracts *)

Section Contracts.
Context (enc : encoder) `{!Encoder enc} (dec : decoder) `{!Decoder dec}.

Lemma stable_write_rec jp caps : forall offs, stable same_obj (write_rec enc jp caps offs).
Proof.
  induction caps as [|cap caps IH]; intros offs; cbn [write_rec]; stable_auto;
    first [apply encoder_const | apply IH].
Qed.

(** Under the contract, the writer starts with nothing written. *)
Lemma written_init w jp xp xid N caps :
  write_pre w jp xp xid N caps -> written (this w) xid jp xp N 0 w.
Proof.
  intros [Hxp Hxs Hx HN Hr Hd Hc He Hf]. pose proof (total_dblks_nonneg _ Hc).
  split; auto. rewrite Z.min_l, slice_nil by (unfold rec_size; cast_lia). apply load_nil.
  rewrite <- (ptr_add_0 jp). eapply valid_range_weaken; [exact Hr | unfold JRNL_DBLK_SIZE in *; lia ..].
Qed.

(** The writer under its contract. *)
Lemma write_rec_run w jp xp xid N caps :
  write_pre w jp xp xid N caps ->
  exists w', write_rec enc jp caps 0 w = (Ok (rec_size_dblks (this w)), w') /\
             written (this w) xid jp xp N (rec_size_dblks (this w)) w'.
Proof.
  intros Hpre. pose proof (written_init _ _ _ _ _ _ Hpre) as Hw.
  destruct Hpre as [Hxp Hxs Hx HN Hr Hd Hc He Hf].
  destruct (rec_dblks_bounds (this w) ltac:(lia)) as [Es Hs].
  apply (write_rec_spec enc (this w) xid jp xp N Hxp Hxs HN Hd); auto; lia.
Qed.

(** The writer under its contract changes nothing below the journal or in
    another block. *)
Lemma write_rec_below w jp xp xid N caps q k :
  write_pre w jp xp xid N caps -> clear_of q k jp ->
  load (mem (snd (write_rec enc jp caps 0 w))) q k = load (mem w) q k.
Proof.
  intros Hpre Hq. pose proof (written_init _ _ _ _ _ _ Hpre) as Hw.
  destruct Hpre as [Hxp Hxs Hx HN Hr Hd Hc He Hf].
  destruct (rec_dblks_bounds (this w) ltac:(lia)) as [Es Hs].
  apply (write_rec_frame enc (this w) xid jp xp N Hxp Hxs HN Hd); auto; lia.
Qed.

(** The writer makes no call behind its schedule. *)
Lemma write_rec_more w jp xp xid N caps more :
  write_pre w jp xp xid N caps ->
  write_rec enc jp (caps ++ more) 0 w = write_rec enc jp caps 0 w.
Proof.
  intros Hpre. pose proof (written_init _ _ _ _ _ _ Hpre) as Hw.
  destruct Hpre as [Hxp Hxs Hx HN Hr Hd Hc He Hf].
  destruct (rec_dblks_bounds (this w) ltac:(lia)) as [Es Hs].
  apply (write_rec_app enc (this w) xid jp xp N Hxp Hxs HN Hd); auto; lia.
Qed.

(** A writer that is stopped behind the calls of [caps], before the
    record is complete: it has written the dblks that these calls were
    offered, and what lies outside them is as it was. *)
Lemma write_rec_interrupted w jp xp xid N caps more :
  write_pre w jp xp xid N (caps ++ more) -> total_dblks caps <= rec_size_dblks (this w) ->
  exists w', write_rec enc jp caps 0 w = (Ok (total_dblks caps), w') /\
             written (this w) xid jp xp N (total_dblks caps) w' /\
             forall q k, 0 <= k -> disjoint jp (total_dblks caps * JRNL_DBLK_SIZE) q k ->
                         load (mem w') q k = load (mem w) q k.
Proof.
  intros Hpre Hle. pose proof (written_init _ _ _ _ _ _ Hpre) as Hw.
  destruct Hpre as [Hxp Hxs Hx HN Hr Hd Hc He Hf]. apply Forall_app in Hc as [Hc Hm].
  pose proof (total_dblks_nonneg _ Hc). pose proof (total_dblks_nonneg _ Hm).
  rewrite total_dblks_app in *.
  destruct (write_rec_prefix enc (this w) xid jp xp N Hxp Hxs HN Hd caps 0 w) as (w' & E & Hw');
    auto; try lia.
  exists w'. split; [exact E|]. split; [exact Hw'|]. intros q k Hk Hq.
  pose proof (write_rec_apart enc (this w) xid jp xp N Hxp Hxs HN Hd caps q k 0 w) as Hfr.
  rewrite E in Hfr. apply Hfr; auto; lia.
Qed.

(** The journal of a writer that has finished holds the image. *)
Lemma written_image r xid jp xp N w :
  0 < xid_size r < 2 ^ 32 -> written r xid jp xp N (rec_size_dblks r) w ->
  load (mem w) jp (rec_size r) = Some (rec_image r xid).
Proof.
  intros Hxs [_ Hx _ Hi]. destruct (rec_dblks_bounds r ltac:(lia)) as [Es Hs].
  pose proof (load_len _ _ _ _ Hx). unfold JRNL_DBLK_SIZE in *.
  rewrite Z.min_r, slice_all in Hi by (rewrite ?len_rec_image; lia). exact Hi.
Qed.

(** What the writer leaves. *)
Lemma write_rec_effect w jp xp xid N caps :
  write_pre w jp xp xid N caps ->
  exists w', write_rec enc jp caps 0 w = (Ok (rec_size_dblks (this w)), w') /\
             same_obj w w' /\ load (mem w') xp (xid_size (this w)) = Some xid /\
             load (mem w') jp (rec_size (this w)) = Some (rec_image (this w) xid).
Proof.
  intros Hpre. destruct (write_rec_run _ _ _ _ _ _ Hpre) as (w' & E & Hw). exists w'.
  split; [exact E|]. split; [|split; [exact (wr_xid _ _ _ _ _ _ _ Hw)|]].
  - pose proof (stable_write_rec jp caps 0 w) as Hst. now rewrite E in Hst.
  - eapply written_image; [exact (wpre_xidsize _ _ _ _ _ _ Hpre) | exact Hw].
Qed.

(** The reader under its contract. *)
Lemma read_rec_run r0 xid jp N h caps w :
  read_pre r0 xid jp N h caps w ->
  exists w', read_rec dec h jp caps 0 w = (chk_outcome r0 (rec_size_dblks r0), w') /\
             decoded r0 xid (rec_size r0) w'.
Proof.
  intros [Hxs Hlen Ht0 HN Hh Hm Hv Hi Hav Hb Htw Hc He Hf].
  destruct (rec_dblks_bounds r0 ltac:(lia)) as [Es Hs].
  destruct (read_rec_spec dec r0 xid jp N h Hxs Hlen Ht0 HN Hh Hm Hv caps 0 w) as (w' & E & Hr);
    auto; try lia; [unfold ready; cbn [Z.eqb]; auto|].
  exists w'. replace (0 <? _) with true in E by lia. split; [exact E|].
  destruct Hr as [_ Hd _]. unfold JRNL_DBLK_SIZE in *. rewrite Z.min_r in Hd by lia. exact Hd.
Qed.

(** The reader behind the writer is within its contract. *)
Lemma roundtrip_read_pre w jp xp xid N caps1 caps2 rd w1 :
  write_pre w jp xp xid N caps1 -> roundtrip_pre w rd N caps2 ->
  same_obj w w1 -> load (mem w1) jp (rec_size (this w)) = Some (rec_image (this w) xid) ->
  read_pre (this w) xid jp N (_rhdr (_txn_hdr (this w))) caps2 (World (mem w1) rd).
Proof.
  intros [Hxp Hxs Hx HN Hr Hd Hc He Hf] [] (_ & Hav & _) Hi.
  split; auto; cbn [mem this]; [now apply load_len in Hx | lia].
Qed.

(** The reader behind the writer. *)
Lemma roundtrip_run w jp xp xid N caps1 caps2 rd :
  write_pre w jp xp xid N caps1 -> roundtrip_pre w rd N caps2 ->
  exists w1 w2,
    write_rec enc jp caps1 0 w = (Ok (rec_size_dblks (this w)), w1) /\
    read_rec dec (_rhdr (_txn_hdr (this w))) jp caps2 0 (World (mem w1) rd)
    = (Ok (rec_size_dblks (this w)), w2) /\
    decoded (this w) xid (rec_size (this w)) w2.
Proof.
  intros Hpre Hrt. destruct (write_rec_effect _ _ _ _ _ _ Hpre) as (w1 & E1 & Hst & _ & Hi).
  pose proof (roundtrip_read_pre _ _ _ _ _ _ _ _ _ Hpre Hrt Hst Hi) as Hrp.
  destruct (read_rec_run _ _ _ _ _ _ _ Hrp) as (w2 & E2 & Hd2).
  exists w1, w2. split; [exact E1|]. unfold chk_outcome in E2.
  rewrite decide_True in E2 by apply Hrt. now split.
Qed.

End Contracts.

(** ** The properties of the schedules *)

(** C6 (functional): the writer.  Under its contract, whatever the
    schedule, the calls of encode succeed and the dblks they return add
    up to [rec_size_dblks]; the object is unchanged, no block is allocated
    or released, the xid is intact and the journal holds the image of the
    record, header, xid and tail. *)
Theorem write_rec_correct c w jp xp xid N caps :
  write_pre w jp xp xid N caps ->
  exists w', write_rec (encode c) jp caps 0 w = (Ok (rec_size_dblks (this w)), w') /\
             same_obj w w' /\ load (mem w') xp (xid_size (this w)) = Some xid /\
             load (mem w') jp (rec_size (this w)) = Some (rec_image (this w) xid).
Proof. apply write_rec_effect, _. Qed.

(** The writer stops at the end of the record.  Under
    its contract for a schedule, the writer makes no call for the
    capacities that follow the schedule: the outcome and the memory are
    those of the schedule alone, whatever follows it. *)
Theorem write_rec_stops c w jp xp xid N caps more :
  write_pre w jp xp xid N caps ->
  write_rec (encode c) jp (caps ++ more) 0 w = write_rec (encode c) jp caps 0 w.
Proof. apply write_rec_more, _. Qed.

Lemma ex_write_pre caps :
  Forall (fun cap => 0 < cap) caps -> 2 <= total_dblks caps <= 4 ->
  write_pre ex_world ex_page ex_xidp ex_xid 4 caps.
Proof.
  intros Hc Ht. split; auto; try lia; try (vm_compute; intuition congruence).
  - exists (replicate 512 Byte.xff). vm_compute. intuition congruence.
  - change (rec_size_dblks (this ex_world)) with 2. lia.
Defined.

Lemma write_rec_correct_witness :
  exists w', write_rec (encode None) ex_page [1; 3] 0 ex_world = (Ok 2, w') /\
             same_obj ex_world w' /\ load (mem w') ex_xidp 200 = Some ex_xid /\
             load (mem w') ex_page 240 = Some (rec_image ex_rec ex_xid).
Proof.
  refine (write_rec_correct None ex_world ex_page ex_xidp ex_xid 4 [1; 3] (ex_write_pre _ _ _));
    [repeat constructor | vm_compute; intuition congruence].
Defined.

Lemma write_rec_stops_witness :
  write_rec (encode None) ex_page ([1; 1] ++ [0; 5]) 0 ex_world
  = write_rec (encode None) ex_page [1; 1] 0 ex_world.
Proof.
  refine (write_rec_stops None ex_world ex_page ex_xidp ex_xid 4 [1; 1] [0; 5] (ex_write_pre _ _ _));
    [repeat constructor | vm_compute; intuition congruence].
Defined.

(** The contract of the writer holds for the schedule of one call. *)
Lemma write_pre_single w jp xp xid N caps :
  write_pre w jp xp xid N caps -> write_pre w jp xp xid N [rec_size_dblks (this w)].
Proof.
  intros [Hxp Hxs Hx HN Hr Hd Hc He Hf]. destruct (rec_dblks_bounds (this w) ltac:(lia)).
  split; auto; unfold total_dblks; simpl; try lia. repeat constructor. lia.
Qed.

(** C8 (equivalence): a record written in several calls is the record
    written in one.  Under the contract of the writer, the journal reads
    the same over the bytes of the record after the calls of a schedule
    as after the single call of encode at dblk 0 with room for the whole
    record, and the dblks returned add up to those of the single call. *)
Theorem write_rec_split c w jp xp xid N caps :
  write_pre w jp xp xid N caps ->
  fst (write_rec (encode c) jp caps 0 w)
  = fst (encode c (Some jp) 0 (rec_size_dblks (this w)) w) /\
  load (mem (snd (write_rec (encode c) jp caps 0 w))) jp (rec_size (this w))
  = load (mem (snd (encode c (Some jp) 0 (rec_size_dblks (this w)) w))) jp (rec_size (this w)).
Proof.
  intros Hpre. pose proof (wpre_xidsize _ _ _ _ _ _ Hpre) as Hxs.
  destruct (write_rec_run (encode c) _ _ _ _ _ _ Hpre) as (w1 & E1 & Hw1).
  destruct (write_rec_run (encode c) _ _ _ _ _ _ (write_pre_single _ _ _ _ _ _ Hpre))
    as (w2 & E2 & Hw2).
  destruct (rec_dblks_bounds (this w) ltac:(lia)) as [Es Hs].
  cbn [write_rec] in E2. unfold bind at 1, self in E2.
  replace (0 <? _) with true in E2 by lia. change (0 * JRNL_DBLK_SIZE) with 0 in E2.
  rewrite ptr_add_0 in E2. unfold bind in E2.
  destruct (encode c (Some jp) 0 _ w) as [[n|f] w'] eqn:E; [|discriminate E2].
  cbn [write_rec] in E2. injection E2 as En Ew. subst w2. rewrite E1. cbn [fst snd].
  split; [f_equal; lia|].
  now rewrite (written_image _ _ _ _ _ _ Hxs Hw1), (written_image _ _ _ _ _ _ Hxs Hw2).
Qed.

Lemma write_rec_split_witness :
  fst (write_rec (encode None) ex_page [1; 1] 0 ex_world)
  = fst (encode None (Some ex_page) 0 2 ex_world) /\
  load ex_journal ex_page 240
  = load (mem (snd (encode None (Some ex_page) 0 2 ex_world))) ex_page 240.
Proof.
  refine (write_rec_split None ex_world ex_page ex_xidp ex_xid 4 [1; 1] (ex_write_pre _ _ _));
    [repeat constructor | vm_compute; intuition congruence].
Defined.

(** C7 (functional): the reader.  Under its contract, whatever the
    schedule, the calls of decode return dblks that add up to
    [rec_size_dblks] when the tail of the record belongs to its header,
    and the last call throws JERR_JREC_BADRECTAIL otherwise.  In both
    cases the object holds the header and the tail of the record, and
    get_xid yields a buffer of the size of the xid that holds the xid. *)
Theorem read_rec_correct r0 xid jp N h caps w :
  read_pre r0 xid jp N h caps w ->
  exists w', read_rec decode h jp caps 0 w = (chk_outcome r0 (rec_size_dblks r0), w') /\
             _txn_hdr (this w') = _txn_hdr r0 /\ _txn_tail (this w') = _txn_tail r0 /\
             exists b, get_xid w' = (Ok (Some b, xid_size r0), w') /\
                       load (mem w') b (xid_size r0) = Some xid.
Proof.
  intros Hpre. destruct (read_rec_run decode _ _ _ _ _ _ _ Hpre) as (w' & E & Hd). exists w'.
  split; [exact E|]. destruct Hpre. now apply decoded_complete.
Qed.

Lemma ex_read_pre caps :
  Forall (fun cap => 0 < cap) caps -> 2 <= total_dblks caps <= 4 ->
  read_pre ex_rec ex_xid ex_page 4 (_rhdr (_txn_hdr ex_rec)) caps (World ex_journal txn_rec_ctor0).
Proof.
  intros Hc Ht. split; auto; try lia; try (vm_compute; intuition congruence).
  change (rec_size_dblks ex_rec) with 2. lia.
Defined.

Lemma read_rec_correct_witness :
  exists w', read_rec decode (_rhdr (_txn_hdr ex_rec)) ex_page [2] 0
               (World ex_journal txn_rec_ctor0) = (Ok 2, w') /\
             _txn_hdr (this w') = _txn_hdr ex_rec /\ _txn_tail (this w') = _txn_tail ex_rec /\
             exists b, get_xid w' = (Ok (Some b, 200), w') /\ load (mem w') b 200 = Some ex_xid.
Proof.
  refine (read_rec_correct ex_rec ex_xid ex_page 4 _ [2] _ (ex_read_pre _ _ _));
    [repeat constructor | vm_compute; intuition congruence].
Defined.

(** C5 (roundtrip): what the writer encodes, the reader decodes.  A
    record that passes the header check, written under the contract of
    the writer with one schedule, is read from the journal with any other
    schedule by an object that owns no buffer: the calls of decode return
    [rec_size_dblks] dblks in all, the reader has the header and the tail
    of the writer, and get_xid yields a buffer that holds the xid. *)
Theorem write_read_roundtrip c w jp xp xid N caps1 caps2 rd :
  write_pre w jp xp xid N caps1 -> roundtrip_pre w rd N caps2 ->
  exists w1 w2,
    write_rec (encode c) jp caps1 0 w = (Ok (rec_size_dblks (this w)), w1) /\
    read_rec decode (_rhdr (_txn_hdr (this w))) jp caps2 0 (World (mem w1) rd)
    = (Ok (rec_size_dblks (this w)), w2) /\
    _txn_hdr (this w2) = _txn_hdr (this w) /\ _txn_tail (this w2) = _txn_tail (this w) /\
    exists b, get_xid w2 = (Ok (Some b, xid_size (this w)), w2) /\
              load (mem w2) b (xid_size (this w)) = Some xid.
Proof.
  intros Hpre Hrt.
  destruct (roundtrip_run (encode c) decode _ _ _ _ _ _ _ _ Hpre Hrt) as (w1 & w2 & E1 & E2 & Hd).
  exists w1, w2. split; [exact E1|]. split; [exact E2|].
  destruct Hpre, Hrt. apply decoded_complete; auto. now apply load_len in wpre_xid0.
Qed.

Lemma write_read_roundtrip_witness :
  exists w1 w2,
    write_rec (encode None) ex_page [1; 1] 0 ex_world = (Ok 2, w1) /\
    read_rec decode (_rhdr (_txn_hdr ex_rec)) ex_page [2] 0 (World (mem w1) txn_rec_ctor0)
    = (Ok 2, w2) /\
    _txn_hdr (this w2) = _txn_hdr ex_rec /\ _txn_tail (this w2) = _txn_tail ex_rec /\
    exists b, get_xid w2 = (Ok (Some b, 200), w2) /\ load (mem w2) b 200 = Some ex_xid.
Proof.
  refine (write_read_roundtrip None ex_world ex_page ex_xidp ex_xid 4 [1; 1] [2] txn_rec_ctor0
            (ex_write_pre _ _ _) _); [repeat constructor | vm_compute; intuition congruence |].
  split; try (vm_compute; intuition congruence). repeat constructor.
Defined.
