(* ===== verification/Journal.v ===== *)
(** * Journal: from the pages to the file

    The pages that the write manager fills are written out to the journal
    file, and at restart the recovery manager reads the file back through
    a stream: behind the generic header of a transaction record it calls
    rcv_decode.  This file composes the writer of Driver.v with the
    recovery of Recover.v over the bytes that the two share.

    [journal_file] says that a file holds, behind its first [p0] bytes,
    the bytes of the journal from its first page on; [recover_pre] is what
    recovery needs of the record that was written and of the process that
    recovers it; [tail_flip] is the corruption of one bit of a field of
    the tail that chk_tail looks at; [torn_image] is what a journal holds
    where a write was stopped behind some dblks of a record.

    The theorems: a record written under the contract of the writer, with
    any schedule, is recovered from the file in one call of rcv_decode,
    which yields the header, the tail and the xid of the writer; a
    record whose tail differs from the one written by one bit of the
    complemented magic or of the rid is refused by rcv_decode with
    JERR_JREC_BADRECTAIL; and a record whose writer was stopped inside
    the xid is judged by the bytes that the journal held before at the
    place of the tail: refused with JERR_JREC_BADRECTAIL unless they are
    the tail of its header. *)

From Stdlib Require Import ZArith Lia List.
From coqutil Require Import Byte Word.LittleEndianList.
From stdpp Require Import base option list gmap.
From S2P Require Import Prelude Memory Layout Stream TxnRec Encode Decode Codec Recover Driver.

#[local] Open Scope Z_scope.
#[local] Open Scope jrnl_scope.

(** The file [F] holds, from position [p0] to its end, the bytes of the
    journal at [jp]; what precedes [p0] (a file header, earlier records)
    is not constrained. *)
Definition journal_file (h : heap) (jp : ptr) (p0 : Z) (F : list byte) : Prop :=
  0 <= p0 <= len F /\ load h jp (len F - p0) = Some (slice p0 (len F - p0) F).

(** What recovery needs behind the writer of the record of [w]: the tail
    of the record belongs to its header, as the constructors and reset
    leave it; the file has the whole record; the stream stands behind the
    generic header, which the recovery manager has read; the xid fits the
    memory [hp] of the recovering process, whose object [rd] holds a tail
    of its type. *)
Record recover_pre (w : world) (F : list byte) (p0 : Z) (hp : heap) (rd : txn_rec)
    (i : ifstream) : Prop := {
  rc_tail : rec_tail_wf (_txn_tail (this w));
  rc_sealed : txn_rec_sealed (this w);
  rc_whole : rec_size (this w) <= len F - p0;
  rc_stream : stream_at F (p0 + sizeof_rec_hdr_t) i;
  rc_avail : xid_size (this w) <= heap_avail hp;
  rc_obj : rec_tail_wf (_txn_tail rd)
}.

(** One bit of the complemented magic or of the rid of the tail [t] is
    flipped. *)
Inductive tail_flip (t : rec_tail_t) : rec_tail_t -> Prop :=
  | flip_xmagic k :
      0 <= k < 32 ->
      tail_flip t {| _xmagic := Z.lxor (_xmagic t) (2 ^ k); _checksum := _checksum t;
                     _tail_rid := _tail_rid t |}
  | flip_rid k :
      0 <= k < 64 ->
      tail_flip t {| _xmagic := _xmagic t; _checksum := _checksum t;
                     _tail_rid := Z.lxor (_tail_rid t) (2 ^ k) |}.

(** The bytes of the dblks of a record in a journal whose writer was
    stopped behind [k] dblks: the first [k] dblks of the image, and behind
    them the bytes [old] that the journal held before. *)
Definition torn_image (r : txn_rec) (xid : list byte) (k : Z) (old : list byte) : list byte :=
  slice 0 (k * JRNL_DBLK_SIZE) (rec_image r xid) ++ slice (k * JRNL_DBLK_SIZE) (len old) old.

(** ** Files to recover from

    [ex_journal_file] is a file header of 8 bytes followed by the journal
    that the writer leaves in two calls, four dblks; [ex_flipped] is the
    record of [ex_world] with bit 63 of the rid of its tail flipped, and
    [ex_flipped_file] the file that holds it.  [ex_torn_file] is the file
    header followed by the journal that the writer leaves when it is
    stopped behind its first call of one dblk; [ex_stale_file] holds the
    first dblk of the record of [ex_world] over a journal that held
    [ex_old], a record with rid 6 and an xid of 300 bytes, [ex_old_xid],
    in which the bytes 200 to 215 are those of the tail of the record of
    [ex_world]. *)
Definition ex_journal_file : list byte :=
  replicate 8 Byte.x00 ++ default [] (load ex_journal ex_page 512).

Definition ex_flipped : txn_rec :=
  set_txn_tail {| _xmagic := _xmagic (_txn_tail ex_rec); _checksum := _checksum (_txn_tail ex_rec);
                  _tail_rid := Z.lxor (_tail_rid (_txn_tail ex_rec)) (2 ^ 63) |} ex_rec.

Definition ex_flipped_file : list byte := rec_image ex_flipped ex_xid ++ replicate 16 Byte.xff.

Definition ex_torn_file : list byte :=
  replicate 8 Byte.x00 ++
  default [] (load (mem (snd (write_rec (encode None) ex_page [1] 0 ex_world))) ex_page 512).

Definition ex_old : txn_rec := txn_rec_ctor QLS_TXA_MAGIC 6 None 300.

Definition ex_old_xid : list byte :=
  replicate 200 Byte.x00 ++ rec_tail_bytes (_txn_tail ex_rec) ++ replicate 84 Byte.x00.

Definition ex_stale_file : list byte :=
  torn_image ex_rec ex_xid 1 (rec_image ex_old ex_old_xid ++ replicate 44 Byte.xff).

(** ** The file holds the record *)

Lemma journal_file_img h jp p0 F n img :
  journal_file h jp p0 F -> load h jp n = Some img -> 0 <= n <= len F - p0 ->
  file_holds F p0 img.
Proof.
  intros [H0 HF] Hi Hr. pose proof (load_len _ _ _ _ Hi) as Hl.
  pose proof (load_prefix _ _ _ _ n HF ltac:(lia) ltac:(lia)) as Hp.
  rewrite Hi, slice_slice in Hp by lia. injection Hp as Hp. split; [lia|].
  rewrite Hl, (slice_all (len F - p0)), Hp by lia. f_equal; lia.
Qed.

Lemma journal_file_holds h jp p0 F r xid :
  journal_file h jp p0 F -> load h jp (rec_size r) = Some (rec_image r xid) ->
  0 <= rec_size r <= len F - p0 -> file_holds F p0 (rec_image r xid).
Proof. apply journal_file_img. Qed.

(** The contract of rcv_decode holds for the first call behind the
    writer. *)
Lemma recover_rcv_pre w jp xp xid N caps F p0 hp rd i m :
  write_pre w jp xp xid N caps -> recover_pre w F p0 hp rd i -> journal_file m jp p0 F ->
  load m jp (rec_size (this w)) = Some (rec_image (this w) xid) ->
  rcv_pre (this w) xid F p0 (_rhdr (_txn_hdr (this w))) (RState (World hp rd) i 0).
Proof.
  intros [Hxp Hxs Hx HN Hr Hd Hc He Hf] [Ht Hse Hw Hi Hav Ho] HF Him.
  destruct (rec_dblks_bounds (this w) ltac:(lia)) as [Es Hs]. unfold JRNL_DBLK_SIZE in *.
  split; try assumption; try lia.
  - now apply load_len in Hx.
  - apply (journal_file_holds m jp); [assumption ..|lia].
  - cbn [rs_rec_offs rs_world rs_ifs mem this Z.eqb]. split; [reflexivity|].
    split; [exact Hi|]. split; [lia|]. split; assumption.
Qed.

(** ** Flipped bits *)

Lemma lxor_pow2_neq x k : 0 <= k -> Z.lxor x (2 ^ k) <> x.
Proof.
  intros Hk E. assert (H : Z.lxor x (Z.lxor x (2 ^ k)) = 0) by (rewrite E; apply Z.lxor_nilpotent).
  rewrite <- Z.lxor_assoc, Z.lxor_nilpotent, Z.lxor_0_l in H.
  pose proof (Z.pow_pos_nonneg 2 k). lia.
Qed.

(** A tail with a flipped bit does not belong to the header that the tail
    belonged to. *)
Lemma tail_flip_unsealed r t' :
  txn_rec_sealed r -> tail_flip (_txn_tail r) t' -> ~ txn_rec_sealed (set_txn_tail t' r).
Proof.
  intros [Hm Hr] Hf [Hm' Hr']. destruct Hf as [k Hk|k Hk]; cbn in Hm', Hr'.
  - rewrite <- Hm in Hm'. now apply lxor_pow2_neq in Hm'.
  - rewrite <- Hr in Hr'. now apply lxor_pow2_neq in Hr'.
Qed.

(** ** Torn records *)

Section Torn.
Context (r : txn_rec) (xid old : list byte) (k : Z).
Context (Hxs : 0 <= xid_size r) (Hlen : len xid = xid_size r).
Context (Hk : 1 <= k) (Hin : k * JRNL_DBLK_SIZE <= 24 + xid_size r).
Context (Hold : 40 + xid_size r <= len old).

Lemma len_torn_image : len (torn_image r xid k old) = len old.
Proof.
  pose proof (len_rec_image r xid). unfold torn_image. consts.
  rewrite len_app, !len_slice by lia. lia.
Qed.

(** What was written is the image. *)
Lemma torn_image_written a b :
  0 <= a -> 0 <= b -> a + b <= k * 128 ->
  slice a b (torn_image r xid k old) = slice a b (rec_image r xid).
Proof.
  intros Ha Hb Hab. pose proof (len_rec_image r xid). unfold torn_image. consts.
  rewrite slice_app by lia.
  rewrite (slice_nil _ _ (slice _ _ old)), app_nil_r by (left; rewrite len_slice_in by lia; lia).
  rewrite slice_slice by lia. apply slice_clamp_eq; lia.
Qed.

(** What was not written is what was there. *)
Lemma torn_image_old a b :
  k * 128 <= a -> slice a b (torn_image r xid k old) = slice a b old.
Proof.
  intros Ha. pose proof (len_rec_image r xid). unfold torn_image. consts.
  destruct (Z.le_gt_cases b 0); [now rewrite !slice_nil by lia|].
  rewrite slice_app by lia. rewrite (slice_nil a) by (rewrite len_slice_in by lia; lia).
  rewrite len_slice_in by lia. cbn [app]. rewrite slice_slice by lia.
  apply slice_clamp_eq; lia.
Qed.

Context (Hbig : 40 + xid_size r <= 2 ^ 32 - 128).
Context (F : list byte) (p0 : Z) (HF : file_holds F p0 (torn_image r xid k old)).
Context (HL : 40 + xid_size r <= len F - p0).

Lemma torn_file_slice a b :
  0 <= a -> 0 <= b -> a + b <= 40 + xid_size r ->
  slice (p0 + a) b F = slice a b (torn_image r xid k old).
Proof.
  intros. apply file_holds_slice; rewrite ?len_torn_image; auto; lia.
Qed.

Lemma torn_file_hdr : slice p0 16 F = rec_hdr_bytes (_rhdr (_txn_hdr r)).
Proof.
  consts. replace p0 with (p0 + 0) at 1 by lia.
  rewrite torn_file_slice, torn_image_written by lia.
  unfold rec_image, txn_hdr_bytes. slices.
Qed.

Lemma torn_xid_size_at : xid_size_at F p0 = xid_size r.
Proof.
  consts. unfold xid_size_at.
  rewrite torn_file_slice, torn_image_written, image_xidsize by (assumption || lia).
  rewrite le_combine_split. apply Z.mod_small. lia.
Qed.

Lemma torn_tail_at : tail_at F p0 = rec_tail_of_bytes (slice (24 + xid_size r) 16 old).
Proof.
  consts. unfold tail_at. rewrite torn_xid_size_at.
  replace (p0 + 24 + xid_size r) with (p0 + (24 + xid_size r)) by lia.
  now rewrite torn_file_slice, torn_image_old by lia.
Qed.

End Torn.

(** The first call of rcv_decode on a file that holds a torn record. *)
Lemma rcv_decode_torn r xid old k F p0 w i :
  0 <= xid_size r -> 40 + xid_size r <= 2 ^ 32 - 128 -> len xid = xid_size r ->
  1 <= k -> k * JRNL_DBLK_SIZE <= 24 + xid_size r -> 40 + xid_size r <= len old ->
  file_holds F p0 (torn_image r xid k old) -> 40 + xid_size r <= len F - p0 ->
  stream_at F (p0 + 16) i -> xid_size r <= heap_avail (mem w) ->
  rec_tail_wf (_txn_tail (this w)) ->
  fst (rcv_decode (_rhdr (_txn_hdr r)) (RState w i 0))
  = if decide (tail_matches (rec_tail_of_bytes (slice (24 + xid_size r) 16 old))
                 (_rhdr (_txn_hdr r)))
    then Ok true else Err (Throw JERR_JREC_BADRECTAIL).
Proof.
  intros Hxs Hbig Hlen Hk Hin Hold HF HL Hi Hav Ht.
  pose proof (torn_xid_size_at r xid old k Hxs Hlen Hk Hin Hold Hbig F p0 HF HL) as Ex.
  pose proof (torn_tail_at r xid old k Hxs Hlen Hk Hin Hold Hbig F p0 HF HL) as Et.
  pose proof (torn_file_hdr r xid old k Hxs Hlen Hk Hin Hold F p0 HF HL) as Eh.
  assert (Hp0 : 0 <= p0) by (destruct HF; lia).
  pose proof (rcv_decode_spec _ _ _ _ _ _
    (rcv_pre_any_file _ F p0 w i Hp0 Eh ltac:(lia) Hi ltac:(lia) ltac:(lia) Ht)) as W.
  assert (Hrs : rec_size (rec_at (_rhdr (_txn_hdr r)) F p0) = 40 + xid_size r)
    by (rewrite rec_size_small; cbn; lia).
  unfold wp, rcv_post in W. rewrite Hrs in W. replace (_ <? _) with false in W by lia.
  destruct W as (-> & _). unfold rcv_outcome, txn_rec_sealed.
  cbn [rec_at _txn_hdr _rhdr _txn_tail]. rewrite bytes_at_slice by lia.
  replace (p0 + (24 + xid_size_at F p0)) with (p0 + 24 + xid_size_at F p0) by lia.
  fold (tail_at F p0). now rewrite Et.
Qed.

(** The journal that a writer leaves when it is stopped inside the xid:
    the dblks of its calls hold the image, and the dblks behind them what
    they held. *)
Lemma interrupted_journal enc `{!Encoder enc} w jp xp xid N caps more old :
  write_pre w jp xp xid N (caps ++ more) ->
  total_dblks caps * JRNL_DBLK_SIZE <= 24 + xid_size (this w) ->
  load (mem w) jp (rec_size_dblks (this w) * JRNL_DBLK_SIZE) = Some old ->
  load (mem (snd (write_rec enc jp caps 0 w))) jp (rec_size_dblks (this w) * JRNL_DBLK_SIZE)
  = Some (torn_image (this w) xid (total_dblks caps) old).
Proof.
  intros Hpre Hin Ho. pose proof (wpre_xidsize _ _ _ _ _ _ Hpre) as Hxs.
  destruct (rec_dblks_bounds (this w) ltac:(lia)) as [Es Hd]. consts.
  destruct (write_rec_interrupted enc _ _ _ _ _ _ _ Hpre ltac:(lia)) as (w' & E & Hw & Hfr).
  rewrite E. cbn [snd]. destruct Hw as [_ _ _ Hi]. consts. rewrite Z.min_l in Hi by lia.
  pose proof (load_len _ _ _ _ Ho) as Hlo. remember (total_dblks caps) as k eqn:Ek.
  assert (Hk : 0 <= k).
  { subst k. apply total_dblks_nonneg. destruct Hpre as [_ _ _ _ _ _ Hc _ _].
    now apply Forall_app in Hc as [Hc _]. }
  replace (rec_size_dblks (this w) * 128)
    with (k * 128 + (rec_size_dblks (this w) * 128 - k * 128)) at 1 by lia.
  eapply load_app; [exact Hi|]. rewrite Hfr.
  - rewrite (load_sub _ _ _ _ (k * 128) (rec_size_dblks (this w) * 128 - k * 128) Ho) by lia.
    apply (f_equal Some). consts. apply slice_clamp_eq; lia.
  - lia.
  - unfold disjoint. cbn [ptr_add p_blk p_ofs]. lia.
Qed.

(** Where the journal held zeros, the bytes at the place of the tail are
    not the tail of a transaction record. *)
Lemma zero_tail_mismatch h a n :
  txn_magic (_magic h) -> ~ tail_matches (rec_tail_of_bytes (slice a 16 (replicate n Byte.x00))) h.
Proof.
  intros Hm [Hx _]. cbn [rec_tail_of_bytes _xmagic] in Hx.
  unfold slice at 2 in Hx. rewrite drop_replicate, take_replicate, le_combine_zeros in Hx.
  destruct Hm as [E|E]; rewrite E in Hx; vm_compute in Hx; discriminate.
Qed.

(** ** The properties of the journal file *)

(** C12 (roundtrip): what the writer encodes, recovery decodes.  A record
    whose tail belongs to its header, written under the contract of the
    writer with any schedule, is recovered from a file that holds the
    bytes of the journal at any position: one call of rcv_decode behind
    the generic header returns true with the caller's count at the size
    of the record, the recovering object has the header and the tail of
    the writer, and get_xid yields a buffer that holds the xid. *)
Theorem write_recover_roundtrip c w jp xp xid N caps F p0 hp rd i :
  write_pre w jp xp xid N caps -> recover_pre w F p0 hp rd i ->
  journal_file (mem (snd (write_rec (encode c) jp caps 0 w))) jp p0 F ->
  exists s', rcv_decode (_rhdr (_txn_hdr (this w))) (RState (World hp rd) i 0) = (Ok true, s') /\
             rs_rec_offs s' = rec_size (this w) /\
             _txn_hdr (this (rs_world s')) = _txn_hdr (this w) /\
             _txn_tail (this (rs_world s')) = _txn_tail (this w) /\
             exists b, get_xid (rs_world s') = (Ok (Some b, xid_size (this w)), rs_world s') /\
                       load (mem (rs_world s')) b (xid_size (this w)) = Some xid.
Proof.
  intros Hpre Hrc HF.
  destruct (write_rec_effect (encode c) _ _ _ _ _ _ Hpre) as (w1 & E & _ & _ & Him).
  rewrite E in HF. pose proof (recover_rcv_pre _ _ _ _ _ _ _ _ _ _ _ _ Hpre Hrc HF Him) as Hrp.
  pose proof (rcv_decode_spec _ _ _ _ _ _ Hrp) as W. unfold wp, rcv_post in W.
  destruct Hpre, Hrc. replace (_ <? _) with false in W by lia.
  destruct (rcv_decode _ _) as [res s']. cbn [fst snd] in W. destruct W as (-> & Ho & Hd & _).
  exists s'. unfold rcv_outcome. rewrite decide_True by assumption.
  split; [reflexivity|]. split; [exact Ho|].
  apply decoded_complete; auto. now apply load_len in wpre_xid.
Qed.

Lemma ex_recover_pre :
  recover_pre ex_world ex_journal_file 8 ex_heap txn_rec_ctor0
    (Ifstream ex_journal_file 24 16 false false false).
Proof.
  split; try (vm_compute; intuition congruence). split; vm_compute; intuition congruence.
Defined.

Lemma write_recover_roundtrip_witness :
  exists s', rcv_decode (_rhdr (_txn_hdr ex_rec))
               (RState (World ex_heap txn_rec_ctor0)
                  (Ifstream ex_journal_file 24 16 false false false) 0) = (Ok true, s') /\
             rs_rec_offs s' = 240 /\
             _txn_hdr (this (rs_world s')) = _txn_hdr ex_rec /\
             _txn_tail (this (rs_world s')) = _txn_tail ex_rec /\
             exists b, get_xid (rs_world s') = (Ok (Some b, 200), rs_world s') /\
                       load (mem (rs_world s')) b 200 = Some ex_xid.
Proof.
  refine (write_recover_roundtrip None ex_world ex_page ex_xidp ex_xid 4 [1; 1] ex_journal_file
            8 ex_heap txn_rec_ctor0 _ (ex_write_pre _ _ _) ex_recover_pre _);
    [repeat constructor | vm_compute; intuition congruence |].
  split; [vm_compute; intuition congruence | reflexivity].
Defined.

(** C23 (error): a flipped bit in the tail is detected.  When the file
    holds a whole record whose tail differs in one bit of the
    complemented magic or of the rid from the tail that belongs to its
    header, a call of rcv_decode under its contract throws
    JERR_JREC_BADRECTAIL: it neither returns true nor reports the record
    as cut short. *)
Theorem rcv_decode_detects_tail_flip r0 t' xid F p0 h s :
  txn_rec_sealed r0 -> tail_flip (_txn_tail r0) t' ->
  rcv_pre (set_txn_tail t' r0) xid F p0 h s -> rec_size r0 <= len F - p0 ->
  fst (rcv_decode h s) = Err (Throw JERR_JREC_BADRECTAIL).
Proof.
  intros Hse Hf Hpre HT. pose proof (rcv_decode_spec _ _ _ _ _ _ Hpre) as W.
  unfold wp, rcv_post in W. change (rec_size (set_txn_tail t' r0)) with (rec_size r0) in W.
  replace (_ <? _) with false in W by lia. destruct W as (-> & _).
  unfold rcv_outcome. rewrite decide_False; [reflexivity|]. now apply tail_flip_unsealed.
Qed.

Lemma rcv_decode_detects_tail_flip_witness :
  fst (rcv_decode (_rhdr (_txn_hdr ex_rec))
         (RState (World ex_heap txn_rec_ctor0)
            (Ifstream ex_flipped_file 16 16 false false false) 0))
  = Err (Throw JERR_JREC_BADRECTAIL).
Proof.
  apply (rcv_decode_detects_tail_flip ex_rec (_txn_tail ex_flipped) ex_xid ex_flipped_file 0).
  - vm_compute. intuition congruence.
  - apply (flip_rid (_txn_tail ex_rec) 63). lia.
  - split; try (vm_compute; intuition congruence). cbn [rs_rec_offs Z.eqb].
    split; [reflexivity|]. split; [split|]; vm_compute; intuition congruence.
  - vm_compute. discriminate.
Defined.

(** C13 (safety): a write that is stopped inside the xid is judged by what
    the journal held before.  When the writer, under its contract, is
    stopped behind calls that were offered at least one dblk and no more
    than the header and the xid fill, and recovery reads the dblks of the
    record from a file that holds the journal, the first call of
    rcv_decode never reports the record as cut short: it throws
    JERR_JREC_BADRECTAIL, unless the bytes [old] that the journal held
    before at the place of the tail are the tail of the header, in which
    case it returns true. *)
Theorem write_interrupted_recover c w jp xp xid N caps more old F p0 hp rd i :
  write_pre w jp xp xid N (caps ++ more) ->
  1 <= total_dblks caps -> total_dblks caps * JRNL_DBLK_SIZE <= 24 + xid_size (this w) ->
  load (mem w) jp (rec_size_dblks (this w) * JRNL_DBLK_SIZE) = Some old ->
  journal_file (mem (snd (write_rec (encode c) jp caps 0 w))) jp p0 F ->
  rec_size_dblks (this w) * JRNL_DBLK_SIZE <= len F - p0 ->
  stream_at F (p0 + sizeof_rec_hdr_t) i -> xid_size (this w) <= heap_avail hp ->
  rec_tail_wf (_txn_tail rd) ->
  fst (rcv_decode (_rhdr (_txn_hdr (this w))) (RState (World hp rd) i 0))
  = if decide (tail_matches (rec_tail_of_bytes (slice (24 + xid_size (this w)) 16 old))
                 (_rhdr (_txn_hdr (this w))))
    then Ok true else Err (Throw JERR_JREC_BADRECTAIL).
Proof.
  intros Hpre Hk Hin Ho HF HL Hi Hav Ht.
  pose proof (interrupted_journal (encode c) _ _ _ _ _ _ _ _ Hpre Hin Ho) as Hm.
  pose proof (load_len _ _ _ _ Ho) as Hlo.
  destruct Hpre as [Hxp Hxs Hx HN Hr Hd Hc He Hf].
  destruct (rec_dblks_bounds (this w) ltac:(lia)) as [Es Hs]. rewrite total_dblks_app in He, Hf.
  apply Forall_app in Hc as [_ Hc]. pose proof (total_dblks_nonneg _ Hc). consts.
  apply (rcv_decode_torn (this w) xid old (total_dblks caps) F p0); auto; try lia.
  - now apply load_len in Hx.
  - apply (journal_file_img _ jp _ _ _ _ HF Hm). lia.
Qed.

Lemma write_interrupted_recover_witness :
  fst (rcv_decode (_rhdr (_txn_hdr ex_rec))
         (RState (World ex_heap txn_rec_ctor0) (Ifstream ex_torn_file 24 16 false false false) 0))
  = Err (Throw JERR_JREC_BADRECTAIL).
Proof.
  refine (eq_trans (write_interrupted_recover None ex_world ex_page ex_xidp ex_xid 4 [1] [1]
            (replicate 256 Byte.xff) ex_torn_file 8 ex_heap txn_rec_ctor0 _
            (ex_write_pre _ _ _) _ _ _ _ _ _ _ _) _);
    try (vm_compute; intuition congruence).
  - repeat constructor.
  - split; try reflexivity. vm_compute. intuition congruence.
Defined.

(** The bytes at the place of the tail decide alone: over a journal that
    held a record with another rid, whose xid has the bytes of the tail
    at that place, the record whose writer was stopped behind its first
    dblk is accepted, with an xid of which the first 104 bytes are those
    of the writer and the others those of the earlier record. *)
Lemma torn_write_accepted :
  let s := rcv_decode (_rhdr (_txn_hdr ex_rec))
             (RState (World ex_heap txn_rec_ctor0)
                (Ifstream ex_stale_file 16 16 false false false) 0) in
  fst s = Ok true /\
  match _buff (this (rs_world (snd s))) with
  | Some b => load (mem (rs_world (snd s))) b 200
  | None => None
  end = Some (slice 0 104 ex_xid ++ replicate 96 Byte.x00).
Proof. vm_compute. split; reflexivity. Qed.
