(* ===== verification/Lifecycle.v ===== *)
(** * Lifecycle: the object under arbitrary sequences of calls

    A txn_rec is pooled: the journal constructs it once and then calls its
    methods in whatever order its own state asks for, catching the
    exceptions that they throw.  This file models the caller as a
    labelled transition system.  A [call] is one call of a public method
    with its arguments, or a write of the journal into memory between two
    calls; [exec] runs it; [step] is a call that returns or throws (a
    failed assertion and a fault end the program); [run] is a sequence of
    steps, and [exec_all] the function that computes it.

    A run is taken under a guard on its calls.  [call_typed] asks that a
    header passed by value holds values of its types, which C guarantees.
    [call_fresh] is the reuse discipline of the specification (the driver
    "must serialize reuse via reset"): a first call of decode or of
    rcv_decode is made on an object that owns no buffer.

    The invariants: [obj_ok], the fields of the object hold values of
    their types and [_buff], when set, points into an allocated block;
    [moved], memory is never given back, every block keeps its extent
    and the buffer is the one the object had or a block allocated since;
    [buff_sized], the buffer is the start of a block of the size that
    get_xid returns.  [keeps] is the relation between the worlds before
    and after an operation that preserves them; it is a preorder, so the
    rules of [stable] prove it of every path of the methods that does
    not allocate, and the two paths that allocate ([decode_first],
    [rcv_first]) are run with [wp].

    [reuse] is the cycle of a pooled reader, reset and decode, repeated:
    it shows what the buffers that are never released cost. *)

From Stdlib Require Import ZArith Lia List.
From coqutil Require Import Byte Word.LittleEndianList.
From stdpp Require Import base option list gmap.
From S2P Require Import Prelude Memory Layout Stream TxnRec Encode Decode Recover Driver.

#[local] Open Scope Z_scope.
#[local] Open Scope jrnl_scope.

(** ** Calls *)

Inductive call : Type :=
  | CallResetMagic (magic : Z)
  | CallReset (magic rid : Z) (xidp : option ptr) (xidlen : Z)
  | CallEncode (wptr : option ptr) (rec_offs_dblks max_size_dblks : Z)
  | CallDecode (h : rec_hdr_t) (rptr : option ptr) (rec_offs_dblks max_size_dblks : Z)
  | CallRcvDecode (h : rec_hdr_t) (i : ifstream) (rec_offs : Z)
  | CallGetXid
  | CallChkHdr
  | CallChkHdrRid (rid : Z)
  | CallChkTail
  | JournalWrite (p : ptr) (bs : list byte).

(** A call whose value the caller drops. *)
Definition forget {A} (m : method A) : method unit := m ;; ret tt.

(** rcv_decode as a method of the object: the stream and the count are the
    caller's. *)
Definition rcv_call (h : rec_hdr_t) (i : ifstream) (rec_offs : Z) : method unit :=
  fun w => let '(r, s) := rcv_decode h (RState w i rec_offs) in
           (match r with Ok _ => Ok tt | Err f => Err f end, rs_world s).

Section Exec.
Context (RHM_CLEAN : option byte).

Definition exec (c : call) : method unit :=
  match c with
  | CallResetMagic magic => reset_magic magic
  | CallReset magic rid xidp xidlen => reset magic rid xidp xidlen
  | CallEncode wptr offs max => forget (encode RHM_CLEAN wptr offs max)
  | CallDecode h rptr offs max => forget (decode h rptr offs max)
  | CallRcvDecode h i rec_offs => rcv_call h i rec_offs
  | CallGetXid => forget get_xid
  | CallChkHdr => chk_hdr
  | CallChkHdrRid rid => chk_hdr_rid rid
  | CallChkTail => chk_tail
  | JournalWrite p bs => mem_store p bs
  end.

End Exec.

(** The caller goes on behind a call that returned or threw. *)
Definition goes_on {A} (r : res jerrno A) : bool :=
  match r with
  | Ok _ | Err (Throw _) => true
  | Err AssertFail | Err Fault => false
  end.

(** A header passed by value holds values of its types. *)
Definition call_typed (c : call) : Prop :=
  match c with
  | CallDecode h _ _ _ | CallRcvDecode h _ _ => rec_hdr_wf h
  | _ => True
  end.

(** The reuse discipline: a first call of decode or of rcv_decode is made
    on an object that owns no buffer. *)
Definition call_fresh (w : world) (c : call) : Prop :=
  match c with
  | CallDecode _ _ offs _ => uint32_t offs = 0 -> _buff (this w) = None
  | CallRcvDecode _ _ rec_offs => rec_offs = 0 -> _buff (this w) = None
  | _ => True
  end.

Definition typed : world -> call -> Prop := fun _ c => call_typed c.
Definition disciplined : world -> call -> Prop := fun w c => call_typed c /\ call_fresh w c.

#[export] Instance call_typed_dec c : Decision (call_typed c).
Proof. destruct c; unfold call_typed, rec_hdr_wf; apply _. Defined.

#[export] Instance call_fresh_dec w c : Decision (call_fresh w c).
Proof. destruct c; unfold call_fresh; apply _. Defined.

#[export] Instance typed_dec w c : Decision (typed w c).
Proof. unfold typed. apply _. Defined.

#[export] Instance disciplined_dec w c : Decision (disciplined w c).
Proof. unfold disciplined. apply _. Defined.

(** ** Steps and runs *)

Section Runs.
Context (RHM_CLEAN : option byte) (G : world -> call -> Prop) `{!forall w c, Decision (G w c)}.

Inductive step (w : world) (c : call) : world -> Prop :=
  | step_intro :
      G w c -> goes_on (fst (exec RHM_CLEAN c w)) = true ->
      step w c (snd (exec RHM_CLEAN c w)).

Inductive run : world -> list call -> world -> Prop :=
  | run_nil w : run w [] w
  | run_cons w c w1 cs w' : step w c w1 -> run w1 cs w' -> run w (c :: cs) w'.

Fixpoint exec_all (cs : list call) (w : world) : option world :=
  match cs with
  | [] => Some w
  | c :: cs' =>
      if decide (G w c)
      then let '(r, w1) := exec RHM_CLEAN c w in
           if goes_on r then exec_all cs' w1 else None
      else None
  end.

End Runs.

(** An object as a constructor leaves it. *)
Inductive constructed : txn_rec -> Prop :=
  | constructed0 : constructed txn_rec_ctor0
  | constructed4 magic rid xidp xidlen : constructed (txn_rec_ctor magic rid xidp xidlen).

(** ** Invariants *)

(** [_buff], when set, points into an allocated block. *)
Definition buff_live (w : world) : Prop :=
  forall b, _buff (this w) = Some b -> valid_range (mem w) b 0.

(** [_buff], when set, is the start of a block of [_xidsize] bytes: the
    block that std::malloc returned for the xid, which get_xid hands to
    its caller with this size. *)
Definition buff_sized (w : world) : Prop :=
  forall b, _buff (this w) = Some b -> block_of (mem w) b (xid_size (this w)).

Record obj_ok (w : world) : Prop := {
  ok_wf : txn_rec_wf (this w);
  ok_live : buff_live w
}.

(** From [w] to [w'] the heap has moved up, and the buffer of [w'] is the
    buffer of [w] or lies in a block that was not allocated in [w]. *)
Definition moved (w w' : world) : Prop :=
  heap_le (mem w) (mem w') /\
  forall b, _buff (this w') = Some b ->
            _buff (this w) = Some b \/ heap_cells (mem w) !! p_blk b = None.

(** What an operation keeps: a well-formed object with a live buffer
    stays so while the world moves; a buffer of the right size stays
    so. *)
Definition keeps (w w' : world) : Prop :=
  (obj_ok w -> obj_ok w' /\ moved w w') /\ (buff_sized w -> buff_sized w').

Definition keeps_rs (s s' : rstate) : Prop := keeps (rs_world s) (rs_world s').

(** What a first call leaves, whatever its outcome. *)
Definition first_post (w w' : world) : Prop :=
  obj_ok w' /\ moved w w' /\ (_buff (this w) = None -> buff_sized w').

(** What the call [c] leaves from [w], whatever its outcome: the object
    well-formed with a live buffer, the world moved, and the buffer of
    the right size when it was so and the call keeps the discipline. *)
Definition call_post (w : world) (c : call) (w' : world) : Prop :=
  obj_ok w' /\ moved w w' /\ (buff_sized w -> call_fresh w c -> buff_sized w').

(** ** The cycle of a pooled reader *)

(** [k] times: reset the object and decode the record at [rptr], which
    fits the [max] dblks of the page. *)
Fixpoint reuse (h : rec_hdr_t) (rptr : ptr) (max : Z) (k : nat) : method unit :=
  match k with
  | O => ret tt
  | S k' =>
      reset_magic (_magic h) ;;
      decode h (Some rptr) 0 max ;;
      reuse h rptr max k'
  end.

(** What the cycle needs: the page holds the image of the record [r0]
    with transaction id [xid], which fits its [max] dblks, passes the
    header check and whose tail belongs to its header. *)
Record reuse_pre (r0 : txn_rec) (xid : list byte) (h : rec_hdr_t) (pg : ptr) (max : Z)
    (w : world) : Prop := {
  ru_xidsize : 0 < xid_size r0 < 2 ^ 32;
  ru_xid : len xid = xid_size r0;
  ru_tail : rec_tail_wf (_txn_tail r0);
  ru_sealed : txn_rec_sealed r0;
  ru_hdr : h = _rhdr (_txn_hdr r0);
  ru_magic : txn_magic (_magic h);
  ru_version : _version h = QLS_JRNL_VERSION;
  ru_fits : rec_size r0 <= max * JRNL_DBLK_SIZE < 2 ^ 32;
  ru_page : load (mem w) pg (rec_size r0) = Some (rec_image r0 xid);
  ru_obj : rec_tail_wf (_txn_tail (this w));
  ru_avail : 0 <= heap_avail (mem w)
}.

(** ** Sequences of calls to run

    The journal of [ex_journal] holds the record of [ex_world] at
    [ex_page].  [ex_pool_calls] is a pooled reader at work: decode,
    get_xid, reset, decode.  [ex_owner_calls] is a reader that has
    decoded the record, behind which the journal puts an xid size of 4096
    on the page; [ex_foreign_hdr] is a header with a foreign magic. *)
Definition ex_foreign_hdr : rec_hdr_t :=
  {| _magic := 1; _version := QLS_JRNL_VERSION; _uflag := 0; _rid := 8 |}.

Definition ex_pool_calls : list call :=
  [CallDecode (_rhdr (_txn_hdr ex_rec)) (Some ex_page) 0 2; CallGetXid;
   CallResetMagic QLS_TXA_MAGIC; CallDecode (_rhdr (_txn_hdr ex_rec)) (Some ex_page) 0 2].

Definition ex_owner_calls : list call :=
  [CallDecode (_rhdr (_txn_hdr ex_rec)) (Some ex_page) 0 2;
   JournalWrite (ptr_add ex_page 16) (le_split 8 4096)].

Definition ex_start : world := World ex_journal txn_rec_ctor0.

Definition ex_pool : world := default ex_start (exec_all None disciplined ex_pool_calls ex_start).

Definition ex_owner : world := default ex_start (exec_all None typed ex_owner_calls ex_start).

(** ** keeps is a preorder, and what it gives *)

#[export] Instance moved_preorder : PreOrder moved.
Proof.
  split; [intros w; split; [reflexivity | auto]|].
  intros w1 w2 w3 [L1 B1] [L2 B2]. split; [now transitivity (mem w2)|].
  intros b Hb. destruct (B2 b Hb) as [H2|H2]; [auto|].
  right. now apply (heap_le_fresh _ (mem w2)).
Qed.

#[export] Instance keeps_preorder : PreOrder keeps.
Proof.
  split.
  - intros w. split; [intros H; split; [exact H | reflexivity] | auto].
  - intros w1 w2 w3 [A1 B1] [A2 B2]. split; [|auto].
    intros H1. destruct (A1 H1) as [H2 L1]. destruct (A2 H2) as [H3 L2].
    split; [exact H3 | now transitivity w2].
Qed.

#[export] Instance keeps_rs_preorder : PreOrder keeps_rs.
Proof.
  split; [intros s; unfold keeps_rs; reflexivity|].
  intros s1 s2 s3. unfold keeps_rs. apply transitivity.
Qed.

(** The buffer of an object whose fields are typed is an allocated
    region of the size that get_xid returns. *)
Lemma buff_sized_valid w b :
  txn_rec_wf (this w) -> buff_sized w -> _buff (this w) = Some b ->
  valid_range (mem w) b (xid_size (this w)).
Proof.
  intros ((_ & Hx) & _) Hs Hb. destruct (Hs b Hb) as (Ho & c & Hc & Hl).
  exists c. unfold xid_size in *. split; [exact Hc | lia].
Qed.

Lemma buff_sized_live w : txn_rec_wf (this w) -> buff_sized w -> buff_live w.
Proof.
  intros Hwf Hs b Hb. pose proof (buff_sized_valid w b Hwf Hs Hb) as Hv.
  destruct Hwf as ((_ & Hx) & _). unfold xid_size in Hv.
  rewrite <- (ptr_add_0 b). eapply valid_range_weaken; [exact Hv | lia ..].
Qed.

(** A change of the memory that moves the heap up and keeps the object. *)
Lemma keeps_mem w h : heap_le (mem w) h -> keeps w (World h (this w)).
Proof.
  intros Hle. split.
  - intros [Hwf Hl]. split; [|split; [exact Hle | auto]]. split; [exact Hwf|].
    intros b Hb. simpl. rewrite <- Hle. now apply Hl.
  - intros Hs b Hb. simpl. apply (heap_le_block_of (mem w)); [exact Hle | now apply Hs].
Qed.

(** A change of the object that keeps the memory, the types of the
    fields, and either the buffer with its size or no buffer. *)
Lemma keeps_this w r :
  (txn_rec_wf (this w) -> txn_rec_wf r) ->
  _buff r = None \/ (_buff r = _buff (this w) /\ xid_size r = xid_size (this w)) ->
  keeps w (World (mem w) r).
Proof.
  intros Hwf Hb. split.
  - intros [H Hl]. split; [split; [now apply Hwf|] | split; [reflexivity|]];
      intros b E; simpl in *; destruct Hb as [Hn|[Hb _]]; try congruence.
    + apply Hl. congruence.
    + left. congruence.
  - intros Hs b E. simpl in *. destruct Hb as [Hn|[Hb Hx]]; [congruence|].
    rewrite Hx. apply Hs. congruence.
Qed.

Lemma same_obj_keeps w w' : same_obj w w' -> keeps w w'.
Proof.
  intros (Ht & Ha & _ & Hv). destruct w' as [h r]. simpl in *. subst r.
  apply keeps_mem. now apply heap_le_same.
Qed.

(** ** The operations that keep the invariants *)

Lemma keeps_self : stable keeps self.
Proof. intros w. reflexivity. Qed.

Lemma keeps_mem_load p n : stable keeps (mem_load p n).
Proof. intros w. unfold mem_load. destruct (load _ _ _); reflexivity. Qed.

Lemma keeps_mem_store p bs : stable keeps (mem_store p bs).
Proof.
  intros w. unfold mem_store. destruct (store _ _ _) as [h|] eqn:E; [|reflexivity].
  apply keeps_mem. exact (store_heap_le _ _ _ _ E).
Qed.

Lemma keeps_set_tail bs : stable keeps (set_this (set_txn_tail (rec_tail_of_bytes bs))).
Proof.
  intros w. apply keeps_this; [|right; split; reflexivity].
  intros [Hh _]. split; [exact Hh | apply rec_tail_of_bytes_wf].
Qed.

Lemma keeps_set_rhdr h : rec_hdr_wf h -> stable keeps (set_this (set_rhdr (rec_hdr_copy h))).
Proof.
  intros Hh w. apply keeps_this; [|right; split; reflexivity].
  intros [[_ Hx] Ht]. split; [split; [exact Hh | exact Hx] | exact Ht].
Qed.

#[local] Hint Resolve keeps_self keeps_mem_load keeps_mem_store keeps_set_tail : stable.

Lemma keeps_memcpy_mm dst src n : stable keeps (memcpy_mm dst src n).
Proof. unfold memcpy_mm. stable_auto. Qed.

Lemma keeps_memcpy_to_tail off src n : stable keeps (memcpy_to_tail off src n).
Proof. unfold memcpy_to_tail. stable_auto. Qed.

Lemma keeps_chk_hdr : stable keeps chk_hdr.
Proof. unfold chk_hdr, jrec_chk_hdr. stable_auto. Qed.

Lemma keeps_chk_tail : stable keeps chk_tail.
Proof. unfold chk_tail, jrec_chk_tail. stable_auto. Qed.

Lemma keeps_chk_hdr_rid rid : stable keeps (chk_hdr_rid rid).
Proof. pose proof keeps_chk_hdr. unfold chk_hdr_rid, jrec_chk_rid. stable_auto. Qed.

Lemma keeps_get_xid : stable keeps get_xid.
Proof. unfold get_xid. stable_auto. Qed.

#[local] Hint Resolve keeps_memcpy_mm keeps_memcpy_to_tail keeps_chk_hdr keeps_chk_tail
  keeps_chk_hdr_rid keeps_get_xid : stable.

Lemma keeps_forget {A} (m : method A) : stable keeps m -> stable keeps (forget m).
Proof. intros Hm. unfold forget. stable_auto. Qed.

Lemma keeps_encode c wptr offs max : stable keeps (encode c wptr offs max).
Proof. eapply stable_sub; [exact same_obj_keeps | apply stable_encode]. Qed.

Lemma keeps_reset_magic magic : stable keeps (reset_magic magic).
Proof. intros w. apply keeps_this; [intros H; wf_solve | now left]. Qed.

Lemma keeps_reset magic rid xidp xidlen : stable keeps (reset magic rid xidp xidlen).
Proof. intros w. apply keeps_this; [intros H; wf_solve | now left]. Qed.

(** ** decode *)

Lemma keeps_decode_cont rptr offs max rd : stable keeps (decode_cont rptr offs max rd).
Proof.
  unfold decode_cont, decode_cont_last, decode_cont_tail_split, decode_cont_xid_split.
  stable_auto.
Qed.

(** The three ways on behind the allocation of a first call. *)
Lemma keeps_decode_first_rest buff rptr max rd (a b : bool) :
  stable keeps (if a then decode_first_whole buff rptr rd
                else if b then decode_first_tail_split buff rptr max rd
                else decode_first_xid_split buff rptr max rd).
Proof.
  unfold decode_first_whole, decode_first_tail_split, decode_first_xid_split. stable_auto.
Qed.

Lemma const_op_chk_hdr : const_op chk_hdr.
Proof.
  intros w.
  destruct (decide (txn_magic (_magic (_rhdr (_txn_hdr (this w)))) /\
                    _version (_rhdr (_txn_hdr (this w))) = QLS_JRNL_VERSION)) as [[Hm Hv]|H].
  - now rewrite chk_hdr_ok.
  - now rewrite chk_hdr_bad.
Qed.

Lemma first_post_keeps w s s' : first_post w s -> keeps s s' -> first_post w s'.
Proof.
  intros (Hok & Hle & Hs) [K1 K2]. destruct (K1 Hok) as [Hok' Hle'].
  split; [exact Hok'|]. split; [now transitivity s | auto].
Qed.

(** A state behind the start of a first call: the memory and the buffer
    are those of the start. *)
Lemma first_post_same w r :
  obj_ok w -> txn_rec_wf r -> _buff r = _buff (this w) -> first_post w (World (mem w) r).
Proof.
  intros [_ Hl] Hwf Hb. split; [|split; [split; [reflexivity|]|]].
  - split; [exact Hwf|]. intros b. simpl. rewrite Hb. apply Hl.
  - intros b. simpl. rewrite Hb. auto.
  - intros Hn b. simpl. congruence.
Qed.

(** The allocation of the buffer: [_buff = std::malloc(_xidsize)]. *)
Lemma alloc_buff_life w0 w p h :
  obj_ok w -> heap_le (mem w0) (mem w) -> malloc (mem w) (xid_size (this w)) = (p, h) ->
  first_post w0 (World h (set_buff p (this w))).
Proof.
  intros [Hwf Hl] Hle Hm.
  assert (Hx : 0 <= xid_size (this w)) by (destruct Hwf as [[_ ?] _]; unfold xid_size; lia).
  pose proof (malloc_heap_le _ _ _ _ Hx Hm) as Hle'.
  assert (Hs : buff_sized (World h (set_buff p (this w)))).
  { intros b. simpl. intros ->. exact (malloc_block_of _ _ _ _ Hx Hm). }
  split; [split; [exact Hwf | now apply buff_sized_live]|].
  split; [split; [now transitivity (mem w)|] | auto].
  intros b. simpl. intros ->. right. apply (heap_le_fresh _ (mem w)); [exact Hle|].
  exact (proj1 (malloc_fresh _ _ _ _ Hm)).
Qed.

Lemma wp_load_size_t {B} p (k : Z -> method B) w (P : world -> Prop) :
  P w -> (forall v, 0 <= v < 2 ^ 64 -> wp (k v) w (fun _ => P)) ->
  wp (bind (load_size_t p) k) w (fun _ => P).
Proof.
  intros HP Hk. apply wp_bind. unfold wp at 1, load_size_t, bind, mem_load.
  destruct (load (mem w) p 8) as [bs|] eqn:E; simpl; [|exact HP]. apply Hk.
  pose proof (le_combine_bound bs) as Hb. apply load_len in E. unfold len in E.
  replace (8 * Z.of_nat (length bs)) with 64 in Hb by lia. exact Hb.
Qed.

Lemma set_xidsize_wf v r : 0 <= v < 2 ^ 64 -> txn_rec_wf r -> txn_rec_wf (set_xidsize v r).
Proof. intros Hv [[Hh _] Ht]. split; [split; [exact Hh | exact Hv] | exact Ht]. Qed.

Lemma set_rhdr_wf h r : rec_hdr_wf h -> txn_rec_wf r -> txn_rec_wf (set_rhdr (rec_hdr_copy h) r).
Proof. intros Hh [[_ Hx] Ht]. split; [split; [exact Hh | exact Hx] | exact Ht]. Qed.

(** A first call of decode, whatever its arguments and its outcome. *)
Lemma decode_first_life h rptr max w :
  rec_hdr_wf h -> obj_ok w -> wp (decode_first h rptr max) w (fun _ => first_post w).
Proof.
  intros Hh Hok. pose proof Hok as [Hwf Hl]. unfold decode_first. apply wp_set_this.
  set (r1 := set_rhdr (rec_hdr_copy h) (this w)).
  assert (H1 : txn_rec_wf r1) by now apply set_rhdr_wf.
  apply wp_load_size_t; [now apply first_post_same|].
  intros v Hv. apply wp_set_this. cbn [mem this].
  assert (H3 : txn_rec_wf (set_xidsize v r1)) by now apply set_xidsize_wf.
  apply wp_bind_const; [exact const_op_chk_hdr | now apply first_post_same | intros _].
  apply wp_mem_malloc. intros p h' E. apply wp_set_this. cbn [mem this].
  pose proof (alloc_buff_life w (World (mem w) (set_xidsize v r1)) p h'
                ltac:(now split) ltac:(reflexivity) E) as Hp.
  destruct p as [b|]; [|exact Hp]. apply wp_bind_ret.
  eapply wp_stable; [apply keeps_decode_first_rest|]. intros s'. now apply first_post_keeps.
Qed.

Lemma keeps_post w c w' : obj_ok w -> keeps w w' -> call_post w c w'.
Proof. intros Hok [K1 K2]. destruct (K1 Hok). split; [|split]; auto. Qed.

Lemma first_post_post w c w' :
  first_post w w' -> (call_fresh w c -> _buff (this w) = None) -> call_post w c w'.
Proof. intros (Hok & Hle & Hs) Hf. split; [|split]; auto. Qed.

Lemma wp_forget {A} (m : method A) w (P : world -> Prop) :
  wp m w (fun _ => P) -> wp (forget m) w (fun _ => P).
Proof. intros H. unfold forget. eapply wp_bind_state; [exact H | auto | auto]. Qed.

#[local] Hint Resolve keeps_decode_cont : stable.

Lemma decode_life h rptr offs max w :
  rec_hdr_wf h -> obj_ok w ->
  wp (decode h rptr offs max) w (fun _ => call_post w (CallDecode h rptr offs max)).
Proof.
  intros Hh Hok. assert (H0 : call_post w (CallDecode h rptr offs max) w)
    by now apply keeps_post.
  unfold decode. cbv zeta.
  apply wp_bind_const; [apply const_op_assert | exact H0 | intros _].
  apply wp_bind_const; [apply const_op_assert | exact H0 | intros _].
  apply wp_bind_const; [apply const_op_defined | exact H0 | intros rp].
  destruct (Z.eqb_spec (uint32_t offs) 0) as [E|E]; cbn [negb].
  - eapply wp_bind_state; [now apply decode_first_life | |].
    + intros s1 H1. apply first_post_post; auto.
    + intros rd s1 H1. apply wp_ret, first_post_post; auto.
  - eapply wp_stable; [|intros s'; now apply keeps_post]. stable_auto.
Qed.

(** ** rcv_decode *)

Lemma keeps_lift {A} (m : method A) : stable keeps m -> stable keeps_rs (lift m).
Proof. intros Hm s. unfold keeps_rs, lift. specialize (Hm (rs_world s)). now destruct (m _). Qed.

Lemma keeps_get_ifs : stable keeps_rs get_ifs.
Proof. intros s. reflexivity. Qed.

Lemma keeps_set_ifs i : stable keeps_rs (set_ifs i).
Proof. intros s. unfold keeps_rs. reflexivity. Qed.

Lemma keeps_get_rec_offs : stable keeps_rs get_rec_offs.
Proof. intros s. reflexivity. Qed.

Lemma keeps_set_rec_offs n : stable keeps_rs (set_rec_offs n).
Proof. intros s. unfold keeps_rs. reflexivity. Qed.

#[local] Hint Resolve keeps_lift keeps_get_ifs keeps_set_ifs keeps_get_rec_offs
  keeps_set_rec_offs : stable.

Lemma keeps_store_tail off bs : stable keeps (store_tail off bs).
Proof. unfold store_tail. stable_auto. Qed.

Lemma keeps_ifsp_read n store :
  (forall bs, stable keeps (store bs)) -> stable keeps_rs (ifsp_read n store).
Proof. intros Hs. unfold ifsp_read. stable_auto. Qed.

Lemma keeps_ifsp_ignore n : stable keeps_rs (ifsp_ignore n).
Proof. unfold ifsp_ignore. stable_auto. Qed.

Lemma keeps_rcv_eof_return : stable keeps_rs rcv_eof_return.
Proof. unfold rcv_eof_return. stable_auto. Qed.

#[local] Hint Resolve keeps_store_tail keeps_ifsp_read keeps_ifsp_ignore
  keeps_rcv_eof_return : stable.

(** Behind the first call: the xid, the tail, the padding and the check. *)
Lemma keeps_rcv_rest :
  stable keeps_rs
    (r1 <- rcv_xid ;;
     match r1 with
     | Some b => ret b
     | None => r2 <- rcv_tail ;; match r2 with Some b => ret b | None => rcv_finish end
     end).
Proof. unfold rcv_xid, rcv_tail, rcv_finish. stable_auto. Qed.

Lemma wp_lift_state {A B} (m : method A) (k : A -> rcv B) s (P : rstate -> Prop) :
  (forall r w', m (rs_world s) = (r, w') ->
     match r with
     | Ok a => wp (k a) (RState w' (rs_ifs s) (rs_rec_offs s)) (fun _ => P)
     | Err _ => P (RState w' (rs_ifs s) (rs_rec_offs s))
     end) ->
  wp (bind (lift m) k) s (fun _ => P).
Proof.
  intros H. apply wp_bind. unfold wp at 1, lift.
  destruct (m (rs_world s)) as [r w'] eqn:E. specialize (H r w' eq_refl). now destruct r.
Qed.

(** The store of the characters read at the xid size. *)
Lemma store_xidsize_life bs w :
  exists r, snd (store_xidsize bs w) = World (mem w) r /\
            (txn_rec_wf (this w) -> txn_rec_wf r) /\ _buff r = _buff (this w).
Proof.
  unfold store_xidsize, bind, self. cbv zeta.
  destruct (in_bounds _ 0 (len bs)) eqn:E; [|exists (this w); now destruct w].
  eexists. split; [reflexivity|]. split; [|reflexivity]. apply set_xidsize_wf.
  apply in_bounds_true in E. set (img := splice _ 0 bs).
  pose proof (le_combine_bound img) as Hb.
  assert (Hl : len img = 8) by (unfold img; rewrite len_splice by lia; apply len_le_split).
  unfold len in Hl. replace (8 * Z.of_nat (length _)) with 64 in Hb by lia. exact Hb.
Qed.

(** The first call of rcv_decode, whatever the stream holds. *)
Lemma rcv_first_life h s :
  rec_hdr_wf h -> obj_ok (rs_world s) ->
  wp (rcv_first h) s (fun _ s' => first_post (rs_world s) (rs_world s')).
Proof.
  intros Hh Hok. pose proof Hok as [Hwf Hl]. destruct s as [w i n]. cbn [rs_world] in *.
  unfold rcv_first. eapply wp_lift; [reflexivity|]. cbn [rs_ifs rs_rec_offs mem this].
  unfold ifsp_read. apply wp_bind_bind, wp_get_ifs. cbn [rs_ifs].
  destruct (ifs_read _ i) as [bs i']. apply wp_bind_bind, wp_set_ifs. cbn [rs_world rs_rec_offs].
  destruct (store_xidsize_life bs (World (mem w) (set_rhdr (rec_hdr_copy h) (this w))))
    as (r2 & E2 & Hwf2 & Hb2). cbn [mem this] in *.
  assert (H2 : txn_rec_wf r2) by now apply Hwf2, set_rhdr_wf.
  apply wp_lift_state. cbn [rs_world rs_ifs rs_rec_offs]. intros r w' E. rewrite E in E2.
  cbn [snd] in E2. subst w'. destruct r as [[]|f]; [|now apply first_post_same].
  apply wp_set_rec_offs, wp_lift_self, wp_lift_state. cbn [rs_world rs_ifs rs_rec_offs this].
  intros r w'. unfold mem_malloc. destruct (malloc _ _) as [p h'] eqn:Em. intros [= <- <-].
  pose proof (alloc_buff_life w (World (mem w) r2) p h'
                ltac:(split; [exact H2 | intros b; simpl; rewrite Hb2; apply Hl])
                ltac:(reflexivity) Em) as Hp.
  eapply wp_lift; [reflexivity|]. cbn [rs_ifs rs_rec_offs mem this].
  destruct p as [b|]; [eapply wp_lift; [reflexivity | exact Hp]|].
  eapply wp_lift_err; [reflexivity | exact Hp].
Qed.

Lemma call_post_keeps w c s s' : call_post w c s -> keeps s s' -> call_post w c s'.
Proof.
  intros (Hok & Hle & Hs) [K1 K2]. destruct (K1 Hok) as [Hok' Hle'].
  split; [exact Hok'|]. split; [now transitivity s | auto].
Qed.

Lemma rcv_decode_life h w i n :
  rec_hdr_wf h -> obj_ok w ->
  wp (rcv_decode h) (RState w i n)
     (fun _ s' => call_post w (CallRcvDecode h i n) (rs_world s')).
Proof.
  intros Hh Hok. unfold rcv_decode. apply wp_get_rec_offs. cbn [rs_rec_offs].
  eapply wp_bind_state with (P1 := fun s1 => call_post w (CallRcvDecode h i n) (rs_world s1)).
  - destruct (Z.eqb_spec n 0) as [E|E]; [|now apply wp_ret, keeps_post].
    eapply wp_mono; [now apply rcv_first_life|]. intros r s1 H1.
    apply first_post_post; auto.
  - auto.
  - intros _ s1 H1. eapply wp_stable; [apply keeps_rcv_rest|].
    intros s' K. now apply (call_post_keeps _ _ (rs_world s1)).
Qed.

(** ** Every call keeps the invariants *)

Section Calls.
Context (RHM_CLEAN : option byte).

Lemma exec_life c w :
  call_typed c -> obj_ok w -> call_post w c (snd (exec RHM_CLEAN c w)).
Proof.
  intros Ht Hok.
  destruct c; cbn [exec call_typed] in *;
    try (apply keeps_post; [exact Hok|]; first
           [ apply keeps_reset_magic | apply keeps_reset | apply keeps_forget, keeps_encode
           | apply keeps_forget, keeps_get_xid | apply keeps_chk_hdr | apply keeps_chk_hdr_rid
           | apply keeps_chk_tail | apply keeps_mem_store ]).
  - now apply (wp_forget (decode h rptr rec_offs_dblks max_size_dblks)), decode_life.
  - pose proof (rcv_decode_life h w i rec_offs Ht Hok) as H. unfold wp in H.
    unfold rcv_call. now destruct (rcv_decode _ _).
Qed.

Section Guard.
Context (G : world -> call -> Prop) `{!forall w c, Decision (G w c)}.

Lemma exec_all_run cs : forall w w',
  exec_all RHM_CLEAN G cs w = Some w' <-> run RHM_CLEAN G w cs w'.
Proof.
  induction cs as [|c cs IH]; intros w w'; cbn [exec_all].
  - split; [intros [= <-]; constructor | inversion 1; reflexivity].
  - destruct (decide (G w c)) as [Hg|Hg].
    + destruct (exec RHM_CLEAN c w) as [r w1] eqn:E. split.
      * destruct (goes_on r) eqn:Er; [|discriminate]. intros Hc%IH.
        econstructor; [|exact Hc]. replace w1 with (snd (exec RHM_CLEAN c w)) by now rewrite E.
        constructor; [exact Hg | now rewrite E].
      * inversion 1 as [|? ? ? ? ? [_ Hr] Hrun]; subst. rewrite E in *. cbn [fst snd] in *.
        rewrite Hr. now apply IH.
    + split; [discriminate|]. inversion 1 as [|? ? ? ? ? [Hg' _] _]. contradiction.
Qed.

(** The invariants along a run whose calls are typed. *)
Lemma run_life w cs w' :
  (forall w c, G w c -> call_typed c) -> run RHM_CLEAN G w cs w' -> obj_ok w ->
  obj_ok w' /\ moved w w'.
Proof.
  intros HG Hrun. induction Hrun as [w|w c w1 cs w' [Hg _] _ IH]; intros Hok.
  - split; [exact Hok | reflexivity].
  - destruct (exec_life c w (HG _ _ Hg) Hok) as (Hok1 & Hle & _).
    destruct (IH Hok1) as [Hok' Hle']. split; [exact Hok' | etransitivity; eassumption].
Qed.

End Guard.

(** The size of the buffer along a run that keeps the discipline. *)
Lemma run_sized w cs w' :
  run RHM_CLEAN disciplined w cs w' -> obj_ok w -> buff_sized w -> buff_sized w'.
Proof.
  intros Hrun. induction Hrun as [w|w c w1 cs w' [[Ht Hf] _] _ IH]; intros Hok Hs; [exact Hs|].
  destruct (exec_life c w Ht Hok) as (Hok1 & _ & Hs1). auto.
Qed.

End Calls.

Lemma constructed_ok h r : constructed r -> obj_ok (World h r) /\ buff_sized (World h r).
Proof.
  intros Hc. assert (Hb : _buff r = None) by now destruct Hc.
  split; [split|]; [destruct Hc; wf_solve | |]; intros b; simpl; congruence.
Qed.

(** ** The cycle of a pooled reader: every record costs its xid *)

Section Reuse.
Context (r0 : txn_rec) (xid : list byte) (h : rec_hdr_t) (pg : ptr) (max : Z).

Lemma reuse_decode_pre w :
  reuse_pre r0 xid h pg max w -> xid_size r0 <= heap_avail (mem w) ->
  decode_pre r0 xid (snd (reset_magic (_magic h) w)) h pg 0 max.
Proof.
  intros [Hxs Hlen Ht0 Hse Hh Hmg Hv Hfit Hpg Hobj Hav] Hroom.
  assert (Es : rec_size r0 = 40 + xid_size r0).
  { unfold rec_size, xid_size in *. consts. rewrite size_t_small by lia. lia. }
  assert (El : encode_len r0 0 max = rec_size r0) by (unfold encode_len; lia).
  split; auto; unfold JRNL_DBLK_SIZE in *; try lia.
  - rewrite El.
    change (load (mem w) pg (rec_size r0) = Some (slice 0 (rec_size r0) (rec_image r0 xid))).
    rewrite Hpg, slice_all; [reflexivity|]. len.
  - change (0 =? 0) with true. cbv iota. do 4 (split; [assumption|]).
    unfold reset_magic, set_this, modify. cbn [snd this _txn_tail].
    pose proof (not32_range (uint32_t (_magic h))). destruct Hobj as (_ & Hc & _).
    unfold rec_tail_wf. cbn [_xmagic _checksum _tail_rid]. lia.
Qed.

(** One cycle with memory for the xid. *)
Lemma reuse_cycle w :
  reuse_pre r0 xid h pg max w -> xid_size r0 <= heap_avail (mem w) ->
  exists n w', (reset_magic (_magic h) ;; decode h (Some pg) 0 max) w = (Ok n, w') /\
               heap_avail (mem w') = heap_avail (mem w) - xid_size r0 /\
               reuse_pre r0 xid h pg max w'.
Proof.
  intros Hpre Hroom. pose proof (reuse_decode_pre w Hpre Hroom) as Hd.
  change ((reset_magic (_magic h) ;; decode h (Some pg) 0 max) w)
    with (decode h (Some pg) 0 max (snd (reset_magic (_magic h) w))).
  set (wr := snd (reset_magic (_magic h) w)) in *.
  pose proof (decode_other _ _ _ _ _ _ _ pg (rec_size r0) Hd) as Hfr.
  destruct (decode_effect _ _ _ _ _ _ _ Hd)
    as (b & w1 & w' & E & [Hm Hw1] & _ & Hs & t' & Ht & Hwf & _).
  destruct Hpre as [Hxs Hlen Ht0 Hse Hh Hmg Hv Hfit Hpg Hobj Hav].
  rewrite E in *. cbn [snd] in Hfr. change (mem wr) with (mem w) in *.
  unfold decode_outcome, chk_outcome, JRNL_DBLK_SIZE in *.
  rewrite (proj2 (Z.leb_le _ _)) by lia.
  rewrite decide_True by assumption. eexists _, w'. split; [reflexivity|].
  assert (Ea : heap_avail (mem w') = heap_avail (mem w) - xid_size r0).
  { rewrite (store_avail _ _ _ _ Hs). exact (malloc_avail _ _ _ _ Hm). }
  split; [exact Ea|]. split; auto; try lia.
  - rewrite Hfr; [exact Hpg | eapply load_is_valid; exact Hpg | discriminate].
  - rewrite Ht. exact Hwf.
Qed.

(** One cycle without. *)
Lemma reuse_cycle_oom w :
  reuse_pre r0 xid h pg max w -> heap_avail (mem w) < xid_size r0 ->
  fst ((reset_magic (_magic h) ;; decode h (Some pg) 0 max) w) = Err (Throw JERR__MALLOC).
Proof.
  intros [Hxs Hlen Ht0 Hse Hh Hmg Hv Hfit Hpg Hobj Hav] Hroom.
  assert (Es : rec_size r0 = 40 + xid_size r0).
  { unfold rec_size, xid_size in *. consts. rewrite size_t_small by lia. lia. }
  unfold JRNL_DBLK_SIZE in *. unfold bind. cbn [reset_magic set_this modify].
  erewrite (decode_no_memory h pg 0 max _ (le_split 8 (xid_size r0)));
    [reflexivity | reflexivity | | | | |].
  - rewrite uint32_t_small by lia. lia.
  - change (load (mem w) (ptr_add pg 16) 8 = Some (le_split 8 (xid_size r0))).
    rewrite (load_sub _ _ _ _ 16 8 Hpg) by lia. reflexivity.
  - exact Hmg.
  - exact Hv.
  - cbn [mem]. rewrite le_roundtrip by (simpl; lia). exact Hroom.
Qed.

Lemma reuse_run k : forall w,
  reuse_pre r0 xid h pg max w -> Z.of_nat k * xid_size r0 <= heap_avail (mem w) ->
  exists w', reuse h pg max k w = (Ok tt, w') /\
             heap_avail (mem w') = heap_avail (mem w) - Z.of_nat k * xid_size r0 /\
             reuse_pre r0 xid h pg max w'.
Proof.
  induction k as [|k IH]; intros w Hpre Hroom.
  - exists w. split; [reflexivity|]. split; [lia | exact Hpre].
  - pose proof (ru_xidsize _ _ _ _ _ _ Hpre) as Hxs.
    destruct (reuse_cycle w Hpre ltac:(lia)) as (n & w1 & E & Ea & Hpre1).
    destruct (IH w1 Hpre1 ltac:(lia)) as (w' & E' & Ea' & Hpre').
    exists w'. split; [|split; [lia | exact Hpre']].
    change (reuse h pg max (S k) w)
      with (match (reset_magic (_magic h) ;; decode h (Some pg) 0 max) w with
            | (Ok _, w1) => reuse h pg max k w1
            | (Err f, w1) => (Err f, w1)
            end).
    rewrite E. exact E'.
Qed.

End Reuse.

Section Exhaust.
Context (r0 : txn_rec) (xid : list byte) (h : rec_hdr_t) (pg : ptr) (max : Z).

Lemma reuse_S k w :
  reuse h pg max (S k) w =
  match (reset_magic (_magic h) ;; decode h (Some pg) 0 max) w with
  | (Ok _, w1) => reuse h pg max k w1
  | (Err f, w1) => (Err f, w1)
  end.
Proof. reflexivity. Qed.

(** With memory for [k] buffers and no more, the cycle after the [k]-th
    throws. *)
Lemma reuse_oom k : forall w,
  reuse_pre r0 xid h pg max w ->
  Z.of_nat k * xid_size r0 <= heap_avail (mem w) < (Z.of_nat k + 1) * xid_size r0 ->
  fst (reuse h pg max (S k) w) = Err (Throw JERR__MALLOC).
Proof.
  induction k as [|k IH]; intros w Hpre Hroom; rewrite reuse_S.
  - pose proof (reuse_cycle_oom r0 xid h pg max w Hpre ltac:(lia)) as E.
    destruct ((reset_magic (_magic h) ;; decode h (Some pg) 0 max) w) as [[n|f] w1];
      [discriminate E | injection E as ->; reflexivity].
  - pose proof (ru_xidsize _ _ _ _ _ _ Hpre) as Hxs.
    destruct (reuse_cycle r0 xid h pg max w Hpre ltac:(lia)) as (n & w1 & -> & Ea & Hpre1).
    apply (IH w1 Hpre1). lia.
Qed.

End Exhaust.

(** ** The properties of the object in use *)

(** C16 (invariant): the object owns its buffer.  From an object as a
    constructor leaves it, along any sequence of calls of its methods
    with any arguments and of writes of the journal into memory that
    keeps the reuse discipline, in which a call either returns or throws:
    the fields of the object hold values of their types; the heap has
    only moved up, every block allocated before is there with its
    extent; and [_buff] is null or the start of a block of exactly
    [_xidsize] bytes that was not allocated when the object was
    constructed, the block that std::malloc returned for the xid of
    the record. *)
Theorem run_invariant c0 h r cs w :
  constructed r -> run c0 disciplined (World h r) cs w ->
  txn_rec_wf (this w) /\ heap_le h (mem w) /\
  forall b, _buff (this w) = Some b ->
            heap_cells h !! p_blk b = None /\ block_of (mem w) b (xid_size (this w)).
Proof.
  intros Hc Hrun. destruct (constructed_ok h r Hc) as [Hok Hs].
  destruct (run_life c0 disciplined _ _ _ (fun _ _ H => proj1 H) Hrun Hok)
    as [[Hwf _] [Hle Hb]].
  pose proof (run_sized c0 _ _ _ Hrun Hok Hs) as Hs'.
  split; [exact Hwf|]. split; [exact Hle|]. intros b Eb. split; [|now apply Hs'].
  destruct (Hb b Eb) as [E|E]; [|exact E]. destruct Hc; discriminate E.
Qed.

Lemma run_invariant_witness :
  txn_rec_wf (this ex_pool) /\ heap_le ex_journal (mem ex_pool) /\
  forall b, _buff (this ex_pool) = Some b ->
            heap_cells ex_journal !! p_blk b = None /\
            block_of (mem ex_pool) b (xid_size (this ex_pool)).
Proof.
  apply (run_invariant None ex_journal txn_rec_ctor0 ex_pool_calls ex_pool);
    [exact constructed0 | apply (proj1 (exec_all_run None _ _ _ _)); vm_compute; reflexivity].
Defined.

(** C17 (safety): get_xid hands out memory that is there.  Along any
    sequence of calls that keeps the reuse discipline, a first call of
    decode or rcv_decode only on an object without buffer, get_xid either
    stores a null pointer and returns 0, or stores a pointer to a region
    of as many allocated bytes as it returns. *)
Theorem get_xid_safe c0 h r cs w :
  constructed r -> run c0 disciplined (World h r) cs w ->
  get_xid w = (Ok (None, 0), w) \/
  exists b bs, get_xid w = (Ok (Some b, xid_size (this w)), w) /\
               load (mem w) b (xid_size (this w)) = Some bs.
Proof.
  intros Hc Hrun. destruct (constructed_ok h r Hc) as [Hok Hs].
  destruct (run_life c0 disciplined _ _ _ (fun _ _ H => proj1 H) Hrun Hok) as [[Hwf _] _].
  pose proof (run_sized c0 _ _ _ Hrun Hok Hs) as Hs'. unfold get_xid, bind, self.
  destruct (_buff (this w)) as [b|] eqn:Eb; [right | now left].
  destruct (load_valid _ _ _ (buff_sized_valid w b Hwf Hs' Eb)) as (bl & _ & El). eauto.
Qed.

Lemma get_xid_safe_witness :
  get_xid ex_pool = (Ok (None, 0), ex_pool) \/
  exists b bs, get_xid ex_pool = (Ok (Some b, xid_size (this ex_pool)), ex_pool) /\
               load (mem ex_pool) b (xid_size (this ex_pool)) = Some bs.
Proof.
  apply (get_xid_safe None ex_journal txn_rec_ctor0 ex_pool_calls ex_pool);
    [exact constructed0 | apply (proj1 (exec_all_run None _ _ _ _)); vm_compute; reflexivity].
Defined.

(** C32 (safety): without the discipline the buffer is too short.  A
    reader that owns a buffer, a block of [n] bytes, and is given a
    first call of decode without a reset, with a header that the check
    rejects and a page that states an xid size [m] above [n], keeps the
    buffer and takes the size: the call throws JERR_JREC_BADRECHDR, so
    the caller goes on, and get_xid then hands out the block of [n]
    bytes as [m] bytes, of which a read faults.  The call is typed and
    breaks the discipline only. *)
Theorem stale_buffer_reachable c0 w b n h pg offs max m :
  _buff (this w) = Some b -> block_of (mem w) b n ->
  rec_hdr_wf h -> ~ (txn_magic (_magic h) /\ _version h = QLS_JRNL_VERSION) ->
  uint32_t offs = 0 -> 0 < uint32_t max ->
  load (mem w) (ptr_add pg sizeof_rec_hdr_t) 8 = Some (le_split 8 m) -> n < m < 2 ^ 64 ->
  ~ disciplined w (CallDecode h (Some pg) offs max) /\
  exists w', step c0 typed w (CallDecode h (Some pg) offs max) w' /\
             get_xid w' = (Ok (Some b, m), w') /\ load (mem w') b m = None /\
             ~ buff_sized w'.
Proof.
  intros Eb Hb Hh Hbad Ho Hmax Hl Hm. split; [intros [_ Hf]; specialize (Hf Ho); congruence|].
  pose proof (decode_rejected h pg offs max w _ Ho Hmax Hl Hbad) as E.
  destruct Hb as (Hp & c & Hc & Hn). pose proof (len_nonneg c).
  rewrite le_roundtrip in E by (simpl; lia).
  set (w' := World (mem w) (set_xidsize m (set_rhdr (rec_hdr_copy h) (this w)))) in *.
  assert (Ex : exec c0 (CallDecode h (Some pg) offs max) w
               = (Err (Throw JERR_JREC_BADRECHDR), w'))
    by (cbn [exec]; unfold forget, bind; now rewrite E).
  assert (Eb' : _buff (this w') = Some b) by exact Eb.
  exists w'. split; [|split; [|split]].
  - pose proof (step_intro c0 typed w (CallDecode h (Some pg) offs max) Hh) as S.
    rewrite Ex in S. now apply S.
  - unfold get_xid, bind, self. now rewrite Eb'.
  - apply (load_behind _ _ _ c); [exact Hc | lia].
  - intros Hs. destruct (Hs b Eb') as (_ & c' & Hc' & Hn'). cbn [mem w'] in Hc'.
    change (xid_size (this w')) with m in Hn'. simplify_eq. lia.
Qed.

Lemma stale_buffer_reachable_witness :
  ~ disciplined ex_owner (CallDecode ex_foreign_hdr (Some ex_page) 0 2) /\
  exists w', step None typed ex_owner (CallDecode ex_foreign_hdr (Some ex_page) 0 2) w' /\
             get_xid w' = (Ok (Some (Ptr 3%positive 0), 4096), w') /\
             load (mem w') (Ptr 3%positive 0) 4096 = None /\ ~ buff_sized w'.
Proof.
  apply (stale_buffer_reachable None ex_owner (Ptr 3%positive 0) 200 ex_foreign_hdr ex_page
           0 2 4096); try (vm_compute; intuition congruence).
  split; [reflexivity|]. eexists. split; [vm_compute; reflexivity | reflexivity].
Defined.

(** C33 (bounds): the buffers of a pooled reader are never released.  A
    reader that is reset and decodes a record of [xid_size] bytes of xid,
    again and again, takes [xid_size] bytes from the allocator in every
    cycle: the first [heap_avail / xid_size] cycles return and leave
    [heap_avail mod xid_size] bytes to allocate, and the next one throws
    JERR__MALLOC. *)
Theorem reuse_exhausts_memory r0 xid h pg max w :
  reuse_pre r0 xid h pg max w ->
  let k := Z.to_nat (heap_avail (mem w) / xid_size r0) in
  (exists w', reuse h pg max k w = (Ok tt, w') /\
              heap_avail (mem w') = heap_avail (mem w) mod xid_size r0) /\
  fst (reuse h pg max (S k) w) = Err (Throw JERR__MALLOC).
Proof.
  intros Hpre k. pose proof (ru_xidsize _ _ _ _ _ _ Hpre) as Hxs.
  pose proof (ru_avail _ _ _ _ _ _ Hpre) as Hav.
  assert (Ek : Z.of_nat k = heap_avail (mem w) / xid_size r0).
  { unfold k. rewrite Z2Nat.id; [reflexivity | apply Z.div_pos; lia]. }
  pose proof (Z.div_mod (heap_avail (mem w)) (xid_size r0) ltac:(lia)) as Hdm.
  pose proof (Z.mod_pos_bound (heap_avail (mem w)) (xid_size r0) ltac:(lia)) as Hm.
  split.
  - destruct (reuse_run r0 xid h pg max k w Hpre ltac:(nia)) as (w' & E & Ea & _).
    exists w'. split; [exact E | nia].
  - apply (reuse_oom r0 xid); [exact Hpre | nia].
Qed.

Lemma ex_reuse_pre : reuse_pre ex_rec ex_xid (_rhdr (_txn_hdr ex_rec)) ex_page 2 ex_start.
Proof. split; try reflexivity; vm_compute; intuition congruence. Defined.

Lemma reuse_exhausts_memory_witness :
  (exists w', reuse (_rhdr (_txn_hdr ex_rec)) ex_page 2 20 ex_start = (Ok tt, w') /\
              heap_avail (mem w') = 96) /\
  fst (reuse (_rhdr (_txn_hdr ex_rec)) ex_page 2 21 ex_start) = Err (Throw JERR__MALLOC).
Proof. exact (reuse_exhausts_memory ex_rec ex_xid _ ex_page 2 ex_start ex_reuse_pre). Defined.
