(* ===== verification/Replay.v ===== *)
(** * Replay: the pass of recovery over a journal file

    At restart the journal is read back record by record: the recovery
    manager reads the generic header of the next record off the stream,
    gives it to rcv_decode of a fresh txn_rec, which pulls the rest of the
    record, and copies the xid out of the reader.  The pass ends at the
    end of the file, or at the record that the file ends in.  This file
    composes the stream of Stream.v, the object of TxnRec.v and the
    recovery of Recover.v over a file that holds several records, each
    padded to whole dblks.

    [read_hdr] reads the generic header, [recover_record] recovers one
    record into an [entry], [replay] is the loop, bounded by a number of
    records; [journal_holds] says that a file holds a list of records one
    behind the other, [replay_pre] is what the pass needs of the file, of
    its stream and of the memory of the process.

    The theorems: the pass over a file that holds the records and nothing
    else yields their headers and xids in the order of the file; over a
    file that ends inside a further record, at any byte of it, the pass
    yields the records before it and reports the journal incomplete; a
    record whose tail is not the one of its header stops the pass with
    JERR_JREC_BADRECTAIL; the pass throws JERR__MALLOC at the record with
    which the xids exceed the memory left; and on any file at all one sixteenth of its
    length bounds the number of turns of the loop, so that every larger
    bound gives the same outcome. *)

From Stdlib Require Import ZArith Lia List.
From coqutil Require Import Byte Word.LittleEndianList.
From stdpp Require Import base option list gmap.
From S2P Require Import Prelude Memory Layout Stream TxnRec Decode Recover.

#[local] Open Scope Z_scope.
#[local] Open Scope jrnl_scope.

(** ** The state of the pass and what it yields *)

(** The memory of the recovering process and the stream on the file. *)
Record jstate : Type := JState { j_mem : heap; j_ifs : ifstream }.

(** A recovered record: its generic header and its xid. *)
Record entry : Type := Entry { e_hdr : rec_hdr_t; e_xid : list byte }.

(** How a pass ends: at the end of the file, inside a record, or at the
    bound on the number of records. *)
Inductive replay_end : Type := EndOfJournal | Incomplete | Unfinished.

#[export] Instance replay_end_eq_dec : EqDecision replay_end.
Proof. solve_decision. Defined.

(** ** The pass *)

(** The read of the generic header of the next record: all of it, none of
    it at the end of the file, or a part. *)
Definition read_hdr : M jstate jerrno (rec_hdr_t + replay_end) :=
  fun j =>
    let '(bs, i) := ifs_read (streamsize sizeof_rec_hdr_t) (j_ifs j) in
    (Ok (if ifs_gcount i =? sizeof_rec_hdr_t then inl (rec_hdr_of_bytes bs)
         else if ifs_gcount i =? 0 then inr EndOfJournal else inr Incomplete),
     JState (j_mem j) i).

(** The xid of the reader, copied out through get_xid. *)
Definition copy_xid : method (list byte) :=
  '(p, n) <- get_xid ;;
  match p with
  | Some b => mem_load b n
  | None => ret []
  end.

(** The use of the object for one record: one call of rcv_decode, the xid
    when the call returned true, and the destructor. *)
Definition recover_with (h : rec_hdr_t) : rcv (option entry) :=
  done <- rcv_decode h ;;
  e <- (if done : bool
        then xid <- lift copy_xid ;; ret (Some (Entry h xid))
        else ret None) ;;
  lift txn_rec_dtor ;;
  ret e.

(** One record: a fresh object and a count of 0; the memory and the stream
    are those of the pass. *)
Definition recover_record (h : rec_hdr_t) : M jstate jerrno (option entry) :=
  fun j =>
    let '(r, s) := recover_with h (RState (World (j_mem j) txn_rec_ctor0) (j_ifs j) 0) in
    (r, JState (mem (rs_world s)) (rs_ifs s)).

(** The loop over the records, [n] of them at most. *)
Fixpoint replay (n : nat) : M jstate jerrno (list entry * replay_end) :=
  match n with
  | O => ret ([], Unfinished)
  | S n' =>
      got <- read_hdr ;;
      match got with
      | inr fin => ret ([], fin)
      | inl h =>
          e <- recover_record h ;;
          match e with
          | None => ret ([], Incomplete)
          | Some e => '(es, fin) <- replay n' ;; ret (e :: es, fin)
          end
      end
  end.

(** The pass has come to an end of its own. *)
Definition finished {A} (r : res jerrno (A * replay_end)) : Prop :=
  match r with
  | Ok (_, fin) => fin <> Unfinished
  | Err _ => True
  end.

(** The outcome of a pass behind the entries [es0] that were recovered
    before it. *)
Definition prepend (es0 : list entry) (r : res jerrno (list entry * replay_end))
    : res jerrno (list entry * replay_end) :=
  match r with
  | Ok (es, fin) => Ok (es0 ++ es, fin)
  | Err f => Err f
  end.

(** ** What the pass needs: the abstract specification *)

(** The record with its padding. *)
Definition padded_size (r : txn_rec) : Z := rec_size r + rec_padding r.

(** A record with its xid that recovery can read: the fields of header
    and tail hold values of their types, the xid has the size that the
    header states, and the record with its padding stays below 4 GiB. *)
Record rec_ok (rx : txn_rec * list byte) : Prop := {
  ro_hdr : rec_hdr_wf (_rhdr (_txn_hdr rx.1));
  ro_xidsize : 0 <= xid_size rx.1;
  ro_nowrap : 40 + xid_size rx.1 <= 2 ^ 32 - 128;
  ro_xid : len rx.2 = xid_size rx.1;
  ro_tail : rec_tail_wf (_txn_tail rx.1)
}.

(** The file [F] holds from [p] on the records [recs], each with its
    padding. *)
Fixpoint journal_holds (F : list byte) (p : Z) (recs : list (txn_rec * list byte)) : Prop :=
  match recs with
  | [] => True
  | rx :: recs' =>
      file_holds F p (rec_image rx.1 rx.2) /\ p + padded_size rx.1 <= len F /\
      journal_holds F (p + padded_size rx.1) recs'
  end.

Definition journal_size (recs : list (txn_rec * list byte)) : Z :=
  foldr (fun rx acc => padded_size rx.1 + acc) 0 recs.

Definition total_xid (recs : list (txn_rec * list byte)) : Z :=
  foldr (fun rx acc => xid_size rx.1 + acc) 0 recs.

Definition entry_of (rx : txn_rec * list byte) : entry :=
  Entry (_rhdr (_txn_hdr rx.1)) rx.2.

(** The pass starts at [p] of the file [F], which holds the records
    [recs] there; each is a record that recovery can read and has the
    tail of its header, and the xids fit the memory left. *)
Record replay_pre (F : list byte) (p : Z) (recs : list (txn_rec * list byte)) (j : jstate)
    : Prop := {
  rp_recs : Forall rec_ok recs;
  rp_sealed : Forall (fun rx => txn_rec_sealed rx.1) recs;
  rp_file : journal_holds F p recs;
  rp_stream : stream_at F p (j_ifs j);
  rp_avail : total_xid recs <= heap_avail (j_mem j)
}.

(** The state behind the read of a header at [p] of the file [F]. *)
Definition behind_hdr (F : list byte) (p : Z) (j : jstate) : jstate :=
  JState (j_mem j) (Ifstream F (p + 16) 16 false false false).

(** What recovery leaves of the stream, whatever it reads: the file, and
    a position that has not moved back. *)
Definition ifs_on (i i' : ifstream) : Prop :=
  is_data i' = is_data i /\ (ifs_wf i -> is_pos i <= is_pos i' <= len (is_data i)).

Definition reads_on (s s' : rstate) : Prop := ifs_on (rs_ifs s) (rs_ifs s').

(** The bytes left to allocate are the same. *)
Definition avail_kept (w w' : world) : Prop := heap_avail (mem w') = heap_avail (mem w).

Definition rs_avail_kept (s s' : rstate) : Prop := avail_kept (rs_world s) (rs_world s').

(** ** A journal of two records

    [ex_log] holds the record of [ex_file] and behind it a commit record
    with an xid of five bytes, padded to one dblk with zeros;
    [ex_jstate F] is a process with the memory of [ex_heap] at the start
    of the file [F]. *)
Definition ex_xid2 : list byte := [Byte.x01; Byte.x02; Byte.x03; Byte.x04; Byte.x05].

Definition ex_rec2 : txn_rec := txn_rec_ctor QLS_TXC_MAGIC 9 None 5.

Definition ex_recs : list (txn_rec * list byte) := [(ex_rec, ex_xid); (ex_rec2, ex_xid2)].

Definition ex_log : list byte :=
  ex_file ++ rec_image ex_rec2 ex_xid2 ++ replicate 83 Byte.x00.

(** [ex_torn_log] holds the record of [ex_file] and behind it the record
    [ex_torn], whose tail has another rid than its header. *)
Definition ex_torn_log : list byte :=
  ex_file ++ rec_image ex_torn ex_xid ++ replicate 16 Byte.xff.

Definition ex_jstate (F : list byte) : jstate :=
  JState ex_heap (Ifstream F 0 0 false false false).

(** A closed statement about the journals above is decided by evaluation;
    so are the parts of [replay_pre] for them. *)
Ltac by_compute := vm_compute; intuition congruence.

Ltac ex_replay_pre :=
  split; [repeat constructor; by_compute | repeat constructor; by_compute | by_compute
         | split; by_compute | by_compute].

(** ** Lemmas: what recovery leaves of the stream *)

#[export] Instance ifs_on_preorder : PreOrder ifs_on.
Proof.
  split; [intros i; split; [reflexivity | unfold ifs_wf; lia]|].
  intros i1 i2 i3 [E1 H1] [E2 H2]. split; [congruence|]. intros Hwf.
  specialize (H1 Hwf). unfold ifs_wf in *. rewrite E1 in H2. lia.
Qed.

#[export] Instance reads_on_preorder : PreOrder reads_on.
Proof.
  split; [intros s; unfold reads_on; reflexivity|].
  intros s1 s2 s3. unfold reads_on. apply transitivity.
Qed.

Lemma ifs_on_read n i : ifs_on i (snd (ifs_read n i)).
Proof.
  unfold ifs_on, ifs_read, ifs_refuse, ifs_take, ifs_avail, ifs_wf.
  destruct (ifs_good i); cbn [snd is_pos is_data]; split; auto; lia.
Qed.

Lemma ifs_on_ignore n i : ifs_on i (ifs_ignore n i).
Proof.
  unfold ifs_on, ifs_ignore, ifs_refuse, ifs_take, ifs_avail, ifs_wf.
  destruct (ifs_good i); cbn [is_pos is_data]; split; auto; lia.
Qed.

Lemma ifs_on_clear_fail i : ifs_on i (ifs_clear_fail i).
Proof. unfold ifs_on, ifs_clear_fail, ifs_wf. cbn [is_pos is_data]. split; auto; lia. Qed.

Lemma reads_on_lift {A} (m : method A) : stable reads_on (lift m).
Proof. intros s. unfold reads_on, lift. destruct (m _). cbn [snd rs_ifs]. reflexivity. Qed.

Lemma reads_on_get_ifs : stable reads_on get_ifs.
Proof. intros s. reflexivity. Qed.

Lemma reads_on_get_rec_offs : stable reads_on get_rec_offs.
Proof. intros s. reflexivity. Qed.

Lemma reads_on_set_rec_offs n : stable reads_on (set_rec_offs n).
Proof. intros s. unfold reads_on. reflexivity. Qed.

Lemma reads_on_ifsp_read n store : stable reads_on (ifsp_read n store).
Proof.
  intros s. unfold ifsp_read, bind, get_ifs, set_ifs, lift, reads_on.
  pose proof (ifs_on_read (streamsize n) (rs_ifs s)) as H.
  destruct (ifs_read _ _) as [bs i']. cbn in *. now destruct (store bs _) as [[|] w'].
Qed.

Lemma reads_on_ifsp_ignore n : stable reads_on (ifsp_ignore n).
Proof. intros s. apply ifs_on_ignore. Qed.

Lemma reads_on_rcv_eof_return : stable reads_on rcv_eof_return.
Proof.
  intros s. unfold reads_on, rcv_eof_return, bind, get_ifs, set_ifs, assert, ret, raise.
  destruct (ifs_eof (rs_ifs s)); cbn [snd fst rs_ifs]; [|reflexivity].
  destruct (_ && _); cbn [snd rs_ifs]; apply ifs_on_clear_fail.
Qed.

#[local] Hint Resolve reads_on_lift reads_on_get_ifs reads_on_get_rec_offs
  reads_on_set_rec_offs reads_on_ifsp_read reads_on_ifsp_ignore reads_on_rcv_eof_return
  : stable.

(** rcv_decode reads on, whatever the file holds. *)
Lemma reads_on_rcv_decode h : stable reads_on (rcv_decode h).
Proof. unfold rcv_decode, rcv_first, rcv_xid, rcv_tail, rcv_finish. stable_auto. Qed.

(** ** Lemmas: what recovery takes from memory *)

#[export] Instance avail_kept_preorder : PreOrder avail_kept.
Proof. split; unfold avail_kept; [intros w | intros w1 w2 w3]; congruence. Qed.

#[export] Instance rs_avail_kept_preorder : PreOrder rs_avail_kept.
Proof.
  split; unfold rs_avail_kept; [intros s; reflexivity | intros s1 s2 s3; apply transitivity].
Qed.

Lemma avail_same_obj {A} (m : method A) : stable same_obj m -> stable avail_kept m.
Proof. apply stable_sub. intros w w' (_ & H & _). exact H. Qed.

Lemma avail_set_this f : stable avail_kept (set_this f).
Proof. intros w. reflexivity. Qed.

#[local] Hint Resolve avail_set_this : stable.
#[local] Hint Extern 1 (stable avail_kept self) => apply avail_same_obj, stable_self : stable.
#[local] Hint Extern 1 (stable avail_kept (mem_store _ _)) =>
  apply avail_same_obj, stable_mem_store : stable.

Lemma avail_store_tail off bs : stable avail_kept (store_tail off bs).
Proof. unfold store_tail. stable_auto. Qed.

Lemma avail_chk_tail : stable avail_kept chk_tail.
Proof. unfold chk_tail, jrec_chk_tail. stable_auto. Qed.

Lemma avail_lift {A} (m : method A) : stable avail_kept m -> stable rs_avail_kept (lift m).
Proof.
  intros Hm s. unfold rs_avail_kept, lift. specialize (Hm (rs_world s)). now destruct (m _).
Qed.

Lemma avail_get_ifs : stable rs_avail_kept get_ifs.
Proof. intros s. reflexivity. Qed.

Lemma avail_set_ifs i : stable rs_avail_kept (set_ifs i).
Proof. intros s. unfold rs_avail_kept. reflexivity. Qed.

Lemma avail_get_rec_offs : stable rs_avail_kept get_rec_offs.
Proof. intros s. reflexivity. Qed.

Lemma avail_set_rec_offs n : stable rs_avail_kept (set_rec_offs n).
Proof. intros s. unfold rs_avail_kept. reflexivity. Qed.

#[local] Hint Resolve avail_store_tail avail_chk_tail avail_lift avail_get_ifs avail_set_ifs
  avail_get_rec_offs avail_set_rec_offs : stable.

(** Behind the first call, recovery allocates nothing. *)
Lemma avail_rcv_rest :
  stable rs_avail_kept
    (r1 <- rcv_xid ;;
     match r1 with
     | Some b => ret b
     | None => r2 <- rcv_tail ;; match r2 with Some b => ret b | None => rcv_finish end
     end).
Proof.
  unfold rcv_xid, rcv_tail, rcv_finish, ifsp_read, ifsp_ignore, rcv_eof_return. stable_auto.
Qed.

(** The first call under the contract takes the size of the xid. *)
Lemma rcv_decode_avail r0 xid F p0 h w i :
  rcv_pre r0 xid F p0 h (RState w i 0) ->
  wp (rcv_decode h) (RState w i 0)
     (fun _ s' => heap_avail (mem (rs_world s')) = heap_avail (mem w) - xid_size r0).
Proof.
  intros [Hxs Hbig Hlen Ht0 HF Hst]. cbn [rs_rec_offs rs_world rs_ifs Z.eqb] in Hst.
  destruct Hst as (Hh & Hi & HT & Hav & Htw).
  unfold rcv_decode. apply wp_get_rec_offs. cbn [rs_rec_offs Z.eqb].
  eapply wp_bind_with; [now apply (rcv_first_spec r0 xid F p0)|].
  intros res s1 (-> & _ & b & Hm & _).
  apply (wp_stable rs_avail_kept); [apply avail_rcv_rest|].
  intros s' Hs'. unfold rs_avail_kept, avail_kept in Hs'. rewrite Hs'.
  exact (malloc_avail _ _ _ _ Hm).
Qed.

(** ** Lemmas: one record *)

(** The read of the header on a good stream. *)
Lemma read_hdr_at F p j :
  stream_at F p (j_ifs j) ->
  read_hdr j =
  (Ok (if 16 <=? len F - p then inl (rec_hdr_of_bytes (slice p 16 F))
       else if len F - p =? 0 then inr EndOfJournal else inr Incomplete),
   JState (j_mem j) (Ifstream F (p + Z.min 16 (len F - p)) (Z.min 16 (len F - p))
                       (len F - p <? 16) (len F - p <? 16) false)).
Proof.
  intros Hi. pose proof (sa_in _ _ _ Hi) as Hin. unfold read_hdr, sizeof_rec_hdr_t.
  rewrite (ifs_read_at _ _ _ Hi) by lia. cbn [ifs_gcount is_gcount]. f_equal. f_equal.
  destruct (Z.leb_spec 16 (len F - p)).
  - rewrite Z.min_l, Z.eqb_refl by lia. reflexivity.
  - rewrite Z.min_r by lia. replace (len F - p =? 16) with false by lia. reflexivity.
Qed.

(** The header at the start of the image of a record. *)
Lemma image_hdr F p rx :
  rec_ok rx -> file_holds F p (rec_image rx.1 rx.2) -> 16 <= len F - p ->
  rec_hdr_of_bytes (slice p 16 F) = _rhdr (_txn_hdr rx.1).
Proof.
  intros [Hh Hxs _ Hlen _] HF H16. replace p with (p + 0) by lia.
  rewrite (file_holds_slice _ _ _ _ _ HF) by (len; lia).
  rewrite <- (rec_hdr_of_bytes_bytes _ Hh) at 1. f_equal.
Qed.

(** The reader that has consumed the record gives its xid. *)
Lemma copy_xid_decoded r0 xid w :
  len xid = xid_size r0 -> 0 <= xid_size r0 -> rec_size r0 = 40 + xid_size r0 ->
  decoded r0 xid (rec_size r0) w -> copy_xid w = (Ok xid, w).
Proof.
  intros Hlen Hxs Hrs [Hh (b & Eb & _ & Hl) _ _]. rewrite Hrs in Hl. consts.
  rewrite Z.min_r, slice_all in Hl by lia.
  unfold copy_xid, get_xid, bind, self. cbv beta iota. rewrite Eb. unfold ret, mem_load.
  rewrite Hh. fold (xid_size r0). now rewrite Hl.
Qed.

Section Record.
Context (F : list byte) (p : Z) (rx : txn_rec * list byte) (j : jstate).
Context (Hok : rec_ok rx) (HF : file_holds F p (rec_image rx.1 rx.2)).
Context (Hi : stream_at F (p + 16) (j_ifs j)) (H24 : 24 <= len F - p).
Context (Hav : xid_size rx.1 <= heap_avail (j_mem j)).

Abbreviation fresh_rstate := (RState (World (j_mem j) txn_rec_ctor0) (j_ifs j) 0).

Lemma record_rcv_pre : rcv_pre rx.1 rx.2 F p (_rhdr (_txn_hdr rx.1)) fresh_rstate.
Proof.
  destruct Hok as [Hh Hxs Hbig Hlen Ht]. split; auto.
  cbn [rs_rec_offs rs_world rs_ifs Z.eqb mem this].
  do 4 (split; [easy|]). vm_compute. intuition congruence.
Qed.

(** What the call of rcv_decode leaves: its contract, the file behind the
    stream, and the memory less the xid. *)
Lemma record_rcv :
  exists res s1, rcv_decode (_rhdr (_txn_hdr rx.1)) fresh_rstate = (res, s1) /\
                 rcv_post rx.1 rx.2 F p res s1 /\ is_data (rs_ifs s1) = F /\
                 heap_avail (mem (rs_world s1)) = heap_avail (j_mem j) - xid_size rx.1.
Proof.
  pose proof (rcv_decode_spec _ _ _ _ _ _ record_rcv_pre) as W.
  pose proof (rcv_decode_avail _ _ _ _ _ _ _ record_rcv_pre) as A.
  pose proof (reads_on_rcv_decode (_rhdr (_txn_hdr rx.1)) fresh_rstate) as [D _].
  unfold wp in W, A. destruct (rcv_decode _ _) as [res s1]. cbn [fst snd rs_ifs mem] in *.
  exists res, s1. rewrite D, (sa_data _ _ _ Hi). auto.
Qed.

(** The record is whole and its tail belongs to its header. *)
Lemma recover_record_whole :
  rec_size rx.1 <= len F - p -> txn_rec_sealed rx.1 ->
  exists j', recover_record (_rhdr (_txn_hdr rx.1)) j = (Ok (Some (entry_of rx)), j') /\
             heap_avail (j_mem j') = heap_avail (j_mem j) - xid_size rx.1 /\
             is_data (j_ifs j') = F /\
             is_pos (j_ifs j') = p + Z.min (len F - p) (padded_size rx.1) /\
             ifs_good (j_ifs j') = negb (len F - p <? padded_size rx.1).
Proof.
  intros Hall Hs. destruct record_rcv as (res & s1 & E & Hpost & Hd & Ha).
  pose proof (rec_size_eq _ (ro_xidsize _ Hok) (ro_nowrap _ Hok)) as Hrs.
  unfold rcv_post, rcv_outcome in Hpost. replace (_ <? rec_size _) with false in Hpost by lia.
  rewrite decide_True in Hpost by exact Hs. destruct Hpost as (-> & _ & Hdec & Hp & He & Hf).
  unfold recover_record, recover_with, bind. rewrite E. unfold lift at 1.
  rewrite (copy_xid_decoded _ _ _ (ro_xid _ Hok) (ro_xidsize _ Hok) Hrs Hdec).
  eexists. split; [reflexivity|]. cbn [j_mem j_ifs]. repeat split; auto.
  unfold ifs_good, ifs_eof, ifs_fail, padded_size in *. rewrite <- He.
  destruct (eofbit _), (failbit _), (badbit _); simpl in *; congruence.
Qed.

(** The record is whole and its tail is another. *)
Lemma recover_record_torn :
  rec_size rx.1 <= len F - p -> ~ txn_rec_sealed rx.1 ->
  fst (recover_record (_rhdr (_txn_hdr rx.1)) j) = Err (Throw JERR_JREC_BADRECTAIL).
Proof.
  intros Hall Hs. destruct record_rcv as (res & s1 & E & Hpost & _).
  unfold rcv_post, rcv_outcome in Hpost. replace (_ <? rec_size _) with false in Hpost by lia.
  rewrite decide_False in Hpost by exact Hs. destruct Hpost as (-> & _).
  unfold recover_record, recover_with, bind. now rewrite E.
Qed.

(** The file ends inside the record. *)
Lemma recover_record_cut :
  len F - p < rec_size rx.1 -> fst (recover_record (_rhdr (_txn_hdr rx.1)) j) = Ok None.
Proof.
  intros Hcut. destruct record_rcv as (res & s1 & E & Hpost & _).
  unfold rcv_post in Hpost. replace (_ <? rec_size _) with true in Hpost by lia.
  destruct Hpost as (-> & _). unfold recover_record, recover_with, bind. now rewrite E.
Qed.

End Record.

(** ** Lemmas: the loop *)

Lemma replay_S n j :
  replay (S n) j =
  match read_hdr j with
  | (Ok (inl h), j1) =>
      match recover_record h j1 with
      | (Ok (Some e), j2) => (prepend [e] (fst (replay n j2)), snd (replay n j2))
      | (Ok None, j2) => (Ok ([], Incomplete), j2)
      | (Err f, j2) => (Err f, j2)
      end
  | (Ok (inr fin), j1) => (Ok ([], fin), j1)
  | (Err f, j1) => (Err f, j1)
  end.
Proof.
  cbn [replay]. unfold bind. destruct (read_hdr j) as [[[h|fin]|f] j1]; try reflexivity.
  destruct (recover_record h j1) as [[[e|]|f] j2]; try reflexivity.
  now destruct (replay n j2) as [[[es fin]|f] j3].
Qed.

Lemma prepend_app es1 es2 r : prepend (es1 ++ es2) r = prepend es1 (prepend es2 r).
Proof. destruct r as [[es fin]|f]; [|reflexivity]. cbn. now rewrite app_assoc. Qed.

Lemma prepend_nil r : prepend [] r = r.
Proof. now destruct r as [[es fin]|f]. Qed.

(** The size of a record that recovery accepts. *)
Lemma rec_ok_sizes rx :
  rec_ok rx -> rec_size rx.1 = 40 + xid_size rx.1 /\ 0 <= xid_size rx.1 /\
               rec_size rx.1 <= padded_size rx.1.
Proof.
  intros [_ Hxs Hbig _ _]. pose proof (rec_padding_range _ Hxs Hbig).
  pose proof (rec_size_eq _ Hxs Hbig). unfold padded_size. lia.
Qed.

Section Turn.
Context (F : list byte) (p : Z) (rx : txn_rec * list byte) (j : jstate).
Context (Hok : rec_ok rx) (HF : file_holds F p (rec_image rx.1 rx.2)).
Context (Hi : stream_at F p (j_ifs j)) (H16 : 16 <= len F - p).

(** The header of the record is read. *)
Lemma read_hdr_record : read_hdr j = (Ok (inl (_rhdr (_txn_hdr rx.1))), behind_hdr F p j).
Proof.
  rewrite (read_hdr_at F p j Hi), (image_hdr F p rx Hok HF H16).
  replace (16 <=? _) with true by lia. replace (_ <? 16) with false by lia.
  now rewrite Z.min_l by lia.
Qed.

Lemma behind_hdr_at : stream_at F (p + 16) (j_ifs (behind_hdr F p j)).
Proof. pose proof (sa_in _ _ _ Hi). apply stream_at_read; lia. Qed.

(** A turn of the loop on a record that the file holds with its padding:
    the entry, the stream behind the padding, the memory less the xid. *)
Lemma replay_turn :
  txn_rec_sealed rx.1 -> p + padded_size rx.1 <= len F ->
  xid_size rx.1 <= heap_avail (j_mem j) ->
  exists j2, stream_at F (p + padded_size rx.1) (j_ifs j2) /\
             heap_avail (j_mem j2) = heap_avail (j_mem j) - xid_size rx.1 /\
             forall n, replay (S n) j
                       = (prepend [entry_of rx] (fst (replay n j2)), snd (replay n j2)).
Proof.
  intros Hs Hpad Hav. destruct (rec_ok_sizes rx Hok) as (Hrs & Hxs & Hle).
  destruct (recover_record_whole F p rx (behind_hdr F p j) Hok HF behind_hdr_at ltac:(lia) Hav
              ltac:(lia) Hs) as (j2 & E & Ha & Hd & Hp & Hg).
  exists j2. split; [|split; [exact Ha|]].
  - replace (_ <? _) with false in Hg by lia. rewrite Z.min_r in Hp by lia.
    pose proof (sa_in _ _ _ Hi). split; auto; lia.
  - intros n. now rewrite replay_S, read_hdr_record, E.
Qed.

End Turn.

(** The turns of the loop on the records that the file holds. *)
Lemma replay_records recs : forall F p j,
  replay_pre F p recs j ->
  exists j1, stream_at F (p + journal_size recs) (j_ifs j1) /\
             heap_avail (j_mem j1) = heap_avail (j_mem j) - total_xid recs /\
             forall n, replay (length recs + n) j
                       = (prepend (map entry_of recs) (fst (replay n j1)), snd (replay n j1)).
Proof.
  induction recs as [|rx recs IH]; intros F p j [Hok Hse HF Hi Hav].
  - exists j. cbn. rewrite Z.add_0_r, Z.sub_0_r. split; [exact Hi|]. split; [reflexivity|].
    intros n. rewrite prepend_nil. now destruct (replay n j).
  - apply Forall_cons in Hok as [Hok Hoks]. apply Forall_cons in Hse as [Hs Hss].
    destruct HF as (HF & Hpad & HFs). cbn [total_xid journal_size foldr] in *.
    fold (total_xid recs) in *. fold (journal_size recs).
    destruct (rec_ok_sizes rx Hok) as (Hrs & Hxs & Hle).
    assert (Hx : 0 <= total_xid recs).
    { clear -Hoks. induction Hoks as [|ry l Hy _ IHl]; cbn; [lia|].
      pose proof (ro_xidsize _ Hy). fold (total_xid l). lia. }
    destruct (replay_turn F p rx j Hok HF Hi ltac:(lia) Hs Hpad ltac:(lia))
      as (j2 & Hi2 & Ha2 & E2).
    destruct (IH F (p + padded_size rx.1) j2 ltac:(split; auto; lia))
      as (j1 & Hi1 & Ha1 & E1).
    exists j1. split; [now rewrite Z.add_assoc|]. split; [lia|]. intros n.
    cbn [length Nat.add map]. rewrite E2, E1. cbn [fst snd].
    now rewrite <- prepend_app.
Qed.

(** ** Lemmas: the file ends inside a record *)

(** The bytes of a number that the file has, stored over a size of 0,
    make a number that is not larger. *)
Lemma short_xidsize z k :
  0 <= z -> 0 <= le_combine (splice (le_split 8 0) 0 (slice 0 k (le_split 8 z))) <= z.
Proof.
  intros Hz. unfold splice. rewrite (slice_nil 0 0) by lia. cbn [app].
  change (le_split 8 0) with (replicate 8 Byte.x00).
  rewrite le_combine_app, le_combine_zeros, Z.shiftl_0_l, Z.lor_0_r, slice_0_take.
  rewrite le_combine_firstn, le_combine_split.
  pose proof (Z.mod_pos_bound z (2 ^ (Z.of_nat 8 * 8)) ltac:(lia)).
  pose proof (Z.mod_le z (2 ^ (Z.of_nat 8 * 8)) Hz ltac:(lia)).
  pose proof (Z.mod_pos_bound (z mod 2 ^ (Z.of_nat 8 * 8)) (2 ^ (8 * Z.of_nat (Z.to_nat k)))
                ltac:(lia)).
  pose proof (Z.mod_le (z mod 2 ^ (Z.of_nat 8 * 8)) (2 ^ (8 * Z.of_nat (Z.to_nat k)))
                ltac:(lia) ltac:(lia)).
  lia.
Qed.

Section Cut.
Context (F : list byte) (p : Z) (rx : txn_rec * list byte) (j : jstate).
Context (Hok : rec_ok rx) (HF : file_holds F p (rec_image rx.1 rx.2)).
Context (Hi : stream_at F p (j_ifs j)) (Hav : xid_size rx.1 <= heap_avail (j_mem j)).

(** The bytes of the xid size that the file has. *)
Lemma cut_xidsize :
  16 <= len F - p < 24 ->
  slice (p + 16) (len F - (p + 16)) F = slice 0 (len F - (p + 16)) (le_split 8 (xid_size rx.1)).
Proof.
  intros Hk. pose proof (ro_xid _ Hok). pose proof (ro_xidsize _ Hok).
  rewrite (file_holds_slice _ _ _ _ _ HF) by (len; lia).
  rewrite <- (image_xidsize rx.1 rx.2), slice_slice by lia. apply slice_eq; lia.
Qed.

(** The file ends inside the xid size. *)
Lemma recover_record_short :
  16 <= len F - p < 24 ->
  fst (recover_record (_rhdr (_txn_hdr rx.1)) (behind_hdr F p j)) = Ok None.
Proof.
  intros Hk. destruct (rec_ok_sizes rx Hok) as (Hrs & Hxs & _).
  pose proof (behind_hdr_at F p j Hi ltac:(lia)) as Hi1.
  pose proof (short_xidsize (xid_size rx.1) (len F - (p + 16)) Hxs) as Hx.
  destruct (rcv_decode_short (_rhdr (_txn_hdr rx.1)) (World (j_mem j) txn_rec_ctor0) _ F
              (p + 16) _ Hi1 ltac:(lia) eq_refl) as (s' & E & _).
  - change (xid_size (this _)) with 0. rewrite cut_xidsize by lia. cbn [mem]. lia.
  - change (xid_size (this _)) with 0. rewrite cut_xidsize by lia.
    pose proof (ro_nowrap _ Hok). lia.
  - unfold recover_record, recover_with, bind, behind_hdr in *. cbn [j_mem j_ifs] in *.
    now rewrite E.
Qed.

(** A turn of the loop on a record that the file has a part of. *)
Lemma replay_cut n :
  0 < len F - p < rec_size rx.1 -> fst (replay (S n) j) = Ok ([], Incomplete).
Proof.
  intros Hcut. rewrite replay_S. destruct (Z.lt_ge_cases (len F - p) 16) as [H16|H16].
  { rewrite (read_hdr_at F p j Hi). replace (16 <=? _) with false by lia.
    now replace (_ =? 0) with false by lia. }
  rewrite (read_hdr_record F p rx j Hok HF Hi H16).
  assert (E : fst (recover_record (_rhdr (_txn_hdr rx.1)) (behind_hdr F p j)) = Ok None).
  { destruct (Z.lt_ge_cases (len F - p) 24) as [H24|H24].
    - apply recover_record_short. lia.
    - apply (recover_record_cut F p rx _ Hok HF (behind_hdr_at F p j Hi H16) H24 Hav). lia. }
  destruct (recover_record _ _) as [[[e|]|f] j2]; cbn [fst] in *; congruence.
Qed.

(** A turn of the loop on a whole record with another tail. *)
Lemma replay_torn n :
  rec_size rx.1 <= len F - p -> ~ txn_rec_sealed rx.1 ->
  fst (replay (S n) j) = Err (Throw JERR_JREC_BADRECTAIL).
Proof.
  intros Hall Hs. destruct (rec_ok_sizes rx Hok) as (Hrs & Hxs & _).
  rewrite replay_S, (read_hdr_record F p rx j Hok HF Hi) by lia.
  pose proof (recover_record_torn F p rx _ Hok HF (behind_hdr_at F p j Hi ltac:(lia))
                ltac:(lia) Hav Hall Hs) as E.
  destruct (recover_record _ _) as [[[e|]|f] j2]; cbn [fst] in *; congruence.
Qed.

End Cut.

(** ** Lemmas: the memory runs out *)

Section NoMemory.
Context (F : list byte) (p : Z) (rx : txn_rec * list byte) (j : jstate).
Context (Hok : rec_ok rx) (HF : file_holds F p (rec_image rx.1 rx.2)).
Context (Hi : stream_at F p (j_ifs j)) (H24 : 24 <= len F - p).
Context (Hav : heap_avail (j_mem j) < xid_size rx.1).

(** The allocation of rcv_decode fails, and the exception leaves the
    turn. *)
Lemma recover_record_oom :
  fst (recover_record (_rhdr (_txn_hdr rx.1)) (behind_hdr F p j)) = Err (Throw JERR__MALLOC).
Proof.
  destruct Hok as [_ Hxs Hbig Hlen _]. unfold recover_record, recover_with, bind.
  cbn [j_mem j_ifs behind_hdr].
  rewrite (rcv_decode_no_memory rx.1 rx.2 F p) by
    (auto; try lia; apply stream_at_read; pose proof (sa_in _ _ _ Hi); lia).
  reflexivity.
Qed.

(** A turn of the loop on a record whose xid the memory cannot hold. *)
Lemma replay_no_memory n : fst (replay (S n) j) = Err (Throw JERR__MALLOC).
Proof.
  rewrite replay_S, (read_hdr_record F p rx j Hok HF Hi) by lia.
  pose proof recover_record_oom as E.
  destruct (recover_record _ _) as [[[e|]|f] j2]; cbn [fst] in *; congruence.
Qed.

End NoMemory.

(** A turn of the loop at the end of the file. *)
Lemma replay_end_of_file F j n :
  stream_at F (len F) (j_ifs j) ->
  exists i', replay (S n) j = (Ok ([], EndOfJournal), JState (j_mem j) i').
Proof.
  intros Hi. rewrite replay_S, (read_hdr_at F (len F) j Hi).
  replace (16 <=? _) with false by lia. replace (_ =? 0) with true by lia. eauto.
Qed.

(** ** Lemmas: the bound on the turns *)

(** A header that was read took 16 bytes of the file. *)
Lemma read_hdr_takes j h j1 :
  ifs_wf (j_ifs j) -> read_hdr j = (Ok (inl h), j1) ->
  ifs_wf (j_ifs j1) /\ ifs_avail (j_ifs j1) = ifs_avail (j_ifs j) - 16.
Proof.
  intros Hwf. unfold read_hdr, ifs_read. change (streamsize sizeof_rec_hdr_t) with 16.
  unfold sizeof_rec_hdr_t, ifs_gcount. destruct (ifs_good (j_ifs j)); [|discriminate].
  cbn [is_gcount]. destruct (Z.eqb_spec (ifs_take 16 (j_ifs j)) 16) as [E|E];
    [|now destruct (_ =? 0)].
  intros [= _ <-]. unfold ifs_take, ifs_avail, ifs_wf in *. cbn [j_ifs is_pos is_data]. lia.
Qed.

(** The read of a header does not end at the bound. *)
Lemma read_hdr_end j fin j1 : read_hdr j = (Ok (inr fin), j1) -> fin <> Unfinished.
Proof.
  unfold read_hdr. destruct (ifs_read _ _) as [bs i].
  destruct (_ =? sizeof_rec_hdr_t); [discriminate|]. now destruct (_ =? 0); intros [= <- _].
Qed.

(** The recovery of a record reads on. *)
Lemma recover_record_on h j : ifs_on (j_ifs j) (j_ifs (snd (recover_record h j))).
Proof.
  assert (H : stable reads_on (recover_with h)).
  { pose proof (reads_on_rcv_decode h). unfold recover_with. stable_auto. }
  specialize (H (RState (World (j_mem j) txn_rec_ctor0) (j_ifs j) 0)).
  unfold recover_record. now destruct (recover_with _ _) as [r s].
Qed.

Lemma finished_prepend es r : finished r -> finished (prepend es r).
Proof. now destruct r as [[es' fin]|f]. Qed.

(** With a bound of more than a sixteenth of the bytes left, the pass
    comes to an end of its own, and a larger bound changes nothing. *)
Lemma replay_fuel n : forall m j,
  ifs_wf (j_ifs j) -> ifs_avail (j_ifs j) < 16 * Z.of_nat n -> (n <= m)%nat ->
  replay m j = replay n j /\ finished (fst (replay n j)).
Proof.
  induction n as [|n IH]; intros m j Hwf Hav Hm; [unfold ifs_wf, ifs_avail in *; lia|].
  destruct m as [|m]; [lia|]. rewrite !replay_S.
  destruct (read_hdr j) as [[[h|fin]|f] j1] eqn:E; [|split; cbn; eauto using read_hdr_end ..].
  destruct (read_hdr_takes _ _ _ Hwf E) as [Hwf1 Hav1].
  pose proof (recover_record_on h j1) as [Hd Hp]. specialize (Hp Hwf1).
  destruct (recover_record h j1) as [[[e|]|f] j2]; cbn [snd] in *; [|now split ..].
  destruct (IH m j2) as [-> Hfin]; [unfold ifs_wf, ifs_avail in *; rewrite ?Hd; lia ..|].
  split; [reflexivity | now apply finished_prepend].
Qed.

(** ** The properties of the pass *)

(** C18 (roundtrip): the pass over a journal of whole records.  On a file
    that holds from the position of the stream on the records [recs], each
    padded to whole dblks and with a tail that belongs to its header, and
    nothing behind them, the pass with a bound above their number yields
    the generic header and the xid of every record, in the order of the
    file, and ends at the end of the journal; every record has taken the
    size of its xid from the memory of the process. *)
Theorem replay_correct F p recs j n :
  replay_pre F p recs j -> p + journal_size recs = len F -> (length recs < n)%nat ->
  exists j', replay n j = (Ok (map entry_of recs, EndOfJournal), j') /\
             heap_avail (j_mem j') = heap_avail (j_mem j) - total_xid recs.
Proof.
  intros Hpre Hend Hn. destruct (replay_records recs F p j Hpre) as (j1 & Hi & Ha & E).
  replace n with (length recs + S (n - S (length recs)))%nat by lia. rewrite E, Hend in *.
  destruct (replay_end_of_file F j1 (n - S (length recs)) Hi) as (i' & ->).
  eexists. cbn [fst snd prepend]. rewrite app_nil_r. split; [reflexivity | exact Ha].
Qed.

Lemma ex_replay_pre : replay_pre ex_log 0 ex_recs (ex_jstate ex_log).
Proof.
  ex_replay_pre.
Defined.

Lemma replay_correct_witness :
  exists j', replay 3 (ex_jstate ex_log) = (Ok (map entry_of ex_recs, EndOfJournal), j') /\
             heap_avail (j_mem j') = heap_avail ex_heap - total_xid ex_recs.
Proof.
  exact (replay_correct ex_log 0 ex_recs (ex_jstate ex_log) 3 ex_replay_pre eq_refl
           ltac:(cbn; lia)).
Defined.

(** C19 (safety): the pass over a journal that ends inside a record.  When
    the file ends behind the records [recs] inside a further record, at
    any byte of it from the first to the last but one, the pass yields the
    records before it and reports the journal incomplete: it throws
    nothing and counts no record that the file does not hold to its last
    byte. *)
Theorem replay_truncated F p recs rx j n :
  replay_pre F p recs j -> rec_ok rx ->
  file_holds F (p + journal_size recs) (rec_image rx.1 rx.2) ->
  0 < len F - (p + journal_size recs) < rec_size rx.1 ->
  total_xid recs + xid_size rx.1 <= heap_avail (j_mem j) -> (length recs < n)%nat ->
  fst (replay n j) = Ok (map entry_of recs, Incomplete).
Proof.
  intros Hpre Hok HF Hcut Hav Hn.
  destruct (replay_records recs F p j Hpre) as (j1 & Hi & Ha & E).
  replace n with (length recs + S (n - S (length recs)))%nat by lia. rewrite E. cbn [fst].
  rewrite (replay_cut F _ rx j1 Hok HF Hi ltac:(lia) _ Hcut). cbn [prepend].
  now rewrite app_nil_r.
Qed.

Lemma replay_truncated_witness :
  fst (replay 3 (ex_jstate (slice 0 275 ex_log)))
  = Ok (map entry_of [(ex_rec, ex_xid)], Incomplete).
Proof.
  refine (replay_truncated (slice 0 275 ex_log) 0 [(ex_rec, ex_xid)] (ex_rec2, ex_xid2)
            (ex_jstate (slice 0 275 ex_log)) 3 _ _ _ _ _ ltac:(cbn; lia));
    [ex_replay_pre | split; by_compute | by_compute ..].
Defined.

(** A torn record stops the pass.  When the file holds behind
    the records [recs] a whole record whose tail is not the one of its
    header, the pass throws JERR_JREC_BADRECTAIL: the failure of the tail
    check of rcv_decode reaches the caller of the pass, and the records
    before it are not yielded. *)
Theorem replay_bad_tail F p recs rx j n :
  replay_pre F p recs j -> rec_ok rx ->
  file_holds F (p + journal_size recs) (rec_image rx.1 rx.2) ->
  rec_size rx.1 <= len F - (p + journal_size recs) -> ~ txn_rec_sealed rx.1 ->
  total_xid recs + xid_size rx.1 <= heap_avail (j_mem j) -> (length recs < n)%nat ->
  fst (replay n j) = Err (Throw JERR_JREC_BADRECTAIL).
Proof.
  intros Hpre Hok HF Hall Hs Hav Hn.
  destruct (replay_records recs F p j Hpre) as (j1 & Hi & Ha & E).
  replace n with (length recs + S (n - S (length recs)))%nat by lia. rewrite E. cbn [fst].
  now rewrite (replay_torn F _ rx j1 Hok HF Hi ltac:(lia) _ Hall Hs).
Qed.

Lemma replay_bad_tail_witness :
  fst (replay 3 (ex_jstate ex_torn_log)) = Err (Throw JERR_JREC_BADRECTAIL).
Proof.
  refine (replay_bad_tail ex_torn_log 0 [(ex_rec, ex_xid)] (ex_torn, ex_xid)
            (ex_jstate ex_torn_log) 3 _ _ _ _ _ _ ltac:(cbn; lia));
    [ex_replay_pre | split; by_compute | by_compute ..].
Defined.

(** C35 (bounds): the memory runs out during the pass.  No turn gives the
    buffer of its record back (the destructor of the reader releases
    nothing), so the xids of the journal add up: when the file holds
    behind the records [recs] a further record and the xids of all of
    them are more than the bytes that std::malloc has left, the pass
    throws JERR__MALLOC at this record, although the xid of each record
    alone may fit. *)
Theorem replay_oom F p recs rx j n :
  replay_pre F p recs j -> rec_ok rx ->
  file_holds F (p + journal_size recs) (rec_image rx.1 rx.2) ->
  24 <= len F - (p + journal_size recs) ->
  heap_avail (j_mem j) < total_xid recs + xid_size rx.1 -> (length recs < n)%nat ->
  fst (replay n j) = Err (Throw JERR__MALLOC).
Proof.
  intros Hpre Hok HF H24 Hav Hn.
  destruct (replay_records recs F p j Hpre) as (j1 & Hi & Ha & E).
  replace n with (length recs + S (n - S (length recs)))%nat by lia. rewrite E. cbn [fst].
  now rewrite (replay_no_memory F _ rx j1 Hok HF Hi H24 ltac:(lia)).
Qed.

Lemma replay_oom_witness :
  fst (replay 3 (JState (Heap (heap_cells ex_heap) 202) (Ifstream ex_log 0 0 false false false)))
  = Err (Throw JERR__MALLOC).
Proof.
  refine (replay_oom ex_log 0 [(ex_rec, ex_xid)] (ex_rec2, ex_xid2) _ 3 _ _ _ _ _
            ltac:(cbn; lia));
    [ex_replay_pre | split; by_compute | by_compute ..].
Defined.

(** The pass ends on every file.  Whatever the file
    holds and whatever the state of the stream, a bound above one
    sixteenth of the bytes left behind the position of the stream is
    never reached: the pass ends at the end of the journal, inside a
    record or with an exception, and every larger bound gives the same
    outcome and the same state. *)
Theorem replay_terminates j m :
  ifs_wf (j_ifs j) -> (Z.to_nat (ifs_avail (j_ifs j) / 16) < m)%nat ->
  replay m j = replay (S (Z.to_nat (ifs_avail (j_ifs j) / 16))) j /\
  finished (fst (replay m j)).
Proof.
  intros Hwf Hm.
  destruct (replay_fuel (S (Z.to_nat (ifs_avail (j_ifs j) / 16))) m j Hwf) as [E Hfin];
    [unfold ifs_wf, ifs_avail in *; Z.div_mod_to_equations; lia | lia |].
  rewrite E. auto.
Qed.

Lemma replay_terminates_witness :
  replay 100 (ex_jstate ex_log) = replay 25 (ex_jstate ex_log) /\
  finished (fst (replay 100 (ex_jstate ex_log))).
Proof.
  exact (replay_terminates (ex_jstate ex_log) 100 ltac:(by_compute) ltac:(vm_compute; lia)).
Defined.
