(* ===== verification/Log.v ===== *)
(** * Log: the journal as a log of records

    The journal keeps one txn_rec for the records it writes: for each
    record it resets the object with the magic, the rid and the xid of the
    record and calls encode, page after page, behind the record written
    before.  At restart the pass of recovery reads the records back from
    the file.  This file composes the reset of TxnRec.v, the writer of
    Driver.v, the file of Journal.v and the pass of Replay.v.

    A [job] is the arguments of reset and the schedule of pages for one
    record; [write_all] is the loop of the pooled writer; [job_rec] is the
    record that a job makes of the object; [log_at] says that memory holds
    records one behind the other, each in whole dblks; [write_all_pre] is
    the contract of the loop.

    The theorems: the pooled writer leaves in the journal the images of
    its records, each at the dblk behind the record before it, and returns
    the dblk behind the last; and the pass of recovery over the file of
    that journal yields the header and the xid of every record written,
    in the order in which they were written. *)

From Stdlib Require Import ZArith Lia List.
From coqutil Require Import Byte.
From stdpp Require Import base option list gmap.
From S2P Require Import Prelude Memory Layout Stream TxnRec Encode Decode Codec Recover.
From S2P Require Import Driver Journal Replay.

#[local] Open Scope Z_scope.
#[local] Open Scope jrnl_scope.

(** ** The pooled writer *)

(** A record to write: the arguments of reset and the capacities of the
    pages that the journal offers for it. *)
Record job : Type := Job {
  job_magic : Z;
  job_rid : Z;
  job_xidp : ptr;
  job_xidlen : Z;
  job_caps : list Z
}.

(** For each job the object is reset and written into the journal at
    [jp], from the dblk [base] that the record before it has reached.  The
    value is the dblk behind the last record. *)
Fixpoint write_all (enc : encoder) (jp : ptr) (jobs : list job) (base : Z) : method Z :=
  match jobs with
  | [] => ret base
  | jb :: jobs' =>
      reset (job_magic jb) (job_rid jb) (Some (job_xidp jb)) (job_xidlen jb) ;;
      n <- write_rec enc (ptr_add jp (base * JRNL_DBLK_SIZE)) (job_caps jb) 0 ;;
      write_all enc jp jobs' (base + n)
  end.

(** ** What the writer has to do: the abstract specification *)

(** The record that the job makes of the object [r]. *)
Definition job_rec (r : txn_rec) (jb : job) : txn_rec :=
  this (snd (reset (job_magic jb) (job_rid jb) (Some (job_xidp jb)) (job_xidlen jb)
               (World (Heap ∅ 0) r))).

(** The records of the jobs [jxs], each with its xid. *)
Definition job_recs (r : txn_rec) (jxs : list (job * list byte)) : list (txn_rec * list byte) :=
  map (fun jx => (job_rec r jx.1, jx.2)) jxs.

(** Memory holds in the journal at [jp], from dblk [base] on, the records
    [recs], each from the dblk behind the record before it. *)
Fixpoint log_at (h : heap) (jp : ptr) (base : Z) (recs : list (txn_rec * list byte)) : Prop :=
  match recs with
  | [] => True
  | rx :: recs' =>
      load h (ptr_add jp (base * JRNL_DBLK_SIZE)) (rec_size rx.1) = Some (rec_image rx.1 rx.2) /\
      log_at h jp (base + rec_size_dblks rx.1) recs'
  end.

(** The dblks of the records. *)
Definition log_dblks (recs : list (txn_rec * list byte)) : Z :=
  foldr (fun rx acc => rec_size_dblks rx.1 + acc) 0 recs.

(** The contract of the writer for one job with the xid [xid], from dblk
    [base] of a journal of [N] dblks: the xid is not empty, lies in
    another block than the journal and leaves room for header, tail and
    padding below 4 GiB; the schedule offers positive capacities, enough
    for the record and no more than the journal has left. *)
Record job_ok (r : txn_rec) (h : heap) (jp : ptr) (N base : Z) (jx : job * list byte)
    : Prop := {
  jo_xidlen : 0 < job_xidlen jx.1 <= 2 ^ 32 - 168;
  jo_xid : load h (job_xidp jx.1) (job_xidlen jx.1) = Some jx.2;
  jo_apart : p_blk (job_xidp jx.1) <> p_blk jp;
  jo_caps : Forall (fun cap => 0 < cap) (job_caps jx.1);
  jo_enough : rec_size_dblks (job_rec r jx.1) <= total_dblks (job_caps jx.1);
  jo_fits : base + total_dblks (job_caps jx.1) <= N
}.

(** The contract for the jobs [jxs], each from the dblk that the record
    before it reaches. *)
Fixpoint jobs_ok (r : txn_rec) (h : heap) (jp : ptr) (N base : Z) (jxs : list (job * list byte))
    : Prop :=
  match jxs with
  | [] => True
  | jx :: jxs' =>
      job_ok r h jp N base jx /\
      jobs_ok r h jp N (base + rec_size_dblks (job_rec r jx.1)) jxs'
  end.

(** The contract of the pooled writer: a journal of [N] dblks below 4 GiB
    at [jp], and the contract of every job. *)
Record write_all_pre (w : world) (jp : ptr) (N : Z) (jxs : list (job * list byte)) : Prop := {
  wa_nowrap : N * JRNL_DBLK_SIZE < 2 ^ 32;
  wa_room : valid_range (mem w) jp (N * JRNL_DBLK_SIZE);
  wa_jobs : jobs_ok (this w) (mem w) jp N 0 jxs
}.

(** ** Two records to write

    The xids of [ex_heap2] lie in blocks 1 and 3, the journal of four
    dblks in block 2.  [ex_jobs] writes the record of [ex_world] in two
    pages of one dblk and behind it a commit record in one page. *)
Definition ex_heap2 : heap :=
  Heap (<[3%positive := ex_xid2]> (heap_cells ex_heap)) 4096.

Definition ex_jobs : list (job * list byte) :=
  [(Job QLS_TXA_MAGIC 7 ex_xidp 200 [1; 1], ex_xid);
   (Job QLS_TXC_MAGIC 9 (Ptr 3%positive 0) 5 [2], ex_xid2)].

Definition ex_pool_world : world := World ex_heap2 txn_rec_ctor0.

Definition ex_written_log : list byte :=
  default [] (load (mem (snd (write_all (encode None) ex_page (map fst ex_jobs) 0 ex_pool_world)))
                ex_page 384).

(** ** Lemmas: the record of a job *)

Lemma reset_job jb w :
  reset (job_magic jb) (job_rid jb) (Some (job_xidp jb)) (job_xidlen jb) w
  = (Ok tt, World (mem w) (job_rec (this w) jb)).
Proof. reflexivity. Qed.

(** reset keeps what the record of a job takes from the object. *)
Lemma job_rec_again r jb jb' : job_rec (job_rec r jb) jb' = job_rec r jb'.
Proof. reflexivity. Qed.

Lemma job_rec_xid_size r jb :
  0 <= job_xidlen jb < 2 ^ 64 -> xid_size (job_rec r jb) = job_xidlen jb.
Proof. apply size_t_small. Qed.

(** The record of a job is one that recovery accepts, and its tail
    belongs to its header. *)
Lemma job_rec_ok r jx :
  txn_rec_wf r -> 0 < job_xidlen jx.1 <= 2 ^ 32 - 168 -> len jx.2 = job_xidlen jx.1 ->
  rec_ok (job_rec r jx.1, jx.2) /\ txn_rec_sealed (job_rec r jx.1).
Proof.
  intros [[(_ & Hv & Hu & _) _] (_ & Hc & _)] Hx Hlen.
  pose proof (job_rec_xid_size r jx.1 ltac:(lia)) as Exs.
  pose proof (uint32_t_range (job_magic jx.1)). pose proof (uint64_t_range (job_rid jx.1)).
  pose proof (not32_range (uint32_t (job_magic jx.1))).
  split; [split; cbn [fst snd]; rewrite ?Exs; try lia|split; reflexivity];
    repeat split; cbn; lia.
Qed.

(** The contract of the jobs holds for the object after a job and for a
    memory in which the other blocks read the same. *)
Lemma jobs_ok_mono r jb h h' jp N jxs : forall base,
  (forall q k, 0 <= k -> p_blk q <> p_blk jp -> load h' q k = load h q k) ->
  jobs_ok r h jp N base jxs -> jobs_ok (job_rec r jb) h' jp N base jxs.
Proof.
  induction jxs as [|jx jxs IH]; intros base Hfr; [easy|]. intros [[] Hrest].
  split; [split; auto; rewrite Hfr; auto; lia | now apply IH].
Qed.

(** ** Lemmas: the writer *)

Section Pool.
Context (enc : encoder) `{!Encoder enc} (jp : ptr) (N : Z).
Context (HN : N * JRNL_DBLK_SIZE < 2 ^ 32).

(** The contract of the writer of Driver.v holds for the record of a
    job. *)
Lemma job_write_pre w base jx :
  valid_range (mem w) jp (N * JRNL_DBLK_SIZE) -> 0 <= base ->
  job_ok (this w) (mem w) jp N base jx ->
  write_pre (World (mem w) (job_rec (this w) jx.1)) (ptr_add jp (base * JRNL_DBLK_SIZE))
    (job_xidp jx.1) jx.2 (N - base) (job_caps jx.1).
Proof.
  intros Hroom Hb [Hx Hl Ha Hc He Hf]. pose proof (total_dblks_nonneg _ Hc).
  pose proof (job_rec_xid_size (this w) jx.1 ltac:(lia)) as Exs.
  split; cbn [this mem]; unfold JRNL_DBLK_SIZE in *; rewrite ?Exs; auto; try lia.
  - eapply valid_range_weaken; [exact Hroom | lia ..].
  - left. simpl. congruence.
Qed.

(** One job: the record lies in the journal at dblk [base], and nothing
    below it or in another block has changed. *)
Lemma write_job w base jx :
  valid_range (mem w) jp (N * JRNL_DBLK_SIZE) -> 0 <= base ->
  job_ok (this w) (mem w) jp N base jx ->
  exists w', write_rec enc (ptr_add jp (base * JRNL_DBLK_SIZE)) (job_caps jx.1) 0
               (World (mem w) (job_rec (this w) jx.1))
             = (Ok (rec_size_dblks (job_rec (this w) jx.1)), w') /\
             this w' = job_rec (this w) jx.1 /\
             valid_range (mem w') jp (N * JRNL_DBLK_SIZE) /\
             load (mem w') (ptr_add jp (base * JRNL_DBLK_SIZE)) (rec_size (job_rec (this w) jx.1))
             = Some (rec_image (job_rec (this w) jx.1) jx.2) /\
             forall q k, clear_of q k (ptr_add jp (base * JRNL_DBLK_SIZE)) ->
                         load (mem w') q k = load (mem w) q k.
Proof.
  intros Hroom Hb Hok. pose proof (job_write_pre w base jx Hroom Hb Hok) as Hpre.
  destruct (write_rec_effect enc _ _ _ _ _ _ Hpre) as (w' & E & (Ht & _ & _ & Hv) & _ & Hi).
  exists w'. split; [exact E|]. split; [exact Ht|]. split; [now apply Hv|].
  split; [exact Hi|]. intros q k Hq.
  pose proof (write_rec_below enc _ _ _ _ _ _ q k Hpre Hq) as Hfr. now rewrite E in Hfr.
Qed.

(** The jobs, from the dblk that the writer has reached. *)
Lemma write_all_spec jxs : forall base w,
  valid_range (mem w) jp (N * JRNL_DBLK_SIZE) -> 0 <= base ->
  jobs_ok (this w) (mem w) jp N base jxs ->
  exists w', write_all enc jp (map fst jxs) base w
             = (Ok (base + log_dblks (job_recs (this w) jxs)), w') /\
             log_at (mem w') jp base (job_recs (this w) jxs) /\
             forall q k, clear_of q k (ptr_add jp (base * JRNL_DBLK_SIZE)) ->
                         load (mem w') q k = load (mem w) q k.
Proof.
  induction jxs as [|jx jxs IH]; intros base w Hroom Hb Hjobs.
  { exists w. cbn. rewrite Z.add_0_r. auto. }
  destruct Hjobs as [Hok Hrest].
  destruct (write_job w base jx Hroom Hb Hok) as (w2 & E & Ht & Hroom2 & Hi & Hfr).
  pose proof (jo_xidlen _ _ _ _ _ _ Hok) as Hx.
  pose proof (job_rec_xid_size (this w) jx.1 ltac:(lia)) as Exs.
  destruct (rec_dblks_bounds (job_rec (this w) jx.1) ltac:(lia)) as [Es Hd].
  set (r1 := job_rec (this w) jx.1) in *. unfold JRNL_DBLK_SIZE in *.
  destruct (IH (base + rec_size_dblks r1) w2 Hroom2 ltac:(lia)) as (w' & E' & Hlog & Hfr').
  { rewrite Ht. apply (jobs_ok_mono (this w) jx.1 (mem w)); [|exact Hrest].
    intros q k Hk Hq. apply Hfr. split; [exact Hk | now left]. }
  rewrite Ht in *. subst r1.
  change (job_recs (job_rec (this w) jx.1) jxs) with (job_recs (this w) jxs) in *.
  set (r1 := job_rec (this w) jx.1) in *. exists w'. cbn [map fst write_all job_recs].
  unfold bind at 1.
  rewrite reset_job, (bind_ok _ _ _ _ _ E), E'. fold (job_recs (this w) jxs).
  cbn [log_dblks foldr log_at fst snd]. fold (log_dblks (job_recs (this w) jxs)). fold r1.
  split; [f_equal; f_equal; lia|]. unfold JRNL_DBLK_SIZE.
  split; [split; [|exact Hlog]|].
  - rewrite Hfr'; [exact Hi|]. split; [lia|]. right. simpl. lia.
  - intros q k [Hk Hq]. rewrite Hfr', Hfr; [reflexivity| |]; (split; [exact Hk|]); simpl in *; lia.
Qed.

End Pool.

(** ** Lemmas: from the journal to the file *)

(** The file holds the journal from any of its bytes on. *)
Lemma journal_file_at h jp p0 F off :
  journal_file h jp p0 F -> 0 <= off <= len F - p0 ->
  journal_file h (ptr_add jp off) (p0 + off) F.
Proof.
  intros [H0 HF] Ho. split; [lia|].
  rewrite (load_sub _ _ _ _ off (len F - (p0 + off)) HF), slice_slice by lia.
  f_equal. apply slice_eq; lia.
Qed.

(** A record that recovery accepts fills its dblks with its padding. *)
Lemma padded_dblks rx :
  rec_ok rx -> padded_size rx.1 = rec_size_dblks rx.1 * JRNL_DBLK_SIZE /\
               0 < rec_size_dblks rx.1.
Proof.
  intros [_ Hxs Hbig _ _]. destruct (rec_dblks_bounds rx.1 ltac:(lia)) as [Es Hd].
  unfold padded_size, rec_padding. rewrite dblk_bytes_small by lia.
  unfold JRNL_DBLK_SIZE. lia.
Qed.

Lemma journal_size_dblks recs :
  Forall rec_ok recs -> journal_size recs = log_dblks recs * JRNL_DBLK_SIZE /\
                        0 <= log_dblks recs.
Proof.
  induction 1 as [|rx recs Hok _ [IH Hnn]]; [easy|]. cbn [journal_size log_dblks foldr].
  fold (journal_size recs). fold (log_dblks recs). destruct (padded_dblks rx Hok). lia.
Qed.

(** The file of a journal that holds records holds them. *)
Lemma log_file h jp p0 F recs : forall base,
  journal_file h jp p0 F -> 0 <= base -> Forall rec_ok recs -> log_at h jp base recs ->
  (base + log_dblks recs) * JRNL_DBLK_SIZE <= len F - p0 ->
  journal_holds F (p0 + base * JRNL_DBLK_SIZE) recs.
Proof.
  induction recs as [|rx recs IH]; intros base HF Hb Hok Hlog Hlen; [exact I|].
  apply Forall_cons in Hok as [Hok Hoks]. destruct Hlog as [Hi Hlog].
  cbn [log_dblks foldr] in Hlen. fold (log_dblks recs) in Hlen.
  destruct (journal_size_dblks recs Hoks) as [_ Hnn]. destruct (padded_dblks rx Hok) as [Ep Hd].
  destruct (rec_ok_sizes rx Hok) as (Hrs & Hxs & Hle). unfold JRNL_DBLK_SIZE in *.
  cbn [journal_holds]. rewrite Ep. split; [|split; [lia|]].
  - apply (journal_file_holds h (ptr_add jp (base * 128))); [|exact Hi | lia].
    apply journal_file_at; [exact HF | lia].
  - replace (p0 + base * 128 + rec_size_dblks rx.1 * 128)
      with (p0 + (base + rec_size_dblks rx.1) * 128) by lia.
    apply IH; auto; lia.
Qed.

(** The records of jobs under the contract are such that recovery
    accepts, with tails that belong to their headers. *)
Lemma job_recs_ok r h jp N jxs : forall base,
  txn_rec_wf r -> jobs_ok r h jp N base jxs ->
  Forall rec_ok (job_recs r jxs) /\ Forall (fun rx => txn_rec_sealed rx.1) (job_recs r jxs).
Proof.
  induction jxs as [|jx jxs IH]; intros base Hwf; [now split|]. intros [Hok Hrest].
  destruct (IH _ Hwf Hrest) as [H1 H2].
  destruct (job_rec_ok r jx Hwf (jo_xidlen _ _ _ _ _ _ Hok)) as [Hr Hs].
  { pose proof (load_len _ _ _ _ (jo_xid _ _ _ _ _ _ Hok)). lia. }
  split; constructor; auto.
Qed.

(** ** The properties of the log *)

(** C15 (functional): the pooled writer.  Under its contract the writer
    that resets one object for each record and encodes it with the
    schedule of the record, from the dblk that the record before it has
    reached, returns the dblks of all records, and leaves in the journal
    the image of each record at the dblk behind the record before it;
    memory below the journal and in other blocks is as it was. *)
Theorem write_all_correct c w jp N jxs :
  write_all_pre w jp N jxs ->
  exists w', write_all (encode c) jp (map fst jxs) 0 w
             = (Ok (log_dblks (job_recs (this w) jxs)), w') /\
             log_at (mem w') jp 0 (job_recs (this w) jxs) /\
             forall q k, clear_of q k jp -> load (mem w') q k = load (mem w) q k.
Proof.
  intros [HN Hroom Hjobs].
  destruct (write_all_spec (encode c) jp N HN jxs 0 w Hroom ltac:(lia) Hjobs)
    as (w' & E & Hlog & Hfr).
  change (0 * JRNL_DBLK_SIZE) with 0 in Hfr. rewrite ptr_add_0 in Hfr. eauto.
Qed.

Lemma ex_write_all_pre : write_all_pre ex_pool_world ex_page 4 ex_jobs.
Proof.
  split; [by_compute | exists (replicate 512 Byte.xff); by_compute|].
  repeat split; try by_compute; repeat constructor; lia.
Defined.

Lemma write_all_correct_witness :
  exists w', write_all (encode None) ex_page (map fst ex_jobs) 0 ex_pool_world = (Ok 3, w') /\
             log_at (mem w') ex_page 0 (job_recs txn_rec_ctor0 ex_jobs) /\
             forall q k, clear_of q k ex_page -> load (mem w') q k = load ex_heap2 q k.
Proof. exact (write_all_correct None ex_pool_world ex_page 4 ex_jobs ex_write_all_pre). Defined.

(** C14 (roundtrip): what the journal writes, restart recovers.  The
    records that the pooled writer has written under its contract, with
    any schedules, into a journal whose file holds its dblks from any
    position on, are recovered by the pass of recovery in the order in
    which they were written: the pass yields for every record the generic
    header that reset made and the xid that was encoded. *)
Theorem log_roundtrip c w jp N jxs F p0 hp n :
  write_all_pre w jp N jxs -> txn_rec_wf (this w) ->
  journal_file (mem (snd (write_all (encode c) jp (map fst jxs) 0 w))) jp p0 F ->
  len F - p0 = log_dblks (job_recs (this w) jxs) * JRNL_DBLK_SIZE ->
  total_xid (job_recs (this w) jxs) <= heap_avail hp -> (length jxs < n)%nat ->
  fst (replay n (JState hp (Ifstream F p0 0 false false false)))
  = Ok (map entry_of (job_recs (this w) jxs), EndOfJournal).
Proof.
  intros [HN Hroom Hjobs] Hwf HF Hlen Hav Hn.
  destruct (write_all_spec (encode c) jp N HN jxs 0 w Hroom ltac:(lia) Hjobs)
    as (w' & E & Hlog & _).
  rewrite E in HF. destruct (job_recs_ok _ _ _ _ _ _ Hwf Hjobs) as [Hok Hse].
  destruct (journal_size_dblks _ Hok) as [Ej Hnn]. pose proof (proj1 HF) as Hp0.
  pose proof (log_file _ _ _ _ _ 0 HF ltac:(lia) Hok Hlog ltac:(lia)) as Hh.
  change (0 * JRNL_DBLK_SIZE) with 0 in Hh. rewrite Z.add_0_r in Hh.
  destruct (replay_records (job_recs (this w) jxs) F p0
              (JState hp (Ifstream F p0 0 false false false))) as (j1 & Hi & _ & E1).
  { split; auto. split; simpl; auto; lia. }
  replace n with (length (job_recs (this w) jxs) + S (n - S (length jxs)))%nat
    by (unfold job_recs; rewrite length_map; lia).
  replace (p0 + _) with (len F) in Hi by lia.
  destruct (replay_end_of_file F j1 (n - S (length jxs)) Hi) as (i' & E2).
  rewrite E1, E2. cbn [fst prepend]. now rewrite app_nil_r.
Qed.

Lemma log_roundtrip_witness :
  fst (replay 3 (JState ex_heap (Ifstream ex_written_log 0 0 false false false)))
  = Ok (map entry_of (job_recs txn_rec_ctor0 ex_jobs), EndOfJournal).
Proof.
  refine (log_roundtrip None ex_pool_world ex_page 4 ex_jobs ex_written_log 0 ex_heap 3
            ex_write_all_pre _ _ _ _ ltac:(cbn; lia)); by_compute.
Defined.
