(* ===== verification/Str.v ===== *)
(** * Str: [txn_rec::str], the diagnostic string

    The method appends a summary of the record to the string of the
    caller: the kind, the magic, the version and the rid in decimal, and
    the xid.  The xid is written with [oss << _xidp], the insertion of a
    [const void*], so what the string shows is the address that the
    pointer holds.  The text of an address is implementation-defined:
    [show_ptr] is a parameter of the model. *)

From Stdlib Require Import ZArith Lia List String Ascii.
From coqutil Require Import Byte.
From stdpp Require Import base option strings pretty.
From S2P Require Import Prelude Memory Layout TxnRec Encode Decode.

#[local] Open Scope Z_scope.
#[local] Open Scope jrnl_scope.
#[local] Open Scope string_scope.

(** The character of a double quote. *)
Definition dquote : string := String "034"%char EmptyString.

Section Str.
Context (show_ptr : option ptr -> string).

(** [std::string& txn_rec::str(std::string& str) const]; the value is the
    string after the append.  The version is a uint8_t, written as an
    int. *)
Definition str (s : string) : method string :=
  r <- self ;;
  let h := _rhdr (_txn_hdr r) in
  let oss := "" in
  let oss := if (_magic h =? QLS_TXA_MAGIC)%Z
             then oss +:+ "dtxa_rec: m=" +:+ pretty (_magic h)
             else oss +:+ "dtxc_rec: m=" +:+ pretty (_magic h) in
  let oss := oss +:+ " v=" +:+ pretty (_version h) in
  let oss := oss +:+ " rid=" +:+ pretty (_rid h) in
  let oss := oss +:+ " xid=" +:+ dquote +:+ show_ptr (_xidp r) +:+ dquote in
  ret (s +:+ oss).

Lemma string_app_assoc (a b c : string) : (a +:+ b) +:+ c = a +:+ b +:+ c.
Proof.
  induction a as [|x a IH]; [reflexivity|].
  change (String x ((a +:+ b) +:+ c) = String x (a +:+ b +:+ c)). now f_equal.
Qed.

Lemma stable_str s : stable same_obj (str s).
Proof. unfold str. stable_auto. Qed.

(** C39 (functional): the diagnostic string of a reader does not show the
    xid.  After a call of decode within its contract, str appends to the
    string of its caller the kind of the record on the page, dtxa_rec
    for the magic QLS_TXA_MAGIC and dtxc_rec otherwise, then its magic,
    its version and its rid in decimal behind the labels m=, v= and
    rid=, and between double quotes behind xid= the text of the address
    in [_xidp], which decode leaves as the object had it before the
    call.  Nothing of the xid that decode stored in [_buff] is shown. *)
Theorem str_after_decode r0 xid w h pg offs max s :
  decode_pre r0 xid w h pg offs max ->
  fst (str s (snd (decode h (Some pg) offs max w)))
  = Ok (s +:+ (if (_magic (_rhdr (_txn_hdr r0)) =? QLS_TXA_MAGIC)%Z
               then "dtxa_rec" else "dtxc_rec")
          +:+ ": m=" +:+ pretty (_magic (_rhdr (_txn_hdr r0)))
          +:+ " v=" +:+ pretty (_version (_rhdr (_txn_hdr r0)))
          +:+ " rid=" +:+ pretty (_rid (_rhdr (_txn_hdr r0)))
          +:+ " xid=" +:+ dquote +:+ show_ptr (_xidp (this w)) +:+ dquote).
Proof.
  intros H. destruct (decode_effect _ _ _ _ _ _ _ H) as (b & w1 & w' & E & Hb & Hp).
  destruct (effect_decoded _ _ _ _ _ _ _ _ _ _ _ _ H Hb Hp) as [Hd Hx]. rewrite E.
  unfold str, bind, self, ret. cbn [fst snd]. rewrite (dec_hdr _ _ _ _ Hd), Hx.
  do 2 f_equal. destruct (_ =? _)%Z; now rewrite !string_app_assoc.
Qed.

End Str.

Lemma str_after_decode_witness :
  fst (str (fun _ => "0") "" (snd (decode (_rhdr (_txn_hdr ex_rec)) (Some ex_page) 0 4 ex_written)))
  = Ok ("dtxa_rec: m=1632848977 v=2 rid=7 xid=" +:+ dquote +:+ "0" +:+ dquote).
Proof.
  refine (eq_trans (str_after_decode (fun _ => "0") ex_rec ex_xid ex_written _ ex_page 0 4 ""
                      ex_decode_pre) _).
  vm_compute. reflexivity.
Defined.
